(** * Lazy segment tree and binary indexed tree of
      [CPP/data_structures/advanced_segment_tree.cpp]

    The two class templates of the file are embedded as state-passing
    programs over their member vectors, with the element type [T]
    instantiated by [int], as every use in the file does.

    - A value of type [int], index or element, is an integer from
      [int_min] to [int_max].  Every [+], [-], [*], [++] and [+=] of the
      source is followed by [wrap], the wrap-around to 32 bits in two's
      complement, written [+'], [-'] and [*'].  (Signed overflow is
      undefined in C++; wrapping is what the usual targets do.)
      [std::numeric_limits<T>::max()] is a parameter [T_max].
    - [std::vector] is a [list Z]; every [operator[]] access is checked, and
      an access outside the vector is the fault [OutOfBounds] (the source has
      undefined behaviour there).  A vector constructed or resized with a
      negative [int] as its size is the fault [LengthError].
    - [(start + end) / 2] is C++ division, which truncates: [Z.quot].
    - The recursive member functions recurse on a [fuel] argument, the loops
      on a count; running out of it is the fault [OutOfFuel].  Every theorem
      that promises a result gives a sufficient amount of fuel.
    - Each execution of [updateLazy] appends the node it ran on and the
      store it left behind to a history.  The history is write-only: no
      function reads it, it is there so that statements can speak about the
      stores in the middle of an operation.
    - [printTree] returns the list of the values it writes to the output.

    Part I is the program.  Part II holds the definitions the statements
    are written with.  Part III is the same program over unbounded
    integers and the relation between the two: a device of the proofs.
    Part IV proves what the program over unbounded integers does.  Part V
    carries it over to the program of Part I, step by step, and holds every
    statement of the development about that program.  The
    drivers ([testSegmentTree], [performanceComparison],
    [advancedUseCases], [main]) print, draw random numbers and read the
    clock, and are left out. *)

From Stdlib Require Import ZArith Lia List.

From stdpp Require Import base tactics option list numbers.

Local Open Scope Z_scope.

(** * Part I: the program *)

(** ** The type [int] *)

Definition int_min : Z := -2147483648.

Definition int_max : Z := 2147483647.

(** The value of type [int] that an arithmetic result [z] wraps around
    to: the one congruent to [z] modulo [2 ^ 32] in
    [int_min .. int_max]. *)
Definition wrap (z : Z) : Z := (z + 2147483648) mod 4294967296 - 2147483648.

(** [+], [-] and [*] on [int]. *)
Notation "a +' b" := (wrap (a + b)) (at level 50, left associativity).

Notation "a -' b" := (wrap (a - b)) (at level 50, left associativity).

Notation "a *' b" := (wrap (a * b)) (at level 40, left associativity).

(** ** Checked vector accesses and faults *)

(** [v[i]] and [v[i] = x] on a vector; [None] outside it. *)
Definition vget (v : list Z) (i : Z) : option Z :=
  if 0 <=? i then v !! Z.to_nat i else None.

Definition vset (v : list Z) (i : Z) (x : Z) : option (list Z) :=
  if (0 <=? i) && (i <? Z.of_nat (length v))
  then Some (<[Z.to_nat i := x]> v) else None.

(** A run that returns nothing: it left a vector, it asked for a vector of
    negative size, or the model's recursion bound was too small for it. *)
Inductive fault := OutOfBounds | LengthError | OutOfFuel.

Inductive res (A : Type) :=
| Ok (a : A)
| Err (f : fault).

Arguments Ok {A} a.

Arguments Err {A} f.

(** ** [class AdvancedSegmentTree] *)

Module SegTree.

(** The members of [AdvancedSegmentTree<T>], with [T = int] as in every
    instantiation of the file. *)
Record t := mk { tree : list Z; lazy : list Z; n : Z }.

(** One execution of [updateLazy]: its arguments and the store after it. *)
Record event := mkEvent { ev_node : Z; ev_start : Z; ev_end : Z; ev_after : t }.

(** A member function: from the store to a fault, or to a result, the new
    store and the executions of [updateLazy] it made, oldest first. *)
Definition M (A : Type) : Type := t -> res (A * t * list event).

Definition ret {A} (a : A) : M A := fun st => Ok (a, st, []).

Definition bind {A B} (m : M A) (k : A -> M B) : M B :=
  fun st =>
    match m st with
    | Ok (a, st1, tr1) =>
        match k a st1 with
        | Ok (b, st2, tr2) => Ok (b, st2, tr1 ++ tr2)
        | Err f => Err f
        end
    | Err f => Err f
    end.

Definition fail {A} (f : fault) : M A := fun _ => Err f.

Notation "'let*' x ':=' m 'in' k" := (bind m (fun x => k))
  (at level 10, x name, m at level 100, k at level 200).

Notation "m '>>' k" := (bind m (fun _ => k))
  (at level 100, k at level 200, right associativity).

(** [tree[i]], [tree[i] = x], [lazy[i]], [lazy[i] = x], [n] and [arr[i]]. *)
Definition get_tree (i : Z) : M Z :=
  fun st => match vget (tree st) i with
            | Some x => Ok (x, st, [])
            | None => Err OutOfBounds
            end.

Definition set_tree (i x : Z) : M unit :=
  fun st => match vset (tree st) i x with
            | Some v => Ok (tt, mk v (lazy st) (n st), [])
            | None => Err OutOfBounds
            end.

Definition get_lazy (i : Z) : M Z :=
  fun st => match vget (lazy st) i with
            | Some x => Ok (x, st, [])
            | None => Err OutOfBounds
            end.

Definition set_lazy (i x : Z) : M unit :=
  fun st => match vset (lazy st) i x with
            | Some v => Ok (tt, mk (tree st) v (n st), [])
            | None => Err OutOfBounds
            end.

Definition get_n : M Z := fun st => Ok (n st, st, []).

Definition read_arr (arr : list Z) (i : Z) : M Z :=
  fun st => match vget arr i with
            | Some x => Ok (x, st, [])
            | None => Err OutOfBounds
            end.

(** Records that [updateLazy(node, start, end)] has run. *)
Definition pushed (node start end_ : Z) : M unit :=
  fun st => Ok (tt, st, [mkEvent node start end_ st]).

(** [build], lines 32-41. *)
Fixpoint build (fuel : nat) (arr : list Z) (node start end_ : Z) : M unit :=
  match fuel with
  | O => fail OutOfFuel
  | S fuel =>
      if start =? end_ then
        let* x := read_arr arr start in
        set_tree node x
      else
        let mid := Z.quot (start +' end_) 2 in
        build fuel arr (2 *' node) start mid >>
        build fuel arr (2 *' node +' 1) (mid +' 1) end_ >>
        let* a := get_tree (2 *' node) in
        let* b := get_tree (2 *' node +' 1) in
        set_tree node (a +' b)
  end.

(** [updateLazy], lines 44-53. *)
Definition updateLazy (node start end_ : Z) : M unit :=
  let* lz := get_lazy node in
  (if negb (lz =? 0) then
     let* tv := get_tree node in
     let* lz := get_lazy node in
     set_tree node (tv +' lz *' (end_ -' start +' 1)) >>
     (if negb (start =? end_) then
        let* c := get_lazy (2 *' node) in
        let* lz := get_lazy node in
        set_lazy (2 *' node) (c +' lz) >>
        let* c := get_lazy (2 *' node +' 1) in
        let* lz := get_lazy node in
        set_lazy (2 *' node +' 1) (c +' lz)
      else ret tt) >>
     set_lazy node 0
   else ret tt) >>
  pushed node start end_.

(** Private [updateRange], lines 56-75. *)
Fixpoint updateRange_rec (fuel : nat) (node start end_ l r val : Z) : M unit :=
  match fuel with
  | O => fail OutOfFuel
  | S fuel =>
      updateLazy node start end_ >>
      if (start >? r) || (end_ <? l) then ret tt
      else if (start >=? l) && (end_ <=? r) then
        let* lz := get_lazy node in
        set_lazy node (lz +' val) >>
        updateLazy node start end_
      else
        let mid := Z.quot (start +' end_) 2 in
        updateRange_rec fuel (2 *' node) start mid l r val >>
        updateRange_rec fuel (2 *' node +' 1) (mid +' 1) end_ l r val >>
        updateLazy (2 *' node) start mid >>
        updateLazy (2 *' node +' 1) (mid +' 1) end_ >>
        let* a := get_tree (2 *' node) in
        let* b := get_tree (2 *' node +' 1) in
        set_tree node (a +' b)
  end.

(** [queryRange], lines 78-93. *)
Fixpoint queryRange (fuel : nat) (node start end_ l r : Z) : M Z :=
  match fuel with
  | O => fail OutOfFuel
  | S fuel =>
      if (start >? r) || (end_ <? l) then ret 0
      else
        updateLazy node start end_ >>
        if (start >=? l) && (end_ <=? r) then get_tree node
        else
          let mid := Z.quot (start +' end_) 2 in
          let* p1 := queryRange fuel (2 *' node) start mid l r in
          let* p2 := queryRange fuel (2 *' node +' 1) (mid +' 1) end_ l r in
          ret (p1 +' p2)
  end.

(** Private [updatePoint], lines 96-113. *)
Fixpoint updatePoint_rec (fuel : nat) (node start end_ idx val : Z) : M unit :=
  match fuel with
  | O => fail OutOfFuel
  | S fuel =>
      updateLazy node start end_ >>
      if start =? end_ then set_tree node val
      else
        let mid := Z.quot (start +' end_) 2 in
        (if idx <=? mid
         then updatePoint_rec fuel (2 *' node) start mid idx val
         else updatePoint_rec fuel (2 *' node +' 1) (mid +' 1) end_ idx val) >>
        updateLazy (2 *' node) start mid >>
        updateLazy (2 *' node +' 1) (mid +' 1) end_ >>
        let* a := get_tree (2 *' node) in
        let* b := get_tree (2 *' node +' 1) in
        set_tree node (a +' b)
  end.

Section WithMax.

(** [std::numeric_limits<T>::max()]. *)
Variable T_max : Z.

(** Private [queryMin], lines 116-131. *)
Fixpoint queryMin_rec (fuel : nat) (node start end_ l r : Z) : M Z :=
  match fuel with
  | O => fail OutOfFuel
  | S fuel =>
      if (start >? r) || (end_ <? l) then ret T_max
      else
        updateLazy node start end_ >>
        if (start >=? l) && (end_ <=? r) then get_tree node
        else
          let mid := Z.quot (start +' end_) 2 in
          let* p1 := queryMin_rec fuel (2 *' node) start mid l r in
          let* p2 := queryMin_rec fuel (2 *' node +' 1) (mid +' 1) end_ l r in
          ret (Z.min p1 p2)
  end.

(** Public [queryMin], lines 158-160. *)
Definition queryMin (fuel : nat) (l r : Z) : M Z :=
  let* n := get_n in queryMin_rec fuel 1 0 (n -' 1) l r.

End WithMax.

(** The constructor, lines 135-140.  [n = arr.size()] converts to [int];
    [resize(4 * n)] converts the [int] product back, and a negative one
    is no size of a vector. *)
Definition AdvancedSegmentTree (fuel : nat) (arr : list Z) : res (t * list event) :=
  let n := wrap (Z.of_nat (length arr)) in
  let size := 4 *' n in
  if size <? 0 then Err LengthError
  else
    let st := mk (replicate (Z.to_nat size) 0) (replicate (Z.to_nat size) 0) n in
    match build fuel arr 1 0 (n -' 1) st with
    | Ok (_, st', tr) => Ok (st', tr)
    | Err f => Err f
    end.

(** Public [updateRange], lines 143-145. *)
Definition updateRange (fuel : nat) (l r val : Z) : M unit :=
  let* n := get_n in updateRange_rec fuel 1 0 (n -' 1) l r val.

(** [querySum], lines 148-150. *)
Definition querySum (fuel : nat) (l r : Z) : M Z :=
  let* n := get_n in queryRange fuel 1 0 (n -' 1) l r.

(** Public [updatePoint], lines 153-155. *)
Definition updatePoint (fuel : nat) (idx val : Z) : M unit :=
  let* n := get_n in updatePoint_rec fuel 1 0 (n -' 1) idx val.

(** The loop of [getCurrentArray], lines 165-167: [count] bounds the number
    of iterations. *)
Fixpoint getCurrentArray_loop (count fuel : nat) (i : Z) (result : list Z) : M (list Z) :=
  match count with
  | O => fail OutOfFuel
  | S count =>
      let* n := get_n in
      if i <? n then
        let* x := querySum fuel i i in
        match vset result i x with
        | Some result' => getCurrentArray_loop count fuel (i +' 1) result'
        | None => fail OutOfBounds
        end
      else ret result
  end.

(** [getCurrentArray], lines 163-169. *)
Definition getCurrentArray (count fuel : nat) : M (list Z) :=
  let* n := get_n in
  if n <? 0 then fail LengthError
  else getCurrentArray_loop count fuel 0 (replicate (Z.to_nat n) 0).

(** The loop of [printTree], lines 173-175: the condition tests [i < 4 * n]
    before it reads [tree[i]]; [out] is the list of the values written so
    far, and [count] bounds the number of iterations. *)
Fixpoint printTree_loop (count : nat) (i : Z) (out : list Z) : M (list Z) :=
  match count with
  | O => fail OutOfFuel
  | S count =>
      let* n := get_n in
      if i <? 4 *' n then
        let* x := get_tree i in
        if x =? 0 then ret out
        else printTree_loop count (i +' 1) (out ++ [x])
      else ret out
  end.

(** [printTree], lines 172-178: the values written between the heading and
    the end of the line. *)
Definition printTree (count : nat) : M (list Z) := printTree_loop count 1 [].

End SegTree.

(** ** [class BinaryIndexedTree] *)

Module Fenwick.

(** The members of [BinaryIndexedTree<T>], with [T = int]. *)
Record t := mk { bit : list Z; n : Z }.

(** The loop of [update], lines 198-200, entered with the incremented
    [idx]. *)
Fixpoint update_loop (fuel : nat) (idx val : Z) (st : t) : res t :=
  match fuel with
  | O => Err OutOfFuel
  | S fuel =>
      if idx <=? n st then
        match vget (bit st) idx with
        | Some x =>
            match vset (bit st) idx (x +' val) with
            | Some v => update_loop fuel (idx +' Z.land idx (wrap (- idx))) val (mk v (n st))
            | None => Err OutOfBounds
            end
        | None => Err OutOfBounds
        end
      else Ok st
  end.

(** [update], lines 197-201. *)
Definition update (fuel : nat) (idx val : Z) (st : t) : res t :=
  update_loop fuel (idx +' 1) val st.

(** The loop of [query], lines 205-207. *)
Fixpoint query_loop (fuel : nat) (idx sum : Z) (st : t) : res Z :=
  match fuel with
  | O => Err OutOfFuel
  | S fuel =>
      if idx >? 0 then
        match vget (bit st) idx with
        | Some x => query_loop fuel (idx -' Z.land idx (wrap (- idx))) (sum +' x) st
        | None => Err OutOfBounds
        end
      else Ok sum
  end.

(** [query], lines 203-209. *)
Definition query (fuel : nat) (idx : Z) (st : t) : res Z :=
  query_loop fuel (idx +' 1) 0 st.

(** [rangeQuery], lines 211-213. *)
Definition rangeQuery (fuel : nat) (l r : Z) (st : t) : res Z :=
  match query fuel r st with
  | Ok qr =>
      if l >? 0 then
        match query fuel (l -' 1) st with
        | Ok ql => Ok (qr -' ql)
        | Err f => Err f
        end
      else Ok (qr -' 0)
  | Err f => Err f
  end.

(** The loop of the constructor, lines 192-194. *)
Fixpoint init_loop (count fuel : nat) (arr : list Z) (i : Z) (st : t) : res t :=
  match count with
  | O => Err OutOfFuel
  | S count =>
      if i <? n st then
        match vget arr i with
        | Some x =>
            match update fuel i x st with
            | Ok st' => init_loop count fuel arr (i +' 1) st'
            | Err f => Err f
            end
        | None => Err OutOfBounds
        end
      else Ok st
  end.

(** The constructor, lines 189-195.  [bit.assign(n + 1, 0)] converts the
    [int] sum to a size, and a negative one is no size of a vector. *)
Definition BinaryIndexedTree (count fuel : nat) (arr : list Z) : res t :=
  let n := wrap (Z.of_nat (length arr)) in
  let size := n +' 1 in
  if size <? 0 then Err LengthError
  else init_loop count fuel arr 0 (mk (replicate (Z.to_nat size) 0) n).

End Fenwick.

(** * Part II: the vocabulary of the statements *)

Import SegTree.

(** ** Sums over index ranges and sequences *)

Fixpoint sum_from (f : Z -> Z) (s : Z) (count : nat) : Z :=
  match count with
  | O => 0
  | S count => f s + sum_from f (s + 1) count
  end.

(** [range_sum f s e] is [f s + ... + f e], and [0] when [e < s]. *)
Definition range_sum (f : Z -> Z) (s e : Z) : Z :=
  sum_from f s (Z.to_nat (e - s + 1)).

(** The sum of a list, and the list seen as a function of the index. *)
Definition list_sum (xs : list Z) : Z := foldr Z.add 0 xs.

Definition at_index (xs : list Z) (k : Z) : Z := default 0 (vget xs k).

(** The part of [a] inside [l..r]; what a range sum query adds up. *)
Definition restrict (l r : Z) (a : Z -> Z) : Z -> Z :=
  fun k => if (l <=? k) && (k <=? r) then a k else 0.

(** [a] after [delta] has been added on [l..r]. *)
Definition range_add (l r delta : Z) (a : Z -> Z) : Z -> Z :=
  fun k => if (l <=? k) && (k <=? r) then a k + delta else a k.

(** [a] after position [p] has been set to [v]. *)
Definition point_set (p v : Z) (a : Z -> Z) : Z -> Z :=
  fun k => if k =? p then v else a k.

(** ** Reading the store of the segment tree *)

(** [tree[j]] and [lazy[j]] as total functions ([0] outside the vectors). *)
Definition T (st : t) (j : Z) : Z := default 0 (vget (tree st) j).

Definition L (st : t) (j : Z) : Z := default 0 (vget (lazy st) j).

(** ** The shape of the implicit tree *)

(** [desc i j]: node [j] lies in the subtree of node [i]. *)
Inductive desc (i : Z) : Z -> Prop :=
| desc_refl : desc i i
| desc_left j : desc i j -> desc i (2 * j)
| desc_right j : desc i j -> desc i (2 * j + 1).

(** [node_at st i s e acc]: the recursion from the root reaches node [i]
    with range [s..e], and [acc] is the total of the pending values on the
    nodes strictly above [i]. *)
Inductive node_at (st : t) : Z -> Z -> Z -> Z -> Prop :=
| node_root : node_at st 1 0 (n st - 1) 0
| node_left i s e acc acc' :
    node_at st i s e acc -> s < e -> acc' = acc + L st i ->
    node_at st (2 * i) s (Z.quot (s + e) 2) acc'
| node_right i s e acc acc' :
    node_at st i s e acc -> s < e -> acc' = acc + L st i ->
    node_at st (2 * i + 1) (Z.quot (s + e) 2 + 1) e acc'.

(** Node [i] with a range of [e - s + 1] leaves fits the vectors of size
    [4 * nn]: [p] bounds the number of nodes on the levels above. *)
Definition inb (nn i s e : Z) : Prop :=
  0 < i < 4 * nn /\ exists p, 0 < p /\ i < 2 * p /\ p * (e - s) < nn.

(** Two stores that agree on the subtree of [i]. *)
Definition agree_on (i : Z) (st st' : t) : Prop :=
  forall j, desc i j -> T st' j = T st j /\ L st' j = L st j.

(** ** Stores of a tree over [n] elements, and what an operation leaves alone *)

Definition wf (st : t) : Prop :=
  1 <= n st /\ Z.of_nat (length (tree st)) = 4 * n st
  /\ Z.of_nat (length (lazy st)) = 4 * n st.

Definition same_shape (st st' : t) : Prop :=
  n st' = n st /\ length (tree st') = length (tree st)
  /\ length (lazy st') = length (lazy st).

(** [frame i st st']: [st'] differs from [st] inside the subtree of [i] only. *)
Definition frame (i : Z) (st st' : t) : Prop :=
  same_shape st st' /\ forall j, ~ desc i j -> T st' j = T st j /\ L st' j = L st j.

(** ** The elements a store stands for *)

(** The pending values on the way from node [i] down to the leaf of index
    [k], plus the aggregate of that leaf. *)
Fixpoint path_sum (fuel : nat) (i s e k : Z) (st : t) : Z :=
  match fuel with
  | O => 0
  | S fuel =>
      L st i +
      (if s =? e then T st i
       else if k <=? Z.quot (s + e) 2
            then path_sum fuel (2 * i) s (Z.quot (s + e) 2) k st
            else path_sum fuel (2 * i + 1) (Z.quot (s + e) 2 + 1) e k st)
  end.

(** What the recursion of [queryMin] returns on a tree that stands for [a]:
    the least of the range sums of the nodes that cover [l..r], each as the
    caller sees it. *)
Fixpoint cover_min (T_max : Z) (view : Z -> Z) (fuel : nat) (a : Z -> Z) (s e l r : Z) : Z :=
  match fuel with
  | O => T_max
  | S fuel =>
      if (s >? r) || (e <? l) then T_max
      else if (s >=? l) && (e <=? r) then view (range_sum a s e)
      else Z.min (cover_min T_max view fuel a s (Z.quot (s + e) 2) l r)
                 (cover_min T_max view fuel a (Z.quot (s + e) 2 + 1) e l r)
  end.

(** The sequence [a 0 .. a (nn - 1)] as a list. *)
Definition materialize (nn : Z) (a : Z -> Z) : list Z := a <$> seqZ 0 nn.

(** ** Results of runs *)

(** [m'] returns whatever [m] returns. *)
Definition le_M {A} (m m' : M A) : Prop :=
  forall st x, m st = Ok x -> m' st = Ok x.

(** The value a run returned, and the store it left. *)
Definition value_of {A} (x : res (A * t * list event)) : res A :=
  match x with Ok (a, _, _) => Ok a | Err f => Err f end.

Definition state_of {A} (x : res (A * t * list event)) : res t :=
  match x with Ok (_, st, _) => Ok st | Err f => Err f end.

(** ** The lowest set bit, and bounds on the recursion *)

Definition lowbit (i : Z) : Z := Z.land i (- i).

(** [bit[i]] as a total function. *)
Definition B (st : Fenwick.t) (i : Z) : Z := default 0 (vget (Fenwick.bit st) i).

(** The number of nested calls that suffices on a tree over [nn] elements:
    the range of a node at depth [d] has at most [2 ^ (depth nn - 1 - d)]
    elements. *)
Definition depth (nn : Z) : nat := S (Z.to_nat (Z.log2_up nn)).

(** The number of loop tests that suffices in [update] and [query] of a
    binary indexed tree over [nn] elements. *)
Definition bit_depth (nn : Z) : nat := S (S (Z.to_nat (Z.log2 nn))).

(** ** The values of type [int], and the elements a store stands for *)

Definition is_int (z : Z) : Prop := int_min <= z <= int_max.

(** The current element at index [k]: the aggregate of its leaf and the
    pending values on the way to it, added up as [int]s. *)
Definition elems (st : t) (k : Z) : Z :=
  wrap (path_sum (Z.to_nat (n st)) 1 0 (n st - 1) k st).

(** An execution of [updateLazy] left the aggregate of its node equal to the
    sum of the current elements of the node's range, as an [int]. *)
Definition good (ev : event) : Prop :=
  T (ev_after ev) (ev_node ev)
  = wrap (range_sum (elems (ev_after ev)) (ev_start ev) (ev_end ev)).

(** ** Sequences of public operations *)

(** A call of a public member function, and what a call returns;
    [printTree] returns what it writes. *)
Inductive op :=
| UpdateRange (l r val : Z)
| QuerySum (l r : Z)
| UpdatePoint (idx val : Z)
| QueryMin (l r : Z)
| GetCurrentArray
| PrintTree.

Inductive result :=
| RUnit
| RValue (v : Z)
| RArray (vs : list Z)
| RPrinted (out : list Z).

(** The arguments of type [T] of a call are values of type [int]. *)
Definition int_args (o : op) : Prop :=
  match o with
  | UpdateRange _ _ val => is_int val
  | UpdatePoint _ val => is_int val
  | _ => True
  end.

(** The sequence after the call, when the tree over [nn] elements held [a]
    before it.  [updatePoint] does not check [idx]: an index outside the
    tree reaches the first or the last leaf. *)
Definition abs_state (nn : Z) (o : op) (a : Z -> Z) : Z -> Z :=
  match o with
  | UpdateRange l r val => range_add l r val a
  | UpdatePoint idx val => point_set (Z.max 0 (Z.min (nn - 1) idx)) val a
  | _ => a
  end.

Fixpoint abs_states (nn : Z) (ops : list op) (a : Z -> Z) : Z -> Z :=
  match ops with
  | [] => a
  | o :: ops => abs_states nn ops (abs_state nn o a)
  end.

Section Ops.

Variable T_max : Z.

(** One call of a public member function. *)
Definition exec (fuel : nat) (o : op) : M result :=
  match o with
  | UpdateRange l r val => updateRange fuel l r val >> ret RUnit
  | QuerySum l r => let* v := querySum fuel l r in ret (RValue v)
  | UpdatePoint idx val => updatePoint fuel idx val >> ret RUnit
  | QueryMin l r => let* v := queryMin T_max fuel l r in ret (RValue v)
  | GetCurrentArray => let* vs := getCurrentArray (S fuel) fuel in ret (RArray vs)
  | PrintTree => let* out := printTree (S (4 * fuel)) in ret (RPrinted out)
  end.

(** A sequence of calls, with the list of what they returned. *)
Fixpoint run (fuel : nat) (ops : list op) : M (list result) :=
  match ops with
  | [] => ret []
  | o :: ops =>
      let* x := exec fuel o in
      let* xs := run fuel ops in
      ret (x :: xs)
  end.

(** What the call returns, as a function of the sequence, for every call
    but [printTree]. *)
Definition abs_result (fuel : nat) (nn : Z) (o : op) (a : Z -> Z) : result :=
  match o with
  | UpdateRange _ _ _ => RUnit
  | QuerySum l r => RValue (wrap (range_sum (restrict l r a) 0 (nn - 1)))
  | UpdatePoint _ _ => RUnit
  | QueryMin l r => RValue (cover_min T_max wrap fuel a 0 (nn - 1) l r)
  | GetCurrentArray => RArray (wrap <$> materialize nn a)
  | PrintTree => RUnit
  end.

Fixpoint abs_results (fuel : nat) (nn : Z) (ops : list op) (a : Z -> Z) : list result :=
  match ops with
  | [] => []
  | o :: ops => abs_result fuel nn o a :: abs_results fuel nn ops (abs_state nn o a)
  end.

(** [tracks st a]: a program can hold the tree [st], and [a] is the
    sequence its calls have produced.  The tree was built from a non-empty
    sequence of [int]s whose size [4 * n] is an [int], then changed by calls
    of the public member functions; [a] is the sequence given to the
    constructor with the updates of the calls applied, in unbounded
    arithmetic. *)
Inductive tracks : t -> (Z -> Z) -> Prop :=
| tracks_new fuel arr st tr :
    arr <> [] -> Forall is_int arr -> 4 * Z.of_nat (length arr) <= int_max ->
    AdvancedSegmentTree fuel arr = Ok (st, tr) -> tracks st (at_index arr)
| tracks_step fuel o x st st' tr a :
    tracks st a -> int_args o -> exec fuel o st = Ok (x, st', tr) ->
    tracks st' (abs_state (n st) o a).

(** The trees a program can hold. *)
Definition reachable (st : t) : Prop := exists a, tracks st a.

End Ops.

(** A sequence of calls without [printTree]. *)
Definition no_print (ops : list op) : Prop := Forall (fun o => o <> PrintTree) ops.

(** What a call returns to its caller: [printTree] returns nothing. *)
Definition returned (x : result) : result :=
  match x with
  | RPrinted _ => RUnit
  | _ => x
  end.

(** ** A tree to run the statements on *)

(** A tree over the sequence [1, 3, 5, 7, 9, 11, 13, 15]. *)
Definition example_arr : list Z := [1; 3; 5; 7; 9; 11; 13; 15].

Definition example_tree : t :=
  Eval vm_compute in
    match AdvancedSegmentTree 8 example_arr with
    | Ok (st, _) => st
    | Err _ => mk [] [] 0
    end.

(** The same tree after [updateRange(2, 6, 10)]: the leaves of the elements
    [2 .. 5] hold pending values. *)
Definition example_pending : t :=
  Eval vm_compute in
    match updateRange 8 2 6 10 example_tree with
    | Ok (_, st, _) => st
    | Err _ => example_tree
    end.

(** A tree over a sequence whose sum is not an [int]. *)
Definition example_wide_arr : list Z := [2147483647; 2147483647; 1].

Definition example_wide : t :=
  Eval vm_compute in
    match AdvancedSegmentTree 3 example_wide_arr with
    | Ok (st, _) => st
    | Err _ => mk [] [] 0
    end.

(** The tree over [2147483647, -10] after [updateRange(0, 1, 1)]. *)
Definition example_edge : t :=
  Eval vm_compute in
    match AdvancedSegmentTree 2 [2147483647; -10] with
    | Ok (st, _) =>
        match updateRange 2 0 1 1 st with
        | Ok (_, st', _) => st'
        | Err _ => st
        end
    | Err _ => mk [] [] 0
    end.

(** ** The binary indexed tree *)

(** Point additions [(idx, delta)] on a binary indexed tree, in order. *)
Fixpoint bit_updates (fuel : nat) (ups : list (Z * Z)) (bt : Fenwick.t) : res Fenwick.t :=
  match ups with
  | [] => Ok bt
  | (idx, delta) :: ups =>
      match Fenwick.update fuel idx delta bt with
      | Ok bt' => bit_updates fuel ups bt'
      | Err f => Err f
      end
  end.

(** The sequence after the point additions, in unbounded arithmetic. *)
Fixpoint added (ups : list (Z * Z)) (a : Z -> Z) : Z -> Z :=
  match ups with
  | [] => a
  | (idx, delta) :: ups => added ups (range_add idx idx delta a)
  end.

(** The same point additions as range updates of the segment tree. *)
Definition point_adds (ups : list (Z * Z)) : list op :=
  map (fun u => UpdateRange u.1 u.1 u.2) ups.

(** [holds st a]: the tree [st] was constructed over a sequence of fewer
    than [2 ^ 30] [int]s and then changed by calls of [update] that
    returned, with indices from [0] to [int_max - 1]; [a] is that sequence
    with the deltas of the calls added, in unbounded arithmetic. *)
Inductive holds : Fenwick.t -> (Z -> Z) -> Prop :=
| holds_new count fuel arr st :
    Forall is_int arr -> Z.of_nat (length arr) < 2 ^ 30 ->
    Fenwick.BinaryIndexedTree count fuel arr = Ok st -> holds st (at_index arr)
| holds_update fuel idx delta st st' a :
    holds st a -> 0 <= idx < int_max -> is_int delta ->
    Fenwick.update fuel idx delta st = Ok st' ->
    holds st' (range_add idx idx delta a).

(** A binary indexed tree over the example sequence, after one update. *)
Definition example_bit : Fenwick.t :=
  Eval vm_compute in
    match Fenwick.BinaryIndexedTree 9 9 example_arr with
    | Ok st => match Fenwick.update 9 2 10 st with Ok st' => st' | Err _ => st end
    | Err _ => Fenwick.mk [] 0
    end.

(** The sequence [example_bit] holds, and the tree the constructor builds
    from it. *)
Definition example_updated : list Z := [1; 3; 15; 7; 9; 11; 13; 15].

Definition example_bit_direct : Fenwick.t :=
  Eval vm_compute in
    match Fenwick.BinaryIndexedTree 9 9 example_updated with
    | Ok st => st
    | Err _ => Fenwick.mk [] 0
    end.

(** * Part III: the program over unbounded integers *)

(** The member functions once more, with the arithmetic of [int] replaced by
    that of the integers.  The theorems of Part V about the source never
    mention this program: it is what their proofs compare the program of
    Part I with. *)

Module Unbounded.

Import SegTree.

(** [build], lines 32-41. *)
Fixpoint build (fuel : nat) (arr : list Z) (node start end_ : Z) : M unit :=
  match fuel with
  | O => fail OutOfFuel
  | S fuel =>
      if start =? end_ then
        let* x := read_arr arr start in
        set_tree node x
      else
        let mid := Z.quot (start + end_) 2 in
        build fuel arr (2 * node) start mid >>
        build fuel arr (2 * node + 1) (mid + 1) end_ >>
        let* a := get_tree (2 * node) in
        let* b := get_tree (2 * node + 1) in
        set_tree node (a + b)
  end.

(** [updateLazy], lines 44-53. *)
Definition updateLazy (node start end_ : Z) : M unit :=
  let* lz := get_lazy node in
  (if negb (lz =? 0) then
     let* tv := get_tree node in
     let* lz := get_lazy node in
     set_tree node (tv + lz * (end_ - start + 1)) >>
     (if negb (start =? end_) then
        let* c := get_lazy (2 * node) in
        let* lz := get_lazy node in
        set_lazy (2 * node) (c + lz) >>
        let* c := get_lazy (2 * node + 1) in
        let* lz := get_lazy node in
        set_lazy (2 * node + 1) (c + lz)
      else ret tt) >>
     set_lazy node 0
   else ret tt) >>
  pushed node start end_.

(** Private [updateRange], lines 56-75. *)
Fixpoint updateRange_rec (fuel : nat) (node start end_ l r val : Z) : M unit :=
  match fuel with
  | O => fail OutOfFuel
  | S fuel =>
      updateLazy node start end_ >>
      if (start >? r) || (end_ <? l) then ret tt
      else if (start >=? l) && (end_ <=? r) then
        let* lz := get_lazy node in
        set_lazy node (lz + val) >>
        updateLazy node start end_
      else
        let mid := Z.quot (start + end_) 2 in
        updateRange_rec fuel (2 * node) start mid l r val >>
        updateRange_rec fuel (2 * node + 1) (mid + 1) end_ l r val >>
        updateLazy (2 * node) start mid >>
        updateLazy (2 * node + 1) (mid + 1) end_ >>
        let* a := get_tree (2 * node) in
        let* b := get_tree (2 * node + 1) in
        set_tree node (a + b)
  end.

(** [queryRange], lines 78-93. *)
Fixpoint queryRange (fuel : nat) (node start end_ l r : Z) : M Z :=
  match fuel with
  | O => fail OutOfFuel
  | S fuel =>
      if (start >? r) || (end_ <? l) then ret 0
      else
        updateLazy node start end_ >>
        if (start >=? l) && (end_ <=? r) then get_tree node
        else
          let mid := Z.quot (start + end_) 2 in
          let* p1 := queryRange fuel (2 * node) start mid l r in
          let* p2 := queryRange fuel (2 * node + 1) (mid + 1) end_ l r in
          ret (p1 + p2)
  end.

(** Private [updatePoint], lines 96-113. *)
Fixpoint updatePoint_rec (fuel : nat) (node start end_ idx val : Z) : M unit :=
  match fuel with
  | O => fail OutOfFuel
  | S fuel =>
      updateLazy node start end_ >>
      if start =? end_ then set_tree node val
      else
        let mid := Z.quot (start + end_) 2 in
        (if idx <=? mid
         then updatePoint_rec fuel (2 * node) start mid idx val
         else updatePoint_rec fuel (2 * node + 1) (mid + 1) end_ idx val) >>
        updateLazy (2 * node) start mid >>
        updateLazy (2 * node + 1) (mid + 1) end_ >>
        let* a := get_tree (2 * node) in
        let* b := get_tree (2 * node + 1) in
        set_tree node (a + b)
  end.

Section WithMax.

(** [std::numeric_limits<T>::max()]. *)
Variable T_max : Z.

(** [view] is what the caller sees of an aggregate. *)
Variable view : Z -> Z.

Definition get_tree_view (i : Z) : M Z :=
  fun st => match vget (tree st) i with
            | Some x => Ok (view x, st, [])
            | None => Err OutOfBounds
            end.

(** Private [queryMin], lines 116-131. *)
Fixpoint queryMin_rec (fuel : nat) (node start end_ l r : Z) : M Z :=
  match fuel with
  | O => fail OutOfFuel
  | S fuel =>
      if (start >? r) || (end_ <? l) then ret T_max
      else
        updateLazy node start end_ >>
        if (start >=? l) && (end_ <=? r) then get_tree_view node
        else
          let mid := Z.quot (start + end_) 2 in
          let* p1 := queryMin_rec fuel (2 * node) start mid l r in
          let* p2 := queryMin_rec fuel (2 * node + 1) (mid + 1) end_ l r in
          ret (Z.min p1 p2)
  end.

(** Public [queryMin], lines 158-160. *)
Definition queryMin (fuel : nat) (l r : Z) : M Z :=
  let* n := get_n in queryMin_rec fuel 1 0 (n - 1) l r.

End WithMax.

(** The constructor, lines 135-140. *)
Definition AdvancedSegmentTree (fuel : nat) (arr : list Z) : res (t * list event) :=
  let n := Z.of_nat (length arr) in
  let st := mk (replicate (Z.to_nat (4 * n)) 0) (replicate (Z.to_nat (4 * n)) 0) n in
  match build fuel arr 1 0 (n - 1) st with
  | Ok (_, st', tr) => Ok (st', tr)
  | Err f => Err f
  end.

(** Public [updateRange], lines 143-145. *)
Definition updateRange (fuel : nat) (l r val : Z) : M unit :=
  let* n := get_n in updateRange_rec fuel 1 0 (n - 1) l r val.

(** [querySum], lines 148-150. *)
Definition querySum (fuel : nat) (l r : Z) : M Z :=
  let* n := get_n in queryRange fuel 1 0 (n - 1) l r.

(** Public [updatePoint], lines 153-155. *)
Definition updatePoint (fuel : nat) (idx val : Z) : M unit :=
  let* n := get_n in updatePoint_rec fuel 1 0 (n - 1) idx val.

(** The loop of [getCurrentArray], lines 165-167: [count] bounds the number
    of iterations. *)
Fixpoint getCurrentArray_loop (count fuel : nat) (i : Z) (result : list Z) : M (list Z) :=
  match count with
  | O => fail OutOfFuel
  | S count =>
      let* n := get_n in
      if i <? n then
        let* x := querySum fuel i i in
        match vset result i x with
        | Some result' => getCurrentArray_loop count fuel (i + 1) result'
        | None => fail OutOfBounds
        end
      else ret result
  end.

(** [getCurrentArray], lines 163-169. *)
Definition getCurrentArray (count fuel : nat) : M (list Z) :=
  let* n := get_n in
  getCurrentArray_loop count fuel 0 (replicate (Z.to_nat n) 0).

End Unbounded.

Module UFenwick.

Import Fenwick.

(** The loop of [update], lines 198-200, entered with the incremented
    [idx]. *)
Fixpoint update_loop (fuel : nat) (idx val : Z) (st : t) : res t :=
  match fuel with
  | O => Err OutOfFuel
  | S fuel =>
      if idx <=? n st then
        match vget (bit st) idx with
        | Some x =>
            match vset (bit st) idx (x + val) with
            | Some v => update_loop fuel (idx + Z.land idx (- idx)) val (mk v (n st))
            | None => Err OutOfBounds
            end
        | None => Err OutOfBounds
        end
      else Ok st
  end.

(** [update], lines 197-201. *)
Definition update (fuel : nat) (idx val : Z) (st : t) : res t :=
  update_loop fuel (idx + 1) val st.

(** The loop of [query], lines 205-207. *)
Fixpoint query_loop (fuel : nat) (idx sum : Z) (st : t) : res Z :=
  match fuel with
  | O => Err OutOfFuel
  | S fuel =>
      if idx >? 0 then
        match vget (bit st) idx with
        | Some x => query_loop fuel (idx - Z.land idx (- idx)) (sum + x) st
        | None => Err OutOfBounds
        end
      else Ok sum
  end.

(** [query], lines 203-209. *)
Definition query (fuel : nat) (idx : Z) (st : t) : res Z :=
  query_loop fuel (idx + 1) 0 st.

(** [rangeQuery], lines 211-213. *)
Definition rangeQuery (fuel : nat) (l r : Z) (st : t) : res Z :=
  match query fuel r st with
  | Ok qr =>
      if l >? 0 then
        match query fuel (l - 1) st with
        | Ok ql => Ok (qr - ql)
        | Err f => Err f
        end
      else Ok (qr - 0)
  | Err f => Err f
  end.

(** The loop of the constructor, lines 192-194. *)
Fixpoint init_loop (count fuel : nat) (arr : list Z) (i : Z) (st : t) : res t :=
  match count with
  | O => Err OutOfFuel
  | S count =>
      if i <? n st then
        match vget arr i with
        | Some x =>
            match update fuel i x st with
            | Ok st' => init_loop count fuel arr (i + 1) st'
            | Err f => Err f
            end
        | None => Err OutOfBounds
        end
      else Ok st
  end.

(** The constructor, lines 189-195. *)
Definition BinaryIndexedTree (count fuel : nat) (arr : list Z) : res t :=
  let n := Z.of_nat (length arr) in
  init_loop count fuel arr 0 (mk (replicate (Z.to_nat (n + 1)) 0) n).

End UFenwick.

(** ** The statements about it *)

Module Ideal.

Import Unbounded.

(** ** The representation invariant *)

(** [R st i s e a]: the subtree of node [i], its own pending value included,
    stands for the elements [a s .. a e]; below every node the aggregate is
    the sum of what the two subtrees stand for. *)
Inductive R (st : t) : Z -> Z -> Z -> (Z -> Z) -> Prop :=
| R_leaf i s a :
    T st i + L st i = a s -> R st i s s a
| R_node i s e a :
    s < e ->
    T st i + L st i * (e - s + 1) = range_sum a s e ->
    R st (2 * i) s (Z.quot (s + e) 2) (fun k => a k - L st i) ->
    R st (2 * i + 1) (Z.quot (s + e) 2 + 1) e (fun k => a k - L st i) ->
    R st i s e a.

(** The current element at index [k]. *)
Definition elems (st : t) (k : Z) : Z :=
  path_sum (Z.to_nat (n st)) 1 0 (n st - 1) k st.

(** An execution of [updateLazy] left the aggregate of its node equal to the
    sum of the current elements of the node's range. *)
Definition good (ev : event) : Prop :=
  T (ev_after ev) (ev_node ev)
  = range_sum (elems (ev_after ev)) (ev_start ev) (ev_end ev).

(** ** What a recursive call relies on *)

(** What every recursive call relies on at node [i]: the store has the
    shape of a tree over [n] elements, the node fits it, nothing is pending
    above the node, and the subtree stands for [a]. *)
Record pre (st : t) (i s e : Z) (a : Z -> Z) : Prop := mk_pre {
  pre_wf : wf st;
  pre_inb : inb (n st) i s e;
  pre_at : node_at st i s e 0;
  pre_R : R st i s e a
}.

(** [Rep st a]: the tree [st] holds the sequence [a 0 .. a (n - 1)]. *)
Definition Rep (st : t) (a : Z -> Z) : Prop := pre st 1 0 (n st - 1) a.

(** ** Sequences of public operations *)

(** The calls whose results are functions of the sequence the tree holds:
    every public member function but [printTree], which Part V treats on
    the program of Part I. *)
Inductive op :=
| UpdateRange (l r val : Z)
| QuerySum (l r : Z)
| UpdatePoint (idx val : Z)
| QueryMin (l r : Z)
| GetCurrentArray.

Inductive result :=
| RUnit
| RValue (v : Z)
| RArray (vs : list Z).

Section Ops.

Variable T_max : Z.

(** One call of a public member function. *)
Definition exec (fuel : nat) (o : op) : M result :=
  match o with
  | UpdateRange l r val => updateRange fuel l r val >> ret RUnit
  | QuerySum l r => let* v := querySum fuel l r in ret (RValue v)
  | UpdatePoint idx val => updatePoint fuel idx val >> ret RUnit
  | QueryMin l r => let* v := queryMin T_max id fuel l r in ret (RValue v)
  | GetCurrentArray => let* vs := getCurrentArray (S fuel) fuel in ret (RArray vs)
  end.

(** A sequence of calls, with the list of what they returned. *)
Fixpoint run (fuel : nat) (ops : list op) : M (list result) :=
  match ops with
  | [] => ret []
  | o :: ops =>
      let* x := exec fuel o in
      let* xs := run fuel ops in
      ret (x :: xs)
  end.

(** The sequence after the call, when the tree over [nn] elements held [a]
    before it.  [updatePoint] does not check [idx]: an index outside the
    tree reaches the first or the last leaf. *)
Definition abs_state (nn : Z) (o : op) (a : Z -> Z) : Z -> Z :=
  match o with
  | UpdateRange l r val => range_add l r val a
  | UpdatePoint idx val => point_set (Z.max 0 (Z.min (nn - 1) idx)) val a
  | _ => a
  end.

(** What the call returns, as a function of the sequence. *)
Definition abs_result (fuel : nat) (nn : Z) (o : op) (a : Z -> Z) : result :=
  match o with
  | UpdateRange _ _ _ => RUnit
  | QuerySum l r => RValue (range_sum (restrict l r a) 0 (nn - 1))
  | UpdatePoint _ _ => RUnit
  | QueryMin l r => RValue (cover_min T_max id fuel a 0 (nn - 1) l r)
  | GetCurrentArray => RArray (materialize nn a)
  end.

Fixpoint abs_states (nn : Z) (ops : list op) (a : Z -> Z) : Z -> Z :=
  match ops with
  | [] => a
  | o :: ops => abs_states nn ops (abs_state nn o a)
  end.

Fixpoint abs_results (fuel : nat) (nn : Z) (ops : list op) (a : Z -> Z) : list result :=
  match ops with
  | [] => []
  | o :: ops => abs_result fuel nn o a :: abs_results fuel nn ops (abs_state nn o a)
  end.

(** The trees a program can hold: built from a non-empty sequence, then
    changed by calls of the public member functions. *)
Inductive reachable : t -> Prop :=
| reach_new fuel arr st tr :
    arr <> [] -> AdvancedSegmentTree fuel arr = Ok (st, tr) -> reachable st
| reach_step fuel o x st st' tr :
    reachable st -> exec fuel o st = Ok (x, st', tr) -> reachable st'.

End Ops.

(** Slot [i] holds the sum of the [lowbit i] elements that end at element
    [i - 1]. *)
Record BInv (st : Fenwick.t) (a : Z -> Z) : Prop := mk_BInv {
  BInv_n : 0 <= Fenwick.n st;
  BInv_len : Z.of_nat (length (Fenwick.bit st)) = Fenwick.n st + 1;
  BInv_slot : forall i, 1 <= i <= Fenwick.n st ->
                B st i = range_sum a (i - lowbit i) (i - 1)
}.

(** [holds st a]: the tree [st] was constructed over a sequence and then
    changed by calls of [update]; [a] is that sequence with the deltas of
    the calls added. *)
Inductive holds : Fenwick.t -> (Z -> Z) -> Prop :=
| holds_new count fuel arr st :
    UFenwick.BinaryIndexedTree count fuel arr = Ok st -> holds st (at_index arr)
| holds_update fuel idx delta st st' a :
    holds st a -> UFenwick.update fuel idx delta st = Ok st' ->
    holds st' (range_add idx idx delta a).

(** A tree between operations: it holds a sequence, nothing is pending at
    the root, and slot [0] of both vectors is as the constructor left it. *)
Definition settled (st : t) (a : Z -> Z) : Prop :=
  Rep st a /\ L st 1 = 0 /\ T st 0 = 0 /\ L st 0 = 0.

(** Point additions [(idx, delta)] on a binary indexed tree, in order. *)
Fixpoint bit_updates (fuel : nat) (ups : list (Z * Z)) (bt : Fenwick.t) : res Fenwick.t :=
  match ups with
  | [] => Ok bt
  | (idx, delta) :: ups =>
      match UFenwick.update fuel idx delta bt with
      | Ok bt' => bit_updates fuel ups bt'
      | Err f => Err f
      end
  end.

(** The same point additions as range updates of the segment tree. *)
Definition point_adds (ups : list (Z * Z)) : list op :=
  map (fun u => UpdateRange u.1 u.1 u.2) ups.

End Ideal.

(** ** The two programs side by side *)

(** The store [m] of the program is the store [u] of the program over
    unbounded integers, slot by slot as [int]s. *)
Definition sim (u m : t) : Prop :=
  n m = n u /\ tree m = wrap <$> tree u /\ lazy m = wrap <$> lazy u.

Definition sim_ev (eu em : event) : Prop :=
  ev_node em = ev_node eu /\ ev_start em = ev_start eu /\ ev_end em = ev_end eu
  /\ sim (ev_after eu) (ev_after em).

(** [mm] does on [m] what [mu] does on [u], on stores of trees over [nn]
    elements. *)
Definition simM {A B} (nn : Z) (RA : A -> B -> Prop) (mu : M A) (mm : M B) : Prop :=
  forall u m x u' tru,
    sim u m -> n u = nn -> mu u = Ok (x, u', tru) ->
    exists y m' trm,
      mm m = Ok (y, m', trm) /\ RA x y /\ sim u' m' /\ n u' = nn
      /\ Forall2 sim_ev tru trm.

(** The value [y] of type [int] for the unbounded [x]. *)
Definition as_int (x y : Z) : Prop := y = wrap x.

(** [held m a]: between two operations, the store [m] stands for the
    sequence [a], up to [2 ^ 32] in each element. *)
Definition held (m : t) (a : Z -> Z) : Prop :=
  exists u, sim u m /\ Ideal.settled u a /\ 4 * n m <= int_max.

Definition sim_bit (u m : Fenwick.t) : Prop :=
  Fenwick.n m = Fenwick.n u /\ Fenwick.bit m = wrap <$> Fenwick.bit u.

(** [held_bit m a]: the binary indexed tree [m] holds the sequence [a], up
    to [2 ^ 32] in each element. *)
Definition held_bit (m : Fenwick.t) (a : Z -> Z) : Prop :=
  exists u, sim_bit u m /\ Ideal.holds u a /\ Fenwick.n m < 2 ^ 30.

(** The push of a pending value that is [0] as an [int]. *)
Definition push_Z (i s e : Z) : M unit :=
  let* tv := get_tree i in
  let* lz := get_lazy i in
  set_tree i (tv + lz * (e - s + 1)) >>
  (if negb (s =? e) then
     let* c := get_lazy (2 * i) in
     let* lz := get_lazy i in
     set_lazy (2 * i) (c + lz) >>
     let* c := get_lazy (2 * i + 1) in
     let* lz := get_lazy i in
     set_lazy (2 * i + 1) (c + lz)
   else ret tt) >>
  set_lazy i 0.

(** Two stores that agree on the slots in [D]. *)
Definition agreeD (D : Z -> Prop) (st st' : t) : Prop :=
  same_shape st st' /\ forall j, D j -> T st' j = T st j /\ L st' j = L st j.

(** [m] reads and writes inside the subtree of [c] only: on two stores that
    agree on a set of slots with the subtree of [c] in it, it returns the
    same value and leaves stores that agree on the set. *)
Definition locM {A} (c : Z) (m : M A) : Prop :=
  forall (D : Z -> Prop), (forall j, desc c j -> D j) ->
  forall st st2 x st' tr,
    agreeD D st st2 -> m st = Ok (x, st', tr) ->
    exists st2' tr2, m st2 = Ok (x, st2', tr2) /\ agreeD D st' st2'.

(** * Part IV: proofs about the program over unbounded integers *)

Module IdealFacts.

Import Unbounded.

Import Ideal.

(** ** Sums over index ranges *)

Lemma sum_from_ext f g s c :
  (forall k, s <= k < s + Z.of_nat c -> f k = g k) ->
  sum_from f s c = sum_from g s c.
Proof.
  revert s. induction c as [|c IH]; intros s H; cbn [sum_from]; [done|].
  rewrite (H s) by lia. rewrite (IH (s + 1)); [done|].
  intros k Hk. apply H. lia.
Qed.

Lemma sum_from_app f s c1 c2 :
  sum_from f s (c1 + c2) = sum_from f s c1 + sum_from f (s + Z.of_nat c1) c2.
Proof.
  revert s. induction c1 as [|c1 IH]; intros s; cbn [sum_from Nat.add].
  - replace (s + Z.of_nat 0) with s by lia. lia.
  - rewrite IH. replace (s + 1 + Z.of_nat c1) with (s + Z.of_nat (S c1)) by lia. lia.
Qed.

Lemma sum_from_add_const f c s cnt :
  sum_from (fun k => f k + c) s cnt = sum_from f s cnt + c * Z.of_nat cnt.
Proof.
  revert s. induction cnt as [|cnt IH]; intros s; cbn [sum_from]; [lia|].
  rewrite IH. lia.
Qed.

Lemma sum_from_zero s cnt : sum_from (fun _ => 0) s cnt = 0.
Proof. revert s. induction cnt as [|cnt IH]; intros s; cbn [sum_from]; [done|]. by rewrite IH. Qed.

Lemma range_sum_empty f s e : e < s -> range_sum f s e = 0.
Proof. intros H. unfold range_sum. by replace (Z.to_nat (e - s + 1)) with 0%nat by lia. Qed.

Lemma range_sum_single f s : range_sum f s s = f s.
Proof.
  unfold range_sum. replace (Z.to_nat (s - s + 1)) with 1%nat by lia.
  cbn [sum_from]. lia.
Qed.

Lemma range_sum_ext f g s e :
  (forall k, s <= k <= e -> f k = g k) -> range_sum f s e = range_sum g s e.
Proof. intros H. apply sum_from_ext. intros k Hk. apply H. lia. Qed.

Lemma range_sum_split f s m e :
  s - 1 <= m <= e ->
  range_sum f s e = range_sum f s m + range_sum f (m + 1) e.
Proof.
  intros H. unfold range_sum.
  replace (Z.to_nat (e - s + 1))
    with (Z.to_nat (m - s + 1) + Z.to_nat (e - (m + 1) + 1))%nat by lia.
  rewrite sum_from_app. do 2 f_equal. lia.
Qed.

Lemma range_sum_first f s e :
  s <= e -> range_sum f s e = f s + range_sum f (s + 1) e.
Proof.
  intros H. rewrite (range_sum_split f s s e) by lia. by rewrite range_sum_single.
Qed.

Lemma range_sum_add_const f c s e :
  s <= e + 1 ->
  range_sum (fun k => f k + c) s e = range_sum f s e + c * (e - s + 1).
Proof.
  intros H. unfold range_sum. rewrite sum_from_add_const.
  by rewrite Z2Nat.id by lia.
Qed.

Lemma range_sum_zero s e : range_sum (fun _ => 0) s e = 0.
Proof. apply sum_from_zero. Qed.

Lemma range_sum_restrict f l r s e :
  range_sum (restrict l r f) s e = range_sum f (Z.max l s) (Z.min r e).
Proof.
  destruct (Z_lt_le_dec (Z.min r e) (Z.max l s)) as [Hlt|Hle].
  - rewrite (range_sum_empty f) by done.
    rewrite <- (range_sum_zero s e). apply range_sum_ext.
    intros k Hk. unfold restrict.
    destruct (l <=? k) eqn:E1; destruct (k <=? r) eqn:E2; cbn; try done. lia.
  - rewrite (range_sum_split _ s (Z.max l s - 1) e) by lia.
    rewrite (range_sum_split _ (Z.max l s - 1 + 1) (Z.min r e) e) by lia.
    assert (range_sum (restrict l r f) s (Z.max l s - 1) = 0) as ->.
    { rewrite <- (range_sum_zero s (Z.max l s - 1)). apply range_sum_ext.
      intros k Hk. unfold restrict. destruct (l <=? k) eqn:E1; cbn; [lia|done]. }
    assert (range_sum (restrict l r f) (Z.min r e + 1) e = 0) as ->.
    { rewrite <- (range_sum_zero (Z.min r e + 1) e). apply range_sum_ext.
      intros k Hk. unfold restrict.
      destruct (l <=? k) eqn:E1; destruct (k <=? r) eqn:E2; cbn; try done. lia. }
    replace (Z.max l s - 1 + 1) with (Z.max l s) by lia.
    rewrite Z.add_0_l, Z.add_0_r. apply range_sum_ext.
    intros k Hk. unfold restrict.
    destruct (l <=? k) eqn:E1; destruct (k <=? r) eqn:E2; cbn; try done; lia.
Qed.

Lemma list_sum_at_index xs :
  range_sum (at_index xs) 0 (Z.of_nat (length xs) - 1) = list_sum xs.
Proof.
  unfold range_sum.
  replace (Z.to_nat (Z.of_nat (length xs) - 1 - 0 + 1)) with (length xs) by lia.
  assert (forall pre, sum_from (at_index (pre ++ xs)) (Z.of_nat (length pre)) (length xs)
                      = list_sum xs) as H.
  { induction xs as [|x xs IH]; intros pre; cbn [sum_from length list_sum foldr]; [done|].
    f_equal.
    - unfold at_index, vget. destruct (Z.leb_spec 0 (Z.of_nat (length pre))); [|lia].
      rewrite Nat2Z.id. by rewrite list_lookup_middle.
    - specialize (IH (pre ++ [x])). rewrite <- app_assoc in IH. cbn in IH.
      rewrite length_app in IH. cbn [length] in IH.
      replace (Z.of_nat (length pre) + 1) with (Z.of_nat (length pre + 1)) by lia.
      exact IH. }
  exact (H []).
Qed.

(** ** Midpoints *)

Lemma mid_bounds s e :
  0 <= s -> s < e -> s <= Z.quot (s + e) 2 < e.
Proof.
  intros H0 H1. rewrite Z.quot_div_nonneg by lia.
  pose proof (Z.div_mod (s + e) 2 ltac:(lia)).
  pose proof (Z.mod_pos_bound (s + e) 2 ltac:(lia)). lia.
Qed.

Lemma mid_halves s e :
  0 <= s -> s < e ->
  2 * (Z.quot (s + e) 2 - s) <= e - s /\ 2 * (e - (Z.quot (s + e) 2 + 1)) <= e - s - 1.
Proof.
  intros H0 H1. rewrite Z.quot_div_nonneg by lia.
  pose proof (Z.div_mod (s + e) 2 ltac:(lia)).
  pose proof (Z.mod_pos_bound (s + e) 2 ltac:(lia)). lia.
Qed.

(** ** Checked accesses *)

Lemma vget_in v i :
  0 <= i < Z.of_nat (length v) -> vget v i = Some (default 0 (vget v i)).
Proof.
  intros H. unfold vget. destruct (Z.leb_spec 0 i); [|lia].
  destruct (lookup_lt_is_Some_2 v (Z.to_nat i)) as [x Hx]; [lia|].
  by rewrite Hx.
Qed.

Lemma vset_in v i x :
  0 <= i < Z.of_nat (length v) -> vset v i x = Some (<[Z.to_nat i := x]> v).
Proof.
  intros H. unfold vset.
  destruct (Z.leb_spec 0 i); [|lia].
  destruct (Z.ltb_spec i (Z.of_nat (length v))); [done|lia].
Qed.

Lemma vget_insert v i x j :
  0 <= i < Z.of_nat (length v) ->
  default 0 (vget (<[Z.to_nat i := x]> v) j) = if j =? i then x else default 0 (vget v j).
Proof.
  intros H. unfold vget. destruct (Z.leb_spec 0 j).
  - destruct (Z.eqb_spec j i) as [->|Hne].
    + rewrite list_lookup_insert_eq by lia. done.
    + rewrite list_lookup_insert_ne by lia. done.
  - destruct (Z.eqb_spec j i); [lia|done].
Qed.

Lemma vget_replicate_zero c j : default 0 (vget (replicate c 0) j) = 0.
Proof.
  unfold vget. destruct (0 <=? j); [|done].
  destruct (replicate c 0 !! Z.to_nat j) as [x|] eqn:E; [|done].
  apply lookup_replicate in E as [-> _]. done.
Qed.

(** ** The shape of the implicit tree *)

Lemma desc_ge i j : 0 < i -> desc i j -> i <= j.
Proof. intros Hi. induction 1; lia. Qed.

Lemma desc_child_l i j : desc (2 * i) j -> desc i j.
Proof. induction 1; [apply desc_left, desc_refl|by apply desc_left|by apply desc_right]. Qed.

Lemma desc_child_r i j : desc (2 * i + 1) j -> desc i j.
Proof. induction 1; [apply desc_right, desc_refl|by apply desc_left|by apply desc_right]. Qed.

Lemma desc_siblings i j : 0 < i -> desc (2 * i) j -> desc (2 * i + 1) j -> False.
Proof.
  intros Hi H. induction H as [|j H IH|j H IH]; intros H'.
  - apply desc_ge in H'; lia.
  - inversion H' as [E|k Hk E|k Hk E]; [lia| |lia].
    assert (k = j) as -> by lia. by apply IH.
  - inversion H' as [E|k Hk E|k Hk E].
    + assert (j = i) as -> by lia. apply desc_ge in H; lia.
    + lia.
    + assert (k = j) as -> by lia. by apply IH.
Qed.

Lemma node_at_range st i s e acc :
  1 <= n st -> node_at st i s e acc -> 1 <= i /\ 0 <= s <= e /\ e <= n st - 1.
Proof.
  intros Hn. induction 1 as [|i s e acc acc' H IH Hse _|i s e acc acc' H IH Hse _].
  - lia.
  - pose proof (mid_bounds s e). lia.
  - pose proof (mid_bounds s e). lia.
Qed.

Lemma inb_root nn : 1 <= nn -> inb nn 1 0 (nn - 1).
Proof. intros H. split; [lia|]. exists 1. lia. Qed.

Lemma inb_left nn i s e :
  0 <= s -> s < e -> inb nn i s e -> inb nn (2 * i) s (Z.quot (s + e) 2).
Proof.
  intros H0 H1 [Hi (p & Hp & Hip & Hpn)].
  pose proof (mid_halves s e H0 H1) as [Hm _].
  assert (p * (2 * (Z.quot (s + e) 2 - s)) <= p * (e - s)) by (apply Z.mul_le_mono_nonneg_l; lia).
  assert (p * 1 <= p * (e - s)) by (apply Z.mul_le_mono_nonneg_l; lia).
  split; [lia|]. exists (2 * p). lia.
Qed.

Lemma inb_right nn i s e :
  0 <= s -> s < e -> inb nn i s e -> inb nn (2 * i + 1) (Z.quot (s + e) 2 + 1) e.
Proof.
  intros H0 H1 [Hi (p & Hp & Hip & Hpn)].
  pose proof (mid_halves s e H0 H1) as [_ Hm].
  assert (p * (2 * (e - (Z.quot (s + e) 2 + 1))) <= p * (e - s - 1)) by (apply Z.mul_le_mono_nonneg_l; lia).
  assert (p * 1 <= p * (e - s)) by (apply Z.mul_le_mono_nonneg_l; lia).
  split; [lia|]. exists (2 * p). lia.
Qed.

(** ** The representation invariant *)

Lemma R_top st i s e a :
  R st i s e a -> T st i + L st i * (e - s + 1) = range_sum a s e.
Proof.
  destruct 1 as [i s a H|]; [|done].
  rewrite range_sum_single. replace (s - s + 1) with 1 by lia. lia.
Qed.

Lemma R_range st i s e a : R st i s e a -> s <= e.
Proof. destruct 1; lia. Qed.

Lemma R_ext st i s e a a' :
  (forall k, s <= k <= e -> a k = a' k) -> R st i s e a -> R st i s e a'.
Proof.
  intros Hext H. revert a' Hext.
  induction H as [i s a H|i s e a Hse Ht Hl IHl Hr IHr]; intros a' Hext.
  - apply R_leaf. rewrite <- Hext by lia. done.
  - apply R_node; [done| | |].
    + rewrite <- (range_sum_ext a a') by done. done.
    + apply IHl. intros k Hk. rewrite Hext; [done|].
      pose proof (R_range _ _ _ _ _ Hr). lia.
    + apply IHr. intros k Hk. rewrite Hext; [done|].
      pose proof (R_range _ _ _ _ _ Hl). lia.
Qed.

Lemma R_agree st st' i s e a :
  agree_on i st st' -> R st i s e a -> R st' i s e a.
Proof.
  intros Hag H. revert Hag.
  induction H as [i s a H|i s e a Hse Ht Hl IHl Hr IHr]; intros Hag.
  - destruct (Hag i (desc_refl i)) as [E1 E2]. apply R_leaf. by rewrite E1, E2.
  - destruct (Hag i (desc_refl i)) as [E1 E2].
    apply R_node; [done|by rewrite E1, E2| |]; rewrite E2.
    + apply IHl. intros j Hj. by apply Hag, desc_child_l.
    + apply IHr. intros j Hj. by apply Hag, desc_child_r.
Qed.

(** Raising the pending value of the root of a subtree by [c] raises every
    element it stands for by [c]. *)
Lemma R_shift st st' i s e a c :
  T st' i = T st i -> L st' i = L st i + c ->
  agree_on (2 * i) st st' -> agree_on (2 * i + 1) st st' ->
  R st i s e a -> R st' i s e (fun k => a k + c).
Proof.
  intros ET EL Hl Hr H. destruct H as [i s a H|i s e a Hse Ht Hcl Hcr].
  - apply R_leaf. lia.
  - apply R_node; [done| | |].
    + rewrite range_sum_add_const by lia. rewrite ET, EL, <- Ht. lia.
    + apply (R_agree st); [done|]. eapply R_ext; [|exact Hcl].
      intros k _. cbn. lia.
    + apply (R_agree st); [done|]. eapply R_ext; [|exact Hcr].
      intros k _. cbn. lia.
Qed.

Lemma R_children st i s e a :
  s < e -> L st i = 0 -> R st i s e a ->
  R st (2 * i) s (Z.quot (s + e) 2) a /\ R st (2 * i + 1) (Z.quot (s + e) 2 + 1) e a.
Proof.
  intros Hse HL H. destruct H as [|i s e a _ _ Hl Hr]; [lia|].
  split; (eapply R_ext; [|eassumption]); intros k _; cbn; lia.
Qed.

Lemma R_parent st i s e a :
  0 <= s -> s < e -> L st i = 0 ->
  L st (2 * i) = 0 -> L st (2 * i + 1) = 0 ->
  T st i = T st (2 * i) + T st (2 * i + 1) ->
  R st (2 * i) s (Z.quot (s + e) 2) a -> R st (2 * i + 1) (Z.quot (s + e) 2 + 1) e a ->
  R st i s e a.
Proof.
  intros H0 Hse HL HL1 HL2 HT Hl Hr.
  pose proof (mid_bounds s e H0 Hse).
  apply R_node; [done| | |].
  - rewrite (range_sum_split a s (Z.quot (s + e) 2) e) by lia.
    rewrite <- (R_top _ _ _ _ _ Hl), <- (R_top _ _ _ _ _ Hr). rewrite HL, HL1, HL2, HT. lia.
  - eapply R_ext; [|exact Hl]. intros k _. cbn. lia.
  - eapply R_ext; [|exact Hr]. intros k _. cbn. lia.
Qed.

(** ** Frames *)

Lemma same_shape_refl st : same_shape st st.
Proof. done. Qed.

Lemma same_shape_trans st1 st2 st3 :
  same_shape st1 st2 -> same_shape st2 st3 -> same_shape st1 st3.
Proof. unfold same_shape. intros (?&?&?) (?&?&?). repeat split; congruence. Qed.

Lemma wf_same_shape st st' : wf st -> same_shape st st' -> wf st'.
Proof. unfold wf, same_shape. intros (?&?&?) (?&?&?). repeat split; try congruence; lia. Qed.

Lemma frame_refl i st : frame i st st.
Proof. split; [apply same_shape_refl|done]. Qed.

Lemma frame_trans i st1 st2 st3 : frame i st1 st2 -> frame i st2 st3 -> frame i st1 st3.
Proof.
  intros [S1 H1] [S2 H2]. split; [by eapply same_shape_trans|].
  intros j Hj. destruct (H1 j Hj) as [<- <-]. by apply H2.
Qed.

Lemma frame_child_l i st st' : frame (2 * i) st st' -> frame i st st'.
Proof. intros [S H]. split; [done|]. intros j Hj. apply H. contradict Hj. by apply desc_child_l. Qed.

Lemma frame_child_r i st st' : frame (2 * i + 1) st st' -> frame i st st'.
Proof. intros [S H]. split; [done|]. intros j Hj. apply H. contradict Hj. by apply desc_child_r. Qed.

Lemma frame_wf i st st' : wf st -> frame i st st' -> wf st'.
Proof. intros H [S _]. by eapply wf_same_shape. Qed.

Lemma frame_n i st st' : frame i st st' -> n st' = n st.
Proof. by intros [[? _] _]. Qed.

Lemma frame_below i st st' j :
  0 < i -> frame i st st' -> j < i -> T st' j = T st j /\ L st' j = L st j.
Proof. intros Hi [_ H] Hj. apply H. intros Hd. apply desc_ge in Hd; lia. Qed.

Lemma frame_agree_l i st st' : 0 < i -> frame (2 * i) st st' -> agree_on (2 * i + 1) st st'.
Proof. intros Hi [_ H] j Hj. apply H. intros Hd. by eapply desc_siblings. Qed.

Lemma frame_agree_r i st st' : 0 < i -> frame (2 * i + 1) st st' -> agree_on (2 * i) st st'.
Proof. intros Hi [_ H] j Hj. apply H. intros Hd. by eapply desc_siblings. Qed.

Lemma node_at_pos st i s e acc : node_at st i s e acc -> 1 <= i.
Proof. induction 1; lia. Qed.

Lemma node_at_frame st st' i s e acc :
  n st' = n st -> (forall j, 2 * j <= i -> L st' j = L st j) ->
  node_at st i s e acc -> node_at st' i s e acc.
Proof.
  intros Hn HL H. revert HL.
  induction H as [|i s e acc acc' H IH Hse ->|i s e acc acc' H IH Hse ->]; intros HL.
  - rewrite <- Hn. constructor.
  - pose proof (node_at_pos _ _ _ _ _ H).
    eapply node_left; [apply IH; intros j Hj; apply HL; lia|done|].
    rewrite HL by lia. done.
  - pose proof (node_at_pos _ _ _ _ _ H).
    eapply node_right; [apply IH; intros j Hj; apply HL; lia|done|].
    rewrite HL by lia. done.
Qed.

(** ** The elements a store stands for *)

Lemma path_sum_fuel f1 f2 i s e k st :
  0 <= s <= e -> (Z.to_nat (e - s) < f1)%nat -> (Z.to_nat (e - s) < f2)%nat ->
  path_sum f1 i s e k st = path_sum f2 i s e k st.
Proof.
  revert f2 i s e. induction f1 as [|f1 IH]; intros f2 i s e Hse H1 H2; [lia|].
  destruct f2 as [|f2]; [lia|]. cbn [path_sum]. f_equal.
  destruct (Z.eqb_spec s e) as [->|Hne]; [done|].
  pose proof (mid_bounds s e). pose proof (mid_halves s e).
  destruct (k <=? Z.quot (s + e) 2); apply IH; lia.
Qed.

Lemma R_path st i s e a k fuel :
  R st i s e a -> 0 <= s -> s <= k <= e -> (Z.to_nat (e - s) < fuel)%nat ->
  path_sum fuel i s e k st = a k.
Proof.
  intros H. revert fuel.
  induction H as [i s a H|i s e a Hse Ht Hl IHl Hr IHr]; intros fuel H0 Hk Hf.
  - destruct fuel as [|fuel]; [lia|]. cbn [path_sum].
    rewrite Z.eqb_refl. assert (k = s) as -> by lia. lia.
  - destruct fuel as [|fuel]; [lia|]. cbn [path_sum].
    destruct (Z.eqb_spec s e); [lia|].
    pose proof (mid_bounds s e). pose proof (mid_halves s e).
    destruct (Z.leb_spec k (Z.quot (s + e) 2)).
    + rewrite IHl by lia. lia.
    + rewrite IHr by lia. lia.
Qed.

Lemma node_at_path st i s e acc k fuel :
  1 <= n st -> node_at st i s e acc -> s <= k <= e -> (Z.to_nat (e - s) < fuel)%nat ->
  elems st k = acc + path_sum fuel i s e k st.
Proof.
  intros Hn H. revert fuel.
  induction H as [|i s e acc acc' H IH Hse ->|i s e acc acc' H IH Hse ->];
    intros fuel Hk Hf.
  - unfold elems. rewrite Z.add_0_l. apply path_sum_fuel; lia.
  - pose proof (node_at_range _ _ _ _ _ Hn H).
    pose proof (mid_bounds s e). pose proof (mid_halves s e).
    rewrite (IH (S (Z.to_nat (e - s)))) by lia. cbn [path_sum].
    destruct (Z.eqb_spec s e); [lia|].
    destruct (Z.leb_spec k (Z.quot (s + e) 2)); [|lia].
    rewrite (path_sum_fuel _ fuel) by lia. lia.
  - pose proof (node_at_range _ _ _ _ _ Hn H).
    pose proof (mid_bounds s e). pose proof (mid_halves s e).
    rewrite (IH (S (Z.to_nat (e - s)))) by lia. cbn [path_sum].
    destruct (Z.eqb_spec s e); [lia|].
    destruct (Z.leb_spec k (Z.quot (s + e) 2)); [lia|].
    rewrite (path_sum_fuel _ fuel) by lia. lia.
Qed.

(** In a store where nothing is pending above node [i], the node's range
    holds what the subtree stands for. *)
Lemma elems_subtree st i s e a k :
  1 <= n st -> node_at st i s e 0 -> R st i s e a -> s <= k <= e ->
  elems st k = a k.
Proof.
  intros Hn Hat HR Hk.
  pose proof (node_at_range _ _ _ _ _ Hn Hat).
  rewrite (node_at_path st i s e 0 k (S (Z.to_nat (e - s)))) by (done || lia).
  rewrite (R_path st i s e a) by (done || lia). lia.
Qed.

Lemma good_intro st i s e a :
  1 <= n st -> node_at st i s e 0 -> R st i s e a -> L st i = 0 ->
  good (mkEvent i s e st).
Proof.
  intros Hn Hat HR HL. unfold good. cbn.
  pose proof (R_top _ _ _ _ _ HR) as Ht. rewrite HL in Ht.
  rewrite (range_sum_ext (elems st) a); [lia|].
  intros k Hk. by eapply elems_subtree.
Qed.

(** ** The primitive steps and [updateLazy] *)

Lemma get_tree_ok st i :
  0 <= i < Z.of_nat (length (tree st)) -> get_tree i st = Ok (T st i, st, []).
Proof. intros H. unfold get_tree. by rewrite vget_in. Qed.

Lemma get_tree_view_ok view st i :
  0 <= i < Z.of_nat (length (tree st)) ->
  get_tree_view view i st = Ok (view (T st i), st, []).
Proof. intros H. unfold get_tree_view. by rewrite vget_in. Qed.

Lemma get_lazy_ok st i :
  0 <= i < Z.of_nat (length (lazy st)) -> get_lazy i st = Ok (L st i, st, []).
Proof. intros H. unfold get_lazy. by rewrite vget_in. Qed.

Lemma set_tree_ok st i x :
  0 <= i < Z.of_nat (length (tree st)) ->
  exists st', set_tree i x st = Ok (tt, st', [])
    /\ same_shape st st'
    /\ (forall j, T st' j = if j =? i then x else T st j)
    /\ (forall j, L st' j = L st j).
Proof.
  intros H. eexists. unfold set_tree. rewrite vset_in by done.
  split; [done|]. split; [|split].
  - repeat split. cbn. by rewrite length_insert.
  - intros j. unfold T. cbn [tree]. by apply vget_insert.
  - done.
Qed.

Lemma set_lazy_ok st i x :
  0 <= i < Z.of_nat (length (lazy st)) ->
  exists st', set_lazy i x st = Ok (tt, st', [])
    /\ same_shape st st'
    /\ (forall j, L st' j = if j =? i then x else L st j)
    /\ (forall j, T st' j = T st j).
Proof.
  intros H. eexists. unfold set_lazy. rewrite vset_in by done.
  split; [done|]. split; [|split].
  - repeat split. cbn. by rewrite length_insert.
  - intros j. unfold L. cbn [lazy]. by apply vget_insert.
  - done.
Qed.

Lemma updateLazy_spec st i s e :
  wf st -> inb (n st) i s e -> 0 <= s <= e ->
  exists st',
    updateLazy i s e st = Ok (tt, st', [mkEvent i s e st'])
    /\ same_shape st st'
    /\ L st' i = 0
    /\ T st' i = T st i + L st i * (e - s + 1)
    /\ (forall j, j <> i -> T st' j = T st j)
    /\ (s < e -> L st' (2 * i) = L st (2 * i) + L st i
                 /\ L st' (2 * i + 1) = L st (2 * i + 1) + L st i)
    /\ (forall j, j <> i -> (s < e -> j <> 2 * i /\ j <> 2 * i + 1) -> L st' j = L st j).
Proof.
  intros (Hn & Ht & Hl) Hin Hse.
  pose proof Hin as [Hi _].
  unfold updateLazy, bind.
  rewrite get_lazy_ok by lia.
  destruct (Z.eqb_spec (L st i) 0) as [E0|E0]; cbn [negb].
  - cbn. exists st. rewrite E0. repeat split; try done; lia.
  - rewrite get_tree_ok by lia. rewrite get_lazy_ok by lia.
    destruct (set_tree_ok st i (T st i + L st i * (e - s + 1))) as (st1 & -> & S1 & T1 & L1); [lia|].
    destruct S1 as (Sn1 & St1 & Sl1).
    destruct (Z.eqb_spec s e) as [Ese|Ese]; cbn [negb]; cbv beta iota.
    + cbn [ret].
      destruct (set_lazy_ok st1 i 0) as (st2 & -> & S2 & L2 & T2); [lia|].
      cbn. exists st2. destruct S2 as (Sn2 & St2 & Sl2).
      split; [done|]. split; [repeat split; congruence|].
      split; [by rewrite L2, Z.eqb_refl|].
      split; [by rewrite T2, T1, Z.eqb_refl|].
      split; [intros j Hj; rewrite T2, T1; by destruct (Z.eqb_spec j i)|].
      split; [lia|].
      intros j Hj _. rewrite L2, L1. by destruct (Z.eqb_spec j i).
    + destruct (inb_left (n st) i s e) as [Hi1 _]; [lia|lia|done|].
      destruct (inb_right (n st) i s e) as [Hi2 _]; [lia|lia|done|].
      rewrite (get_lazy_ok st1) by lia. rewrite (get_lazy_ok st1) by lia.
      destruct (set_lazy_ok st1 (2 * i) (L st1 (2 * i) + L st1 i))
        as (st2 & -> & (Sn2 & St2 & Sl2) & L2 & T2); [lia|].
      rewrite (get_lazy_ok st2) by lia. rewrite (get_lazy_ok st2) by lia.
      destruct (set_lazy_ok st2 (2 * i + 1) (L st2 (2 * i + 1) + L st2 i))
        as (st3 & -> & (Sn3 & St3 & Sl3) & L3 & T3); [lia|].
      destruct (set_lazy_ok st3 i 0) as (st4 & -> & (Sn4 & St4 & Sl4) & L4 & T4); [lia|].
      cbn. exists st4.
      split; [done|]. split; [repeat split; congruence|].
      split; [by rewrite L4, Z.eqb_refl|].
      split; [by rewrite T4, T3, T2, T1, Z.eqb_refl|].
      split; [intros j Hj; rewrite T4, T3, T2, T1; by destruct (Z.eqb_spec j i)|].
      split.
      * intros _. rewrite !L4, !L3, !L2, !L1.
        repeat match goal with |- context [Z.eqb ?a ?b] => destruct (Z.eqb_spec a b); try lia end.
      * intros j Hj Hj'. rewrite !L4, !L3, !L2, !L1.
        repeat match goal with |- context [Z.eqb ?a ?b] => destruct (Z.eqb_spec a b); try lia end.
Qed.

Lemma bind_ok {A B} (m : M A) (k : A -> M B) st a st1 tr1 b st2 tr2 :
  m st = Ok (a, st1, tr1) -> k a st1 = Ok (b, st2, tr2) ->
  bind m k st = Ok (b, st2, tr1 ++ tr2).
Proof. intros H1 H2. unfold bind. by rewrite H1, H2. Qed.

(** ** The precondition of the recursive calls *)

Lemma pre_range st i s e a :
  pre st i s e a -> 0 < i < 4 * n st /\ 0 <= s <= e /\ e <= n st - 1.
Proof.
  intros [(Hn & _) (Hi & _) Hat _].
  pose proof (node_at_range _ _ _ _ _ Hn Hat). lia.
Qed.

Lemma pre_ext st i s e a a' :
  (forall k, s <= k <= e -> a k = a' k) -> pre st i s e a -> pre st i s e a'.
Proof. intros Hext [? ? ? ?]. split; try done. by eapply R_ext. Qed.

Lemma pre_left st i s e a :
  pre st i s e a -> s < e -> L st i = 0 -> pre st (2 * i) s (Z.quot (s + e) 2) a.
Proof.
  intros Hp Hse HL. pose proof (pre_range _ _ _ _ _ Hp).
  destruct Hp as [Hwf Hin Hat HR].
  split; [done|apply inb_left; [lia|done|done]|eapply node_left; [done|done|lia]|].
  by apply R_children.
Qed.

Lemma pre_right st i s e a :
  pre st i s e a -> s < e -> L st i = 0 ->
  pre st (2 * i + 1) (Z.quot (s + e) 2 + 1) e a.
Proof.
  intros Hp Hse HL. pose proof (pre_range _ _ _ _ _ Hp).
  destruct Hp as [Hwf Hin Hat HR].
  split; [done|apply inb_right; [lia|done|done]|eapply node_right; [done|done|lia]|].
  by apply R_children.
Qed.

(** Moving [pre] at a node across a change that stayed inside the subtree of
    its sibling. *)
Lemma pre_frame_l st st' i s e a :
  0 < i -> pre st (2 * i + 1) s e a -> frame (2 * i) st st' -> pre st' (2 * i + 1) s e a.
Proof.
  intros Hi [Hwf Hin Hat HR] Hf.
  split; [by eapply frame_wf|by rewrite (frame_n _ _ _ Hf)| |].
  - apply (node_at_frame st); [by eapply frame_n| |done].
    intros j Hj. by apply (frame_below (2 * i) st st'); [lia| |lia].
  - apply (R_agree st); [|done]. by apply frame_agree_l.
Qed.

Lemma pre_frame_r st st' i s e a :
  0 < i -> pre st (2 * i) s e a -> frame (2 * i + 1) st st' -> pre st' (2 * i) s e a.
Proof.
  intros Hi [Hwf Hin Hat HR] Hf.
  split; [by eapply frame_wf|by rewrite (frame_n _ _ _ Hf)| |].
  - apply (node_at_frame st); [by eapply frame_n| |done].
    intros j Hj. by apply (frame_below (2 * i + 1) st st'); [lia| |lia].
  - apply (R_agree st); [|done]. by apply frame_agree_r.
Qed.

(** [pre] at a node after a change inside its subtree, once the subtree is
    known to stand for [a'] again. *)
Lemma pre_up st st' i s e a a' :
  pre st i s e a -> frame i st st' -> R st' i s e a' -> pre st' i s e a'.
Proof.
  intros Hp Hf HR. pose proof (pre_range _ _ _ _ _ Hp).
  destruct Hp as [Hwf Hin Hat _].
  split; [by eapply frame_wf|by rewrite (frame_n _ _ _ Hf)| |done].
  apply (node_at_frame st); [by eapply frame_n| |done].
  intros j Hj. by apply (frame_below i st st'); [lia| |lia].
Qed.

Lemma R_sum0 st i s e a : R st i s e a -> L st i = 0 -> T st i = range_sum a s e.
Proof. intros H HL. pose proof (R_top _ _ _ _ _ H) as Ht. rewrite HL in Ht. lia. Qed.

(** [updateLazy] at a node that satisfies [pre]. *)
Lemma updateLazy_pre st i s e a :
  pre st i s e a ->
  exists st',
    updateLazy i s e st = Ok (tt, st', [mkEvent i s e st'])
    /\ frame i st st' /\ pre st' i s e a /\ L st' i = 0
    /\ good (mkEvent i s e st').
Proof.
  intros Hp. pose proof (pre_range _ _ _ _ _ Hp) as (Hi & Hse & He).
  pose proof Hp as [Hwf Hin Hat HR].
  destruct (updateLazy_spec st i s e Hwf Hin ltac:(lia))
    as (st' & E & Hs & HL & HT & HTo & HLc & HLo).
  assert (frame i st st') as Hf.
  { split; [done|]. intros j Hj. split.
    - apply HTo. intros ->. apply Hj, desc_refl.
    - apply HLo.
      + intros ->. apply Hj, desc_refl.
      + intros _. split; intros ->; apply Hj; [apply desc_left|apply desc_right]; apply desc_refl. }
  assert (R st' i s e a) as HR'.
  { destruct HR as [i s a H|i s e a Hlt Ht Hcl Hcr].
    - apply R_leaf. rewrite HT, HL. lia.
    - destruct (HLc Hlt) as [HL1 HL2].
      apply R_node; [done|rewrite HT, HL; lia| |].
      + eapply R_ext; [|eapply (R_shift st st' (2 * i) _ _ _ (L st i)); [| | | |exact Hcl]].
        * intros k _. cbn. lia.
        * apply HTo. lia.
        * done.
        * intros j Hj. apply desc_ge in Hj; [|lia]. split; [apply HTo|apply HLo]; lia.
        * intros j Hj. apply desc_ge in Hj; [|lia]. split; [apply HTo|apply HLo]; lia.
      + eapply R_ext; [|eapply (R_shift st st' (2 * i + 1) _ _ _ (L st i)); [| | | |exact Hcr]].
        * intros k _. cbn. lia.
        * apply HTo. lia.
        * done.
        * intros j Hj. apply desc_ge in Hj; [|lia]. split; [apply HTo|apply HLo]; lia.
        * intros j Hj. apply desc_ge in Hj; [|lia]. split; [apply HTo|apply HLo]; lia. }
  assert (pre st' i s e a) as Hp' by (by eapply pre_up).
  exists st'. split; [done|]. split; [done|]. split; [done|]. split; [done|].
  destruct Hp' as [(Hn' & _) _ Hat' _]. by eapply good_intro.
Qed.

Lemma children_frames st1 st2 st3 i :
  0 < i -> frame (2 * i) st1 st2 -> frame (2 * i + 1) st2 st3 ->
  frame i st1 st3 /\ T st3 i = T st1 i /\ L st3 i = L st1 i.
Proof.
  intros Hi F2 F3. split.
  - eapply frame_trans; [by apply frame_child_l|by apply frame_child_r].
  - destruct (frame_below (2 * i) st1 st2 i) as [<- <-]; [lia|done|lia|].
    by apply (frame_below (2 * i + 1) st2 st3 i); [lia| |lia].
Qed.

Lemma R_node0 st i s e a :
  s < e -> L st i = 0 -> T st i = range_sum a s e ->
  R st (2 * i) s (Z.quot (s + e) 2) a -> R st (2 * i + 1) (Z.quot (s + e) 2 + 1) e a ->
  R st i s e a.
Proof.
  intros Hse HL HT Hl Hr. apply R_node; [done|rewrite HL; lia| |].
  - eapply R_ext; [|exact Hl]. intros k _. cbn. lia.
  - eapply R_ext; [|exact Hr]. intros k _. cbn. lia.
Qed.

(** ** The recursive member functions *)

Lemma queryRange_spec fuel : forall i s e l r st a,
  pre st i s e a -> (Z.to_nat (e - s) < fuel)%nat ->
  exists st' tr,
    queryRange fuel i s e l r st = Ok (range_sum (restrict l r a) s e, st', tr)
    /\ frame i st st' /\ pre st' i s e a /\ Forall good tr.
Proof.
  induction fuel as [|fuel IH]; intros i s e l r st a Hp Hf; [lia|].
  pose proof (pre_range _ _ _ _ _ Hp) as (Hi & Hse & He).
  cbn [queryRange].
  destruct ((s >? r) || (e <? l)) eqn:Edis.
  { exists st, []. split; [|split; [apply frame_refl|done]].
    unfold ret. do 3 f_equal. rewrite <- (range_sum_zero s e). apply range_sum_ext.
    intros k Hk. unfold restrict.
    destruct ((l <=? k) && (k <=? r)) eqn:E; [lia|done]. }
  destruct (updateLazy_pre _ _ _ _ _ Hp) as (st1 & E1 & F1 & P1 & L1 & G1).
  destruct ((s >=? l) && (e <=? r)) eqn:Ecov.
  { exists st1, [mkEvent i s e st1].
    split; [|split; [done|split; [done|by constructor]]].
    pose proof (pre_range _ _ _ _ _ P1).
    destruct P1 as [(_ & Ht1 & _) _ _ HR1].
    erewrite bind_ok; [|exact E1|apply get_tree_ok; lia].
    do 3 f_equal. rewrite (R_sum0 _ _ _ _ _ HR1 L1). apply range_sum_ext.
    intros k Hk. unfold restrict.
    destruct ((l <=? k) && (k <=? r)) eqn:E; [done|lia]. }
  assert (s < e) as Hlt by lia.
  pose proof (mid_bounds s e ltac:(lia) Hlt) as Hm.
  pose proof (mid_halves s e ltac:(lia) Hlt) as Hh.
  destruct (IH (2 * i) s (Z.quot (s + e) 2) l r st1 a) as (st2 & tr2 & E2 & F2 & P2 & G2);
    [by apply pre_left|lia|].
  destruct (IH (2 * i + 1) (Z.quot (s + e) 2 + 1) e l r st2 a) as (st3 & tr3 & E3 & F3 & P3 & G3);
    [apply (pre_frame_l st1); [lia|by apply pre_right|done]|lia|].
  destruct (children_frames st1 st2 st3 i) as (F13 & HT3 & HL3); [lia|done|done|].
  pose proof (pre_frame_r st2 st3 i _ _ _ ltac:(lia) P2 F3) as P2'.
  rewrite (range_sum_split (restrict l r a) s (Z.quot (s + e) 2) e) by lia.
  eexists st3, _.
  split; [|split; [by eapply frame_trans|split]].
  - eapply bind_ok; [exact E1|]. eapply bind_ok; [exact E2|].
    eapply bind_ok; [exact E3|]. reflexivity.
  - eapply pre_up; [exact P1|done|].
    apply R_node0; [done|congruence| |apply P2'|apply P3].
    rewrite HT3. apply R_sum0; [apply P1|done].
  - repeat (apply Forall_app; split); try done. by constructor.
Qed.

Lemma bind_ok_nil {A B} (m : M A) (k : A -> M B) st a st1 :
  m st = Ok (a, st1, []) -> bind m k st = k a st1.
Proof. intros H. unfold bind. rewrite H. by destruct (k a st1) as [[[b st2] tr2]|f]. Qed.

(** A write to [tree[i]] or [lazy[i]] stays inside the subtree of [i] and
    outside the subtrees of its children. *)
Lemma write_frame st st' i :
  0 < i -> same_shape st st' ->
  (forall j, j <> i -> T st' j = T st j) -> (forall j, j <> i -> L st' j = L st j) ->
  frame i st st' /\ agree_on (2 * i) st st' /\ agree_on (2 * i + 1) st st'.
Proof.
  intros Hi Hs HT HL. split; [|split].
  - split; [done|]. intros j Hj.
    assert (j <> i) by (intros ->; apply Hj, desc_refl). auto.
  - intros j Hj. apply desc_ge in Hj; [|lia]. split; [apply HT|apply HL]; lia.
  - intros j Hj. apply desc_ge in Hj; [|lia]. split; [apply HT|apply HL]; lia.
Qed.

(** The common tail of [updateRange] and [updatePoint]: push both children,
    then recompute the aggregate of the node. *)
Lemma recombine st1 st3 i s e a a' :
  pre st1 i s e a -> s < e -> frame i st1 st3 -> L st3 i = 0 ->
  pre st3 (2 * i) s (Z.quot (s + e) 2) a' ->
  pre st3 (2 * i + 1) (Z.quot (s + e) 2 + 1) e a' ->
  exists st' tr,
    (updateLazy (2 * i) s (Z.quot (s + e) 2) >>
     updateLazy (2 * i + 1) (Z.quot (s + e) 2 + 1) e >>
     let* x := get_tree (2 * i) in
     let* y := get_tree (2 * i + 1) in
     set_tree i (x + y)) st3 = Ok (tt, st', tr)
    /\ frame i st1 st' /\ pre st' i s e a' /\ L st' i = 0 /\ Forall good tr.
Proof.
  intros P1 Hlt F13 HL3 Pl Pr.
  pose proof (pre_range _ _ _ _ _ P1) as (Hi & Hse & He).
  destruct (updateLazy_pre _ _ _ _ _ Pl) as (st4 & E4 & F4 & Pl4 & Ll4 & G4).
  pose proof (pre_frame_l st3 st4 i _ _ _ ltac:(lia) Pr F4) as Pr4.
  destruct (updateLazy_pre _ _ _ _ _ Pr4) as (st5 & E5 & F5 & Pr5 & Lr5 & G5).
  pose proof (pre_frame_r st4 st5 i _ _ _ ltac:(lia) Pl4 F5) as Pl5.
  destruct (children_frames st3 st4 st5 i) as (F35 & HT5 & HL5); [lia|done|done|].
  assert (L st5 (2 * i) = 0) as Ll5.
  { destruct (frame_agree_r i st4 st5 ltac:(lia) F5 (2 * i) (desc_refl _)) as [_ ->]. done. }
  pose proof (pre_range _ _ _ _ _ Pl5) as (Hil & _).
  pose proof (pre_range _ _ _ _ _ Pr5) as (Hir & _).
  pose proof (pre_wf _ _ _ _ _ Pl5) as (Hn5 & Ht5 & Hz5).
  destruct (set_tree_ok st5 i (T st5 (2 * i) + T st5 (2 * i + 1)))
    as (st6 & E6 & S6 & T6 & L6);
    [pose proof (frame_n _ _ _ F35); pose proof (frame_n _ _ _ F13); lia|].
  destruct (write_frame st5 st6 i) as (F6 & Al6 & Ar6); [lia|done| |done|].
  { intros j Hj. rewrite T6. by destruct (Z.eqb_spec j i). }
  assert (frame i st1 st6) as F16.
  { eapply frame_trans; [exact F13|]. eapply frame_trans; [exact F35|exact F6]. }
  eexists st6, _. split; [|split; [done|split; [|split]]].
  - eapply bind_ok; [exact E4|]. eapply bind_ok; [exact E5|].
    rewrite (bind_ok_nil _ _ _ _ _ (get_tree_ok st5 (2 * i) ltac:(lia))).
    rewrite (bind_ok_nil _ _ _ _ _ (get_tree_ok st5 (2 * i + 1) ltac:(lia))).
    exact E6.
  - eapply pre_up; [exact P1|done|].
    pose proof (mid_bounds s e ltac:(lia) Hlt).
    apply R_parent; try lia.
    + rewrite L6. congruence.
    + rewrite L6. done.
    + rewrite L6. done.
    + rewrite !T6, Z.eqb_refl.
      destruct (Z.eqb_spec (2 * i) i); [lia|]. destruct (Z.eqb_spec (2 * i + 1) i); [lia|]. done.
    + apply (R_agree st5); [done|apply Pl5].
    + apply (R_agree st5); [done|apply Pr5].
  - rewrite L6. congruence.
  - repeat (apply Forall_app; split); try done; by constructor.
Qed.

Lemma updateRange_rec_spec fuel : forall i s e l r v st a,
  pre st i s e a -> (Z.to_nat (e - s) < fuel)%nat ->
  exists st' tr,
    updateRange_rec fuel i s e l r v st = Ok (tt, st', tr)
    /\ frame i st st' /\ pre st' i s e (range_add l r v a) /\ L st' i = 0
    /\ Forall good tr.
Proof.
  induction fuel as [|fuel IH]; intros i s e l r v st a Hp Hf; [lia|].
  pose proof (pre_range _ _ _ _ _ Hp) as (Hi & Hse & He).
  cbn [updateRange_rec].
  destruct (updateLazy_pre _ _ _ _ _ Hp) as (st1 & E1 & F1 & P1 & L1 & G1).
  pose proof (pre_range _ _ _ _ _ P1) as (Hi1 & _).
  pose proof (pre_wf _ _ _ _ _ P1) as (Hn1 & Ht1 & Hz1).
  destruct ((s >? r) || (e <? l)) eqn:Edis.
  { eexists st1, _. split; [|split; [done|split; [|split; [done|]]]].
    - eapply bind_ok; [exact E1|]. reflexivity.
    - eapply pre_ext; [|exact P1]. intros k Hk. unfold range_add.
      destruct ((l <=? k) && (k <=? r)) eqn:E; [lia|done].
    - repeat (apply Forall_app; split); try done; by constructor. }
  destruct ((s >=? l) && (e <=? r)) eqn:Ecov.
  { destruct (set_lazy_ok st1 i (L st1 i + v)) as (st2 & E2 & S2 & L2 & T2); [lia|].
    destruct (write_frame st1 st2 i) as (F2 & Al2 & Ar2); [lia|done|done| |].
    { intros j Hj. rewrite L2. by destruct (Z.eqb_spec j i). }
    assert (pre st2 i s e (fun k => a k + v)) as P2.
    { eapply pre_up; [exact P1|done|].
      apply (R_shift st1); [done|by rewrite L2, Z.eqb_refl|done|done|apply P1]. }
    destruct (updateLazy_pre _ _ _ _ _ P2) as (st3 & E3 & F3 & P3 & L3 & G3).
    eexists st3, _. split; [|split; [|split; [|split; [done|]]]].
    - eapply bind_ok; [exact E1|].
      rewrite (bind_ok_nil _ _ _ _ _ (get_lazy_ok st1 i ltac:(lia))).
      eapply bind_ok; [exact E2|]. exact E3.
    - eapply frame_trans; [exact F1|]. by eapply frame_trans.
    - eapply pre_ext; [|exact P3]. intros k Hk. unfold range_add.
      destruct ((l <=? k) && (k <=? r)) eqn:E; [done|lia].
    - repeat (apply Forall_app; split); try done; by constructor. }
  assert (s < e) as Hlt by lia.
  pose proof (mid_bounds s e ltac:(lia) Hlt) as Hm.
  pose proof (mid_halves s e ltac:(lia) Hlt) as Hh.
  destruct (IH (2 * i) s (Z.quot (s + e) 2) l r v st1 a) as (st2 & tr2 & E2 & F2 & P2 & _ & G2);
    [by apply pre_left|lia|].
  destruct (IH (2 * i + 1) (Z.quot (s + e) 2 + 1) e l r v st2 a) as (st3 & tr3 & E3 & F3 & P3 & _ & G3);
    [apply (pre_frame_l st1); [lia|by apply pre_right|done]|lia|].
  destruct (children_frames st1 st2 st3 i) as (F13 & HT3 & HL3); [lia|done|done|].
  pose proof (pre_frame_r st2 st3 i _ _ _ ltac:(lia) P2 F3) as P2'.
  destruct (recombine st1 st3 i s e a (range_add l r v a)) as (st6 & tr6 & E6 & F6 & P6 & L6 & G6);
    [done|done|done|congruence|done|done|].
  eexists st6, _. split; [|split; [by eapply frame_trans|split; [done|split; [done|]]]].
  - eapply bind_ok; [exact E1|]. eapply bind_ok; [exact E2|].
    eapply bind_ok; [exact E3|]. exact E6.
  - repeat (apply Forall_app; split); try done; by constructor.
Qed.

Lemma updatePoint_rec_spec fuel : forall i s e idx v st a,
  pre st i s e a -> (Z.to_nat (e - s) < fuel)%nat ->
  exists st' tr,
    updatePoint_rec fuel i s e idx v st = Ok (tt, st', tr)
    /\ frame i st st' /\ pre st' i s e (point_set (Z.max s (Z.min e idx)) v a)
    /\ L st' i = 0 /\ Forall good tr.
Proof.
  induction fuel as [|fuel IH]; intros i s e idx v st a Hp Hf; [lia|].
  pose proof (pre_range _ _ _ _ _ Hp) as (Hi & Hse & He).
  cbn [updatePoint_rec].
  destruct (updateLazy_pre _ _ _ _ _ Hp) as (st1 & E1 & F1 & P1 & L1 & G1).
  pose proof (pre_range _ _ _ _ _ P1) as (Hi1 & _).
  pose proof (pre_wf _ _ _ _ _ P1) as (Hn1 & Ht1 & Hz1).
  destruct (Z.eqb_spec s e) as [<-|Hne].
  { destruct (set_tree_ok st1 i v) as (st2 & E2 & S2 & T2 & L2); [lia|].
    destruct (write_frame st1 st2 i) as (F2 & _ & _); [lia|done| |done|].
    { intros j Hj. rewrite T2. by destruct (Z.eqb_spec j i). }
    eexists st2, _. split; [|split; [by eapply frame_trans|split; [|split]]].
    - eapply bind_ok; [exact E1|]. exact E2.
    - eapply pre_up; [exact P1|done|]. apply R_leaf.
      rewrite T2, L2, L1, Z.eqb_refl. unfold point_set.
      destruct (Z.eqb_spec s (Z.max s (Z.min s idx))); lia.
    - by rewrite L2.
    - repeat (apply Forall_app; split); try done; by constructor. }
  assert (s < e) as Hlt by lia.
  pose proof (mid_bounds s e ltac:(lia) Hlt) as Hm.
  pose proof (mid_halves s e ltac:(lia) Hlt) as Hh.
  set (p := Z.max s (Z.min e idx)).
  assert (exists st2 tr2,
    (if idx <=? Z.quot (s + e) 2
     then updatePoint_rec fuel (2 * i) s (Z.quot (s + e) 2) idx v
     else updatePoint_rec fuel (2 * i + 1) (Z.quot (s + e) 2 + 1) e idx v) st1
    = Ok (tt, st2, tr2)
    /\ frame i st1 st2 /\ L st2 i = 0
    /\ pre st2 (2 * i) s (Z.quot (s + e) 2) (point_set p v a)
    /\ pre st2 (2 * i + 1) (Z.quot (s + e) 2 + 1) e (point_set p v a)
    /\ Forall good tr2) as (st2 & tr2 & E2 & F2 & L2 & Pl & Pr & G2).
  { destruct (Z.leb_spec idx (Z.quot (s + e) 2)) as [Hle|Hgt].
    - destruct (IH (2 * i) s (Z.quot (s + e) 2) idx v st1 a) as (st2 & tr2 & E2 & F2 & P2 & _ & G2);
        [by apply pre_left|lia|].
      exists st2, tr2. split; [done|]. split; [by apply frame_child_l|].
      split; [destruct (frame_below (2 * i) st1 st2 i) as [_ ->]; [lia|done|lia|done]|].
      split; [|split; [|done]].
      + eapply pre_ext; [|exact P2]. intros k Hk. unfold point_set, p.
        replace (Z.max s (Z.min (Z.quot (s + e) 2) idx)) with (Z.max s (Z.min e idx)) by lia. done.
      + apply (pre_frame_l st1); [lia| |done].
        eapply pre_ext; [|by apply pre_right]. intros k Hk. unfold point_set, p.
        destruct (Z.eqb_spec k (Z.max s (Z.min e idx))); [lia|done].
    - destruct (IH (2 * i + 1) (Z.quot (s + e) 2 + 1) e idx v st1 a) as (st2 & tr2 & E2 & F2 & P2 & _ & G2);
        [by apply pre_right|lia|].
      exists st2, tr2. split; [done|]. split; [by apply frame_child_r|].
      split; [destruct (frame_below (2 * i + 1) st1 st2 i) as [_ ->]; [lia|done|lia|done]|].
      split; [|split; [|done]].
      + apply (pre_frame_r st1); [lia| |done].
        eapply pre_ext; [|by apply pre_left]. intros k Hk. unfold point_set, p.
        destruct (Z.eqb_spec k (Z.max s (Z.min e idx))); [lia|done].
      + eapply pre_ext; [|exact P2]. intros k Hk. unfold point_set, p.
        replace (Z.max (Z.quot (s + e) 2 + 1) (Z.min e idx)) with (Z.max s (Z.min e idx)) by lia. done. }
  destruct (recombine st1 st2 i s e a (point_set p v a)) as (st6 & tr6 & E6 & F6 & P6 & L6 & G6);
    [done|done|done|done|done|done|].
  eexists st6, _. split; [|split; [by eapply frame_trans|split; [done|split; [done|]]]].
  - eapply bind_ok; [exact E1|]. eapply bind_ok; [exact E2|]. exact E6.
  - repeat (apply Forall_app; split); try done; by constructor.
Qed.

Lemma queryMin_rec_spec T_max view fuel : forall i s e l r st a,
  pre st i s e a -> (Z.to_nat (e - s) < fuel)%nat ->
  exists st' tr,
    queryMin_rec T_max view fuel i s e l r st = Ok (cover_min T_max view fuel a s e l r, st', tr)
    /\ frame i st st' /\ pre st' i s e a /\ Forall good tr.
Proof.
  induction fuel as [|fuel IH]; intros i s e l r st a Hp Hf; [lia|].
  pose proof (pre_range _ _ _ _ _ Hp) as (Hi & Hse & He).
  cbn [queryMin_rec cover_min].
  destruct ((s >? r) || (e <? l)) eqn:Edis.
  { exists st, []. split; [done|split; [apply frame_refl|done]]. }
  destruct (updateLazy_pre _ _ _ _ _ Hp) as (st1 & E1 & F1 & P1 & L1 & G1).
  destruct ((s >=? l) && (e <=? r)) eqn:Ecov.
  { eexists st1, _.
    split; [|split; [done|split; [done|]]].
    - pose proof (pre_range _ _ _ _ _ P1).
      pose proof (pre_wf _ _ _ _ _ P1) as (_ & Ht1 & _).
      eapply bind_ok; [exact E1|].
      rewrite <- (R_sum0 st1 i s e a); [apply get_tree_view_ok; lia|apply P1|done].
    - repeat (apply Forall_app; split); try done; by constructor. }
  assert (s < e) as Hlt by lia.
  pose proof (mid_bounds s e ltac:(lia) Hlt) as Hm.
  pose proof (mid_halves s e ltac:(lia) Hlt) as Hh.
  destruct (IH (2 * i) s (Z.quot (s + e) 2) l r st1 a) as (st2 & tr2 & E2 & F2 & P2 & G2);
    [by apply pre_left|lia|].
  destruct (IH (2 * i + 1) (Z.quot (s + e) 2 + 1) e l r st2 a) as (st3 & tr3 & E3 & F3 & P3 & G3);
    [apply (pre_frame_l st1); [lia|by apply pre_right|done]|lia|].
  destruct (children_frames st1 st2 st3 i) as (F13 & HT3 & HL3); [lia|done|done|].
  pose proof (pre_frame_r st2 st3 i _ _ _ ltac:(lia) P2 F3) as P2'.
  eexists st3, _.
  split; [|split; [by eapply frame_trans|split]].
  - eapply bind_ok; [exact E1|]. eapply bind_ok; [exact E2|].
    eapply bind_ok; [exact E3|]. reflexivity.
  - eapply pre_up; [exact P1|done|].
    apply R_node0; [done|congruence| |apply P2'|apply P3].
    rewrite HT3. apply R_sum0; [apply P1|done].
  - repeat (apply Forall_app; split); try done. by constructor.
Qed.

Lemma read_arr_ok arr i st :
  0 <= i < Z.of_nat (length arr) -> read_arr arr i st = Ok (at_index arr i, st, []).
Proof. intros H. unfold read_arr. by rewrite vget_in. Qed.

Lemma set_tree_lazy i x st u st' tr :
  set_tree i x st = Ok (u, st', tr) -> lazy st' = lazy st.
Proof. unfold set_tree. destruct (vset (tree st) i x); [|done]. by intros [= _ <- _]. Qed.

(** [build] touches [tree] only, and fills the subtree of its node. *)
Lemma build_spec arr fuel : forall i s e st,
  wf st -> n st = Z.of_nat (length arr) -> inb (n st) i s e ->
  0 <= s <= e -> e <= n st - 1 -> (Z.to_nat (e - s) < fuel)%nat ->
  (forall j, L st j = 0) ->
  exists st',
    build fuel arr i s e st = Ok (tt, st', [])
    /\ frame i st st' /\ lazy st' = lazy st /\ R st' i s e (at_index arr).
Proof.
  induction fuel as [|fuel IH]; intros i s e st Hwf Hn Hin Hse He Hf HL; [lia|].
  pose proof Hin as [Hi _]. pose proof Hwf as (Hn1 & Ht & Hz).
  cbn [build].
  destruct (Z.eqb_spec s e) as [<-|Hne].
  { rewrite (bind_ok_nil _ _ _ _ _ (read_arr_ok arr s st ltac:(lia))).
    unfold set_tree. rewrite vset_in by lia.
    eexists. split; [done|]. split; [|split; [done|]].
    - apply write_frame; [lia| | |done].
      + repeat split. cbn. by rewrite length_insert.
      + intros j Hj. unfold T. cbn [tree]. rewrite vget_insert by lia.
        by destruct (Z.eqb_spec j i).
    - apply R_leaf. change (L _ i) with (L st i). rewrite HL.
      unfold T. cbn [tree]. rewrite vget_insert by lia. rewrite Z.eqb_refl. lia. }
  assert (s < e) as Hlt by lia.
  pose proof (mid_bounds s e ltac:(lia) Hlt) as Hm.
  pose proof (mid_halves s e ltac:(lia) Hlt) as Hh.
  destruct (IH (2 * i) s (Z.quot (s + e) 2) st) as (st2 & E2 & F2 & Z2 & R2);
    [done|done|apply inb_left; [lia|done|done]|lia|lia|lia|done|].
  pose proof (frame_wf _ _ _ Hwf F2) as Hwf2.
  pose proof (frame_n _ _ _ F2) as Hn2.
  assert (forall j, L st2 j = 0) as HL2 by (intros j; unfold L; rewrite Z2; apply HL).
  destruct (IH (2 * i + 1) (Z.quot (s + e) 2 + 1) e st2) as (st3 & E3 & F3 & Z3 & R3);
    [done|congruence|rewrite Hn2; apply inb_right; [lia|done|done]|lia|lia|lia|done|].
  pose proof (frame_wf _ _ _ Hwf2 F3) as (_ & Ht3 & _).
  pose proof (frame_n _ _ _ F3) as Hn3.
  assert (forall j, L st3 j = 0) as HL3 by (intros j; unfold L; rewrite Z3; apply HL2).
  destruct (inb_left (n st) i s e) as [Hil _]; [lia|done|done|].
  destruct (inb_right (n st) i s e) as [Hir _]; [lia|done|done|].
  destruct (children_frames st st2 st3 i) as (F13 & _ & _); [lia|done|done|].
  destruct (set_tree_ok st3 i (T st3 (2 * i) + T st3 (2 * i + 1)))
    as (st4 & E4 & S4 & T4 & L4); [lia|].
  destruct (write_frame st3 st4 i) as (F4 & Al4 & Ar4); [lia|done| |done|].
  { intros j Hj. rewrite T4. by destruct (Z.eqb_spec j i). }
  exists st4. split; [|split; [by eapply frame_trans|split]].
  - rewrite (bind_ok_nil _ _ _ _ _ E2). rewrite (bind_ok_nil _ _ _ _ _ E3).
    rewrite (bind_ok_nil _ _ _ _ _ (get_tree_ok st3 (2 * i) ltac:(lia))).
    rewrite (bind_ok_nil _ _ _ _ _ (get_tree_ok st3 (2 * i + 1) ltac:(lia))).
    exact E4.
  - rewrite (set_tree_lazy _ _ _ _ _ _ E4). congruence.
  - apply R_parent; try lia; try (rewrite L4; apply HL3).
    + rewrite !T4, Z.eqb_refl.
      destruct (Z.eqb_spec (2 * i) i); [lia|]. destruct (Z.eqb_spec (2 * i + 1) i); [lia|]. done.
    + apply (R_agree st3); [done|]. apply (R_agree st2); [by apply frame_agree_r; [lia|]|done].
    + apply (R_agree st3); [done|done].
Qed.

(** ** The public operations *)

Lemma bind_get_n {B} (k : Z -> M B) st : bind get_n k st = k (n st) st.
Proof. by apply bind_ok_nil. Qed.

Lemma constructor_spec arr fuel :
  arr <> [] -> (length arr <= fuel)%nat ->
  exists st,
    AdvancedSegmentTree fuel arr = Ok (st, [])
    /\ n st = Z.of_nat (length arr)
    /\ lazy st = replicate (Z.to_nat (4 * n st)) 0
    /\ Rep st (at_index arr).
Proof.
  intros Hne Hf. assert (1 <= Z.of_nat (length arr)) as Hlen by (destruct arr; [done|cbn; lia]).
  unfold AdvancedSegmentTree. cbv zeta.
  set (nn := Z.of_nat (length arr)) in *.
  set (st0 := mk (replicate (Z.to_nat (4 * nn)) 0) (replicate (Z.to_nat (4 * nn)) 0) nn).
  assert (wf st0) as Hwf0.
  { unfold wf, st0. cbn. rewrite length_replicate. lia. }
  destruct (build_spec arr fuel 1 0 (nn - 1) st0) as (st & E & F & Hz & HR);
    [done|done|by apply inb_root|lia|cbn; lia|lia| |].
  { intros j. apply vget_replicate_zero. }
  exists st. rewrite E. pose proof (frame_n _ _ _ F) as Hn. cbn in Hn.
  split; [done|]. split; [done|]. split; [by rewrite Hz, Hn|].
  split; [by eapply frame_wf|rewrite Hn; by apply inb_root| |by rewrite Hn].
  constructor.
Qed.

Lemma querySum_spec fuel l r st a :
  Rep st a -> (Z.to_nat (n st) <= fuel)%nat ->
  exists st' tr,
    querySum fuel l r st = Ok (range_sum (restrict l r a) 0 (n st - 1), st', tr)
    /\ n st' = n st /\ Rep st' a /\ Forall good tr.
Proof.
  intros Hp Hf. pose proof (pre_range _ _ _ _ _ Hp).
  destruct (queryRange_spec fuel 1 0 (n st - 1) l r st a Hp ltac:(lia))
    as (st' & tr & E & F & P & G).
  exists st', tr. pose proof (frame_n _ _ _ F) as Hn.
  split; [unfold querySum; rewrite bind_get_n; exact E|].
  split; [done|]. split; [|done]. unfold Rep. by rewrite Hn.
Qed.

Lemma updateRange_spec fuel l r v st a :
  Rep st a -> (Z.to_nat (n st) <= fuel)%nat ->
  exists st' tr,
    updateRange fuel l r v st = Ok (tt, st', tr)
    /\ n st' = n st /\ Rep st' (range_add l r v a) /\ Forall good tr.
Proof.
  intros Hp Hf. pose proof (pre_range _ _ _ _ _ Hp).
  destruct (updateRange_rec_spec fuel 1 0 (n st - 1) l r v st a Hp ltac:(lia))
    as (st' & tr & E & F & P & _ & G).
  exists st', tr. pose proof (frame_n _ _ _ F) as Hn.
  split; [unfold updateRange; rewrite bind_get_n; exact E|].
  split; [done|]. split; [|done]. unfold Rep. by rewrite Hn.
Qed.

Lemma updatePoint_spec fuel idx v st a :
  Rep st a -> (Z.to_nat (n st) <= fuel)%nat ->
  exists st' tr,
    updatePoint fuel idx v st = Ok (tt, st', tr)
    /\ n st' = n st
    /\ Rep st' (point_set (Z.max 0 (Z.min (n st - 1) idx)) v a) /\ Forall good tr.
Proof.
  intros Hp Hf. pose proof (pre_range _ _ _ _ _ Hp).
  destruct (updatePoint_rec_spec fuel 1 0 (n st - 1) idx v st a Hp ltac:(lia))
    as (st' & tr & E & F & P & _ & G).
  exists st', tr. pose proof (frame_n _ _ _ F) as Hn.
  split; [unfold updatePoint; rewrite bind_get_n; exact E|].
  split; [done|]. split; [|done]. unfold Rep. by rewrite Hn.
Qed.

Lemma queryMin_spec T_max view fuel l r st a :
  Rep st a -> (Z.to_nat (n st) <= fuel)%nat ->
  exists st' tr,
    queryMin T_max view fuel l r st = Ok (cover_min T_max view fuel a 0 (n st - 1) l r, st', tr)
    /\ n st' = n st /\ Rep st' a /\ Forall good tr.
Proof.
  intros Hp Hf. pose proof (pre_range _ _ _ _ _ Hp).
  destruct (queryMin_rec_spec T_max view fuel 1 0 (n st - 1) l r st a Hp ltac:(lia))
    as (st' & tr & E & F & P & G).
  exists st', tr. pose proof (frame_n _ _ _ F) as Hn.
  split; [unfold queryMin; rewrite bind_get_n; exact E|].
  split; [done|]. split; [|done]. unfold Rep. by rewrite Hn.
Qed.

Lemma at_index_lookup xs (k : nat) x : xs !! k = Some x -> at_index xs (Z.of_nat k) = x.
Proof.
  intros H. unfold at_index, vget. destruct (Z.leb_spec 0 (Z.of_nat k)); [|lia].
  by rewrite Nat2Z.id, H.
Qed.

Lemma materialize_eq nn a xs :
  0 <= nn -> Z.of_nat (length xs) = nn ->
  (forall k, 0 <= k < nn -> at_index xs k = a k) -> xs = materialize nn a.
Proof.
  intros Hnn Hlen H. apply (list_eq_same_length _ _ (Z.to_nat nn)).
  - unfold materialize. rewrite length_fmap, length_seqZ. done.
  - lia.
  - intros k x y Hk Hx Hy. unfold materialize in Hy.
    rewrite list_lookup_fmap, lookup_seqZ_lt in Hy by lia. cbn in Hy.
    injection Hy as <-. rewrite Z.add_0_l, <- H by lia. symmetry. by apply at_index_lookup.
Qed.

Lemma range_sum_restrict_point a k nn :
  0 <= k <= nn - 1 -> range_sum (restrict k k a) 0 (nn - 1) = a k.
Proof.
  intros H. rewrite range_sum_restrict.
  replace (Z.max k 0) with k by lia. replace (Z.min k (nn - 1)) with k by lia.
  apply range_sum_single.
Qed.

Lemma getCurrentArray_loop_spec fuel count : forall i res st a,
  Rep st a -> (Z.to_nat (n st) <= fuel)%nat ->
  0 <= i <= n st -> Z.of_nat (length res) = n st -> (Z.to_nat (n st - i) < count)%nat ->
  exists res' st' tr,
    getCurrentArray_loop count fuel i res st = Ok (res', st', tr)
    /\ n st' = n st /\ Rep st' a /\ Forall good tr
    /\ length res' = length res
    /\ (forall k, 0 <= k < i -> at_index res' k = at_index res k)
    /\ (forall k, i <= k < n st -> at_index res' k = a k).
Proof.
  induction count as [|count IH]; intros i res st a Hp Hf Hi Hlen Hc; [lia|].
  cbn [getCurrentArray_loop]. rewrite bind_get_n.
  destruct (Z.ltb_spec i (n st)) as [Hlt|Hge].
  - destruct (querySum_spec fuel i i st a Hp Hf) as (st1 & tr1 & E1 & Hn1 & P1 & G1).
    rewrite range_sum_restrict_point in E1 by lia.
    destruct (IH (i + 1) (<[Z.to_nat i := a i]> res) st1 a) as (res' & st' & tr & E & Hn & P & G & Hl & Hlo & Hhi);
      [done|lia|lia|rewrite length_insert; lia|lia|].
    eexists res', st', _. split; [|split; [congruence|split; [done|split; [|split; [|split]]]]].
    + eapply bind_ok; [exact E1|]. rewrite vset_in by lia. exact E.
    + apply Forall_app. done.
    + by rewrite Hl, length_insert.
    + intros k Hk. rewrite Hlo by lia. unfold at_index. rewrite vget_insert by lia.
      destruct (Z.eqb_spec k i); [lia|done].
    + intros k Hk. destruct (Z.eq_dec k i) as [->|Hne].
      * rewrite Hlo by lia. unfold at_index. rewrite vget_insert by lia.
        by rewrite Z.eqb_refl.
      * apply Hhi. lia.
  - exists res, st, []. do 6 (split; [done|]). intros k Hk. lia.
Qed.

Lemma getCurrentArray_spec fuel count st a :
  Rep st a -> (Z.to_nat (n st) <= fuel)%nat -> (Z.to_nat (n st) < count)%nat ->
  exists st' tr,
    getCurrentArray count fuel st = Ok (materialize (n st) a, st', tr)
    /\ n st' = n st /\ Rep st' a /\ Forall good tr.
Proof.
  intros Hp Hf Hc. pose proof (pre_range _ _ _ _ _ Hp).
  destruct (getCurrentArray_loop_spec fuel count 0 (replicate (Z.to_nat (n st)) 0) st a)
    as (res' & st' & tr & E & Hn & P & G & Hl & _ & Hhi);
    [done|done|lia|rewrite length_replicate; lia|lia|].
  exists st', tr. split; [|done].
  unfold getCurrentArray. rewrite bind_get_n, E. do 3 f_equal.
  apply materialize_eq; [lia| |done]. rewrite Hl, length_replicate. lia.
Qed.

(** ** Sequences of public operations *)

Lemma exec_spec T_max fuel o st a :
  Rep st a -> (Z.to_nat (n st) <= fuel)%nat ->
  exists st' tr,
    exec T_max fuel o st = Ok (abs_result T_max fuel (n st) o a, st', tr)
    /\ n st' = n st /\ Rep st' (abs_state (n st) o a) /\ Forall good tr.
Proof.
  intros Hp Hf. destruct o as [l r v|l r|idx v|l r|]; cbn [exec abs_result abs_state].
  - destruct (updateRange_spec fuel l r v st a Hp Hf) as (st' & tr & E & Hn & P & G).
    eexists st', _. split; [eapply bind_ok; [exact E|reflexivity]|].
    split; [done|]. split; [done|]. by rewrite app_nil_r.
  - destruct (querySum_spec fuel l r st a Hp Hf) as (st' & tr & E & Hn & P & G).
    eexists st', _. split; [eapply bind_ok; [exact E|reflexivity]|].
    split; [done|]. split; [done|]. by rewrite app_nil_r.
  - destruct (updatePoint_spec fuel idx v st a Hp Hf) as (st' & tr & E & Hn & P & G).
    eexists st', _. split; [eapply bind_ok; [exact E|reflexivity]|].
    split; [done|]. split; [done|]. by rewrite app_nil_r.
  - destruct (queryMin_spec T_max id fuel l r st a Hp Hf) as (st' & tr & E & Hn & P & G).
    eexists st', _. split; [eapply bind_ok; [exact E|reflexivity]|].
    split; [done|]. split; [done|]. by rewrite app_nil_r.
  - destruct (getCurrentArray_spec fuel (S fuel) st a Hp Hf ltac:(lia)) as (st' & tr & E & Hn & P & G).
    eexists st', _. split; [eapply bind_ok; [exact E|reflexivity]|].
    split; [done|]. split; [done|]. by rewrite app_nil_r.
Qed.

Lemma run_spec T_max fuel ops : forall st a,
  Rep st a -> (Z.to_nat (n st) <= fuel)%nat ->
  exists st' tr,
    run T_max fuel ops st = Ok (abs_results T_max fuel (n st) ops a, st', tr)
    /\ n st' = n st /\ Rep st' (abs_states (n st) ops a) /\ Forall good tr.
Proof.
  induction ops as [|o ops IH]; intros st a Hp Hf; cbn [run abs_results abs_states].
  - by exists st, [].
  - destruct (exec_spec T_max fuel o st a Hp Hf) as (st1 & tr1 & E1 & Hn1 & P1 & G1).
    destruct (IH st1 _ P1 ltac:(lia)) as (st2 & tr2 & E2 & Hn2 & P2 & G2).
    rewrite Hn1 in *.
    eexists st2, _. split; [|split; [congruence|split; [done|]]].
    + eapply bind_ok; [exact E1|]. eapply bind_ok; [exact E2|]. reflexivity.
    + repeat (apply Forall_app; split); done.
Qed.

(** ** More fuel changes nothing *)

Lemma le_M_refl {A} (m : M A) : le_M m m.
Proof. by intros st x. Qed.

Lemma bind_le {A B} (m m' : M A) (k k' : A -> M B) :
  le_M m m' -> (forall a, le_M (k a) (k' a)) -> le_M (bind m k) (bind m' k').
Proof.
  intros Hm Hk st x. unfold bind.
  destruct (m st) as [[[a st1] tr1]|f] eqn:E; [|done].
  rewrite (Hm _ _ E).
  destruct (k a st1) as [[[b st2] tr2]|f] eqn:E2; [|done].
  by rewrite (Hk _ _ _ E2).
Qed.

Lemma build_mono arr f : forall f' i s e,
  (f <= f')%nat -> le_M (build f arr i s e) (build f' arr i s e).
Proof.
  induction f as [|f IH]; intros f' i s e Hf; [by intros st x|].
  destruct f' as [|f']; [lia|]. cbn [build].
  destruct (s =? e); [apply le_M_refl|].
  apply bind_le; [apply IH; lia|intros _].
  apply bind_le; [apply IH; lia|intros _; apply le_M_refl].
Qed.

Lemma updateRange_rec_mono f : forall f' i s e l r v,
  (f <= f')%nat -> le_M (updateRange_rec f i s e l r v) (updateRange_rec f' i s e l r v).
Proof.
  induction f as [|f IH]; intros f' i s e l r v Hf; [by intros st x|].
  destruct f' as [|f']; [lia|]. cbn [updateRange_rec].
  apply bind_le; [apply le_M_refl|intros _].
  destruct ((s >? r) || (e <? l)); [apply le_M_refl|].
  destruct ((s >=? l) && (e <=? r)); [apply le_M_refl|].
  apply bind_le; [apply IH; lia|intros _].
  apply bind_le; [apply IH; lia|intros _; apply le_M_refl].
Qed.

Lemma queryRange_mono f : forall f' i s e l r,
  (f <= f')%nat -> le_M (queryRange f i s e l r) (queryRange f' i s e l r).
Proof.
  induction f as [|f IH]; intros f' i s e l r Hf; [by intros st x|].
  destruct f' as [|f']; [lia|]. cbn [queryRange].
  destruct ((s >? r) || (e <? l)); [apply le_M_refl|].
  apply bind_le; [apply le_M_refl|intros _].
  destruct ((s >=? l) && (e <=? r)); [apply le_M_refl|].
  apply bind_le; [apply IH; lia|intros p1].
  apply bind_le; [apply IH; lia|intros p2; apply le_M_refl].
Qed.

Lemma updatePoint_rec_mono f : forall f' i s e idx v,
  (f <= f')%nat -> le_M (updatePoint_rec f i s e idx v) (updatePoint_rec f' i s e idx v).
Proof.
  induction f as [|f IH]; intros f' i s e idx v Hf; [by intros st x|].
  destruct f' as [|f']; [lia|]. cbn [updatePoint_rec].
  apply bind_le; [apply le_M_refl|intros _].
  destruct (s =? e); [apply le_M_refl|].
  apply bind_le; [|intros _; apply le_M_refl].
  destruct (idx <=? Z.quot (s + e) 2); apply IH; lia.
Qed.

Lemma queryMin_rec_mono T_max view f : forall f' i s e l r,
  (f <= f')%nat -> le_M (queryMin_rec T_max view f i s e l r) (queryMin_rec T_max view f' i s e l r).
Proof.
  induction f as [|f IH]; intros f' i s e l r Hf; [by intros st x|].
  destruct f' as [|f']; [lia|]. cbn [queryMin_rec].
  destruct ((s >? r) || (e <? l)); [apply le_M_refl|].
  apply bind_le; [apply le_M_refl|intros _].
  destruct ((s >=? l) && (e <=? r)); [apply le_M_refl|].
  apply bind_le; [apply IH; lia|intros p1].
  apply bind_le; [apply IH; lia|intros p2; apply le_M_refl].
Qed.

Lemma getCurrentArray_loop_mono c f : forall c' f' i res,
  (c <= c')%nat -> (f <= f')%nat ->
  le_M (getCurrentArray_loop c f i res) (getCurrentArray_loop c' f' i res).
Proof.
  induction c as [|c IH]; intros c' f' i res Hc Hf; [by intros st x|].
  destruct c' as [|c']; [lia|]. cbn [getCurrentArray_loop].
  apply bind_le; [apply le_M_refl|intros nn].
  destruct (i <? nn); [|apply le_M_refl].
  apply bind_le.
  - unfold querySum. apply bind_le; [apply le_M_refl|intros ?]. by apply queryRange_mono.
  - intros x. destruct (vset res i x); [apply IH; lia|apply le_M_refl].
Qed.

Lemma exec_mono T_max f f' o : (f <= f')%nat -> le_M (exec T_max f o) (exec T_max f' o).
Proof.
  intros Hf. destruct o; cbn [exec];
    (apply bind_le; [|intros ?; apply le_M_refl]).
  - unfold updateRange. apply bind_le; [apply le_M_refl|intros ?]. by apply updateRange_rec_mono.
  - unfold querySum. apply bind_le; [apply le_M_refl|intros ?]. by apply queryRange_mono.
  - unfold updatePoint. apply bind_le; [apply le_M_refl|intros ?]. by apply updatePoint_rec_mono.
  - unfold queryMin. apply bind_le; [apply le_M_refl|intros ?]. by apply queryMin_rec_mono.
  - unfold getCurrentArray. apply bind_le; [apply le_M_refl|intros ?].
    apply getCurrentArray_loop_mono; lia.
Qed.

Lemma constructor_mono f f' arr x :
  (f <= f')%nat -> AdvancedSegmentTree f arr = Ok x -> AdvancedSegmentTree f' arr = Ok x.
Proof.
  intros Hf. unfold AdvancedSegmentTree. cbv zeta.
  destruct (build f arr _ _ _ _) as [[[u st] tr]|] eqn:E; [|done].
  by rewrite (build_mono arr f f' _ _ _ Hf _ _ E).
Qed.

(** ** Reachable trees and runs *)

Section Sequences.

Variable T_max : Z.

Lemma reachable_Rep st : reachable T_max st -> exists a, Rep st a.
Proof.
  induction 1 as [fuel arr st tr Hne E|fuel o x st st' tr _ [a Ha] E].
  - destruct (constructor_spec arr (Nat.max fuel (length arr)) Hne ltac:(lia))
      as (st0 & E0 & _ & _ & HR).
    rewrite (constructor_mono fuel (Nat.max fuel (length arr)) arr _ ltac:(lia) E) in E0.
    injection E0 as -> _. by exists (at_index arr).
  - destruct (exec_spec T_max (Nat.max fuel (Z.to_nat (n st))) o st a Ha ltac:(lia))
      as (st0 & tr0 & E0 & _ & HR & _).
    rewrite (exec_mono T_max fuel (Nat.max fuel (Z.to_nat (n st))) o ltac:(lia) _ _ E) in E0.
    injection E0 as _ -> _. eauto.
Qed.

Lemma elems_Rep st a k : Rep st a -> 0 <= k <= n st - 1 -> elems st k = a k.
Proof.
  intros Hp Hk. destruct Hp as [(Hn & _) _ Hat HR]. by eapply elems_subtree.
Qed.

Lemma querySum_value fuel l r st a :
  Rep st a -> (Z.to_nat (n st) <= fuel)%nat ->
  value_of (querySum fuel l r st)
  = Ok (range_sum a (Z.max l 0) (Z.min r (n st - 1))).
Proof.
  intros Hp Hf. destruct (querySum_spec fuel l r st a Hp Hf) as (st' & tr & -> & _).
  cbn. by rewrite range_sum_restrict.
Qed.

(** [querySum(l', r')], then [updateRange(l, r, delta)], then
    [querySum(l', r')] again: the two values returned. *)
Lemma query_update_query fuel st a l r delta l' r' :
  Rep st a -> (Z.to_nat (n st) <= fuel)%nat ->
  value_of ((let* before := querySum fuel l' r' in
             updateRange fuel l r delta >>
             let* after := querySum fuel l' r' in
             ret (before, after)) st)
  = Ok (range_sum a (Z.max l' 0) (Z.min r' (n st - 1)),
        range_sum (range_add l r delta a) (Z.max l' 0) (Z.min r' (n st - 1))).
Proof.
  intros Ha Hf.
  destruct (querySum_spec fuel l' r' st a Ha Hf) as (st1 & tr1 & E1 & Hn1 & Ha1 & _).
  destruct (updateRange_spec fuel l r delta st1 a Ha1 ltac:(lia))
    as (st2 & tr2 & E2 & Hn2 & Ha2 & _).
  destruct (querySum_spec fuel l' r' st2 _ Ha2 ltac:(lia)) as (st3 & tr3 & E3 & _).
  erewrite bind_ok; [|exact E1|].
  2:{ eapply bind_ok; [exact E2|]. eapply bind_ok; [exact E3|]. reflexivity. }
  cbn [value_of]. rewrite !range_sum_restrict. by rewrite Hn2, Hn1.
Qed.

Lemma R_inv st i s e a :
  s < e -> R st i s e a ->
  R st (2 * i) s (Z.quot (s + e) 2) (fun k => a k - L st i)
  /\ R st (2 * i + 1) (Z.quot (s + e) 2 + 1) e (fun k => a k - L st i).
Proof. intros Hse H. destruct H as [|i s e a _ _ Hl Hr]; [lia|done]. Qed.

Lemma node_at_R st a i s e acc :
  Rep st a -> node_at st i s e acc ->
  R st i s e (fun k => a k - acc) /\ inb (n st) i s e.
Proof.
  intros Hp H. pose proof (pre_wf _ _ _ _ _ Hp) as (Hn & _).
  induction H as [|i s e acc acc' H [IHR IHi] Hse ->|i s e acc acc' H [IHR IHi] Hse ->].
  - split; [|apply Hp]. eapply R_ext; [|apply Hp]. intros k _. cbn. lia.
  - pose proof (node_at_range _ _ _ _ _ Hn H).
    split; [|apply inb_left; [lia|done|done]].
    destruct (R_inv _ _ _ _ _ Hse IHR) as [Hl _].
    eapply R_ext; [|exact Hl]. intros k _. cbn. lia.
  - pose proof (node_at_range _ _ _ _ _ Hn H).
    split; [|apply inb_right; [lia|done|done]].
    destruct (R_inv _ _ _ _ _ Hse IHR) as [_ Hr].
    eapply R_ext; [|exact Hr]. intros k _. cbn. lia.
Qed.

Lemma node_at_no_pending st i s e acc :
  (forall j, L st j = 0) -> node_at st i s e acc -> acc = 0.
Proof. intros HL. induction 1 as [|? ? ? ? ? _ -> _ ->|? ? ? ? ? _ -> _ ->]; rewrite ?HL; lia. Qed.

(** What the constructor builds, over unbounded integers. *)
Lemma build_correct_Z fuel arr :
  arr <> [] -> (length arr <= fuel)%nat ->
  exists st,
    AdvancedSegmentTree fuel arr = Ok (st, [])
    /\ n st = Z.of_nat (length arr)
    /\ value_of (querySum fuel 0 (n st - 1) st) = Ok (list_sum arr)
    /\ (forall i s e acc, node_at st i s e acc ->
          (s = e -> vget (tree st) i = vget arr s /\ is_Some (vget arr s))
          /\ (s < e -> vget (tree st) i = Some (T st (2 * i) + T st (2 * i + 1))))
    /\ lazy st = replicate (Z.to_nat (4 * n st)) 0.
Proof.
  intros Hne Hf.
  destruct (constructor_spec arr fuel Hne Hf) as (st & E & Hn & Hz & Hp).
  exists st. split; [done|]. split; [done|].
  assert (forall j, L st j = 0) as HL.
  { intros j. unfold L. rewrite Hz. apply vget_replicate_zero. }
  pose proof (pre_wf _ _ _ _ _ Hp) as (Hn1 & Ht & _).
  split; [|split; [|done]].
  - rewrite (querySum_value fuel 0 (n st - 1) st _ Hp) by lia. f_equal.
    replace (Z.max 0 0) with 0 by lia. replace (Z.min (n st - 1) (n st - 1)) with (n st - 1) by lia.
    rewrite Hn. apply list_sum_at_index.
  - intros i s e acc Hat.
    destruct (node_at_R st _ i s e acc Hp Hat) as [HR [Hi _]].
    pose proof (node_at_range _ _ _ _ _ Hn1 Hat) as (_ & Hs & He).
    rewrite (node_at_no_pending _ _ _ _ _ HL Hat) in HR.
    apply (R_ext _ _ _ _ _ (at_index arr)) in HR; [|intros k _; cbn; lia].
    rewrite (vget_in (tree st) i) by lia. change (default 0 (vget (tree st) i)) with (T st i).
    split.
    + intros <-. rewrite (vget_in arr s) by lia. split; [|done].
      pose proof (R_top _ _ _ _ _ HR) as Hs1. rewrite HL, range_sum_single in Hs1.
      unfold at_index in Hs1. f_equal. lia.
    + intros Hlt. f_equal. pose proof (mid_bounds s e ltac:(lia) Hlt).
      destruct (R_children st i s e _ Hlt (HL i) HR) as [Hl Hr].
      rewrite (R_sum0 _ _ _ _ _ HR (HL _)), (R_sum0 _ _ _ _ _ Hl (HL _)), (R_sum0 _ _ _ _ _ Hr (HL _)).
      apply range_sum_split. lia.
Qed.

(** The push invariant, over unbounded integers. *)
Lemma push_invariant_Z fuel st :
  reachable T_max st -> (Z.to_nat (n st) <= fuel)%nat ->
  (forall o, exists x st' tr, exec T_max fuel o st = Ok (x, st', tr) /\ Forall good tr)
  /\ (forall i s e acc, node_at st i s e acc ->
        range_sum (elems st) s e - T st i = (e - s + 1) * (L st i + acc))
  /\ (forall k, 0 <= k <= n st - 1 ->
        value_of (querySum fuel k k st) = Ok (elems st k)).
Proof.
  intros Hre Hf. destruct (reachable_Rep st Hre) as [a Ha].
  pose proof (pre_wf _ _ _ _ _ Ha) as (Hn & _).
  split; [|split].
  - intros o. destruct (exec_spec T_max fuel o st a Ha Hf) as (st' & tr & E & _ & _ & G).
    eauto.
  - intros i s e acc Hat.
    destruct (node_at_R st _ i s e acc Ha Hat) as [HR _].
    pose proof (node_at_range _ _ _ _ _ Hn Hat) as (_ & Hs & He).
    pose proof (R_top _ _ _ _ _ HR) as Ht.
    assert (range_sum (fun k => a k - acc) s e
            = range_sum a s e + (- acc) * (e - s + 1)) as Hsum.
    { rewrite <- range_sum_add_const by lia. apply range_sum_ext. intros k _. lia. }
    rewrite (range_sum_ext (elems st) a); [rewrite Hsum in Ht; nia|].
    intros k Hk. apply elems_Rep; [done|lia].
  - intros k Hk. rewrite (querySum_value fuel k k st a) by done. f_equal.
    replace (Z.max k 0) with k by lia. replace (Z.min k (n st - 1)) with k by lia.
    rewrite range_sum_single. symmetry. by apply elems_Rep.
Qed.

Lemma abs_states_app nn ops1 ops2 a :
  abs_states nn (ops1 ++ ops2) a = abs_states nn ops2 (abs_states nn ops1 a).
Proof. revert a. induction ops1 as [|o ops1 IH]; intros a; cbn; [done|apply IH]. Qed.

Lemma abs_results_app fuel nn ops1 ops2 a :
  abs_results T_max fuel nn (ops1 ++ ops2) a
  = abs_results T_max fuel nn ops1 a
    ++ abs_results T_max fuel nn ops2 (abs_states nn ops1 a).
Proof. revert a. induction ops1 as [|o ops1 IH]; intros a; cbn; [done|by rewrite IH]. Qed.

Lemma length_abs_results fuel nn ops a :
  length (abs_results T_max fuel nn ops a) = length ops.
Proof. revert a. induction ops as [|o ops IH]; intros a; cbn; [done|by rewrite IH]. Qed.

End Sequences.

(** ** The lowest set bit *)

Lemma lowbit_even m : lowbit (2 * m) = 2 * lowbit m.
Proof.
  unfold lowbit. replace (- (2 * m)) with (2 * (- m)) by lia.
  rewrite <- !(Z.mul_comm _ 2).
  change 2 with (2 ^ 1). rewrite <- !Z.shiftl_mul_pow2 by lia.
  by rewrite Z.shiftl_land.
Qed.

Lemma lowbit_odd m : lowbit (2 * m + 1) = 1.
Proof.
  unfold lowbit. replace (- (2 * m + 1)) with (Z.lnot (2 * m)) by (unfold Z.lnot; lia).
  apply Z.bits_inj'. intros k Hk. rewrite Z.land_spec, Z.lnot_spec by done.
  destruct (Z.eq_dec k 0) as [->|Hne].
  - rewrite Z.testbit_odd_0, Z.testbit_even_0. done.
  - replace k with (Z.succ (k - 1)) by lia.
    rewrite Z.testbit_odd_succ, Z.testbit_even_succ by lia.
    pose proof (Z.testbit_odd_succ 0 (k - 1) ltac:(lia)) as H1.
    rewrite Z.bits_0 in H1. change (2 * 0 + 1) with 1 in H1. rewrite H1.
    by destruct (Z.testbit m (k - 1)).
Qed.

Lemma lowbit_pos_bound p : 0 < lowbit (Z.pos p) <= Z.pos p.
Proof.
  induction p as [p IH|p IH|].
  - rewrite (Pos2Z.inj_xI p), lowbit_odd. lia.
  - rewrite (Pos2Z.inj_xO p), lowbit_even. lia.
  - done.
Qed.

Lemma lowbit_bound i : 0 < i -> 0 < lowbit i <= i.
Proof. destruct i as [|p|p]; [lia| |lia]. intros _. apply lowbit_pos_bound. Qed.

Lemma lowbit_next_pos p :
  2 * lowbit (Z.pos p) <= lowbit (Z.pos p + lowbit (Z.pos p)).
Proof.
  induction p as [p IH|p IH|].
  - rewrite (Pos2Z.inj_xI p), lowbit_odd.
    replace (2 * Z.pos p + 1 + 1) with (2 * (Z.pos p + 1)) by lia.
    rewrite lowbit_even. pose proof (lowbit_bound (Z.pos p + 1) ltac:(lia)). lia.
  - rewrite (Pos2Z.inj_xO p), lowbit_even.
    replace (2 * Z.pos p + 2 * lowbit (Z.pos p)) with (2 * (Z.pos p + lowbit (Z.pos p))) by lia.
    rewrite lowbit_even. lia.
  - done.
Qed.

Lemma lowbit_next i : 0 < i -> 2 * lowbit i <= lowbit (i + lowbit i).
Proof. destruct i as [|p|p]; [lia| |lia]. intros _. apply lowbit_next_pos. Qed.

Lemma lowbit_between_pos p : forall d,
  0 < d < lowbit (Z.pos p) -> lowbit (Z.pos p + d) = lowbit d.
Proof.
  induction p as [p IH|p IH|]; intros d Hd.
  - rewrite (Pos2Z.inj_xI p), lowbit_odd in Hd. lia.
  - rewrite (Pos2Z.inj_xO p), lowbit_even in Hd. rewrite (Pos2Z.inj_xO p).
    pose proof (Z.div_mod d 2 ltac:(lia)) as Hdm.
    pose proof (Z.mod_pos_bound d 2 ltac:(lia)) as Hm.
    destruct (Z.eq_dec (d mod 2) 0) as [E|E].
    + rewrite Hdm, E, Z.add_0_r.
      replace (2 * Z.pos p + 2 * (d / 2)) with (2 * (Z.pos p + d / 2)) by lia.
      rewrite !lowbit_even. rewrite IH by lia. done.
    + assert (d mod 2 = 1) as E1 by lia. rewrite Hdm, E1.
      replace (2 * Z.pos p + (2 * (d / 2) + 1)) with (2 * (Z.pos p + d / 2) + 1) by lia.
      by rewrite !lowbit_odd.
  - change (lowbit 1) with 1 in Hd. lia.
Qed.

Lemma lowbit_between i d : 0 < i -> 0 < d < lowbit i -> lowbit (i + d) = lowbit d.
Proof. destruct i as [|p|p]; [lia| |lia]. intros _. apply lowbit_between_pos. Qed.

(** ** The slots of the binary indexed tree *)

Lemma BInv_ext st a a' :
  (forall k, 0 <= k < Fenwick.n st -> a k = a' k) -> BInv st a -> BInv st a'.
Proof.
  intros Hext [Hn Hl Hs]. split; [done|done|].
  intros i Hi. rewrite Hs by done. pose proof (lowbit_bound i ltac:(lia)).
  apply range_sum_ext. intros k Hk. apply Hext. lia.
Qed.

Lemma range_sum_point_add a p v lo hi :
  lo <= hi + 1 ->
  range_sum (range_add p p v a) lo hi
  = range_sum a lo hi + (if (lo <=? p) && (p <=? hi) then v else 0).
Proof.
  intros H. destruct ((lo <=? p) && (p <=? hi)) eqn:E.
  - rewrite (range_sum_split _ lo (p - 1) hi), (range_sum_split a lo (p - 1) hi) by lia.
    replace (p - 1 + 1) with p by lia.
    rewrite (range_sum_first _ p hi), (range_sum_first a p hi) by lia.
    rewrite (range_sum_ext (range_add p p v a) a lo (p - 1)).
    2:{ intros k Hk. unfold range_add. destruct ((p <=? k) && (k <=? p)) eqn:Ek; [lia|done]. }
    rewrite (range_sum_ext (range_add p p v a) a (p + 1) hi).
    2:{ intros k Hk. unfold range_add. destruct ((p <=? k) && (k <=? p)) eqn:Ek; [lia|done]. }
    unfold range_add at 1. rewrite !Z.leb_refl. cbn. lia.
  - rewrite Z.add_0_r. apply range_sum_ext.
    intros k Hk. unfold range_add. destruct ((p <=? k) && (k <=? p)) eqn:Ek; [lia|done].
Qed.

Lemma query_loop_spec st a fuel : forall idx sum,
  BInv st a -> 0 <= idx <= Fenwick.n st -> (Z.to_nat idx < fuel)%nat ->
  UFenwick.query_loop fuel idx sum st = Ok (sum + range_sum a 0 (idx - 1)).
Proof.
  induction fuel as [|fuel IH]; intros idx sum Hinv Hidx Hf; [lia|].
  cbn [UFenwick.query_loop]. destruct (Z.gtb_spec idx 0) as [Hpos|Hz].
  - pose proof (lowbit_bound idx Hpos) as Hlb. fold (lowbit idx).
    rewrite vget_in by (rewrite (BInv_len _ _ Hinv); lia).
    rewrite IH by (done || lia). f_equal.
    change (default 0 (vget (Fenwick.bit st) idx)) with (B st idx).
    rewrite (BInv_slot _ _ Hinv) by lia.
    rewrite (range_sum_split a 0 (idx - lowbit idx - 1) (idx - 1)) by lia.
    replace (idx - lowbit idx - 1 + 1) with (idx - lowbit idx) by lia. lia.
  - rewrite range_sum_empty by lia. f_equal. lia.
Qed.

Lemma query_spec st a fuel idx :
  BInv st a -> 0 <= idx < Fenwick.n st -> (Z.to_nat idx + 1 < fuel)%nat ->
  UFenwick.query fuel idx st = Ok (range_sum a 0 idx).
Proof.
  intros Hinv Hidx Hf. unfold UFenwick.query.
  rewrite (query_loop_spec st a) by (done || lia). f_equal.
  replace (idx + 1 - 1) with idx by lia. lia.
Qed.

Lemma update_loop_spec a p v fuel : forall j st,
  0 <= Fenwick.n st -> Z.of_nat (length (Fenwick.bit st)) = Fenwick.n st + 1 ->
  1 <= p <= j -> (j <= Fenwick.n st -> j - lowbit j < p) ->
  (forall i, 1 <= i <= Fenwick.n st -> i < j ->
     B st i = range_sum (range_add (p - 1) (p - 1) v a) (i - lowbit i) (i - 1)) ->
  (forall i, 1 <= i <= Fenwick.n st -> j <= i ->
     B st i = range_sum a (i - lowbit i) (i - 1)) ->
  (Z.to_nat (Fenwick.n st + 1 - j) < fuel)%nat ->
  exists st',
    UFenwick.update_loop fuel j v st = Ok st'
    /\ Fenwick.n st' = Fenwick.n st
    /\ BInv st' (range_add (p - 1) (p - 1) v a).
Proof.
  induction fuel as [|fuel IH]; intros j st Hn Hlen Hp Hcov Hlo Hhi Hf; [lia|].
  cbn [UFenwick.update_loop]. destruct (Z.leb_spec j (Fenwick.n st)) as [Hle|Hgt].
  - pose proof (lowbit_bound j ltac:(lia)) as Hlb.
    pose proof (lowbit_next j ltac:(lia)) as Hnext.
    fold (lowbit j). rewrite vget_in by lia. rewrite vset_in by lia.
    change (default 0 (vget (Fenwick.bit st) j)) with (B st j).
    set (st1 := Fenwick.mk _ _).
    assert (forall i, B st1 i = if i =? j then B st j + v else B st i) as HB.
    { intros i. unfold B, st1. cbn [Fenwick.bit]. apply vget_insert. lia. }
    destruct (IH (j + lowbit j) st1) as (st' & E & Hn' & Hinv); try done.
    + unfold st1. cbn. rewrite length_insert. done.
    + lia.
    + cbn [Fenwick.n st1]. intros _. specialize (Hcov Hle). lia.
    + cbn [Fenwick.n st1]. intros i Hi Hij. rewrite HB.
      destruct (Z.eqb_spec i j) as [->|Hne].
      * rewrite range_sum_point_add by lia. rewrite Hhi by lia.
        specialize (Hcov Hle).
        destruct ((j - lowbit j <=? p - 1) && (p - 1 <=? j - 1)) eqn:E; [done|lia].
      * destruct (Z_lt_le_dec i j) as [Hlt|Hge]; [by apply Hlo|].
        rewrite Hhi by lia. pose proof (lowbit_bound i ltac:(lia)) as Hlbi.
        rewrite range_sum_point_add by lia.
        pose proof (lowbit_between j (i - j) ltac:(lia) ltac:(lia)) as Hbt.
        replace (j + (i - j)) with i in Hbt by lia.
        pose proof (lowbit_bound (i - j) ltac:(lia)).
        destruct ((i - lowbit i <=? p - 1) && (p - 1 <=? i - 1)) eqn:E; lia.
    + cbn [Fenwick.n st1]. intros i Hi Hij. rewrite HB.
      destruct (Z.eqb_spec i j); [lia|]. apply Hhi; lia.
    + cbn [Fenwick.n st1]. lia.
    + exists st'. done.
  - exists st. split; [done|]. split; [done|]. split; [done|done|].
    intros i Hi. apply Hlo; lia.
Qed.

Lemma update_spec st a fuel idx v :
  BInv st a -> 0 <= idx -> (Z.to_nat (Fenwick.n st - idx) < fuel)%nat ->
  exists st',
    UFenwick.update fuel idx v st = Ok st'
    /\ Fenwick.n st' = Fenwick.n st
    /\ BInv st' (range_add idx idx v a).
Proof.
  intros [Hn Hlen Hs] Hidx Hf. unfold UFenwick.update.
  pose proof (lowbit_bound (idx + 1) ltac:(lia)).
  destruct (update_loop_spec a (idx + 1) v fuel (idx + 1) st) as (st' & E & Hn' & Hinv);
    try done; try lia.
  - intros i Hi Hlt. rewrite Hs by done. pose proof (lowbit_bound i ltac:(lia)).
    rewrite range_sum_point_add by lia.
    destruct ((i - lowbit i <=? idx + 1 - 1) && (idx + 1 - 1 <=? i - 1)) eqn:E; lia.
  - intros i Hi _. by apply Hs.
  - exists st'. replace (idx + 1 - 1) with idx in Hinv by lia. done.
Qed.

(** [update] with a negative index returns nothing: below [-1] it leaves
    the vector, at [-1] its loop stays at slot [0]. *)
Lemma update_loop_zero fuel v : forall st,
  0 <= Fenwick.n st -> Z.of_nat (length (Fenwick.bit st)) = Fenwick.n st + 1 ->
  UFenwick.update_loop fuel 0 v st = Err OutOfFuel.
Proof.
  induction fuel as [|fuel IH]; intros st Hn Hlen; [done|].
  cbn [UFenwick.update_loop]. destruct (Z.leb_spec 0 (Fenwick.n st)); [|lia].
  rewrite vget_in by lia. rewrite vset_in by lia. change (0 + Z.land 0 (- 0)) with 0.
  apply IH; cbn; [done|]. rewrite length_insert. done.
Qed.

Lemma update_negative st a fuel idx v st' :
  BInv st a -> UFenwick.update fuel idx v st = Ok st' -> 0 <= idx.
Proof.
  intros [Hn Hlen _] E. destruct (Z_lt_le_dec idx 0) as [Hneg|]; [exfalso|done].
  unfold UFenwick.update in E. destruct (Z.eq_dec idx (-1)) as [->|Hne].
  - change (-1 + 1) with 0 in E. by rewrite update_loop_zero in E.
  - destruct fuel as [|fuel]; [done|]. cbn [UFenwick.update_loop] in E.
    destruct (Z.leb_spec (idx + 1) (Fenwick.n st)); [|lia].
    unfold vget in E. destruct (Z.leb_spec 0 (idx + 1)); [lia|done].
Qed.

Lemma update_loop_mono f v : forall f' j st st',
  (f <= f')%nat -> UFenwick.update_loop f j v st = Ok st' ->
  UFenwick.update_loop f' j v st = Ok st'.
Proof.
  induction f as [|f IH]; intros f' j st st' Hf E; [done|].
  destruct f' as [|f']; [lia|]. cbn [UFenwick.update_loop] in *.
  destruct (j <=? Fenwick.n st); [|done].
  destruct (vget (Fenwick.bit st) j); [|done].
  destruct (vset (Fenwick.bit st) j (z + v)); [|done].
  apply IH; [lia|done].
Qed.

Lemma init_loop_mono c f arr : forall c' f' i st st',
  (c <= c')%nat -> (f <= f')%nat -> UFenwick.init_loop c f arr i st = Ok st' ->
  UFenwick.init_loop c' f' arr i st = Ok st'.
Proof.
  induction c as [|c IH]; intros c' f' i st st' Hc Hf E; [done|].
  destruct c' as [|c']; [lia|]. cbn [UFenwick.init_loop] in *.
  destruct (i <? Fenwick.n st); [|done].
  destruct (vget arr i); [|done].
  destruct (UFenwick.update f i z st) as [st1|] eqn:E1; [|done].
  unfold UFenwick.update in *. rewrite (update_loop_mono f z f' _ _ _ Hf E1).
  apply IH; [lia|lia|done].
Qed.

Lemma init_loop_spec arr fuel count : forall i st,
  Fenwick.n st = Z.of_nat (length arr) -> 0 <= i <= Fenwick.n st ->
  BInv st (fun k => if k <? i then at_index arr k else 0) ->
  (Z.to_nat (Fenwick.n st - i) < count)%nat -> (Z.to_nat (Fenwick.n st) < fuel)%nat ->
  exists st',
    UFenwick.init_loop count fuel arr i st = Ok st'
    /\ Fenwick.n st' = Fenwick.n st /\ BInv st' (at_index arr).
Proof.
  induction count as [|count IH]; intros i st Hn Hi Hinv Hc Hf; [lia|].
  cbn [UFenwick.init_loop]. destruct (Z.ltb_spec i (Fenwick.n st)) as [Hlt|Hge].
  - rewrite vget_in by lia. change (default 0 (vget arr i)) with (at_index arr i).
    destruct (update_spec st _ fuel i (at_index arr i) Hinv) as (st1 & -> & Hn1 & Hinv1);
      [lia|lia|].
    destruct (IH (i + 1) st1) as (st' & E & Hn' & Hinv'); try lia.
    + eapply BInv_ext; [|exact Hinv1]. intros k Hk. unfold range_add. cbn beta.
      destruct (Z.eq_dec k i) as [->|Hne].
      * rewrite !Z.leb_refl. cbn.
        destruct (Z.ltb_spec i (i + 1)), (Z.ltb_spec i i); lia.
      * destruct (Z.ltb_spec k (i + 1)), (Z.ltb_spec k i);
          destruct ((i <=? k) && (k <=? i)) eqn:Ek; lia.
    + exists st'. split; [done|]. split; [lia|done].
  - exists st. split; [done|]. split; [done|].
    eapply BInv_ext; [|exact Hinv]. intros k Hk. cbn.
    destruct (Z.ltb_spec k i); [done|lia].
Qed.

Lemma constructor_bit_spec arr count fuel :
  (length arr < count)%nat -> (length arr < fuel)%nat ->
  exists st,
    UFenwick.BinaryIndexedTree count fuel arr = Ok st
    /\ Fenwick.n st = Z.of_nat (length arr) /\ BInv st (at_index arr).
Proof.
  intros Hc Hf. unfold UFenwick.BinaryIndexedTree. cbv zeta.
  set (st0 := Fenwick.mk _ _).
  destruct (init_loop_spec arr fuel count 0 st0) as (st & E & Hn & Hinv);
    try done; try (cbn; lia).
  - split; [cbn; lia|cbn; rewrite length_replicate; lia|].
    intros i Hi. unfold B, st0. cbn [Fenwick.bit]. rewrite vget_replicate_zero.
    pose proof (lowbit_bound i ltac:(lia)).
    rewrite (range_sum_ext _ (fun _ => 0)); [by rewrite range_sum_zero|].
    intros k Hk. cbn beta. destruct (Z.ltb_spec k 0); [lia|done].
  - exists st. done.
Qed.

Lemma constructor_bit_mono c f c' f' arr st :
  (c <= c')%nat -> (f <= f')%nat ->
  UFenwick.BinaryIndexedTree c f arr = Ok st -> UFenwick.BinaryIndexedTree c' f' arr = Ok st.
Proof. intros Hc Hf. unfold UFenwick.BinaryIndexedTree. cbv zeta. by apply init_loop_mono. Qed.

Lemma holds_BInv st a : holds st a -> BInv st a.
Proof.
  induction 1 as [count fuel arr st E|fuel idx delta st st' a _ IH E].
  - destruct (constructor_bit_spec arr (Nat.max count (S (length arr)))
                (Nat.max fuel (S (length arr)))) as (st0 & E0 & _ & Hinv); [lia|lia|].
    rewrite (constructor_bit_mono count fuel _ _ arr st) in E0 by (done || lia).
    by injection E0 as ->.
  - pose proof (update_negative _ _ _ _ _ _ IH E) as Hidx.
    destruct (update_spec st a (Nat.max fuel (S (Z.to_nat (Fenwick.n st - idx)))) idx delta IH)
      as (st0 & E0 & _ & Hinv); [done|lia|].
    unfold UFenwick.update in *.
    rewrite (update_loop_mono fuel delta _ _ _ st') in E0 by (done || lia).
    by injection E0 as ->.
Qed.

(** ** What the results depend on *)

Lemma cover_min_ext T_max view fuel : forall a a' s e l r,
  0 <= s <= e -> (forall k, s <= k <= e -> a k = a' k) ->
  cover_min T_max view fuel a s e l r = cover_min T_max view fuel a' s e l r.
Proof.
  induction fuel as [|fuel IH]; intros a a' s e l r Hse Hext; [done|].
  cbn [cover_min]. destruct ((s >? r) || (e <? l)) eqn:Ed; [done|].
  destruct ((s >=? l) && (e <=? r)) eqn:Ec; [f_equal; by apply range_sum_ext|].
  assert (s < e) as Hlt by lia. pose proof (mid_bounds s e ltac:(lia) Hlt).
  f_equal; apply IH; try lia; intros k Hk; apply Hext; lia.
Qed.

Lemma materialize_ext nn a a' :
  (forall k, 0 <= k <= nn - 1 -> a k = a' k) -> materialize nn a = materialize nn a'.
Proof.
  intros Hext. unfold materialize. apply list_eq. intros i.
  rewrite !list_lookup_fmap. destruct (seqZ 0 nn !! i) as [k|] eqn:E; [|done].
  apply lookup_seqZ in E as [-> Hi]. cbn. f_equal. apply Hext. lia.
Qed.

Lemma abs_result_ext T_max fuel nn o a a' :
  1 <= nn -> (forall k, 0 <= k <= nn - 1 -> a k = a' k) ->
  abs_result T_max fuel nn o a = abs_result T_max fuel nn o a'.
Proof.
  intros Hn Hext. destruct o as [l r v|l r|idx v|l r|]; cbn [abs_result]; try done.
  - f_equal. rewrite !range_sum_restrict. apply range_sum_ext. intros k Hk. apply Hext. lia.
  - f_equal. apply cover_min_ext; [lia|done].
  - f_equal. by apply materialize_ext.
Qed.

Lemma abs_state_ext nn o a a' :
  (forall k, 0 <= k <= nn - 1 -> a k = a' k) ->
  forall k, 0 <= k <= nn - 1 -> abs_state nn o a k = abs_state nn o a' k.
Proof.
  intros Hext k Hk. destruct o as [l r v|l r|idx v|l r|]; cbn [abs_state]; auto.
  - unfold range_add. rewrite Hext by done. done.
  - unfold point_set. rewrite Hext by done. done.
Qed.

Lemma abs_results_ext T_max fuel nn ops : forall a a',
  1 <= nn -> (forall k, 0 <= k <= nn - 1 -> a k = a' k) ->
  abs_results T_max fuel nn ops a = abs_results T_max fuel nn ops a'.
Proof.
  induction ops as [|o ops IH]; intros a a' Hn Hext; cbn [abs_results]; [done|].
  f_equal; [by apply abs_result_ext|]. apply IH; [done|]. by apply abs_state_ext.
Qed.

(** Two trees that hold the same sequence return the same values to every
    sequence of calls. *)
Lemma same_sequence_same_results T_max fuel st st' a a' ops :
  Rep st a -> Rep st' a' -> n st' = n st ->
  (forall k, 0 <= k <= n st - 1 -> a k = a' k) ->
  (Z.to_nat (n st) <= fuel)%nat ->
  value_of (run T_max fuel ops st') = value_of (run T_max fuel ops st).
Proof.
  intros Ha Ha' Hn Hext Hf.
  destruct (run_spec T_max fuel ops st a Ha Hf) as (s1 & t1 & -> & _).
  destruct (run_spec T_max fuel ops st' a' Ha' ltac:(lia)) as (s2 & t2 & -> & _).
  cbn. f_equal. rewrite Hn. symmetry. apply abs_results_ext; [|done].
  by destruct (pre_wf _ _ _ _ _ Ha).
Qed.

Lemma vget_materialize nn a k :
  0 <= k < nn -> vget (materialize nn a) k = Some (a k).
Proof.
  intros Hk. unfold vget, materialize. destruct (Z.leb_spec 0 k); [|lia].
  rewrite list_lookup_fmap, lookup_seqZ_lt by lia. cbn. f_equal. f_equal. lia.
Qed.

Lemma length_materialize nn a : length (materialize nn a) = Z.to_nat nn.
Proof. unfold materialize. by rewrite length_fmap, length_seqZ. Qed.

Lemma cover_min_empty T_max view a l r fuel : forall s e,
  0 <= s <= e -> r < l \/ r < s \/ e < l ->
  cover_min T_max view fuel a s e l r = T_max.
Proof.
  induction fuel as [|fuel IH]; intros s e Hse Hemp; [done|].
  cbn [cover_min]. destruct ((s >? r) || (e <? l)) eqn:Ed; [done|].
  destruct ((s >=? l) && (e <=? r)) eqn:Ec; [lia|].
  assert (s < e) as Hlt by lia. pose proof (mid_bounds s e ltac:(lia) Hlt).
  rewrite !IH by lia. lia.
Qed.

Lemma cover_min_point T_max view a k fuel : forall s e,
  0 <= s -> s <= k <= e -> (Z.to_nat (e - s) < fuel)%nat -> view (a k) <= T_max ->
  cover_min T_max view fuel a s e k k = view (a k).
Proof.
  induction fuel as [|fuel IH]; intros s e Hs Hk Hf Hle; [lia|].
  cbn [cover_min]. destruct ((s >? k) || (e <? k)) eqn:Ed; [lia|].
  destruct ((s >=? k) && (e <=? k)) eqn:Ec.
  - assert (s = k /\ e = k) as [-> ->] by lia. by rewrite range_sum_single.
  - assert (s < e) as Hlt by lia. pose proof (mid_bounds s e ltac:(lia) Hlt).
    pose proof (mid_halves s e ltac:(lia) Hlt).
    destruct (Z_le_gt_dec k (Z.quot (s + e) 2)).
    + rewrite IH by lia. rewrite cover_min_empty by lia. lia.
    + rewrite (cover_min_empty _ _ _ _ _ _ s) by lia. rewrite IH by lia. lia.
Qed.

Lemma cover_min_all T_max view a l r fuel s e :
  l <= s -> s <= e -> e <= r -> cover_min T_max view (S fuel) a s e l r = view (range_sum a s e).
Proof.
  intros. cbn [cover_min]. destruct ((s >? r) || (e <? l)) eqn:Ed; [lia|].
  destruct ((s >=? l) && (e <=? r)) eqn:Ec; [done|lia].
Qed.

Lemma run_cons_value T_max fuel o ops st a :
  Rep st a -> (Z.to_nat (n st) <= fuel)%nat ->
  value_of (run T_max fuel (o :: ops) st)
  = Ok (abs_result T_max fuel (n st) o a
        :: abs_results T_max fuel (n st) ops (abs_state (n st) o a)).
Proof.
  intros Ha Hf. by destruct (run_spec T_max fuel (o :: ops) st a Ha Hf) as (s1 & t1 & -> & _).
Qed.

Lemma run_value T_max fuel ops st a :
  Rep st a -> (Z.to_nat (n st) <= fuel)%nat ->
  value_of (run T_max fuel ops st) = Ok (abs_results T_max fuel (n st) ops a).
Proof.
  intros Ha Hf. by destruct (run_spec T_max fuel ops st a Ha Hf) as (s1 & t1 & -> & _).
Qed.

(** ** The root between operations *)

Lemma queryRange_pending fuel i s e l r st a v st' tr :
  pre st i s e a -> (Z.to_nat (e - s) < fuel)%nat -> L st i = 0 ->
  queryRange fuel i s e l r st = Ok (v, st', tr) -> L st' i = 0.
Proof.
  intros Hp Hf HL. pose proof (pre_range _ _ _ _ _ Hp) as (Hi & Hse & He).
  destruct fuel as [|fuel]; [lia|]. cbn [queryRange].
  destruct ((s >? r) || (e <? l)) eqn:Edis; [by intros [= _ <- _]|].
  destruct (updateLazy_pre _ _ _ _ _ Hp) as (st1 & E1 & F1 & P1 & L1 & G1).
  unfold bind at 1. rewrite E1.
  destruct ((s >=? l) && (e <=? r)) eqn:Ecov.
  { pose proof (pre_range _ _ _ _ _ P1). pose proof (pre_wf _ _ _ _ _ P1) as (_ & Ht1 & _).
    rewrite get_tree_ok by lia. by intros [= _ <- _]. }
  assert (s < e) as Hlt by lia.
  pose proof (mid_bounds s e ltac:(lia) Hlt) as Hm.
  pose proof (mid_halves s e ltac:(lia) Hlt) as Hh.
  destruct (queryRange_spec fuel (2 * i) s (Z.quot (s + e) 2) l r st1 a)
    as (st2 & tr2 & E2 & F2 & P2 & G2); [by apply pre_left|lia|].
  destruct (queryRange_spec fuel (2 * i + 1) (Z.quot (s + e) 2 + 1) e l r st2 a)
    as (st3 & tr3 & E3 & F3 & P3 & G3);
    [apply (pre_frame_l st1); [lia|by apply pre_right|done]|lia|].
  destruct (children_frames st1 st2 st3 i) as (_ & _ & HL3); [lia|done|done|].
  unfold bind. rewrite E2, E3. cbn. intros [= _ <- _]. congruence.
Qed.

Lemma queryMin_rec_pending T_max view fuel i s e l r st a v st' tr :
  pre st i s e a -> (Z.to_nat (e - s) < fuel)%nat -> L st i = 0 ->
  queryMin_rec T_max view fuel i s e l r st = Ok (v, st', tr) -> L st' i = 0.
Proof.
  intros Hp Hf HL. pose proof (pre_range _ _ _ _ _ Hp) as (Hi & Hse & He).
  destruct fuel as [|fuel]; [lia|]. cbn [queryMin_rec].
  destruct ((s >? r) || (e <? l)) eqn:Edis; [by intros [= _ <- _]|].
  destruct (updateLazy_pre _ _ _ _ _ Hp) as (st1 & E1 & F1 & P1 & L1 & G1).
  unfold bind at 1. rewrite E1.
  destruct ((s >=? l) && (e <=? r)) eqn:Ecov.
  { pose proof (pre_range _ _ _ _ _ P1). pose proof (pre_wf _ _ _ _ _ P1) as (_ & Ht1 & _).
    rewrite get_tree_view_ok by lia. by intros [= _ <- _]. }
  assert (s < e) as Hlt by lia.
  pose proof (mid_bounds s e ltac:(lia) Hlt) as Hm.
  pose proof (mid_halves s e ltac:(lia) Hlt) as Hh.
  destruct (queryMin_rec_spec T_max view fuel (2 * i) s (Z.quot (s + e) 2) l r st1 a)
    as (st2 & tr2 & E2 & F2 & P2 & G2); [by apply pre_left|lia|].
  destruct (queryMin_rec_spec T_max view fuel (2 * i + 1) (Z.quot (s + e) 2 + 1) e l r st2 a)
    as (st3 & tr3 & E3 & F3 & P3 & G3);
    [apply (pre_frame_l st1); [lia|by apply pre_right|done]|lia|].
  destruct (children_frames st1 st2 st3 i) as (_ & _ & HL3); [lia|done|done|].
  unfold bind. rewrite E2, E3. cbn. intros [= _ <- _]. congruence.
Qed.

Lemma settled_frame st st' a a' :
  settled st a -> frame 1 st st' -> Rep st' a' -> L st' 1 = 0 -> settled st' a'.
Proof.
  intros (_ & _ & HT0 & HL0) [_ Hf] Ha' HL'.
  destruct (Hf 0) as [E1 E2].
  { intros Hd. apply desc_ge in Hd; lia. }
  split; [done|]. split; [done|]. split; congruence.
Qed.

Lemma querySum_settled fuel l r st a :
  settled st a -> (Z.to_nat (n st) <= fuel)%nat ->
  exists v st' tr,
    querySum fuel l r st = Ok (v, st', tr) /\ n st' = n st /\ settled st' a.
Proof.
  intros Hs Hf. pose proof Hs as (Ha & HL & _). pose proof (pre_range _ _ _ _ _ Ha).
  destruct (queryRange_spec fuel 1 0 (n st - 1) l r st a Ha ltac:(lia))
    as (st' & tr & E & F & P & _).
  pose proof (frame_n _ _ _ F) as Hn.
  eexists _, st', tr. unfold querySum. rewrite bind_get_n.
  split; [exact E|]. split; [done|].
  eapply (settled_frame st); [exact Hs|done|unfold Rep; by rewrite Hn|].
  eapply queryRange_pending; [exact Ha| |done|exact E]. lia.
Qed.

Lemma getCurrentArray_loop_settled fuel a count : forall i res st,
  settled st a -> (Z.to_nat (n st) <= fuel)%nat ->
  forall res' st' tr,
    getCurrentArray_loop count fuel i res st = Ok (res', st', tr) ->
    n st' = n st /\ settled st' a.
Proof.
  induction count as [|count IH]; intros i res st Hs Hf res' st' tr; [done|].
  cbn [getCurrentArray_loop]. rewrite bind_get_n.
  destruct (i <? n st); [|by intros [= _ <- _]].
  destruct (querySum_settled fuel i i st a Hs Hf) as (v & st1 & tr1 & E1 & Hn1 & Hs1).
  unfold bind. rewrite E1. destruct (vset res i v) as [res1|]; [|done].
  destruct (getCurrentArray_loop count fuel (i + 1) res1 st1) as [[[r2 st2] tr2]|] eqn:E2; [|done].
  intros [= _ <- _]. destruct (IH _ _ _ Hs1 ltac:(lia) _ _ _ E2) as [Hn2 Hs2].
  split; [congruence|done].
Qed.

Lemma exec_settled T_max fuel o st a :
  settled st a -> (Z.to_nat (n st) <= fuel)%nat ->
  exists x st' tr,
    exec T_max fuel o st = Ok (x, st', tr)
    /\ n st' = n st /\ settled st' (abs_state (n st) o a).
Proof.
  intros Hs Hf. pose proof Hs as (Ha & HL & _). pose proof (pre_range _ _ _ _ _ Ha).
  destruct o as [l r v|l r|idx v|l r|]; cbn [exec abs_state].
  - destruct (updateRange_rec_spec fuel 1 0 (n st - 1) l r v st a Ha ltac:(lia))
      as (st' & tr & E & F & P & HL' & _).
    pose proof (frame_n _ _ _ F) as Hn.
    eexists _, st', _. split; [|split; [done|]].
    + eapply bind_ok; [|reflexivity]. unfold updateRange. rewrite bind_get_n. exact E.
    + eapply (settled_frame st); [exact Hs|done|unfold Rep; by rewrite Hn|done].
  - destruct (querySum_settled fuel l r st a Hs Hf) as (v & st' & tr & E & Hn & Hs').
    eexists _, st', _. split; [|done]. eapply bind_ok; [exact E|reflexivity].
  - destruct (updatePoint_rec_spec fuel 1 0 (n st - 1) idx v st a Ha ltac:(lia))
      as (st' & tr & E & F & P & HL' & _).
    pose proof (frame_n _ _ _ F) as Hn.
    eexists _, st', _. split; [|split; [done|]].
    + eapply bind_ok; [|reflexivity]. unfold updatePoint. rewrite bind_get_n. exact E.
    + eapply (settled_frame st); [exact Hs|done|unfold Rep; by rewrite Hn|done].
  - destruct (queryMin_rec_spec T_max id fuel 1 0 (n st - 1) l r st a Ha ltac:(lia))
      as (st' & tr & E & F & P & _).
    pose proof (frame_n _ _ _ F) as Hn.
    eexists _, st', _. split; [|split; [done|]].
    + eapply bind_ok; [|reflexivity]. unfold queryMin. rewrite bind_get_n. exact E.
    + eapply (settled_frame st); [exact Hs|done|unfold Rep; by rewrite Hn|].
      eapply queryMin_rec_pending; [exact Ha| |done|exact E]. lia.
  - destruct (getCurrentArray_spec fuel (S fuel) st a Ha Hf ltac:(lia))
      as (st' & tr & E & Hn & _).
    unfold getCurrentArray in E. rewrite bind_get_n in E.
    destruct (getCurrentArray_loop_settled fuel a _ _ _ _ Hs Hf _ _ _ E) as [_ Hs'].
    eexists _, st', _. split; [|done].
    eapply bind_ok; [|reflexivity]. unfold getCurrentArray. rewrite bind_get_n. exact E.
Qed.

Lemma constructor_settled arr fuel :
  arr <> [] -> (length arr <= fuel)%nat ->
  exists st, AdvancedSegmentTree fuel arr = Ok (st, []) /\ settled st (at_index arr).
Proof.
  intros Hne Hf.
  destruct (constructor_spec arr fuel Hne Hf) as (st & E & Hn & Hz & Ha).
  exists st. split; [done|]. split; [done|].
  assert (forall j, L st j = 0) as HL.
  { intros j. unfold L. rewrite Hz. apply vget_replicate_zero. }
  split; [apply HL|]. split; [|apply HL].
  assert (1 <= Z.of_nat (length arr)) as Hlen by (destruct arr; [done|cbn; lia]).
  unfold AdvancedSegmentTree in E. cbv zeta in E.
  set (nn := Z.of_nat (length arr)) in *.
  set (st0 := mk (replicate (Z.to_nat (4 * nn)) 0) (replicate (Z.to_nat (4 * nn)) 0) nn) in *.
  destruct (build_spec arr fuel 1 0 (nn - 1) st0) as (st1 & E1 & [_ F] & _);
    [unfold wf, st0; cbn; rewrite length_replicate; lia|done|by apply inb_root|lia|cbn; lia|lia| |].
  { intros j. apply vget_replicate_zero. }
  rewrite E1 in E. injection E as <-.
  destruct (F 0) as [-> _].
  { intros Hd. apply desc_ge in Hd; lia. }
  apply vget_replicate_zero.
Qed.

Lemma reachable_settled T_max st : reachable T_max st -> exists a, settled st a.
Proof.
  induction 1 as [fuel arr st tr Hne E|fuel o x st st' tr _ [a Hs] E].
  - destruct (constructor_settled arr (Nat.max fuel (length arr)) Hne ltac:(lia))
      as (st0 & E0 & Hs).
    rewrite (constructor_mono fuel (Nat.max fuel (length arr)) arr _ ltac:(lia) E) in E0.
    injection E0 as -> _. by exists (at_index arr).
  - destruct (exec_settled T_max (Nat.max fuel (Z.to_nat (n st))) o st a Hs ltac:(lia))
      as (x0 & st0 & tr0 & E0 & _ & Hs').
    rewrite (exec_mono T_max fuel (Nat.max fuel (Z.to_nat (n st))) o ltac:(lia) _ _ E) in E0.
    injection E0 as _ -> _. eauto.
Qed.

(** ** The depth of the recursion *)

Lemma pow2_succ f : 2 ^ Z.of_nat (S f) = 2 * 2 ^ Z.of_nat f.
Proof. rewrite Nat2Z.inj_succ, Z.pow_succ_r by lia. done. Qed.

Lemma halves_fit s e f :
  0 <= s -> s < e -> e - s + 1 <= 2 ^ Z.of_nat (S f) ->
  s <= Z.quot (s + e) 2 /\ Z.quot (s + e) 2 + 1 <= e
  /\ Z.quot (s + e) 2 - s + 1 <= 2 ^ Z.of_nat f
  /\ e - (Z.quot (s + e) 2 + 1) + 1 <= 2 ^ Z.of_nat f.
Proof.
  intros H0 Hlt Hsz. rewrite pow2_succ in Hsz.
  pose proof (mid_bounds s e H0 Hlt). pose proof (mid_halves s e H0 Hlt). lia.
Qed.

Lemma bind_congr {A B} (m : M A) (k k' : A -> M B) st :
  (forall a st1, k a st1 = k' a st1) -> bind m k st = bind m k' st.
Proof.
  intros H. unfold bind. destruct (m st) as [[[a st1] tr1]|]; [|done]. by rewrite H.
Qed.

Lemma bind_congr_l {A B} (m m' : M A) (k : A -> M B) st :
  m st = m' st -> bind m k st = bind m' k st.
Proof. intros H. unfold bind. by rewrite H. Qed.

Lemma bind_congr2 {A B} (m m' : M A) (k k' : A -> M B) st :
  m st = m' st -> (forall a st1, k a st1 = k' a st1) -> bind m k st = bind m' k' st.
Proof.
  intros H Hk. unfold bind. rewrite H.
  destruct (m' st) as [[[a st1] tr1]|]; [|done]. by rewrite Hk.
Qed.

Lemma queryRange_depth f : forall F i s e l r st,
  0 <= s <= e -> e - s + 1 <= 2 ^ Z.of_nat f -> (S f <= F)%nat ->
  queryRange (S f) i s e l r st = queryRange F i s e l r st.
Proof.
  induction f as [|f IH]; intros F i s e l r st Hse Hsz HF;
    (destruct F as [|F]; [lia|]); [|remember (S f) as g eqn:Hg]; cbn [queryRange];
    (destruct ((s >? r) || (e <? l)) eqn:Ed; [done|]);
    apply bind_congr; intros _ st1;
    (destruct ((s >=? l) && (e <=? r)) eqn:Ec; [done|]).
  - change (2 ^ Z.of_nat 0) with 1 in Hsz. lia.
  - subst g. assert (s < e) as Hlt by lia.
    destruct (halves_fit s e f ltac:(lia) Hlt Hsz) as (? & ? & ? & ?).
    unfold bind. rewrite (IH F) by lia.
    destruct (queryRange F _ _ _ _ _ st1) as [[[p1 st2] tr2]|]; [|done].
    rewrite (IH F) by lia. done.
Qed.

Lemma queryMin_rec_depth T_max view f : forall F i s e l r st,
  0 <= s <= e -> e - s + 1 <= 2 ^ Z.of_nat f -> (S f <= F)%nat ->
  queryMin_rec T_max view (S f) i s e l r st = queryMin_rec T_max view F i s e l r st.
Proof.
  induction f as [|f IH]; intros F i s e l r st Hse Hsz HF;
    (destruct F as [|F]; [lia|]); [|remember (S f) as g eqn:Hg]; cbn [queryMin_rec];
    (destruct ((s >? r) || (e <? l)) eqn:Ed; [done|]);
    apply bind_congr; intros _ st1;
    (destruct ((s >=? l) && (e <=? r)) eqn:Ec; [done|]).
  - change (2 ^ Z.of_nat 0) with 1 in Hsz. lia.
  - subst g. assert (s < e) as Hlt by lia.
    destruct (halves_fit s e f ltac:(lia) Hlt Hsz) as (? & ? & ? & ?).
    unfold bind. rewrite (IH F) by lia.
    destruct (queryMin_rec T_max view F _ _ _ _ _ st1) as [[[p1 st2] tr2]|]; [|done].
    rewrite (IH F) by lia. done.
Qed.

Lemma updateRange_rec_depth f : forall F i s e l r v st,
  0 <= s <= e -> e - s + 1 <= 2 ^ Z.of_nat f -> (S f <= F)%nat ->
  updateRange_rec (S f) i s e l r v st = updateRange_rec F i s e l r v st.
Proof.
  induction f as [|f IH]; intros F i s e l r v st Hse Hsz HF;
    (destruct F as [|F]; [lia|]); [|remember (S f) as g eqn:Hg]; cbn [updateRange_rec];
    apply bind_congr; intros _ st1;
    (destruct ((s >? r) || (e <? l)) eqn:Ed; [done|]);
    (destruct ((s >=? l) && (e <=? r)) eqn:Ec; [done|]).
  - change (2 ^ Z.of_nat 0) with 1 in Hsz. lia.
  - subst g. assert (s < e) as Hlt by lia.
    destruct (halves_fit s e f ltac:(lia) Hlt Hsz) as (? & ? & ? & ?).
    apply bind_congr2; [apply IH; lia|intros _ st2].
    apply bind_congr_l. apply IH; lia.
Qed.

Lemma updatePoint_rec_depth f : forall F i s e idx v st,
  0 <= s <= e -> e - s + 1 <= 2 ^ Z.of_nat f -> (S f <= F)%nat ->
  updatePoint_rec (S f) i s e idx v st = updatePoint_rec F i s e idx v st.
Proof.
  induction f as [|f IH]; intros F i s e idx v st Hse Hsz HF;
    (destruct F as [|F]; [lia|]); [|remember (S f) as g eqn:Hg]; cbn [updatePoint_rec];
    apply bind_congr; intros _ st1;
    (destruct (Z.eqb_spec s e) as [Ese|Ese]; [done|]).
  - change (2 ^ Z.of_nat 0) with 1 in Hsz. lia.
  - subst g. assert (s < e) as Hlt by lia.
    destruct (halves_fit s e f ltac:(lia) Hlt Hsz) as (? & ? & ? & ?).
    apply bind_congr_l.
    destruct (idx <=? Z.quot (s + e) 2); apply IH; lia.
Qed.

Lemma build_depth arr f : forall F i s e st,
  0 <= s <= e -> e - s + 1 <= 2 ^ Z.of_nat f -> (S f <= F)%nat ->
  build (S f) arr i s e st = build F arr i s e st.
Proof.
  induction f as [|f IH]; intros F i s e st Hse Hsz HF;
    (destruct F as [|F]; [lia|]); [|remember (S f) as g eqn:Hg]; cbn [build];
    (destruct (Z.eqb_spec s e) as [Ese|Ese]; [done|]).
  - change (2 ^ Z.of_nat 0) with 1 in Hsz. lia.
  - subst g. assert (s < e) as Hlt by lia.
    destruct (halves_fit s e f ltac:(lia) Hlt Hsz) as (? & ? & ? & ?).
    apply bind_congr2; [apply IH; lia|intros _ st2].
    apply bind_congr_l. apply IH; lia.
Qed.

(** The depth that suffices for a tree over [nn] elements. *)
Lemma depth_fits nn : 1 <= nn -> nn - 1 - 0 + 1 <= 2 ^ Z.of_nat (Z.to_nat (Z.log2_up nn)).
Proof.
  intros H. rewrite Z2Nat.id by apply Z.log2_up_nonneg.
  pose proof (Z.log2_log2_up_spec nn ltac:(lia)). lia.
Qed.

(** ** The binary indexed tree: edges, canonical form, loop bounds *)

Lemma at_index_take xs m k :
  0 <= k < Z.of_nat m -> at_index (take m xs) k = at_index xs k.
Proof.
  intros Hk. unfold at_index, vget. destruct (Z.leb_spec 0 k); [|lia].
  by rewrite lookup_take_lt by lia.
Qed.

Lemma prefix_sum_take xs idx :
  0 <= idx < Z.of_nat (length xs) ->
  range_sum (at_index xs) 0 idx = list_sum (take (Z.to_nat (idx + 1)) xs).
Proof.
  intros Hidx. rewrite <- list_sum_at_index.
  rewrite length_take. replace (Z.of_nat (Z.to_nat (idx + 1) `min` length xs) - 1) with idx by lia.
  apply range_sum_ext. intros k Hk. symmetry. apply at_index_take. lia.
Qed.

Lemma update_loop_slot0 v fuel : forall j st st',
  1 <= j -> UFenwick.update_loop fuel j v st = Ok st' ->
  B st' 0 = B st 0 /\ Fenwick.n st' = Fenwick.n st.
Proof.
  induction fuel as [|fuel IH]; intros j st st' Hj; [done|].
  cbn [UFenwick.update_loop]. destruct (j <=? Fenwick.n st); [|by intros [= <-]].
  destruct (vget (Fenwick.bit st) j) as [x|]; [|done].
  unfold vset. destruct ((0 <=? j) && (j <? Z.of_nat (length (Fenwick.bit st)))) eqn:Eb; [|done].
  intros E. pose proof (lowbit_bound j ltac:(lia)). unfold lowbit in *.
  apply IH in E as [E1 E2]; [|lia]. split; [|done].
  rewrite E1. unfold B. cbn [Fenwick.bit]. rewrite vget_insert by lia.
  destruct (Z.eqb_spec 0 j); [lia|done].
Qed.

Lemma init_loop_slot0 arr fuel count : forall i st st',
  UFenwick.init_loop count fuel arr i st = Ok st' -> B st' 0 = B st 0.
Proof.
  induction count as [|count IH]; intros i st st'; [done|].
  cbn [UFenwick.init_loop]. destruct (i <? Fenwick.n st); [|by intros [= <-]].
  unfold vget at 1. destruct (Z.leb_spec 0 i); [|done].
  destruct (arr !! Z.to_nat i) as [x|]; [|done].
  destruct (UFenwick.update fuel i x st) as [st1|] eqn:E1; [|done].
  intros E. apply IH in E. rewrite E.
  unfold UFenwick.update in E1. by apply update_loop_slot0 in E1 as [? _]; [|lia].
Qed.

Lemma holds_slot0 st a : holds st a -> B st 0 = 0.
Proof.
  induction 1 as [count fuel arr st E|fuel idx delta st st' a Hh IH E].
  - unfold UFenwick.BinaryIndexedTree in E. cbv zeta in E.
    apply init_loop_slot0 in E. rewrite E. apply vget_replicate_zero.
  - pose proof (update_negative _ _ _ _ _ _ (holds_BInv _ _ Hh) E).
    unfold UFenwick.update in E. apply update_loop_slot0 in E as [-> _]; [done|lia].
Qed.

(** The slots are determined by the sequence. *)
Lemma BInv_unique st st' a a' :
  BInv st a -> BInv st' a' -> Fenwick.n st' = Fenwick.n st -> B st' 0 = B st 0 ->
  (forall k, 0 <= k < Fenwick.n st -> a k = a' k) -> st' = st.
Proof.
  intros [Hn Hl Hs] [Hn' Hl' Hs'] En E0 Hext.
  destruct st as [bs nn], st' as [bs' nn']. cbn in *. subst nn'. f_equal.
  apply (list_eq_same_length _ _ (Z.to_nat (nn + 1))); [lia|lia|].
  intros i x y Hi Hx Hy.
  assert (B (Fenwick.mk bs' nn) (Z.of_nat i) = x) as <-.
  { unfold B, vget. cbn. destruct (Z.leb_spec 0 (Z.of_nat i)); [|lia]. by rewrite Nat2Z.id, Hx. }
  assert (B (Fenwick.mk bs nn) (Z.of_nat i) = y) as <-.
  { unfold B, vget. cbn. destruct (Z.leb_spec 0 (Z.of_nat i)); [|lia]. by rewrite Nat2Z.id, Hy. }
  destruct i as [|i]; [done|].
  rewrite Hs, Hs' by (cbn; lia).
  pose proof (lowbit_bound (Z.of_nat (S i)) ltac:(lia)).
  apply range_sum_ext. intros k Hk. symmetry. apply Hext. cbn. lia.
Qed.

Lemma lowbit_prev_pos p :
  0 < Z.pos p - lowbit (Z.pos p) ->
  2 * lowbit (Z.pos p) <= lowbit (Z.pos p - lowbit (Z.pos p)).
Proof.
  induction p as [p IH|p IH|].
  - rewrite (Pos2Z.inj_xI p), lowbit_odd. intros _.
    replace (2 * Z.pos p + 1 - 1) with (2 * Z.pos p) by lia.
    rewrite lowbit_even. pose proof (lowbit_bound (Z.pos p) ltac:(lia)). lia.
  - rewrite (Pos2Z.inj_xO p), lowbit_even. intros Hpos.
    replace (2 * Z.pos p - 2 * lowbit (Z.pos p)) with (2 * (Z.pos p - lowbit (Z.pos p))) by lia.
    rewrite lowbit_even. assert (0 < Z.pos p - lowbit (Z.pos p)) as H by lia.
    specialize (IH H). lia.
  - change (lowbit 1) with 1. lia.
Qed.

Lemma lowbit_prev j :
  0 < j - lowbit j -> 0 < j -> 2 * lowbit j <= lowbit (j - lowbit j).
Proof. destruct j as [|p|p]; [lia| |lia]. intros H _. by apply lowbit_prev_pos. Qed.

Lemma update_loop_depth v f : forall F j st,
  1 <= j -> Fenwick.n st < lowbit j * 2 ^ Z.of_nat f -> (S f <= F)%nat ->
  UFenwick.update_loop (S f) j v st = UFenwick.update_loop F j v st.
Proof.
  induction f as [|f IH]; intros F j st Hj Hm HF;
    (destruct F as [|F]; [lia|]); [|remember (S f) as g eqn:Hg];
    cbn [UFenwick.update_loop]; pose proof (lowbit_bound j ltac:(lia)) as Hlb.
  - change (2 ^ Z.of_nat 0) with 1 in Hm.
    destruct (Z.leb_spec j (Fenwick.n st)); [lia|done].
  - subst g. destruct (j <=? Fenwick.n st); [|done].
    destruct (vget (Fenwick.bit st) j) as [x|]; [|done].
    destruct (vset (Fenwick.bit st) j (x + v)) as [bs|]; [|done].
    fold (lowbit j). apply IH; [lia| |lia]. cbn [Fenwick.n].
    pose proof (lowbit_next j ltac:(lia)) as Hnx. rewrite pow2_succ in Hm.
    assert (0 <= 2 ^ Z.of_nat f) by (apply Z.pow_nonneg; lia).
    assert (2 * lowbit j * 2 ^ Z.of_nat f <= lowbit (j + lowbit j) * 2 ^ Z.of_nat f)
      by (apply Z.mul_le_mono_nonneg_r; lia).
    lia.
Qed.

Lemma query_loop_depth f : forall F j sum st,
  j <= 0 \/ j < lowbit j * 2 ^ Z.of_nat f -> (S f <= F)%nat ->
  UFenwick.query_loop (S f) j sum st = UFenwick.query_loop F j sum st.
Proof.
  induction f as [|f IH]; intros F j sum st Hm HF;
    (destruct F as [|F]; [lia|]); [|remember (S f) as g eqn:Hg];
    cbn [UFenwick.query_loop]; (destruct (Z.gtb_spec j 0) as [Hpos|Hz]; [|done]);
    pose proof (lowbit_bound j ltac:(lia)) as Hlb.
  - change (2 ^ Z.of_nat 0) with 1 in Hm. lia.
  - subst g. destruct (vget (Fenwick.bit st) j) as [x|]; [|done].
    fold (lowbit j). apply IH; [|lia].
    destruct (Z_le_gt_dec (j - lowbit j) 0) as [|Hgt]; [by left|right].
    pose proof (lowbit_prev j ltac:(lia) ltac:(lia)) as Hpv.
    destruct Hm as [|Hm]; [lia|]. rewrite pow2_succ in Hm.
    assert (0 <= 2 ^ Z.of_nat f) by (apply Z.pow_nonneg; lia).
    assert (2 * lowbit j * 2 ^ Z.of_nat f <= lowbit (j - lowbit j) * 2 ^ Z.of_nat f)
      by (apply Z.mul_le_mono_nonneg_r; lia).
    lia.
Qed.

Lemma bit_depth_fits nn j :
  0 <= nn -> 1 <= j -> nn < lowbit j * 2 ^ Z.of_nat (S (Z.to_nat (Z.log2 nn))).
Proof.
  intros Hn Hj. pose proof (lowbit_bound j ltac:(lia)).
  rewrite Nat2Z.inj_succ, Z2Nat.id by apply Z.log2_nonneg.
  assert (nn < 2 ^ Z.succ (Z.log2 nn)) as Hlt.
  { destruct (Z.eq_dec nn 0) as [->|]; [done|]. apply Z.log2_spec. lia. }
  assert (1 * 2 ^ Z.succ (Z.log2 nn) <= lowbit j * 2 ^ Z.succ (Z.log2 nn))
    by (apply Z.mul_le_mono_nonneg_r; [apply Z.pow_nonneg|]; lia).
  lia.
Qed.

Lemma bit_updates_spec fuel ups : forall bt b,
  holds bt b -> (Z.to_nat (Fenwick.n bt) < fuel)%nat -> Forall (fun u => 0 <= u.1) ups ->
  exists bt',
    bit_updates fuel ups bt = Ok bt' /\ Fenwick.n bt' = Fenwick.n bt
    /\ holds bt' (abs_states (Fenwick.n bt) (point_adds ups) b).
Proof.
  induction ups as [|[idx d] ups IH]; intros bt b Hh Hf Hall; cbn [bit_updates point_adds map abs_states].
  - by exists bt.
  - destruct (Forall_cons_1 _ _ _ Hall) as [Hidx Hall']. cbn in Hidx.
    destruct (update_spec bt b fuel idx d (holds_BInv _ _ Hh) Hidx ltac:(lia)) as (bt1 & E1 & Hn1 & _).
    rewrite E1. pose proof (holds_update _ _ _ _ _ _ Hh E1) as Hh1.
    destruct (IH bt1 _ Hh1 ltac:(lia) Hall') as (bt' & E & Hn & Hh').
    exists bt'. split; [done|]. split; [lia|]. rewrite Hn1 in Hh'. exact Hh'.
Qed.

(** What the root holds between two operations. *)
Lemma settled_root st a :
  settled st a -> T st 1 = range_sum (elems st) 0 (n st - 1).
Proof.
  intros (Ha & HL & _). pose proof (pre_wf _ _ _ _ _ Ha) as (Hn & Ht & Hl).
  rewrite (R_sum0 st 1 0 (n st - 1) a); [|apply Ha|done].
  apply range_sum_ext. intros k Hk. symmetry. by apply elems_Rep.
Qed.

(** A binary indexed tree is determined by its size and the sequence it
    holds. *)
Lemma holds_unique st st' a a' :
  holds st a -> holds st' a' -> Fenwick.n st' = Fenwick.n st ->
  (forall k, 0 <= k < Fenwick.n st -> a k = a' k) -> st' = st.
Proof.
  intros Hh Hh' Hn Hext.
  apply (BInv_unique st st' a a'); [by apply holds_BInv|by apply holds_BInv|done| |done].
  by rewrite (holds_slot0 _ _ Hh), (holds_slot0 _ _ Hh').
Qed.

(** ** What the comparison with the program of Part I uses *)

Lemma node_at_discrepancy st a i s e acc :
  Rep st a -> node_at st i s e acc ->
  range_sum a s e - T st i = (e - s + 1) * (L st i + acc).
Proof.
  intros Ha Hat. pose proof (pre_wf _ _ _ _ _ Ha) as (Hn & _).
  destruct (node_at_R st _ i s e acc Ha Hat) as [HR _].
  pose proof (node_at_range _ _ _ _ _ Hn Hat) as (_ & Hs & He).
  pose proof (R_top _ _ _ _ _ HR) as Ht.
  assert (range_sum (fun k => a k - acc) s e
          = range_sum a s e + (- acc) * (e - s + 1)) as Hsum.
  { rewrite <- range_sum_add_const by lia. apply range_sum_ext. intros k _. lia. }
  rewrite Hsum in Ht. nia.
Qed.

Lemma queryMin_settled T_max view fuel l r st a :
  settled st a -> (Z.to_nat (n st) <= fuel)%nat ->
  exists st' tr,
    queryMin T_max view fuel l r st
    = Ok (cover_min T_max view fuel a 0 (n st - 1) l r, st', tr)
    /\ n st' = n st /\ settled st' a /\ Forall good tr.
Proof.
  intros Hs Hf. pose proof Hs as (Ha & HL & _). pose proof (pre_range _ _ _ _ _ Ha).
  destruct (queryMin_rec_spec T_max view fuel 1 0 (n st - 1) l r st a Ha ltac:(lia))
    as (st' & tr & E & F & P & G).
  pose proof (frame_n _ _ _ F) as Hn.
  exists st', tr. split; [unfold queryMin; rewrite bind_get_n; exact E|].
  split; [done|]. split; [|done].
  eapply (settled_frame st); [exact Hs|done|unfold Rep; by rewrite Hn|].
  eapply queryMin_rec_pending; [exact Ha| |done|exact E]. lia.
Qed.

Lemma exec_full T_max fuel o st a :
  settled st a -> (Z.to_nat (n st) <= fuel)%nat ->
  exists st' tr,
    exec T_max fuel o st = Ok (abs_result T_max fuel (n st) o a, st', tr)
    /\ n st' = n st /\ settled st' (abs_state (n st) o a) /\ Forall good tr.
Proof.
  intros Hs Hf. pose proof Hs as (Ha & _).
  destruct (exec_spec T_max fuel o st a Ha Hf) as (st' & tr & E & Hn & _ & G).
  destruct (exec_settled T_max fuel o st a Hs Hf) as (x & st2 & tr2 & E2 & _ & Hs').
  rewrite E in E2. injection E2 as _ <- _. by exists st', tr.
Qed.

Lemma constructor_full arr fuel :
  arr <> [] -> (length arr <= fuel)%nat ->
  exists st,
    AdvancedSegmentTree fuel arr = Ok (st, [])
    /\ n st = Z.of_nat (length arr) /\ settled st (at_index arr).
Proof.
  intros Hne Hf.
  destruct (constructor_spec arr fuel Hne Hf) as (st & E & Hn & _).
  destruct (constructor_settled arr fuel Hne Hf) as (st2 & E2 & Hs).
  rewrite E in E2. injection E2 as <-. by exists st.
Qed.

(** An addition that covers a tree of two or more elements returns at the
    root. *)
Lemma full_range_update_Z st a l r delta :
  settled st a -> 2 <= n st -> l <= 0 -> n st - 1 <= r ->
  exists st' tr,
    updateRange 1 l r delta st = Ok (tt, st', tr)
    /\ T st' 1 = T st 1 + delta * n st
    /\ L st' 2 = L st 2 + delta /\ L st' 3 = L st 3 + delta
    /\ (forall j, j <> 1 -> T st' j = T st j)
    /\ (forall j, j <> 2 -> j <> 3 -> L st' j = L st j).
Proof.
  intros (Ha & HL & _) Hn2 Hl Hr.
  pose proof (pre_wf _ _ _ _ _ Ha) as Hwf.
  pose proof (inb_root (n st) ltac:(lia)) as Hin.
  destruct (updateLazy_spec st 1 0 (n st - 1) Hwf Hin ltac:(lia))
    as (st1 & E1 & S1 & L1 & T1 & To1 & Lc1 & Lo1).
  pose proof (wf_same_shape _ _ Hwf S1) as Hwf1.
  destruct S1 as (Sn1 & _). pose proof Hwf1 as (_ & _ & Hz1).
  destruct (set_lazy_ok st1 1 (L st1 1 + delta)) as (st2 & E2 & S2 & L2 & T2); [lia|].
  pose proof (wf_same_shape _ _ Hwf1 S2) as Hwf2. destruct S2 as (Sn2 & _).
  destruct (updateLazy_spec st2 1 0 (n st - 1) Hwf2) as (st3 & E3 & S3 & L3 & T3 & To3 & Lc3 & Lo3);
    [rewrite Sn2, Sn1; exact Hin|lia|].
  destruct (Lc1 ltac:(lia)) as [Lc1a Lc1b]. destruct (Lc3 ltac:(lia)) as [Lc3a Lc3b].
  change (2 * 1 + 1) with 3 in *. change (2 * 1) with 2 in *.
  eexists st3, _. split.
  - unfold updateRange. rewrite bind_get_n. cbn [updateRange_rec].
    eapply bind_ok; [exact E1|].
    destruct ((0 >? r) || (n st - 1 <? l)) eqn:Ed; [lia|].
    destruct ((0 >=? l) && (n st - 1 <=? r)) eqn:Ec; [|lia].
    rewrite (bind_ok_nil _ _ _ _ _ (get_lazy_ok st1 1 ltac:(lia))).
    eapply bind_ok; [exact E2|exact E3].
  - replace (n st - 1 - 0 + 1) with (n st) in * by lia.
    assert (L st2 1 = delta) as HL2 by (rewrite L2, Z.eqb_refl, L1; lia).
    split; [rewrite T3, T2, T1, HL2, HL; lia|].
    split; [rewrite Lc3a, HL2, L2; change (2 =? 1) with false; cbv iota; rewrite Lc1a, HL; lia|].
    split; [rewrite Lc3b, HL2, L2; change (3 =? 1) with false; cbv iota; rewrite Lc1b, HL; lia|].
    split.
    + intros j Hj. rewrite To3, T2, To1 by done. done.
    + intros j Hj2 Hj3. destruct (Z.eq_dec j 1) as [->|Hj1].
      * congruence.
      * rewrite Lo3, L2 by (done || lia). destruct (Z.eqb_spec j 1); [done|].
        apply Lo1; [done|lia].
Qed.

End IdealFacts.

Import IdealFacts.

(** * Part V: proofs about the program of Part I *)

(** ** The arithmetic of [int] *)

Lemma wrap_range z : int_min <= wrap z <= int_max.
Proof.
  unfold wrap, int_min, int_max.
  pose proof (Z.mod_pos_bound (z + 2147483648) 4294967296 ltac:(lia)). lia.
Qed.

Lemma wrap_is_int z : is_int (wrap z).
Proof. apply wrap_range. Qed.

Lemma wrap_small z : is_int z -> wrap z = z.
Proof.
  unfold is_int, int_min, int_max, wrap. intros H.
  rewrite Z.mod_small by lia. lia.
Qed.

Lemma wrap_congr a b : a mod 4294967296 = b mod 4294967296 -> wrap a = wrap b.
Proof.
  intros H. unfold wrap. f_equal.
  rewrite <- (Zplus_mod_idemp_l a), <- (Zplus_mod_idemp_l b). by rewrite H.
Qed.

Lemma wrap_mod a : wrap a mod 4294967296 = a mod 4294967296.
Proof.
  unfold wrap. rewrite <- Zminus_mod_idemp_l, Z.mod_mod by lia.
  rewrite Zminus_mod_idemp_l. f_equal. lia.
Qed.

Lemma wrap_wrap a : wrap (wrap a) = wrap a.
Proof. apply wrap_congr, wrap_mod. Qed.

Lemma wrap_add_l a b : wrap (wrap a + b) = wrap (a + b).
Proof. apply wrap_congr. by rewrite <- Zplus_mod_idemp_l, wrap_mod, Zplus_mod_idemp_l. Qed.

Lemma wrap_add_r a b : wrap (a + wrap b) = wrap (a + b).
Proof. by rewrite Z.add_comm, wrap_add_l, Z.add_comm. Qed.

Lemma wrap_sub_l a b : wrap (wrap a - b) = wrap (a - b).
Proof. apply wrap_congr. by rewrite <- Zminus_mod_idemp_l, wrap_mod, Zminus_mod_idemp_l. Qed.

Lemma wrap_sub_r a b : wrap (a - wrap b) = wrap (a - b).
Proof. apply wrap_congr. by rewrite <- Zminus_mod_idemp_r, wrap_mod, Zminus_mod_idemp_r. Qed.

Lemma wrap_mul_l a b : wrap (wrap a * b) = wrap (a * b).
Proof. apply wrap_congr. by rewrite <- Zmult_mod_idemp_l, wrap_mod, Zmult_mod_idemp_l. Qed.

Lemma wrap_mul_r a b : wrap (a * wrap b) = wrap (a * b).
Proof. by rewrite Z.mul_comm, wrap_mul_l, Z.mul_comm. Qed.

Lemma wrap_0 : wrap 0 = 0.
Proof. reflexivity. Qed.

Lemma wrap_eq_0 a k : wrap a = 0 -> wrap (a * k) = 0.
Proof. intros H. by rewrite <- wrap_mul_l, H. Qed.

Lemma wrap_sum_from f : forall c s,
  wrap (sum_from (fun k => wrap (f k)) s c) = wrap (sum_from f s c).
Proof.
  induction c as [|c IH]; intros s; [done|]. cbn [sum_from].
  rewrite wrap_add_l, <- wrap_add_r, IH, wrap_add_r. done.
Qed.

Lemma wrap_range_sum f s e :
  wrap (range_sum (fun k => wrap (f k)) s e) = wrap (range_sum f s e).
Proof. apply wrap_sum_from. Qed.

Lemma is_int_small z : 0 <= z <= int_max -> is_int z.
Proof. unfold is_int, int_min, int_max. lia. Qed.

(** ** Steps of the two programs, side by side *)

Lemma bind_inv {A B} (m : M A) (k : A -> M B) st b st2 tr :
  bind m k st = Ok (b, st2, tr) ->
  exists a st1 tr1 tr2,
    m st = Ok (a, st1, tr1) /\ k a st1 = Ok (b, st2, tr2) /\ tr = tr1 ++ tr2.
Proof.
  unfold bind. destruct (m st) as [[[a st1] tr1]|]; [|done].
  destruct (k a st1) as [[[b' st2'] tr2]|] eqn:E; [|done].
  intros [= <- <- <-]. by exists a, st1, tr1, tr2.
Qed.

Lemma get_tree_inv j st x st' tr :
  get_tree j st = Ok (x, st', tr) -> vget (tree st) j = Some x /\ st' = st /\ tr = [].
Proof. unfold get_tree. destruct (vget (tree st) j); [|done]. by intros [= <- <- <-]. Qed.

Lemma get_lazy_inv j st x st' tr :
  get_lazy j st = Ok (x, st', tr) -> vget (lazy st) j = Some x /\ st' = st /\ tr = [].
Proof. unfold get_lazy. destruct (vget (lazy st) j); [|done]. by intros [= <- <- <-]. Qed.

Lemma set_tree_inv j x st y st' tr :
  set_tree j x st = Ok (y, st', tr) ->
  exists v, vset (tree st) j x = Some v /\ st' = mk v (lazy st) (n st) /\ tr = [].
Proof. unfold set_tree. destruct (vset (tree st) j x) as [v|]; [|done]. intros [= _ <- <-]. by exists v. Qed.

Lemma set_lazy_inv j x st y st' tr :
  set_lazy j x st = Ok (y, st', tr) ->
  exists v, vset (lazy st) j x = Some v /\ st' = mk (tree st) v (n st) /\ tr = [].
Proof. unfold set_lazy. destruct (vset (lazy st) j x) as [v|]; [|done]. intros [= _ <- <-]. by exists v. Qed.

Lemma vget_fmap (f : Z -> Z) v j : vget (f <$> v) j = f <$> vget v j.
Proof. unfold vget. destruct (0 <=? j); [apply list_lookup_fmap|done]. Qed.

Lemma vset_fmap (f : Z -> Z) v j x w :
  vset v j x = Some w -> vset (f <$> v) j (f x) = Some (f <$> w).
Proof.
  unfold vset. rewrite length_fmap.
  destruct ((0 <=? j) && (j <? Z.of_nat (length v))); [|done].
  intros [= <-]. by rewrite list_fmap_insert.
Qed.

(** A write of a value that is the old one as an [int] is not seen. *)
Lemma vset_fmap_same v j x c w :
  vset v j x = Some w -> vget v j = Some c -> wrap x = wrap c -> wrap <$> w = wrap <$> v.
Proof.
  unfold vset, vget. destruct (Z.leb_spec 0 j); [|done].
  destruct (j <? Z.of_nat (length v)); [|done]. cbn.
  intros [= <-] Hc Hx. rewrite list_fmap_insert, Hx.
  apply list_insert_id. by rewrite list_lookup_fmap, Hc.
Qed.

Lemma sim_T u m j : sim u m -> T m j = wrap (T u j).
Proof.
  intros (_ & Ht & _). unfold T. rewrite Ht, vget_fmap.
  by destruct (vget (tree u) j).
Qed.

Lemma sim_L u m j : sim u m -> L m j = wrap (L u j).
Proof.
  intros (_ & _ & Hl). unfold L. rewrite Hl, vget_fmap.
  by destruct (vget (lazy u) j).
Qed.

Lemma sim_fun u m m' : sim u m -> sim u m' -> m' = m.
Proof.
  intros (Hn & Ht & Hl) (Hn' & Ht' & Hl'). destruct m, m'. cbn in *. congruence.
Qed.

Lemma sim_ev_fun eu em em' : sim_ev eu em -> sim_ev eu em' -> em' = em.
Proof.
  intros (H1 & H2 & H3 & H4) (H1' & H2' & H3' & H4').
  pose proof (sim_fun _ _ _ H4 H4'). destruct em, em'. cbn in *. congruence.
Qed.

Lemma sim_tr_fun tru : forall trm trm',
  Forall2 sim_ev tru trm -> Forall2 sim_ev tru trm' -> trm' = trm.
Proof.
  induction tru as [|eu tru IH]; intros trm trm' H H'.
  - apply Forall2_nil_inv_l in H, H'. congruence.
  - apply Forall2_cons_inv_l in H as (em & tm & He & Ht & ->).
    apply Forall2_cons_inv_l in H' as (em' & tm' & He' & Ht' & ->).
    f_equal; [by eapply sim_ev_fun|by apply IH].
Qed.

Section Sim.

Variable nn : Z.

Lemma simM_ret {A B} (RA : A -> B -> Prop) x y :
  RA x y -> simM nn RA (ret x) (ret y).
Proof.
  intros H u m x' u' tru Hs Hn [= <- <- <-]. exists y, m, [].
  split; [done|]. split; [done|]. split; [done|]. split; [done|]. constructor.
Qed.

Lemma simM_fail {A B} (RA : A -> B -> Prop) f (mm : M B) :
  simM nn RA (fail f) mm.
Proof. by intros u m x u' tru _ _. Qed.

Lemma simM_bind {A B A' B'} (RA : A -> A' -> Prop) (RB : B -> B' -> Prop)
    (mu : M A) (mm : M A') (ku : A -> M B) (km : A' -> M B') :
  simM nn RA mu mm -> (forall x y, RA x y -> simM nn RB (ku x) (km y)) ->
  simM nn RB (bind mu ku) (bind mm km).
Proof.
  intros H1 H2 u m b u2 tr Hs Hn E.
  apply bind_inv in E as (a & u1 & tr1 & tr2 & E1 & E2 & ->).
  destruct (H1 _ _ _ _ _ Hs Hn E1) as (y & m1 & trm1 & F1 & Ha & Hs1 & Hn1 & Ht1).
  destruct (H2 _ _ Ha _ _ _ _ _ Hs1 Hn1 E2) as (b' & m2 & trm2 & F2 & Hb & Hs2 & Hn2 & Ht2).
  exists b', m2, (trm1 ++ trm2). split; [by eapply bind_ok|].
  split; [done|]. split; [done|]. split; [done|]. by apply Forall2_app.
Qed.

Lemma simM_get_n : simM nn (fun x y => x = nn /\ y = nn) get_n get_n.
Proof.
  intros u m x u' tru Hs Hn [= <- <- <-]. exists (n m), m, [].
  split; [done|]. split; [split; [done|destruct Hs as (Hnm & _); congruence]|].
  split; [done|]. split; [done|]. constructor.
Qed.

Lemma simM_get_tree j : simM nn as_int (get_tree j) (get_tree j).
Proof.
  intros u m x u' tru Hs Hn E. apply get_tree_inv in E as (E & -> & ->).
  exists (wrap x), m, []. split; [|split; [done|split; [done|split; [done|constructor]]]].
  unfold get_tree. destruct Hs as (_ & -> & _). by rewrite vget_fmap, E.
Qed.

Lemma simM_get_lazy j : simM nn as_int (get_lazy j) (get_lazy j).
Proof.
  intros u m x u' tru Hs Hn E. apply get_lazy_inv in E as (E & -> & ->).
  exists (wrap x), m, []. split; [|split; [done|split; [done|split; [done|constructor]]]].
  unfold get_lazy. destruct Hs as (_ & _ & ->). by rewrite vget_fmap, E.
Qed.

Lemma simM_set_tree j x y :
  y = wrap x -> simM nn eq (set_tree j x) (set_tree j y).
Proof.
  intros -> u m [] u' tru Hs Hn E. apply set_tree_inv in E as (v & E & -> & ->).
  destruct Hs as (Hnm & Ht & Hl).
  exists tt, (mk (wrap <$> v) (lazy m) (n m)), []. split.
  - unfold set_tree. rewrite Ht. by rewrite (vset_fmap wrap _ _ _ _ E).
  - split; [done|]. split; [by split|]. split; [done|constructor].
Qed.

Lemma simM_set_lazy j x y :
  y = wrap x -> simM nn eq (set_lazy j x) (set_lazy j y).
Proof.
  intros -> u m [] u' tru Hs Hn E. apply set_lazy_inv in E as (v & E & -> & ->).
  destruct Hs as (Hnm & Ht & Hl).
  exists tt, (mk (tree m) (wrap <$> v) (n m)), []. split.
  - unfold set_lazy. rewrite Hl. by rewrite (vset_fmap wrap _ _ _ _ E).
  - split; [done|]. split; [by split|]. split; [done|constructor].
Qed.

Lemma simM_read_arr arr j :
  Forall is_int arr -> simM nn as_int (read_arr arr j) (read_arr arr j).
Proof.
  intros Hint u m x u' tru Hs Hn E. unfold read_arr in *.
  destruct (vget arr j) as [y|] eqn:Ey; [|done]. injection E as <- <- <-.
  exists y, m, []. split; [done|]. split; [|split; [done|split; [done|constructor]]].
  unfold as_int. symmetry. apply wrap_small.
  unfold vget in Ey. destruct (0 <=? j); [|done].
  by eapply Forall_lookup_1.
Qed.

Lemma simM_pushed i s e : simM nn eq (pushed i s e) (pushed i s e).
Proof.
  intros u m x u' tru Hs Hn [= <- <- <-]. exists tt, m, [mkEvent i s e m].
  split; [done|]. split; [done|]. split; [done|]. split; [done|].
  constructor; [by split; [|split; [|split]]|constructor].
Qed.

Lemma simM_weaken {A B} (RA RA' : A -> B -> Prop) mu mm :
  (forall x y, RA x y -> RA' x y) -> simM nn RA mu mm -> simM nn RA' mu mm.
Proof.
  intros HR H u m x u' tru Hs Hn E.
  destruct (H _ _ _ _ _ Hs Hn E) as (y & m' & trm & F & Ha & Hrest).
  exists y, m', trm. split; [done|]. split; [by apply HR|done].
Qed.

End Sim.

(** ** [updateLazy], side by side *)

Lemma sim_vget_tree u m j c : sim u m -> vget (tree u) j = Some c -> T m j = wrap c.
Proof. intros Hs E. rewrite (sim_T u m j Hs). unfold T. by rewrite E. Qed.

Lemma sim_vget_lazy u m j c : sim u m -> vget (lazy u) j = Some c -> L m j = wrap c.
Proof. intros Hs E. rewrite (sim_L u m j Hs). unfold L. by rewrite E. Qed.

Lemma vset_vget v j x w : vset v j x = Some w -> vget v j = Some (default 0 (vget v j)).
Proof.
  unfold vset. destruct ((0 <=? j) && (j <? Z.of_nat (length v))) eqn:E; [|done].
  intros _. apply vget_in. lia.
Qed.

Lemma set_tree_unseen j x u m y u' tr :
  sim u m -> set_tree j x u = Ok (y, u', tr) -> wrap x = T m j ->
  sim u' m /\ n u' = n u /\ tr = [].
Proof.
  intros Hs E Hx. apply set_tree_inv in E as (v & E & -> & ->).
  pose proof (vset_vget _ _ _ _ E) as Hc.
  rewrite (sim_vget_tree u m j _ Hs Hc) in Hx.
  destruct Hs as (Hn & Ht & Hl). split; [|done]. split; [done|]. split; [|done].
  cbn. rewrite Ht. symmetry. by eapply vset_fmap_same.
Qed.

Lemma set_lazy_unseen j x u m y u' tr :
  sim u m -> set_lazy j x u = Ok (y, u', tr) -> wrap x = L m j ->
  sim u' m /\ n u' = n u /\ tr = [].
Proof.
  intros Hs E Hx. apply set_lazy_inv in E as (v & E & -> & ->).
  pose proof (vset_vget _ _ _ _ E) as Hc.
  rewrite (sim_vget_lazy u m j _ Hs Hc) in Hx.
  destruct Hs as (Hn & Ht & Hl). split; [|done]. split; [done|]. split; [done|].
  cbn. rewrite Hl. symmetry. by eapply vset_fmap_same.
Qed.

Lemma push_unseen i s e u m y u' tr :
  sim u m -> L m i = 0 -> push_Z i s e u = Ok (y, u', tr) ->
  sim u' m /\ n u' = n u /\ tr = [].
Proof.
  intros Hs HL E. unfold push_Z in E.
  apply bind_inv in E as (tv & w1 & q1 & q1' & E0 & E & ->).
  apply get_tree_inv in E0 as (Etv & -> & ->).
  apply bind_inv in E as (lz & w2 & q2 & q2' & E0 & E & ->).
  apply get_lazy_inv in E0 as (Elz & -> & ->).
  pose proof (sim_vget_lazy _ _ _ _ Hs Elz) as Hlz. rewrite HL in Hlz.
  apply bind_inv in E as ([] & u1 & t1 & t1' & E1 & E & ->).
  destruct (set_tree_unseen _ _ _ m _ _ _ Hs E1) as (Hs1 & Hn1 & ->).
  { rewrite (sim_vget_tree _ _ _ _ Hs Etv).
    rewrite <- (wrap_add_r tv), <- (wrap_mul_l lz), <- Hlz. by rewrite Z.mul_0_l, wrap_0, Z.add_0_r. }
  apply bind_inv in E as ([] & u2 & t2 & t2' & E2 & E & ->).
  assert (sim u2 m /\ n u2 = n u1 /\ t2 = []) as (Hs2 & Hn2 & ->).
  { destruct (negb (s =? e)); [|by injection E2 as <- <-].
    apply bind_inv in E2 as (c & w3 & q3 & q3' & E0 & E2 & ->).
    apply get_lazy_inv in E0 as (Ec & -> & ->).
    apply bind_inv in E2 as (lz1 & w4 & q4 & q4' & E0 & E2 & ->).
    apply get_lazy_inv in E0 as (Elz1 & -> & ->).
    pose proof (sim_vget_lazy _ _ _ _ Hs1 Elz1) as Hlz1. rewrite HL in Hlz1.
    apply bind_inv in E2 as ([] & u3 & t3 & t3' & E3 & E2 & ->).
    destruct (set_lazy_unseen _ _ _ m _ _ _ Hs1 E3) as (Hs3 & Hn3 & ->).
    { rewrite (sim_vget_lazy _ _ _ _ Hs1 Ec), <- (wrap_add_r c), <- Hlz1.
      by rewrite Z.add_0_r. }
    apply bind_inv in E2 as (c2 & w5 & q5 & q5' & E0 & E2 & ->).
    apply get_lazy_inv in E0 as (Ec2 & -> & ->).
    apply bind_inv in E2 as (lz2 & w6 & q6 & q6' & E0 & E2 & ->).
    apply get_lazy_inv in E0 as (Elz2 & -> & ->).
    pose proof (sim_vget_lazy _ _ _ _ Hs3 Elz2) as Hlz2. rewrite HL in Hlz2.
    destruct (set_lazy_unseen _ _ _ m _ _ _ Hs3 E2) as (Hs4 & Hn4 & ->).
    { rewrite (sim_vget_lazy _ _ _ _ Hs3 Ec2), <- (wrap_add_r c2), <- Hlz2.
      by rewrite Z.add_0_r. }
    split; [done|]. split; [congruence|done]. }
  destruct (set_lazy_unseen _ _ _ m _ _ _ Hs2 E) as (Hs3 & Hn3 & ->); [by rewrite HL|].
  split; [done|]. split; [congruence|done].
Qed.

Section SimLazy.

Variable nn : Z.
Hypothesis Hsize : 4 * nn <= int_max.

Lemma idx_small z : 0 <= z < 4 * nn -> wrap z = z.
Proof. intros H. apply wrap_small. unfold is_int, int_min, int_max in *. lia. Qed.

Lemma sim_updateLazy i s e :
  1 <= i -> 0 <= s <= e -> e < nn -> (s < e -> 2 * i + 1 < 4 * nn) ->
  simM nn eq (Unbounded.updateLazy i s e) (updateLazy i s e).
Proof.
  intros Hi Hse He Hch u m y u' tru Hs Hn E.
  unfold Unbounded.updateLazy in E. fold (push_Z i s e) in E.
  apply bind_inv in E as (lz & w7 & q7 & q7' & E0 & E & ->).
  apply get_lazy_inv in E0 as (Elz & -> & ->).
  apply bind_inv in E as ([] & u1 & t1 & t1' & E1 & E & ->).
  injection E as <- <- <-.
  assert (get_lazy i m = Ok (wrap lz, m, [])) as Em.
  { unfold get_lazy. destruct Hs as (_ & _ & ->). by rewrite vget_fmap, Elz. }
  unfold updateLazy. rewrite (bind_ok_nil _ _ _ _ _ Em).
  assert (exists m1 trm1,
             (if negb (wrap lz =? 0) then
                let* tv := get_tree i in
                let* lz := get_lazy i in
                set_tree i (tv +' lz *' (e -' s +' 1)) >>
                (if negb (s =? e) then
                   let* c := get_lazy (2 *' i) in
                   let* lz := get_lazy i in
                   set_lazy (2 *' i) (c +' lz) >>
                   let* c := get_lazy (2 *' i +' 1) in
                   let* lz := get_lazy i in
                   set_lazy (2 *' i +' 1) (c +' lz)
                 else ret tt) >>
                set_lazy i 0
              else ret tt) m = Ok (tt, m1, trm1)
             /\ sim u1 m1 /\ n u1 = nn /\ Forall2 sim_ev t1 trm1)
    as (m1 & trm1 & Em1 & Hs1 & Hn1 & Ht1).
  { destruct (Z.eqb_spec lz 0) as [->|Hnz].
    - injection E1 as <- <-. exists m, []. rewrite wrap_0. cbn.
      split; [done|]. split; [done|]. split; [done|constructor].
    - cbn [negb] in E1. destruct (Z.eqb_spec (wrap lz) 0) as [Hz|Hnz'].
      + exists m, []. cbn [negb].
        assert (L m i = 0) as HL0 by (by rewrite (sim_vget_lazy _ _ _ _ Hs Elz)).
        destruct (push_unseen i s e u m _ _ _ Hs HL0 E1) as (Hs1 & Hn1 & ->).
        split; [done|]. split; [done|]. split; [congruence|constructor].
      + cbn [negb].
        assert (e -' s +' 1 = e - s + 1) as ->.
        { rewrite (idx_small (e - s)) by lia. apply idx_small. lia. }
        enough (simM nn eq (push_Z i s e)
                  (let* tv := get_tree i in
                   let* lz := get_lazy i in
                   set_tree i (tv +' lz *' (e - s + 1)) >>
                   (if negb (s =? e) then
                      let* c := get_lazy (2 *' i) in
                      let* lz := get_lazy i in
                      set_lazy (2 *' i) (c +' lz) >>
                      let* c := get_lazy (2 *' i +' 1) in
                      let* lz := get_lazy i in
                      set_lazy (2 *' i +' 1) (c +' lz)
                    else ret tt) >>
                   set_lazy i 0)) as Hsim.
        { destruct (Hsim _ _ _ _ _ Hs Hn E1) as ([] & m1 & trm1 & F & _ & Hrest).
          by exists m1, trm1. }
        unfold push_Z.
        eapply simM_bind; [apply simM_get_tree|]. intros tv ? ->.
        eapply simM_bind; [apply simM_get_lazy|]. intros lz1 ? ->.
        eapply simM_bind.
        { apply simM_set_tree. by rewrite wrap_mul_l, wrap_add_r, wrap_add_l. }
        intros _ _ _. eapply (simM_bind _ (@eq unit)); [|intros _ _ _; by apply simM_set_lazy].
        destruct (Z.eqb_spec s e) as [->|Hne]; cbn [negb]; [by apply simM_ret|].
        rewrite (idx_small (2 * i)) by lia. rewrite (idx_small (2 * i + 1)) by lia.
        eapply simM_bind; [apply simM_get_lazy|]. intros c ? ->.
        eapply simM_bind; [apply simM_get_lazy|]. intros lz2 ? ->.
        eapply simM_bind.
        { apply simM_set_lazy. by rewrite wrap_add_l, wrap_add_r. }
        intros _ _ _.
        eapply simM_bind; [apply simM_get_lazy|]. intros c2 ? ->.
        eapply simM_bind; [apply simM_get_lazy|]. intros lz3 ? ->.
        apply simM_set_lazy. by rewrite wrap_add_l, wrap_add_r. }
  exists tt, m1, (trm1 ++ [mkEvent i s e m1]).
  split; [eapply bind_ok; [exact Em1|reflexivity]|].
  split; [done|]. split; [done|]. split; [done|].
  cbn [app]. apply Forall2_app; [done|]. constructor; [|constructor].
  split; [done|]. split; [done|]. by split.
Qed.

End SimLazy.

(** ** The recursive member functions, side by side *)

Section SimRec.

Variable nn : Z.
Hypothesis Hsize : 4 * nn <= int_max.

(** The index arithmetic of a call on an inner node stays inside [int]. *)
Lemma child_bounds i s e :
  inb nn i s e -> 0 <= s -> s < e -> e < nn ->
  wrap (s + e) = s + e /\ wrap (2 * i) = 2 * i /\ wrap (2 * i + 1) = 2 * i + 1
  /\ wrap (Z.quot (s + e) 2 + 1) = Z.quot (s + e) 2 + 1
  /\ inb nn (2 * i) s (Z.quot (s + e) 2)
  /\ inb nn (2 * i + 1) (Z.quot (s + e) 2 + 1) e
  /\ s <= Z.quot (s + e) 2 < e.
Proof.
  intros Hin Hs Hlt He.
  pose proof (mid_bounds s e Hs Hlt) as Hm.
  pose proof (inb_left nn i s e Hs Hlt Hin) as Hl.
  pose proof (inb_right nn i s e Hs Hlt Hin) as Hr.
  destruct Hl as [Hl1 Hl2] eqn:El. destruct Hr as [Hr1 Hr2] eqn:Er.
  repeat split; try (apply (idx_small nn Hsize); lia); try done; try lia.
Qed.

Lemma lazy_bounds i s e :
  inb nn i s e -> 0 <= s <= e -> e < nn ->
  1 <= i /\ (s < e -> 2 * i + 1 < 4 * nn).
Proof.
  intros Hin Hs He. split; [destruct Hin; lia|]. intros Hlt.
  destruct (inb_right nn i s e ltac:(lia) Hlt Hin). lia.
Qed.

Lemma sim_updateLazy_in i s e :
  inb nn i s e -> 0 <= s <= e -> e < nn ->
  simM nn eq (Unbounded.updateLazy i s e) (updateLazy i s e).
Proof.
  intros Hin Hs He. destruct (lazy_bounds i s e Hin Hs He).
  by apply sim_updateLazy.
Qed.

Ltac children Hin Hlt :=
  match type of Hin with
  | inb _ ?i ?s ?e =>
      let H := fresh in
      destruct (child_bounds i s e Hin ltac:(lia) Hlt ltac:(lia))
        as (H & ? & ? & ? & ? & ? & ?);
      rewrite H; clear H;
      repeat match goal with
             | E : wrap ?x = ?x |- _ => rewrite !E; clear E
             end
  end.

Lemma sim_recombine i :
  simM nn eq
    (let* a := get_tree (2 * i) in let* b := get_tree (2 * i + 1) in set_tree i (a + b))
    (let* a := get_tree (2 * i) in let* b := get_tree (2 * i + 1) in set_tree i (a +' b)).
Proof.
  eapply simM_bind; [apply simM_get_tree|]. intros a ? ->.
  eapply simM_bind; [apply simM_get_tree|]. intros b ? ->.
  apply simM_set_tree. by rewrite wrap_add_l, wrap_add_r.
Qed.

Lemma sim_build arr fuel : forall i s e,
  Forall is_int arr -> inb nn i s e -> 0 <= s <= e -> e < nn ->
  simM nn eq (Unbounded.build fuel arr i s e) (build fuel arr i s e).
Proof.
  induction fuel as [|fuel IH]; intros i s e Hint Hin Hs He; [apply simM_fail|].
  cbn [build Unbounded.build]. destruct (Z.eqb_spec s e) as [->|Hne].
  - eapply simM_bind; [by apply simM_read_arr|]. intros x ? ->.
    by apply simM_set_tree.
  - assert (s < e) as Hlt by lia. children Hin Hlt.
    eapply simM_bind; [apply IH; (done || lia)|]. intros _ _ _.
    eapply simM_bind; [apply IH; (done || lia)|]. intros _ _ _.
    apply sim_recombine.
Qed.

Lemma sim_updateRange_rec fuel : forall i s e l r val,
  inb nn i s e -> 0 <= s <= e -> e < nn ->
  simM nn eq (Unbounded.updateRange_rec fuel i s e l r val)
             (updateRange_rec fuel i s e l r val).
Proof.
  induction fuel as [|fuel IH]; intros i s e l r val Hin Hs He; [apply simM_fail|].
  cbn [updateRange_rec Unbounded.updateRange_rec].
  eapply simM_bind; [by apply sim_updateLazy_in|]. intros _ _ _.
  destruct ((s >? r) || (e <? l)) eqn:Ed; [by apply simM_ret|].
  destruct ((s >=? l) && (e <=? r)) eqn:Ec.
  - eapply simM_bind; [apply simM_get_lazy|]. intros lz ? ->.
    eapply simM_bind; [apply simM_set_lazy; by rewrite wrap_add_l|]. intros _ _ _.
    by apply sim_updateLazy_in.
  - assert (s < e) as Hlt by lia. children Hin Hlt.
    eapply simM_bind; [apply IH; (done || lia)|]. intros _ _ _.
    eapply simM_bind; [apply IH; (done || lia)|]. intros _ _ _.
    eapply simM_bind; [apply sim_updateLazy_in; (done || lia)|]. intros _ _ _.
    eapply simM_bind; [apply sim_updateLazy_in; (done || lia)|]. intros _ _ _.
    apply sim_recombine.
Qed.

Lemma sim_queryRange fuel : forall i s e l r,
  inb nn i s e -> 0 <= s <= e -> e < nn ->
  simM nn as_int (Unbounded.queryRange fuel i s e l r) (queryRange fuel i s e l r).
Proof.
  induction fuel as [|fuel IH]; intros i s e l r Hin Hs He; [apply simM_fail|].
  cbn [queryRange Unbounded.queryRange].
  destruct ((s >? r) || (e <? l)) eqn:Ed; [by apply simM_ret|].
  eapply simM_bind; [by apply sim_updateLazy_in|]. intros _ _ _.
  destruct ((s >=? l) && (e <=? r)) eqn:Ec; [apply simM_get_tree|].
  assert (s < e) as Hlt by lia. children Hin Hlt.
  eapply simM_bind; [apply IH; (done || lia)|]. intros p1 ? ->.
  eapply simM_bind; [apply IH; (done || lia)|]. intros p2 ? ->.
  apply simM_ret. unfold as_int. by rewrite wrap_add_l, wrap_add_r.
Qed.

Lemma sim_updatePoint_rec fuel : forall i s e idx vu vm,
  vm = wrap vu -> inb nn i s e -> 0 <= s <= e -> e < nn ->
  simM nn eq (Unbounded.updatePoint_rec fuel i s e idx vu)
             (updatePoint_rec fuel i s e idx vm).
Proof.
  induction fuel as [|fuel IH]; intros i s e idx vu vm Hv Hin Hs He; [apply simM_fail|].
  cbn [updatePoint_rec Unbounded.updatePoint_rec].
  eapply simM_bind; [by apply sim_updateLazy_in|]. intros _ _ _.
  destruct (Z.eqb_spec s e) as [->|Hne].
  - by apply simM_set_tree.
  - assert (s < e) as Hlt by lia. children Hin Hlt.
    eapply simM_bind.
    { destruct (idx <=? Z.quot (s + e) 2); apply IH; (done || lia). }
    intros _ _ _.
    eapply simM_bind; [apply sim_updateLazy_in; (done || lia)|]. intros _ _ _.
    eapply simM_bind; [apply sim_updateLazy_in; (done || lia)|]. intros _ _ _.
    apply sim_recombine.
Qed.

Lemma simM_get_tree_view j :
  simM nn eq (Unbounded.get_tree_view wrap j) (get_tree j).
Proof.
  intros u m x u' tru Hs Hn E. unfold Unbounded.get_tree_view in E.
  destruct (vget (tree u) j) as [y|] eqn:Ey; [|done]. injection E as <- <- <-.
  exists (wrap y), m, []. split; [|split; [done|split; [done|split; [done|constructor]]]].
  unfold get_tree. destruct Hs as (_ & -> & _). by rewrite vget_fmap, Ey.
Qed.

Lemma sim_queryMin_rec T_max fuel : forall i s e l r,
  inb nn i s e -> 0 <= s <= e -> e < nn ->
  simM nn eq (Unbounded.queryMin_rec T_max wrap fuel i s e l r)
             (queryMin_rec T_max fuel i s e l r).
Proof.
  induction fuel as [|fuel IH]; intros i s e l r Hin Hs He; [apply simM_fail|].
  cbn [queryMin_rec Unbounded.queryMin_rec].
  destruct ((s >? r) || (e <? l)) eqn:Ed; [by apply simM_ret|].
  eapply simM_bind; [by apply sim_updateLazy_in|]. intros _ _ _.
  destruct ((s >=? l) && (e <=? r)) eqn:Ec; [apply simM_get_tree_view|].
  assert (s < e) as Hlt by lia. children Hin Hlt.
  eapply simM_bind; [apply IH; (done || lia)|]. intros p1 ? <-.
  eapply simM_bind; [apply IH; (done || lia)|]. intros p2 ? <-.
  by apply simM_ret.
Qed.

(** ** The public member functions, side by side *)

Hypothesis Hnn : 1 <= nn.

Lemma root_small : wrap (nn - 1) = nn - 1.
Proof. apply (idx_small nn Hsize). lia. Qed.

Lemma sim_updateRange fuel l r val :
  simM nn eq (Unbounded.updateRange fuel l r val) (updateRange fuel l r val).
Proof.
  unfold updateRange, Unbounded.updateRange.
  eapply simM_bind; [apply simM_get_n|]. intros ? ? [-> ->]. rewrite root_small.
  apply sim_updateRange_rec; [by apply inb_root|lia|lia].
Qed.

Lemma sim_querySum fuel l r :
  simM nn as_int (Unbounded.querySum fuel l r) (querySum fuel l r).
Proof.
  unfold querySum, Unbounded.querySum.
  eapply simM_bind; [apply simM_get_n|]. intros ? ? [-> ->]. rewrite root_small.
  apply sim_queryRange; [by apply inb_root|lia|lia].
Qed.

Lemma sim_updatePoint fuel idx vu vm :
  vm = wrap vu ->
  simM nn eq (Unbounded.updatePoint fuel idx vu) (updatePoint fuel idx vm).
Proof.
  intros Hv. unfold updatePoint, Unbounded.updatePoint.
  eapply simM_bind; [apply simM_get_n|]. intros ? ? [-> ->]. rewrite root_small.
  apply sim_updatePoint_rec; [done|by apply inb_root|lia|lia].
Qed.

Lemma sim_queryMin T_max fuel l r :
  simM nn eq (Unbounded.queryMin T_max wrap fuel l r) (queryMin T_max fuel l r).
Proof.
  unfold queryMin, Unbounded.queryMin.
  eapply simM_bind; [apply simM_get_n|]. intros ? ? [-> ->]. rewrite root_small.
  apply sim_queryMin_rec; [by apply inb_root|lia|lia].
Qed.

Lemma sim_getCurrentArray_loop fuel count : forall i res,
  0 <= i ->
  simM nn (fun xs ys => ys = wrap <$> xs)
    (Unbounded.getCurrentArray_loop count fuel i res)
    (getCurrentArray_loop count fuel i (wrap <$> res)).
Proof.
  induction count as [|count IH]; intros i res Hi; [apply simM_fail|].
  cbn [getCurrentArray_loop Unbounded.getCurrentArray_loop].
  eapply simM_bind; [apply simM_get_n|]. intros ? ? [-> ->].
  destruct (Z.ltb_spec i nn) as [Hlt|Hge]; [|by apply simM_ret].
  eapply simM_bind; [apply sim_querySum|]. intros x ? ->.
  destruct (vset res i x) as [w|] eqn:Ew; [|apply simM_fail].
  rewrite (vset_fmap wrap _ _ _ _ Ew).
  rewrite (idx_small nn Hsize (i + 1)) by lia. apply IH. lia.
Qed.

Lemma sim_getCurrentArray fuel count :
  simM nn (fun xs ys => ys = wrap <$> xs)
    (Unbounded.getCurrentArray count fuel) (getCurrentArray count fuel).
Proof.
  unfold getCurrentArray, Unbounded.getCurrentArray.
  eapply simM_bind; [apply simM_get_n|]. intros ? ? [-> ->].
  destruct (Z.ltb_spec nn 0); [lia|].
  replace (replicate (Z.to_nat nn) 0) with (wrap <$> replicate (Z.to_nat nn) 0) at 2
    by (by rewrite fmap_replicate).
  by apply sim_getCurrentArray_loop.
Qed.

End SimRec.

Lemma sim_constructor fuel arr u tru :
  arr <> [] -> Forall is_int arr -> 4 * Z.of_nat (length arr) <= int_max ->
  Unbounded.AdvancedSegmentTree fuel arr = Ok (u, tru) ->
  exists m trm,
    AdvancedSegmentTree fuel arr = Ok (m, trm) /\ sim u m
    /\ n u = Z.of_nat (length arr) /\ Forall2 sim_ev tru trm.
Proof.
  intros Hne Hint Hsize E. set (nn := Z.of_nat (length arr)) in *.
  assert (1 <= nn) as Hnn by (destruct arr; [done|unfold nn; cbn [length]; lia]).
  unfold Unbounded.AdvancedSegmentTree in E. cbv zeta in E. fold nn in E.
  set (u0 := mk _ _ nn) in E.
  destruct (Unbounded.build fuel arr 1 0 (nn - 1) u0) as [[[[] u1] t1]|] eqn:Eb; [|done].
  injection E as <- <-.
  unfold AdvancedSegmentTree. cbv zeta. fold nn.
  assert (wrap nn = nn) as -> by (apply wrap_small; unfold is_int, int_min, int_max in *; lia).
  assert (4 *' nn = 4 * nn) as -> by (apply wrap_small; unfold is_int, int_min, int_max in *; lia).
  destruct (Z.ltb_spec (4 * nn) 0); [lia|].
  rewrite (root_small nn Hsize Hnn).
  destruct (sim_build nn Hsize arr fuel 1 0 (nn - 1) Hint (inb_root nn Hnn) ltac:(lia) ltac:(lia)
              u0 u0 tt u1 t1) as ([] & m1 & trm1 & Em & _ & Hs1 & Hn1 & Ht1).
  - split; [done|]. unfold u0. cbn. by rewrite fmap_replicate.
  - done.
  - exact Eb.
  - exists m1, trm1. fold u0. rewrite Em. done.
Qed.

(** ** More fuel changes nothing *)

Lemma build_more arr f : forall f' i s e,
  (f <= f')%nat -> le_M (build f arr i s e) (build f' arr i s e).
Proof.
  induction f as [|f IH]; intros f' i s e Hf; [by intros st x|].
  destruct f' as [|f']; [lia|]. cbn [build].
  destruct (s =? e); [apply le_M_refl|].
  apply bind_le; [apply IH; lia|intros _].
  apply bind_le; [apply IH; lia|intros _; apply le_M_refl].
Qed.

Lemma updateRange_rec_more f : forall f' i s e l r v,
  (f <= f')%nat -> le_M (updateRange_rec f i s e l r v) (updateRange_rec f' i s e l r v).
Proof.
  induction f as [|f IH]; intros f' i s e l r v Hf; [by intros st x|].
  destruct f' as [|f']; [lia|]. cbn [updateRange_rec].
  apply bind_le; [apply le_M_refl|intros _].
  destruct ((s >? r) || (e <? l)); [apply le_M_refl|].
  destruct ((s >=? l) && (e <=? r)); [apply le_M_refl|].
  apply bind_le; [apply IH; lia|intros _].
  apply bind_le; [apply IH; lia|intros _; apply le_M_refl].
Qed.

Lemma queryRange_more f : forall f' i s e l r,
  (f <= f')%nat -> le_M (queryRange f i s e l r) (queryRange f' i s e l r).
Proof.
  induction f as [|f IH]; intros f' i s e l r Hf; [by intros st x|].
  destruct f' as [|f']; [lia|]. cbn [queryRange].
  destruct ((s >? r) || (e <? l)); [apply le_M_refl|].
  apply bind_le; [apply le_M_refl|intros _].
  destruct ((s >=? l) && (e <=? r)); [apply le_M_refl|].
  apply bind_le; [apply IH; lia|intros p1].
  apply bind_le; [apply IH; lia|intros p2; apply le_M_refl].
Qed.

Lemma updatePoint_rec_more f : forall f' i s e idx v,
  (f <= f')%nat -> le_M (updatePoint_rec f i s e idx v) (updatePoint_rec f' i s e idx v).
Proof.
  induction f as [|f IH]; intros f' i s e idx v Hf; [by intros st x|].
  destruct f' as [|f']; [lia|]. cbn [updatePoint_rec].
  apply bind_le; [apply le_M_refl|intros _].
  destruct (s =? e); [apply le_M_refl|].
  apply bind_le; [|intros _; apply le_M_refl].
  destruct (idx <=? Z.quot (s +' e) 2); apply IH; lia.
Qed.

Lemma queryMin_rec_more T_max f : forall f' i s e l r,
  (f <= f')%nat -> le_M (queryMin_rec T_max f i s e l r) (queryMin_rec T_max f' i s e l r).
Proof.
  induction f as [|f IH]; intros f' i s e l r Hf; [by intros st x|].
  destruct f' as [|f']; [lia|]. cbn [queryMin_rec].
  destruct ((s >? r) || (e <? l)); [apply le_M_refl|].
  apply bind_le; [apply le_M_refl|intros _].
  destruct ((s >=? l) && (e <=? r)); [apply le_M_refl|].
  apply bind_le; [apply IH; lia|intros p1].
  apply bind_le; [apply IH; lia|intros p2; apply le_M_refl].
Qed.

Lemma getCurrentArray_loop_more c f : forall c' f' i res,
  (c <= c')%nat -> (f <= f')%nat ->
  le_M (getCurrentArray_loop c f i res) (getCurrentArray_loop c' f' i res).
Proof.
  induction c as [|c IH]; intros c' f' i res Hc Hf; [by intros st x|].
  destruct c' as [|c']; [lia|]. cbn [getCurrentArray_loop].
  apply bind_le; [apply le_M_refl|intros nn].
  destruct (i <? nn); [|apply le_M_refl].
  apply bind_le.
  - unfold querySum. apply bind_le; [apply le_M_refl|intros ?]. by apply queryRange_more.
  - intros x. destruct (vset res i x); [apply IH; lia|apply le_M_refl].
Qed.

Lemma printTree_loop_more c : forall c' i out,
  (c <= c')%nat -> le_M (printTree_loop c i out) (printTree_loop c' i out).
Proof.
  induction c as [|c IH]; intros c' i out Hc; [by intros st x|].
  destruct c' as [|c']; [lia|]. cbn [printTree_loop].
  apply bind_le; [apply le_M_refl|intros nn].
  destruct (i <? 4 *' nn); [|apply le_M_refl].
  apply bind_le; [apply le_M_refl|intros x].
  destruct (x =? 0); [apply le_M_refl|apply IH; lia].
Qed.

Lemma exec_more T_max f f' o : (f <= f')%nat -> le_M (exec T_max f o) (exec T_max f' o).
Proof.
  intros Hf. destruct o; cbn [exec];
    (apply bind_le; [|intros ?; apply le_M_refl]).
  - unfold updateRange. apply bind_le; [apply le_M_refl|intros ?]. by apply updateRange_rec_more.
  - unfold querySum. apply bind_le; [apply le_M_refl|intros ?]. by apply queryRange_more.
  - unfold updatePoint. apply bind_le; [apply le_M_refl|intros ?]. by apply updatePoint_rec_more.
  - unfold queryMin. apply bind_le; [apply le_M_refl|intros ?]. by apply queryMin_rec_more.
  - unfold getCurrentArray. apply bind_le; [apply le_M_refl|intros nn].
    destruct (nn <? 0); [apply le_M_refl|]. apply getCurrentArray_loop_more; lia.
  - unfold printTree. apply printTree_loop_more. lia.
Qed.

Lemma constructor_more f f' arr x :
  (f <= f')%nat -> AdvancedSegmentTree f arr = Ok x -> AdvancedSegmentTree f' arr = Ok x.
Proof.
  intros Hf. unfold AdvancedSegmentTree. cbv zeta.
  destruct (_ <? 0); [done|].
  destruct (build f arr _ _ _ _) as [[[u st] tr]|] eqn:E; [|done].
  apply (build_more arr f f' _ _ _ Hf) in E. by rewrite E.
Qed.

(** ** The elements of the two stores *)

Lemma path_sum_sim u m : sim u m -> forall fuel i s e k,
  wrap (path_sum fuel i s e k m) = wrap (path_sum fuel i s e k u).
Proof.
  intros Hs. induction fuel as [|fuel IH]; intros i s e k; [done|].
  cbn [path_sum]. rewrite (sim_L u m i Hs), wrap_add_l.
  assert (forall x y, wrap x = wrap y -> wrap (L u i + x) = wrap (L u i + y)) as Hadd.
  { intros x y H. by rewrite <- wrap_add_r, H, wrap_add_r. }
  apply Hadd.
  destruct (s =? e); [by rewrite (sim_T u m i Hs), wrap_wrap|].
  destruct (k <=? Z.quot (s + e) 2); apply IH.
Qed.

Lemma elems_sim u m k : sim u m -> elems m k = wrap (Ideal.elems u k).
Proof.
  intros Hs. unfold elems, Ideal.elems. destruct Hs as (Hn & Hrest) eqn:E.
  rewrite Hn. by apply path_sum_sim.
Qed.

Lemma good_sim eu em : sim_ev eu em -> Ideal.good eu -> good em.
Proof.
  intros (Hi & Hs & He & Hsim) Hg. unfold good, Ideal.good in *.
  rewrite Hi, Hs, He, (sim_T _ _ _ Hsim), Hg, <- wrap_range_sum.
  f_equal. apply range_sum_ext. intros k _. symmetry. by apply elems_sim.
Qed.

Lemma goods_sim tru trm :
  Forall2 sim_ev tru trm -> Forall Ideal.good tru -> Forall good trm.
Proof.
  induction 1 as [|eu em tru trm He _ IH]; [done|].
  intros Hg. destruct (Forall_cons_1 _ _ _ Hg) as [Hg1 Hg2].
  constructor; [by eapply good_sim|by apply IH].
Qed.

(** ** What a store stands for between two operations *)

Lemma held_n m a : held m a -> 1 <= n m /\ 4 * n m <= int_max.
Proof.
  intros (u & (Hn & _) & (Ha & _) & Hsz).
  pose proof (Ideal.pre_wf _ _ _ _ _ Ha) as (Hn1 & _). lia.
Qed.

Lemma held_elems m a k : held m a -> 0 <= k <= n m - 1 -> elems m k = wrap (a k).
Proof.
  intros (u & Hs & (Ha & _) & _) Hk. rewrite (elems_sim u m k Hs). f_equal.
  apply elems_Rep; [done|]. destruct Hs as (<- & _). done.
Qed.

Lemma held_ext m a a' :
  held m a -> (forall k, 0 <= k <= n m - 1 -> a k = a' k) -> held m a'.
Proof.
  intros (u & Hs & (Ha & Hrest) & Hsz) Hext. exists u. split; [done|]. split; [|done].
  split; [|done]. eapply pre_ext; [|exact Ha]. intros k Hk. apply Hext.
  destruct Hs as (-> & _). lia.
Qed.

(** A run of the program over unbounded integers, seen on the program. *)
Lemma lift_run {A B} (RA : A -> B -> Prop) (mu : M A) (mm : M B) u m x u' tru :
  simM (n u) RA mu mm -> sim u m -> mu u = Ok (x, u', tru) -> Forall Ideal.good tru ->
  exists y m' trm,
    mm m = Ok (y, m', trm) /\ RA x y /\ sim u' m' /\ n u' = n u /\ Forall good trm.
Proof.
  intros Hsim Hs E Hg.
  destruct (Hsim u m x u' tru Hs eq_refl E) as (y & m' & trm & Em & Hr & Hs' & Hn' & Ht).
  exists y, m', trm. split; [done|]. split; [done|]. split; [done|]. split; [done|].
  by eapply goods_sim.
Qed.

Lemma constructor_held fuel arr :
  arr <> [] -> Forall is_int arr -> 4 * Z.of_nat (length arr) <= int_max ->
  (length arr <= fuel)%nat ->
  exists m,
    AdvancedSegmentTree fuel arr = Ok (m, [])
    /\ n m = Z.of_nat (length arr) /\ held m (at_index arr).
Proof.
  intros Hne Hint Hsz Hf.
  destruct (constructor_full arr fuel Hne Hf) as (u & E & Hn & Hs).
  destruct (sim_constructor fuel arr u [] Hne Hint Hsz E) as (m & trm & Em & Hsim & _ & Ht).
  apply Forall2_nil_inv_l in Ht as ->.
  pose proof Hsim as (Hnm & _).
  exists m. split; [done|]. split; [congruence|]. exists u. split; [done|]. split; [done|].
  congruence.
Qed.

Lemma bind_ret_inv {A B} (m : M A) (f : A -> B) st x st' tr :
  bind m (fun a => ret (f a)) st = Ok (x, st', tr) ->
  exists a, m st = Ok (a, st', tr) /\ x = f a.
Proof.
  intros E. apply bind_inv in E as (a & st1 & tr1 & tr2 & E1 & E2 & ->).
  injection E2 as <- <- <-. exists a. by rewrite app_nil_r.
Qed.

Lemma bind_ret_ok {A B} (m : M A) (f : A -> B) st a st' tr :
  m st = Ok (a, st', tr) -> bind m (fun a => ret (f a)) st = Ok (f a, st', tr).
Proof. intros E. unfold bind. rewrite E. cbn. by rewrite app_nil_r. Qed.

Section Held.

Variable T_max : Z.

Lemma exec_held fuel o m a :
  held m a -> int_args o -> o <> PrintTree -> (Z.to_nat (n m) <= fuel)%nat ->
  exists m' tr,
    exec T_max fuel o m = Ok (abs_result T_max fuel (n m) o a, m', tr)
    /\ n m' = n m /\ held m' (abs_state (n m) o a) /\ Forall good tr.
Proof.
  intros (u & Hs & Hst & Hsz) Hint Hnp Hf. pose proof Hs as (Hn & _).
  pose proof Hst as (Ha & _). pose proof (Ideal.pre_wf _ _ _ _ _ Ha) as (Hn1 & _).
  rewrite Hn in *.
  assert (forall u' m', sim u' m' -> n u' = n u -> forall a', Ideal.settled u' a' ->
            n m' = n u /\ held m' a') as Hheld.
  { intros u' m' Hs' Hn' a' Hst'. pose proof Hs' as (Hnm' & _).
    split; [congruence|]. exists u'. split; [done|]. split; [done|]. congruence. }
  destruct o as [l r v|l r|idx v|l r| |]; [| | | | |done]; cbn [exec abs_result abs_state].
  - destruct (exec_full T_max fuel (Ideal.UpdateRange l r v) u a Hst Hf)
      as (u' & tru & E & Hn' & Hst' & G).
    cbn [Ideal.exec] in E. apply (bind_ret_inv _ (fun _ => Ideal.RUnit)) in E as ([] & E & _).
    destruct (lift_run eq _ (updateRange fuel l r v) u m _ _ _
                (sim_updateRange (n u) Hsz Hn1 fuel l r v) Hs E G)
      as ([] & m' & trm & Em & _ & Hs' & Hnu & Gm).
    exists m', trm. rewrite (bind_ret_ok _ (fun _ => RUnit) _ _ _ _ Em).
    destruct (Hheld u' m' Hs' Hnu _ Hst'). done.
  - destruct (exec_full T_max fuel (Ideal.QuerySum l r) u a Hst Hf)
      as (u' & tru & E & Hn' & Hst' & G).
    cbn [Ideal.exec Ideal.abs_result] in E.
    apply (bind_ret_inv _ Ideal.RValue) in E as (v & E & [= Hv]).
    destruct (lift_run as_int _ (querySum fuel l r) u m _ _ _
                (sim_querySum (n u) Hsz Hn1 fuel l r) Hs E G)
      as (y & m' & trm & Em & -> & Hs' & Hnu & Gm).
    exists m', trm. rewrite (bind_ret_ok _ RValue _ _ _ _ Em), <- Hv.
    destruct (Hheld u' m' Hs' Hnu _ Hst'). done.
  - destruct (exec_full T_max fuel (Ideal.UpdatePoint idx v) u a Hst Hf)
      as (u' & tru & E & Hn' & Hst' & G).
    cbn [Ideal.exec] in E. apply (bind_ret_inv _ (fun _ => Ideal.RUnit)) in E as ([] & E & _).
    destruct (lift_run eq _ (updatePoint fuel idx v) u m _ _ _
                (sim_updatePoint (n u) Hsz Hn1 fuel idx v v (eq_sym (wrap_small v Hint))) Hs E G)
      as ([] & m' & trm & Em & _ & Hs' & Hnu & Gm).
    exists m', trm. rewrite (bind_ret_ok _ (fun _ => RUnit) _ _ _ _ Em).
    destruct (Hheld u' m' Hs' Hnu _ Hst'). done.
  - destruct (queryMin_settled T_max wrap fuel l r u a Hst Hf)
      as (u' & tru & E & Hn' & Hst' & G).
    destruct (lift_run eq _ (queryMin T_max fuel l r) u m _ _ _
                (sim_queryMin (n u) Hsz Hn1 T_max fuel l r) Hs E G)
      as (y & m' & trm & Em & <- & Hs' & Hnu & Gm).
    exists m', trm. rewrite (bind_ret_ok _ RValue _ _ _ _ Em).
    destruct (Hheld u' m' Hs' Hnu _ Hst'). done.
  - destruct (exec_full T_max fuel Ideal.GetCurrentArray u a Hst Hf)
      as (u' & tru & E & Hn' & Hst' & G).
    cbn [Ideal.exec Ideal.abs_result] in E.
    apply (bind_ret_inv _ Ideal.RArray) in E as (vs & E & [= Hv]).
    destruct (lift_run (fun xs ys => ys = wrap <$> xs) _ (getCurrentArray (S fuel) fuel) u m _ _ _
                (sim_getCurrentArray (n u) Hsz Hn1 fuel (S fuel)) Hs E G)
      as (y & m' & trm & Em & -> & Hs' & Hnu & Gm).
    exists m', trm. rewrite (bind_ret_ok _ RArray _ _ _ _ Em), <- Hv.
    destruct (Hheld u' m' Hs' Hnu _ Hst'). done.
Qed.

End Held.

(** ** [printTree] *)

Lemma wrap_nonneg z : 0 <= z <= int_max -> wrap z = z.
Proof. intros H. by apply wrap_small, is_int_small. Qed.

Lemma printTree_loop_spec st count : forall i out,
  Z.of_nat (length (tree st)) = 4 * n st -> 4 * n st <= int_max -> 0 <= n st ->
  1 <= i -> (Z.to_nat (4 * n st - i) < count)%nat ->
  exists out',
    printTree_loop count i out st = Ok (out ++ out', st, [])
    /\ i + Z.of_nat (length out') <= Z.max i (4 * n st)
    /\ (forall k, 0 <= k < Z.of_nat (length out') ->
          vget out' k = Some (T st (i + k)) /\ T st (i + k) <> 0)
    /\ (i + Z.of_nat (length out') < 4 * n st -> T st (i + Z.of_nat (length out')) = 0).
Proof.
  induction count as [|count IH]; intros i out Hlen Hsz Hn Hi Hc; [lia|].
  cbn [printTree_loop]. rewrite bind_get_n.
  rewrite (wrap_nonneg (4 * n st)) by lia.
  destruct (Z.ltb_spec i (4 * n st)) as [Hlt|Hge].
  - rewrite (bind_ok_nil _ _ _ _ _ (get_tree_ok st i ltac:(lia))).
    destruct (Z.eqb_spec (T st i) 0) as [Hz|Hnz].
    + exists []. rewrite app_nil_r. split; [done|]. cbn. split; [lia|].
      split; [intros; lia|]. intros _. by rewrite Z.add_0_r.
    + rewrite (wrap_nonneg (i + 1)) by lia.
      destruct (IH (i + 1) (out ++ [T st i]) Hlen Hsz Hn ltac:(lia) ltac:(lia))
        as (out' & E & Hb & Hk & Hz).
      exists (T st i :: out'). rewrite E, <- app_assoc. split; [done|].
      cbn [length]. split; [lia|]. split.
      * intros k Hk'. destruct (Z.eq_dec k 0) as [->|Hne].
        { rewrite Z.add_0_r. done. }
        destruct (Hk (k - 1) ltac:(lia)) as [Hv Hn0].
        replace (i + 1 + (k - 1)) with (i + k) in * by lia. split; [|done].
        rewrite <- Hv. unfold vget.
        destruct (Z.leb_spec 0 k), (Z.leb_spec 0 (k - 1)); try lia.
        replace (Z.to_nat k) with (S (Z.to_nat (k - 1))) by lia. done.
      * intros Hlt'. replace (i + Z.of_nat (S (length out'))) with (i + 1 + Z.of_nat (length out')) in * by lia.
        by apply Hz.
  - exists []. rewrite app_nil_r. split; [done|]. cbn. split; [lia|].
    split; intros; lia.
Qed.

Lemma held_shape m a :
  held m a ->
  1 <= n m /\ 4 * n m <= int_max
  /\ Z.of_nat (length (tree m)) = 4 * n m /\ Z.of_nat (length (lazy m)) = 4 * n m.
Proof.
  intros (u & (Hn & Ht & Hl) & (Ha & _) & Hsz).
  pose proof (Ideal.pre_wf _ _ _ _ _ Ha) as (Hn1 & Hlt & Hll).
  rewrite Ht, Hl, !length_fmap. lia.
Qed.

Lemma printTree_held count m a :
  held m a -> (Z.to_nat (4 * n m) <= count)%nat ->
  exists out, printTree count m = Ok (out, m, []).
Proof.
  intros Hh Hc. destruct (held_shape m a Hh) as (Hn & Hsz & Hlen & _).
  destruct (printTree_loop_spec m count 1 [] Hlen Hsz ltac:(lia) ltac:(lia) ltac:(lia))
    as (out & E & _).
  by exists out.
Qed.

Section Runs.

Variable T_max : Z.

Lemma exec_print fuel m a :
  held m a -> (Z.to_nat (n m) <= fuel)%nat ->
  exists out, exec T_max fuel PrintTree m = Ok (RPrinted out, m, []).
Proof.
  intros Hh Hf. destruct (printTree_held (S (4 * fuel)) m a Hh ltac:(lia)) as (out & E).
  exists out. cbn [exec]. by rewrite (bind_ret_ok _ RPrinted _ _ _ _ E).
Qed.

(** Every call returns, and the tree stands for the sequence afterwards. *)
Lemma exec_total fuel o m a :
  held m a -> int_args o -> (Z.to_nat (n m) <= fuel)%nat ->
  exists x m' tr,
    exec T_max fuel o m = Ok (x, m', tr)
    /\ n m' = n m /\ held m' (abs_state (n m) o a) /\ Forall good tr
    /\ (o <> PrintTree -> x = abs_result T_max fuel (n m) o a).
Proof.
  intros Hh Hint Hf.
  assert (o = PrintTree \/ o <> PrintTree) as [->|Hnp] by (destruct o; (by left) || by right).
  - destruct (exec_print fuel m a Hh Hf) as (out & E).
    exists (RPrinted out), m, []. split; [done|]. split; [done|]. split; [done|].
    split; [constructor|done].
  - destruct (exec_held T_max fuel o m a Hh Hint Hnp Hf) as (m' & tr & E & Hn & Hh' & G).
    exists (abs_result T_max fuel (n m) o a), m', tr. by repeat split.
Qed.

Lemma tracks_held m a : tracks T_max m a -> held m a.
Proof.
  induction 1 as [fuel arr st tr Hne Hint Hsz E|fuel o x st st' tr a _ IH Hint E].
  - destruct (constructor_held (Nat.max fuel (length arr)) arr Hne Hint Hsz ltac:(lia))
      as (m & Em & _ & Hh).
    rewrite (constructor_more fuel (Nat.max fuel (length arr)) arr _ ltac:(lia) E) in Em.
    by injection Em as -> _.
  - destruct (exec_total (Nat.max fuel (Z.to_nat (n st))) o st a IH Hint ltac:(lia))
      as (x0 & m' & tr0 & E0 & _ & Hh & _).
    rewrite (exec_more T_max fuel (Nat.max fuel (Z.to_nat (n st))) o ltac:(lia) _ _ E) in E0.
    by injection E0 as _ -> _.
Qed.

Lemma reachable_held m : reachable T_max m -> exists a, held m a.
Proof. intros [a Ha]. exists a. by apply tracks_held. Qed.

Lemma run_held fuel ops : forall m a,
  held m a -> Forall int_args ops -> no_print ops -> (Z.to_nat (n m) <= fuel)%nat ->
  exists m' tr,
    run T_max fuel ops m = Ok (abs_results T_max fuel (n m) ops a, m', tr)
    /\ n m' = n m /\ held m' (abs_states (n m) ops a) /\ Forall good tr.
Proof.
  induction ops as [|o ops IH]; intros m a Hh Hint Hnp Hf; cbn [run abs_results abs_states].
  - exists m, []. split; [done|]. split; [done|]. split; [done|constructor].
  - destruct (Forall_cons_1 _ _ _ Hint) as [Hi1 Hi2].
    destruct (Forall_cons_1 _ _ _ Hnp) as [Hp1 Hp2].
    destruct (exec_held T_max fuel o m a Hh Hi1 Hp1 Hf) as (m1 & tr1 & E1 & Hn1 & Hh1 & G1).
    destruct (IH m1 _ Hh1 Hi2 Hp2 ltac:(lia)) as (m2 & tr2 & E2 & Hn2 & Hh2 & G2).
    rewrite Hn1 in *.
    eexists m2, _. split; [|split; [congruence|split; [done|]]].
    + eapply bind_ok; [exact E1|]. eapply bind_ok; [exact E2|]. reflexivity.
    + rewrite app_nil_r. by apply Forall_app.
Qed.

Lemma run_held_value fuel ops m a :
  held m a -> Forall int_args ops -> no_print ops -> (Z.to_nat (n m) <= fuel)%nat ->
  value_of (run T_max fuel ops m) = Ok (abs_results T_max fuel (n m) ops a).
Proof.
  intros Hh Hi Hp Hf.
  by destruct (run_held fuel ops m a Hh Hi Hp Hf) as (m' & tr & -> & _).
Qed.

End Runs.

Lemma querySum_held fuel l r m a :
  held m a -> (Z.to_nat (n m) <= fuel)%nat ->
  exists m' tr,
    querySum fuel l r m
    = Ok (wrap (range_sum a (Z.max l 0) (Z.min r (n m - 1))), m', tr)
    /\ n m' = n m /\ held m' a /\ Forall good tr.
Proof.
  intros Hh Hf.
  destruct (exec_held 0 fuel (QuerySum l r) m a Hh I ltac:(done) Hf)
    as (m' & tr & E & Hn & Hh' & G).
  cbn [exec abs_result abs_state] in *.
  apply (bind_ret_inv _ RValue) in E as (v & E & [= Hv]).
  exists m', tr. rewrite E, <- Hv, range_sum_restrict. done.
Qed.

Lemma querySum_held_value fuel l r m a :
  held m a -> (Z.to_nat (n m) <= fuel)%nat ->
  value_of (querySum fuel l r m)
  = Ok (wrap (range_sum a (Z.max l 0) (Z.min r (n m - 1)))).
Proof.
  intros Hh Hf. by destruct (querySum_held fuel l r m a Hh Hf) as (m' & tr & -> & _).
Qed.

Lemma updateRange_held fuel l r v m a :
  held m a -> is_int v -> (Z.to_nat (n m) <= fuel)%nat ->
  exists m' tr,
    updateRange fuel l r v m = Ok (tt, m', tr)
    /\ n m' = n m /\ held m' (range_add l r v a) /\ Forall good tr.
Proof.
  intros Hh Hv Hf.
  destruct (exec_held 0 fuel (UpdateRange l r v) m a Hh Hv ltac:(done) Hf)
    as (m' & tr & E & Hn & Hh' & G).
  cbn [exec abs_result abs_state] in *.
  apply (bind_ret_inv _ (fun _ => RUnit)) in E as ([] & E & _).
  by exists m', tr.
Qed.

Lemma updatePoint_held fuel idx v m a :
  held m a -> is_int v -> (Z.to_nat (n m) <= fuel)%nat ->
  exists m' tr,
    updatePoint fuel idx v m = Ok (tt, m', tr)
    /\ n m' = n m /\ held m' (point_set (Z.max 0 (Z.min (n m - 1) idx)) v a)
    /\ Forall good tr.
Proof.
  intros Hh Hv Hf.
  destruct (exec_held 0 fuel (UpdatePoint idx v) m a Hh Hv ltac:(done) Hf)
    as (m' & tr & E & Hn & Hh' & G).
  cbn [exec abs_result abs_state] in *.
  apply (bind_ret_inv _ (fun _ => RUnit)) in E as ([] & E & _).
  by exists m', tr.
Qed.

Lemma queryMin_held T_max fuel l r m a :
  held m a -> (Z.to_nat (n m) <= fuel)%nat ->
  exists m' tr,
    queryMin T_max fuel l r m
    = Ok (cover_min T_max wrap fuel a 0 (n m - 1) l r, m', tr)
    /\ n m' = n m /\ held m' a /\ Forall good tr.
Proof.
  intros Hh Hf.
  destruct (exec_held T_max fuel (QueryMin l r) m a Hh I ltac:(done) Hf)
    as (m' & tr & E & Hn & Hh' & G).
  cbn [exec abs_result abs_state] in *.
  apply (bind_ret_inv _ RValue) in E as (v & E & [= Hv]).
  exists m', tr. by rewrite E, <- Hv.
Qed.

Lemma getCurrentArray_held fuel m a :
  held m a -> (Z.to_nat (n m) <= fuel)%nat ->
  exists m' tr,
    getCurrentArray (S fuel) fuel m = Ok (wrap <$> materialize (n m) a, m', tr)
    /\ n m' = n m /\ held m' a /\ Forall good tr.
Proof.
  intros Hh Hf.
  destruct (exec_held 0 fuel GetCurrentArray m a Hh I ltac:(done) Hf)
    as (m' & tr & E & Hn & Hh' & G).
  cbn [exec abs_result abs_state] in *.
  apply (bind_ret_inv _ RArray) in E as (v & E & [= Hv]).
  exists m', tr. by rewrite E, <- Hv.
Qed.

(** ** Reachable trees, and the statements about them *)

Lemma wrap_range_sum_elems m a s e :
  held m a -> 0 <= s -> e <= n m - 1 ->
  wrap (range_sum (elems m) s e) = wrap (range_sum a s e).
Proof.
  intros Hh Hs He. rewrite <- (wrap_range_sum a). f_equal.
  apply range_sum_ext. intros k Hk. apply (held_elems m a k Hh). lia.
Qed.

Lemma range_sum_range_add a l r delta s e :
  l <= s -> s <= e + 1 -> e <= r ->
  range_sum (range_add l r delta a) s e = range_sum a s e + delta * (e - s + 1).
Proof.
  intros Hl Hse Hr. rewrite <- range_sum_add_const by lia. apply range_sum_ext.
  intros k Hk. unfold range_add. destruct ((l <=? k) && (k <=? r)) eqn:Ek; [done|lia].
Qed.

Lemma range_sum_range_add_out a l r delta s e :
  e < l \/ r < s -> range_sum (range_add l r delta a) s e = range_sum a s e.
Proof.
  intros Hout. apply range_sum_ext. intros k Hk. unfold range_add.
  destruct ((l <=? k) && (k <=? r)) eqn:Ek; [lia|done].
Qed.

(** [querySum(l', r')], then [updateRange(l, r, delta)], then
    [querySum(l', r')] again: the two values returned. *)
Lemma query_update_query_int fuel m a l r delta l' r' :
  held m a -> is_int delta -> (Z.to_nat (n m) <= fuel)%nat ->
  value_of ((let* before := querySum fuel l' r' in
             updateRange fuel l r delta >>
             let* after := querySum fuel l' r' in
             ret (before, after)) m)
  = Ok (wrap (range_sum a (Z.max l' 0) (Z.min r' (n m - 1))),
        wrap (range_sum (range_add l r delta a) (Z.max l' 0) (Z.min r' (n m - 1)))).
Proof.
  intros Hh Hd Hf.
  destruct (querySum_held fuel l' r' m a Hh Hf) as (m1 & tr1 & E1 & Hn1 & Hh1 & _).
  destruct (updateRange_held fuel l r delta m1 a Hh1 Hd ltac:(lia))
    as (m2 & tr2 & E2 & Hn2 & Hh2 & _).
  destruct (querySum_held fuel l' r' m2 _ Hh2 ltac:(lia)) as (m3 & tr3 & E3 & _).
  erewrite bind_ok; [|exact E1|].
  2:{ eapply bind_ok; [exact E2|]. eapply bind_ok; [exact E3|]. reflexivity. }
  cbn [value_of]. by rewrite Hn2, Hn1.
Qed.

Lemma abs_states_cat nn ops1 ops2 a :
  abs_states nn (ops1 ++ ops2) a = abs_states nn ops2 (abs_states nn ops1 a).
Proof. revert a. induction ops1 as [|o ops1 IH]; intros a; cbn; [done|apply IH]. Qed.

Lemma abs_results_cat T_max fuel nn ops1 ops2 a :
  abs_results T_max fuel nn (ops1 ++ ops2) a
  = abs_results T_max fuel nn ops1 a
    ++ abs_results T_max fuel nn ops2 (abs_states nn ops1 a).
Proof. revert a. induction ops1 as [|o ops1 IH]; intros a; cbn; [done|by rewrite IH]. Qed.

Lemma abs_results_length T_max fuel nn ops a :
  length (abs_results T_max fuel nn ops a) = length ops.
Proof. revert a. induction ops as [|o ops IH]; intros a; cbn; [done|by rewrite IH]. Qed.

Lemma node_at_sim u m i s e acc :
  sim u m -> node_at m i s e acc ->
  exists acc', node_at u i s e acc' /\ wrap acc' = wrap acc.
Proof.
  intros Hs. induction 1 as [|i s e acc acc2 H (acc' & IH & Hw) Hse ->
                            |i s e acc acc2 H (acc' & IH & Hw) Hse ->].
  - exists 0. split; [|done]. destruct Hs as (-> & _). constructor.
  - exists (acc' + L u i). split; [by econstructor|].
    by rewrite (sim_L u m i Hs), wrap_add_r, <- wrap_add_l, Hw, wrap_add_l.
  - exists (acc' + L u i). split; [by econstructor|].
    by rewrite (sim_L u m i Hs), wrap_add_r, <- wrap_add_l, Hw, wrap_add_l.
Qed.

Lemma held_node_at m a i s e acc :
  held m a -> node_at m i s e acc ->
  1 <= i < 4 * n m /\ 0 <= s <= e /\ e <= n m - 1
  /\ wrap (range_sum a s e - T m i) = wrap ((e - s + 1) * (L m i + acc)).
Proof.
  intros (u & Hs & (Ha & _) & Hsz) Hat.
  destruct (node_at_sim u m i s e acc Hs Hat) as (acc' & Hat' & Hacc).
  pose proof (Ideal.pre_wf _ _ _ _ _ Ha) as (Hn & _).
  destruct (node_at_R u a i s e acc' Ha Hat') as [_ [Hi _]].
  pose proof (node_at_range _ _ _ _ _ Hn Hat') as (_ & Hse & He).
  pose proof (node_at_discrepancy u a i s e acc' Ha Hat') as Hd.
  pose proof Hs as (Hnm & _). rewrite Hnm.
  split; [lia|]. split; [done|]. split; [done|].
  rewrite (sim_T u m i Hs), (sim_L u m i Hs), wrap_sub_r, Hd.
  assert (wrap (L u i + acc') = wrap (wrap (L u i) + acc)) as Hy.
  { by rewrite wrap_add_l, <- (wrap_add_r _ acc'), Hacc, wrap_add_r. }
  by rewrite <- wrap_mul_r, Hy, wrap_mul_r.
Qed.

Section Claims.

Variable T_max : Z.

(** Claim C1 (range-add additivity).  In every reachable tree, for every
    valid range [0 <= l <= r <= n - 1] and every [delta] of type [int]:
    [querySum(l, r)] after [updateRange(l, r, delta)] returns what it
    returned before the update plus [delta * (r - l + 1)], as an [int]: the
    sum wrapped around, which is the sum itself when that is an [int].
    [querySum] over every valid range disjoint from [l..r] returns what it
    returned before. *)
Theorem C1_range_add_additivity fuel st l r delta :
  reachable T_max st -> 0 <= l <= r -> r <= n st - 1 -> is_int delta ->
  (Z.to_nat (n st) <= fuel)%nat ->
  (exists v w,
      value_of ((let* before := querySum fuel l r in
                 updateRange fuel l r delta >>
                 let* after := querySum fuel l r in
                 ret (before, after)) st)
      = Ok (v, w)
      /\ w = wrap (v + delta * (r - l + 1))
      /\ (is_int (v + delta * (r - l + 1)) -> w = v + delta * (r - l + 1)))
  /\ forall l' r', 0 <= l' <= r' -> r' <= n st - 1 -> r' < l \/ r < l' ->
       exists w,
         value_of ((let* before := querySum fuel l' r' in
                    updateRange fuel l r delta >>
                    let* after := querySum fuel l' r' in
                    ret (before, after)) st)
         = Ok (w, w).
Proof.
  intros Hre Hl Hr Hd Hf. destruct (reachable_held T_max st Hre) as [a Hh]. split.
  - eexists _, _. split; [apply (query_update_query_int fuel st a l r delta l r Hh Hd Hf)|].
    replace (Z.max l 0) with l by lia. replace (Z.min r (n st - 1)) with r by lia.
    assert (wrap (range_sum (range_add l r delta a) l r)
            = wrap (wrap (range_sum a l r) + delta * (r - l + 1))) as Hw.
    { rewrite range_sum_range_add by lia. by rewrite wrap_add_l. }
    split; [done|]. intros Hfit. rewrite Hw. by apply wrap_small.
  - intros l' r' Hl' Hr' Hdis. eexists.
    rewrite (query_update_query_int fuel st a l r delta l' r' Hh Hd Hf).
    replace (Z.max l' 0) with l' by lia. replace (Z.min r' (n st - 1)) with r' by lia.
    rewrite range_sum_range_add_out by lia. done.
Qed.

(** Claim C4 (point-set exactness).  In every reachable tree, whatever
    pending values earlier range updates left on the way to [idx]: after
    [updatePoint(idx, v)] with a valid [idx] and a [v] of type [int],
    [querySum(idx, idx)] returns [v]. *)
Theorem C4_point_set_exact fuel st idx v :
  reachable T_max st -> 0 <= idx <= n st - 1 -> is_int v ->
  (Z.to_nat (n st) <= fuel)%nat ->
  value_of ((updatePoint fuel idx v >> querySum fuel idx idx) st) = Ok v.
Proof.
  intros Hre Hidx Hv Hf. destruct (reachable_held T_max st Hre) as [a Hh].
  destruct (updatePoint_held fuel idx v st a Hh Hv Hf) as (st' & tr & E & Hn & Hh' & _).
  destruct (querySum_held fuel idx idx st' _ Hh' ltac:(lia)) as (st2 & tr2 & E2 & _).
  erewrite bind_ok; [|exact E|exact E2]. cbn [value_of]. f_equal.
  rewrite Hn. replace (Z.max idx 0) with idx by lia.
  replace (Z.min idx (n st - 1)) with idx by lia.
  rewrite range_sum_single. unfold point_set.
  destruct (Z.eqb_spec idx (Z.max 0 (Z.min (n st - 1) idx))); [by apply wrap_small|lia].
Qed.

(** Claim C6 (the push invariant).  Let the tree [st] be reachable and [a]
    the sequence its calls have produced.  Every public operation returns
    from [st], and each execution of [updateLazy] in it leaves the aggregate
    of its node equal to the sum of the current elements of the node's range
    ([good]).  Between operations, for every node of the tree, the
    difference between the sum of the current elements of its range and its
    aggregate is the size of the range times the pending values on the node
    and on the nodes above it.  The current elements [elems], read off the
    store, are the elements of [a], and they are what [querySum(k, k)]
    returns.  All of it in the arithmetic of [int]. *)
Theorem C6_push_invariant fuel st a :
  tracks T_max st a -> (Z.to_nat (n st) <= fuel)%nat ->
  (forall o, int_args o ->
     exists x st' tr, exec T_max fuel o st = Ok (x, st', tr) /\ Forall good tr)
  /\ (forall i s e acc, node_at st i s e acc ->
        wrap (range_sum (elems st) s e - T st i)
        = wrap ((e - s + 1) * (L st i + acc)))
  /\ (forall k, 0 <= k <= n st - 1 ->
        elems st k = wrap (a k)
        /\ value_of (querySum fuel k k st) = Ok (elems st k)).
Proof.
  intros Htr Hf. pose proof (tracks_held T_max st a Htr) as Hh.
  split; [|split].
  - intros o Hint.
    destruct (exec_total T_max fuel o st a Hh Hint Hf) as (x & st' & tr & E & _ & _ & G & _).
    eauto.
  - intros i s e acc Hat.
    destruct (held_node_at st a i s e acc Hh Hat) as (Hi & Hse & He & Hd).
    rewrite <- wrap_sub_l, (wrap_range_sum_elems st a s e Hh) by lia.
    by rewrite wrap_sub_l.
  - intros k Hk. pose proof (held_elems st a k Hh Hk) as He. split; [done|].
    rewrite (querySum_held_value fuel k k st a Hh Hf).
    replace (Z.max k 0) with k by lia. replace (Z.min k (n st - 1)) with k by lia.
    by rewrite range_sum_single, He.
Qed.

(** Claim C10 (ranges are clamped, not rejected).  In every reachable tree
    and for all integers [l], [r]: [querySum(l, r)] returns the sum of the
    current elements with index in both [l..r] and [0..n - 1], as an [int]
    (the sum itself when that is an [int]), which is [0] when there is none; [updateRange(l, r, delta)] returns and
    adds [delta] to exactly those elements, as [int]s. *)
Theorem C10_ranges_are_clamped fuel st l r delta :
  reachable T_max st -> is_int delta -> (Z.to_nat (n st) <= fuel)%nat ->
  value_of (querySum fuel l r st)
  = Ok (wrap (range_sum (elems st) (Z.max l 0) (Z.min r (n st - 1))))
  /\ (is_int (range_sum (elems st) (Z.max l 0) (Z.min r (n st - 1))) ->
      value_of (querySum fuel l r st)
      = Ok (range_sum (elems st) (Z.max l 0) (Z.min r (n st - 1))))
  /\ (Z.min r (n st - 1) < Z.max l 0 -> value_of (querySum fuel l r st) = Ok 0)
  /\ exists st',
       state_of (updateRange fuel l r delta st) = Ok st'
       /\ n st' = n st
       /\ forall k, 0 <= k <= n st - 1 ->
            elems st' k
            = if (l <=? k) && (k <=? r) then wrap (elems st k + delta) else elems st k.
Proof.
  intros Hre Hd Hf. destruct (reachable_held T_max st Hre) as [a Hh].
  assert (value_of (querySum fuel l r st)
          = Ok (wrap (range_sum (elems st) (Z.max l 0) (Z.min r (n st - 1))))) as Hq.
  { rewrite (querySum_held_value fuel l r st a) by done. f_equal.
    symmetry. apply wrap_range_sum_elems; [done|lia|lia]. }
  split; [done|]. split; [|split].
  - intros Hfit. by rewrite Hq, wrap_small.
  - intros He. rewrite Hq. by rewrite range_sum_empty.
  - destruct (updateRange_held fuel l r delta st a Hh Hd Hf) as (st' & tr & E & Hn & Hh' & _).
    exists st'. split; [by rewrite E|]. split; [done|].
    intros k Hk. rewrite (held_elems st' _ k Hh') by lia.
    rewrite (held_elems st a k Hh Hk). unfold range_add.
    destruct ((l <=? k) && (k <=? r)); [by rewrite wrap_add_l|done].
Qed.

(** Claim C3, amended (no range is rejected).  In every reachable tree
    [querySum(-1, 3)] returns the sum of the elements [0 .. min 3 (n - 1)],
    [querySum(3, 1)] returns [0] and [querySum(0, n)] returns the sum of all
    elements, the sums as [int]s; and with [l > r], [l < 0] or [r >= n] each
    of [querySum], [queryMin] and [updateRange] returns normally. *)
Theorem C3_invalid_ranges_return fuel st :
  reachable T_max st -> (Z.to_nat (n st) <= fuel)%nat ->
  value_of (querySum fuel (-1) 3 st)
  = Ok (wrap (range_sum (elems st) 0 (Z.min 3 (n st - 1))))
  /\ value_of (querySum fuel 3 1 st) = Ok 0
  /\ value_of (querySum fuel 0 (n st) st)
     = Ok (wrap (range_sum (elems st) 0 (n st - 1)))
  /\ forall l r, l > r \/ l < 0 \/ r >= n st ->
       (exists v, value_of (querySum fuel l r st) = Ok v)
       /\ (exists v, value_of (queryMin T_max fuel l r st) = Ok v)
       /\ (forall delta, is_int delta ->
             exists st', state_of (updateRange fuel l r delta st) = Ok st').
Proof.
  intros Hre Hf. destruct (reachable_held T_max st Hre) as [a Hh].
  destruct (held_n st a Hh) as (Hn & _).
  assert (forall l r, value_of (querySum fuel l r st)
          = Ok (wrap (range_sum (elems st) (Z.max l 0) (Z.min r (n st - 1))))) as Hq.
  { intros l r. rewrite (querySum_held_value fuel l r st a) by done. f_equal.
    symmetry. apply wrap_range_sum_elems; [done|lia|lia]. }
  split; [|split; [|split]].
  - rewrite Hq. do 2 f_equal.
  - rewrite Hq. f_equal. rewrite range_sum_empty by lia. done.
  - rewrite Hq. do 3 f_equal. lia.
  - intros l r _. split; [|split].
    + rewrite Hq. eauto.
    + destruct (queryMin_held T_max fuel l r st a Hh Hf) as (st' & tr & -> & _). cbn. eauto.
    + intros delta Hd.
      destruct (updateRange_held fuel l r delta st a Hh Hd Hf) as (st' & tr & -> & _).
      cbn. eauto.
Qed.

End Claims.

(** Claim C5 (build correctness).  The constructor succeeds on every
    non-empty sequence of [int]s whose size [4 * n] is an [int]; right after
    it [querySum(0, n - 1)] is the sum of the sequence as an [int] (the sum
    itself when that is an [int]), the aggregate of every leaf is its
    element of the sequence, the aggregate of every internal node is the sum
    of the aggregates of its two children as an [int], and every pending
    value is zero. *)
Theorem C5_build_correct fuel arr :
  arr <> [] -> Forall is_int arr -> 4 * Z.of_nat (length arr) <= int_max ->
  (length arr <= fuel)%nat ->
  exists st,
    AdvancedSegmentTree fuel arr = Ok (st, [])
    /\ n st = Z.of_nat (length arr)
    /\ value_of (querySum fuel 0 (n st - 1) st) = Ok (wrap (list_sum arr))
    /\ (is_int (list_sum arr) ->
        value_of (querySum fuel 0 (n st - 1) st) = Ok (list_sum arr))
    /\ (forall i s e acc, node_at st i s e acc ->
          (s = e -> vget (tree st) i = vget arr s /\ is_Some (vget arr s))
          /\ (s < e ->
              vget (tree st) i = Some (wrap (T st (2 * i) + T st (2 * i + 1)))))
    /\ lazy st = replicate (Z.to_nat (4 * n st)) 0.
Proof.
  intros Hne Hint Hsz Hf.
  destruct (build_correct_Z fuel arr Hne Hf) as (u & Eu & Hnu & _ & Hnodes & Hlz).
  destruct (sim_constructor fuel arr u [] Hne Hint Hsz Eu) as (m & trm & Em & Hs & _ & Ht).
  apply Forall2_nil_inv_l in Ht as ->.
  destruct (constructor_held fuel arr Hne Hint Hsz Hf) as (m' & Em' & Hn & Hh).
  rewrite Em in Em'. injection Em' as <-.
  exists m. split; [done|]. split; [done|].
  assert (value_of (querySum fuel 0 (n m - 1) m) = Ok (wrap (list_sum arr))) as Hq.
  { rewrite (querySum_held_value fuel 0 (n m - 1) m _ Hh) by lia. do 2 f_equal.
    replace (Z.max 0 0) with 0 by lia. replace (Z.min (n m - 1) (n m - 1)) with (n m - 1) by lia.
    rewrite Hn. apply list_sum_at_index. }
  split; [done|]. split; [intros Hfit; by rewrite Hq, wrap_small|].
  pose proof Hs as (Hnm & Htm & Hlm). split.
  - intros i s e acc Hat.
    destruct (node_at_sim u m i s e acc Hs Hat) as (acc' & Hat' & _).
    destruct (Hnodes i s e acc' Hat') as [Hleaf Hinner]. split.
    + intros Hse. destruct (Hleaf Hse) as [Hv [x Hx]]. split; [|by exists x].
      rewrite Htm, vget_fmap, Hv, Hx. cbn. f_equal. apply wrap_small.
      unfold vget in Hx. destruct (0 <=? s); [|done]. by eapply Forall_lookup_1.
    + intros Hse. rewrite Htm, vget_fmap, (Hinner Hse). cbn. f_equal.
      by rewrite !(sim_T u m _ Hs), wrap_add_l, wrap_add_r.
  - rewrite Hlm, Hlz, fmap_replicate, Hnm. done.
Qed.

(** ** The binary indexed tree, side by side *)

Lemma lowbit_int j : 1 <= j <= int_max -> Z.land j (wrap (- j)) = lowbit j.
Proof.
  intros H. unfold lowbit. f_equal. apply wrap_small. unfold is_int, int_min, int_max in *. lia.
Qed.

Lemma update_loop_more f : forall f' j v st x,
  (f <= f')%nat -> Fenwick.update_loop f j v st = Ok x -> Fenwick.update_loop f' j v st = Ok x.
Proof.
  induction f as [|f IH]; intros f' j v st x Hf; [done|].
  destruct f' as [|f']; [lia|]. cbn [Fenwick.update_loop].
  destruct (j <=? Fenwick.n st); [|done].
  destruct (vget (Fenwick.bit st) j) as [y|]; [|done].
  destruct (vset (Fenwick.bit st) j (y +' v)) as [w|]; [|done].
  apply IH. lia.
Qed.

Lemma init_loop_more arr c f : forall c' f' i st x,
  (c <= c')%nat -> (f <= f')%nat ->
  Fenwick.init_loop c f arr i st = Ok x -> Fenwick.init_loop c' f' arr i st = Ok x.
Proof.
  induction c as [|c IH]; intros c' f' i st x Hc Hf; [done|].
  destruct c' as [|c']; [lia|]. cbn [Fenwick.init_loop].
  destruct (i <? Fenwick.n st); [|done].
  destruct (vget arr i) as [y|]; [|done].
  destruct (Fenwick.update f i y st) as [st1|] eqn:E; [|done].
  unfold Fenwick.update in *. rewrite (update_loop_more f f' _ _ _ _ Hf E).
  apply IH; lia.
Qed.

Lemma constructor_bit_more arr c f c' f' x :
  (c <= c')%nat -> (f <= f')%nat ->
  Fenwick.BinaryIndexedTree c f arr = Ok x -> Fenwick.BinaryIndexedTree c' f' arr = Ok x.
Proof.
  intros Hc Hf. unfold Fenwick.BinaryIndexedTree. cbv zeta.
  destruct (_ <? 0); [done|]. by apply init_loop_more.
Qed.

Lemma sim_update_loop v fuel : forall j u m u',
  sim_bit u m -> 1 <= j -> Fenwick.n u < 2 ^ 30 ->
  UFenwick.update_loop fuel j v u = Ok u' ->
  exists m', Fenwick.update_loop fuel j v m = Ok m' /\ sim_bit u' m'
             /\ Fenwick.n u' = Fenwick.n u.
Proof.
  induction fuel as [|fuel IH]; intros j u m u' Hs Hj Hn; [done|].
  cbn [UFenwick.update_loop Fenwick.update_loop]. destruct Hs as (Hnm & Hb) eqn:Es.
  rewrite Hnm. destruct (Z.leb_spec j (Fenwick.n u)) as [Hle|Hgt].
  - destruct (vget (Fenwick.bit u) j) as [x|] eqn:Ex; [|done].
    destruct (vset (Fenwick.bit u) j (x + v)) as [w|] eqn:Ew; [|done].
    intros E. rewrite Hb, vget_fmap, Ex. cbn [fmap option_fmap option_map].
    rewrite wrap_add_l, (vset_fmap wrap _ _ _ _ Ew).
    pose proof (lowbit_bound j ltac:(lia)) as Hlb.
    change (2 ^ 30) with 1073741824 in Hn.
    rewrite lowbit_int by (unfold int_max; lia).
    rewrite (wrap_small (j + lowbit j)) by (unfold is_int, int_min, int_max; lia).
    unfold lowbit in *.
    destruct (IH (j + Z.land j (- j)) (Fenwick.mk w (Fenwick.n u))
                 (Fenwick.mk (wrap <$> w) (Fenwick.n u)) u') as (m' & Em & Hs' & Hn');
      [by split|lia|done|done|].
    exists m'. split; [exact Em|]. split; [done|]. exact Hn'.
  - intros [= <-]. by exists m.
Qed.

Lemma sim_update fuel idx v u m u' :
  sim_bit u m -> 0 <= idx < int_max -> Fenwick.n u < 2 ^ 30 ->
  UFenwick.update fuel idx v u = Ok u' ->
  exists m', Fenwick.update fuel idx v m = Ok m' /\ sim_bit u' m'
             /\ Fenwick.n u' = Fenwick.n u.
Proof.
  intros Hs Hidx Hn E. unfold Fenwick.update, UFenwick.update in *.
  rewrite (wrap_small (idx + 1)) by (unfold is_int, int_min, int_max in *; lia).
  eapply sim_update_loop; (done || lia).
Qed.

Lemma sim_query_loop fuel : forall j sum u m x,
  sim_bit u m -> 0 <= j <= int_max ->
  UFenwick.query_loop fuel j sum u = Ok x ->
  Fenwick.query_loop fuel j (wrap sum) m = Ok (wrap x).
Proof.
  induction fuel as [|fuel IH]; intros j sum u m x Hs Hj; [done|].
  cbn [UFenwick.query_loop Fenwick.query_loop].
  destruct (Z.gtb_spec j 0) as [Hpos|Hz]; [|by intros [= <-]].
  destruct (vget (Fenwick.bit u) j) as [y|] eqn:Ey; [|done].
  destruct Hs as (Hnm & Hb) eqn:Es. rewrite Hb, vget_fmap, Ey.
  cbn [fmap option_fmap option_map]. intros E.
  pose proof (lowbit_bound j ltac:(lia)) as Hlb.
  rewrite lowbit_int by lia.
  rewrite (wrap_small (j - lowbit j)) by (unfold is_int, int_min, int_max in *; lia).
  replace (wrap sum +' wrap y) with (wrap (sum + y)) by (by rewrite wrap_add_l, wrap_add_r).
  unfold lowbit in *. apply (IH _ _ u m x); [done|lia|exact E].
Qed.

Lemma sim_query fuel idx u m x :
  sim_bit u m -> -1 <= idx < int_max ->
  UFenwick.query fuel idx u = Ok x -> Fenwick.query fuel idx m = Ok (wrap x).
Proof.
  intros Hs Hidx E. unfold Fenwick.query, UFenwick.query in *.
  rewrite (wrap_small (idx + 1)) by (unfold is_int, int_min, int_max in *; lia).
  change 0 with (wrap 0) at 1. eapply sim_query_loop; [done| |done].
  unfold int_max in *. lia.
Qed.

Lemma sim_init_loop arr fuel count : forall i u m u',
  Forall is_int arr -> sim_bit u m -> 0 <= i -> Fenwick.n u < 2 ^ 30 ->
  UFenwick.init_loop count fuel arr i u = Ok u' ->
  exists m', Fenwick.init_loop count fuel arr i m = Ok m' /\ sim_bit u' m'
             /\ Fenwick.n u' = Fenwick.n u.
Proof.
  induction count as [|count IH]; intros i u m u' Hint Hs Hi Hn; [done|].
  cbn [UFenwick.init_loop Fenwick.init_loop]. pose proof Hs as (Hnm & _). rewrite Hnm.
  destruct (Z.ltb_spec i (Fenwick.n u)) as [Hlt|Hge]; [|intros [= <-]; by exists m].
  destruct (vget arr i) as [x|] eqn:Ex; [|done].
  destruct (UFenwick.update fuel i x u) as [u1|] eqn:E1; [|done].
  change (2 ^ 30) with 1073741824 in Hn.
  destruct (sim_update fuel i x u m u1 Hs) as (m1 & Em1 & Hs1 & Hn1);
    [unfold int_max; lia|done|done|].
  rewrite Em1. rewrite (wrap_small (i + 1)) by (unfold is_int, int_min, int_max; lia).
  intros E. destruct (IH (i + 1) u1 m1 u' Hint Hs1 ltac:(lia) ltac:(lia) E) as (m' & Em & Hs' & Hn').
  exists m'. split; [done|]. split; [done|]. congruence.
Qed.

Lemma sim_constructor_bit arr count fuel u :
  Forall is_int arr -> Z.of_nat (length arr) < 2 ^ 30 ->
  UFenwick.BinaryIndexedTree count fuel arr = Ok u ->
  exists m, Fenwick.BinaryIndexedTree count fuel arr = Ok m /\ sim_bit u m
            /\ Fenwick.n u = Z.of_nat (length arr).
Proof.
  intros Hint Hn E. unfold Fenwick.BinaryIndexedTree, UFenwick.BinaryIndexedTree in *.
  cbv zeta in *. change (2 ^ 30) with 1073741824 in Hn.
  rewrite (wrap_small (Z.of_nat (length arr))) by (unfold is_int, int_min, int_max; lia).
  rewrite (wrap_small (Z.of_nat (length arr) + 1)) by (unfold is_int, int_min, int_max; lia).
  destruct (Z.ltb_spec (Z.of_nat (length arr) + 1) 0); [lia|].
  eapply sim_init_loop in E as (m & Em & Hs & Hn'); [|done| |done|cbn; lia].
  - exists m. split; [exact Em|]. split; [done|]. exact Hn'.
  - split; [done|]. cbn. by rewrite fmap_replicate.
Qed.

(** ** What a binary indexed tree holds *)

Lemma holds_held st a : holds st a -> held_bit st a.
Proof.
  induction 1 as [count fuel arr st Hint Hn E|fuel idx delta st st' a _ (u & Hs & Hh & Hn) Hidx Hd E].
  - destruct (constructor_bit_spec arr (S (Nat.max count (length arr))) (S (Nat.max fuel (length arr))))
      as (u & Eu & Hnu & _); [lia|lia|].
    destruct (sim_constructor_bit arr _ _ u Hint Hn Eu) as (m & Em & Hs & _).
    rewrite (constructor_bit_more arr count fuel (S (Nat.max count (length arr)))
               (S (Nat.max fuel (length arr))) _ ltac:(lia) ltac:(lia) E) in Em.
    injection Em as <-. exists u. split; [done|]. split; [by eapply Ideal.holds_new|].
    destruct Hs as (-> & _). lia.
  - pose proof (holds_BInv u a Hh) as Hinv. pose proof Hs as (Hnm & _).
    destruct (update_spec u a (S (Nat.max fuel (Z.to_nat (Fenwick.n u)))) idx delta Hinv)
      as (u' & Eu & Hnu & _); [lia|lia|].
    destruct (sim_update _ idx delta u st u' Hs Hidx ltac:(lia) Eu) as (m' & Em & Hs' & _).
    unfold Fenwick.update in *.
    rewrite (update_loop_more fuel (S (Nat.max fuel (Z.to_nat (Fenwick.n u)))) _ _ _ _
               ltac:(lia) E) in Em. injection Em as <-.
    exists u'. split; [done|]. split; [by eapply Ideal.holds_update|].
    destruct Hs' as (-> & _). lia.
Qed.

Lemma held_bit_n m a : held_bit m a -> 0 <= Fenwick.n m < 2 ^ 30.
Proof.
  intros (u & (Hn & _) & Hh & Hlt). pose proof (Ideal.BInv_n u a (holds_BInv u a Hh)). lia.
Qed.

Lemma query_held fuel idx m a :
  held_bit m a -> 0 <= idx < Fenwick.n m -> (Z.to_nat idx + 1 < fuel)%nat ->
  Fenwick.query fuel idx m = Ok (wrap (range_sum a 0 idx)).
Proof.
  intros (u & Hs & Hh & Hn) Hidx Hf. pose proof Hs as (Hnm & _).
  change (2 ^ 30) with 1073741824 in Hn.
  apply (sim_query fuel idx u m); [done|unfold int_max; lia|].
  apply query_spec; [by apply holds_BInv|lia|done].
Qed.

Lemma update_held fuel idx v m a :
  held_bit m a -> 0 <= idx < int_max -> (Z.to_nat (Fenwick.n m - idx) < fuel)%nat ->
  exists m',
    Fenwick.update fuel idx v m = Ok m' /\ Fenwick.n m' = Fenwick.n m
    /\ held_bit m' (range_add idx idx v a).
Proof.
  intros (u & Hs & Hh & Hn) Hidx Hf. pose proof Hs as (Hnm & _).
  destruct (update_spec u a fuel idx v (holds_BInv u a Hh)) as (u' & Eu & Hnu & _); [lia|lia|].
  destruct (sim_update fuel idx v u m u' Hs Hidx ltac:(lia) Eu) as (m' & Em & Hs' & _).
  pose proof Hs' as (Hnm' & _).
  exists m'. split; [done|]. split; [congruence|].
  exists u'. split; [done|]. split; [by eapply Ideal.holds_update|congruence].
Qed.

Lemma constructor_bit_held arr count fuel :
  Forall is_int arr -> Z.of_nat (length arr) < 2 ^ 30 ->
  (length arr < count)%nat -> (length arr < fuel)%nat ->
  exists m,
    Fenwick.BinaryIndexedTree count fuel arr = Ok m
    /\ Fenwick.n m = Z.of_nat (length arr) /\ held_bit m (at_index arr).
Proof.
  intros Hint Hn Hc Hf.
  destruct (constructor_bit_spec arr count fuel Hc Hf) as (u & Eu & Hnu & _).
  destruct (sim_constructor_bit arr count fuel u Hint Hn Eu) as (m & Em & Hs & _).
  pose proof Hs as (Hnm & _).
  exists m. split; [done|]. split; [congruence|].
  exists u. split; [done|]. split; [by eapply Ideal.holds_new|congruence].
Qed.

Lemma bit_updates_held fuel ups : forall m a,
  held_bit m a -> Forall (fun u => 0 <= u.1 < int_max) ups ->
  (Z.to_nat (Fenwick.n m) < fuel)%nat ->
  exists m',
    bit_updates fuel ups m = Ok m' /\ Fenwick.n m' = Fenwick.n m
    /\ held_bit m' (added ups a).
Proof.
  induction ups as [|[idx d] ups IH]; intros m a Hh Hall Hf; cbn [bit_updates added].
  - by exists m.
  - destruct (Forall_cons_1 _ _ _ Hall) as [Hidx Hall']. cbn in Hidx.
    destruct (update_held fuel idx d m a Hh Hidx ltac:(lia)) as (m1 & E1 & Hn1 & Hh1).
    rewrite E1. destruct (IH m1 _ Hh1 Hall' ltac:(lia)) as (m' & E & Hn & Hh').
    exists m'. split; [done|]. split; [lia|done].
Qed.

(** Claim C8 (binary indexed tree).  The constructor returns a tree for
    every sequence of fewer than [2 ^ 30] [int]s, and every [update] with a
    valid index returns.  After them [query(idx)] returns the sum of the
    current elements [0 .. idx] for every valid [idx], as an [int] (the sum
    itself when that is an [int]); and
    [rangeQuery(l, r)] returns [query(r)] minus [query(l - 1)], with [0] in
    place of [query(-1)], which is the sum of the current elements
    [l .. r], as an [int]: the sum itself when that is an [int]. *)
Theorem C8_fenwick_prefix_sums fuel arr ups :
  Forall is_int arr -> Z.of_nat (length arr) < 2 ^ 30 ->
  Forall (fun u => 0 <= u.1 < Z.of_nat (length arr) /\ is_int u.2) ups ->
  (length arr < fuel)%nat ->
  exists st0 st,
    Fenwick.BinaryIndexedTree fuel fuel arr = Ok st0
    /\ bit_updates fuel ups st0 = Ok st
    /\ Fenwick.n st = Z.of_nat (length arr)
    /\ (forall idx, 0 <= idx < Fenwick.n st ->
          Fenwick.query fuel idx st
          = Ok (wrap (range_sum (added ups (at_index arr)) 0 idx))
          /\ (is_int (range_sum (added ups (at_index arr)) 0 idx) ->
              Fenwick.query fuel idx st
              = Ok (range_sum (added ups (at_index arr)) 0 idx)))
    /\ (forall l r, 0 <= l <= r -> r < Fenwick.n st ->
          exists qr ql,
            Fenwick.query fuel r st = Ok qr
            /\ (if l >? 0 then Fenwick.query fuel (l - 1) st else Ok 0) = Ok ql
            /\ Fenwick.rangeQuery fuel l r st = Ok (wrap (qr - ql))
            /\ wrap (qr - ql) = wrap (range_sum (added ups (at_index arr)) l r)
            /\ (is_int (range_sum (added ups (at_index arr)) l r) ->
                Fenwick.rangeQuery fuel l r st
                = Ok (range_sum (added ups (at_index arr)) l r))).
Proof.
  intros Hint Hn Hups Hf.
  destruct (constructor_bit_held arr fuel fuel Hint Hn Hf Hf) as (st0 & E0 & Hn0 & Hh0).
  change (2 ^ 30) with 1073741824 in Hn.
  destruct (bit_updates_held fuel ups st0 _ Hh0) as (st & E & Hnst & Hh).
  { revert Hups. apply List.Forall_impl. intros u [Hu _]. unfold int_max. lia. }
  { lia. }
  exists st0, st. split; [done|]. split; [done|]. split; [lia|].
  set (a := added ups (at_index arr)) in *.
  assert (forall idx, 0 <= idx < Fenwick.n st ->
            Fenwick.query fuel idx st = Ok (wrap (range_sum a 0 idx))) as Hq.
  { intros idx Hidx. apply query_held; [done|done|lia]. }
  split.
  { intros idx Hidx. split; [by apply Hq|]. intros Hfit. by rewrite Hq, wrap_small. }
  intros l r Hl Hr.
  exists (wrap (range_sum a 0 r)), (wrap (range_sum a 0 (l - 1))).
  assert (wrap (wrap (range_sum a 0 r) - wrap (range_sum a 0 (l - 1)))
          = wrap (range_sum a l r)) as Hw.
  { rewrite wrap_sub_l, wrap_sub_r. f_equal.
    rewrite (range_sum_split a 0 (l - 1) r) by lia.
    replace (l - 1 + 1) with l by lia. lia. }
  assert ((if l >? 0 then Fenwick.query fuel (l - 1) st else Ok 0)
          = Ok (wrap (range_sum a 0 (l - 1)))) as Hql.
  { destruct (Z.gtb_spec l 0); [apply Hq; lia|].
    by rewrite range_sum_empty by lia. }
  assert (Fenwick.rangeQuery fuel l r st
          = Ok (wrap (wrap (range_sum a 0 r) - wrap (range_sum a 0 (l - 1))))) as Hrq.
  { unfold Fenwick.rangeQuery. rewrite (Hq r) by lia.
    destruct (Z.gtb_spec l 0) as [Hpos|Hz].
    - rewrite (wrap_small (l - 1)) by (unfold is_int, int_min, int_max; lia).
      by rewrite (Hq (l - 1)) by lia.
    - by rewrite (range_sum_empty a 0 (l - 1)) by lia. }
  split; [apply Hq; lia|]. split; [done|]. split; [done|]. split; [done|].
  intros Hfit. by rewrite Hrq, Hw, wrap_small.
Qed.

(** ** Sequences of calls, [printTree] among them *)

Section RunsAll.

Variable T_max : Z.

Lemma run_app_ok fuel ops1 : forall ops2 m rs1 m1 tr1 rs2 m2 tr2,
  run T_max fuel ops1 m = Ok (rs1, m1, tr1) ->
  run T_max fuel ops2 m1 = Ok (rs2, m2, tr2) ->
  run T_max fuel (ops1 ++ ops2) m = Ok (rs1 ++ rs2, m2, tr1 ++ tr2).
Proof.
  induction ops1 as [|o ops1 IH]; intros ops2 m rs1 m1 tr1 rs2 m2 tr2 E1 E2.
  - injection E1 as <- <- <-. exact E2.
  - cbn [run app] in *.
    apply bind_inv in E1 as (x & ma & ta & tb & Ex & E1 & ->).
    apply bind_ret_inv in E1 as (xs & E1 & ->).
    rewrite <- app_assoc. apply (bind_ok _ _ _ _ _ _ _ _ _ Ex).
    apply (bind_ret_ok _ (fun xs => x :: xs)). by apply (IH ops2 ma xs m1 tb rs2 m2 tr2).
Qed.

Lemma run_total fuel ops : forall m a,
  held m a -> Forall int_args ops -> (Z.to_nat (n m) <= fuel)%nat ->
  exists rs m' tr,
    run T_max fuel ops m = Ok (rs, m', tr)
    /\ returned <$> rs = abs_results T_max fuel (n m) ops a
    /\ (no_print ops -> rs = abs_results T_max fuel (n m) ops a)
    /\ n m' = n m /\ held m' (abs_states (n m) ops a) /\ Forall good tr.
Proof.
  induction ops as [|o ops IH]; intros m a Hh Hint Hf.
  - exists [], m, []. cbn. by repeat split.
  - destruct (Forall_cons_1 _ _ _ Hint) as [Ho Hint'].
    destruct (exec_total T_max fuel o m a Hh Ho Hf) as (x & m1 & t1 & Ex & Hn1 & Hh1 & Hg1 & Hx).
    destruct (IH m1 _ Hh1 Hint' ltac:(lia)) as (rs & m' & t2 & Er & Hrs & Hnp & Hn' & Hh' & Hg2).
    exists (x :: rs), m', (t1 ++ t2). cbn [run abs_results abs_states].
    split; [apply (bind_ok _ _ _ _ _ _ _ _ _ Ex), (bind_ret_ok _ (fun xs => x :: xs)), Er|].
    rewrite Hn1 in *. split; [|split; [|split; [lia|split; [done|by apply Forall_app]]]].
    + cbn [fmap list_fmap]. change (list_fmap _ _ returned rs) with (returned <$> rs).
      rewrite Hrs. f_equal.
      assert (o = PrintTree \/ o <> PrintTree) as [->|Hne]
        by (destruct o; (by left) || by right).
      * destruct (exec_print T_max fuel m a Hh Hf) as (out & Eo).
        rewrite Eo in Ex. by injection Ex as <- _ _.
      * rewrite (Hx Hne). by destruct o.
    + intros Hall. destruct (Forall_cons_1 _ _ _ Hall) as [Hne Hall'].
      by rewrite (Hx Hne), (Hnp Hall').
Qed.

Lemma run_total_length fuel ops m rs m' tr :
  run T_max fuel ops m = Ok (rs, m', tr) -> length rs = length ops.
Proof.
  revert m rs m' tr. induction ops as [|o ops IH]; intros m rs m' tr E.
  - by injection E as <- _ _.
  - cbn [run] in E. apply bind_inv in E as (x & ma & ta & tb & Ex & E & ->).
    apply bind_ret_inv in E as (xs & E & ->). cbn. f_equal. by eapply IH.
Qed.

(** Claim C9 (querySum is observationally pure).  From every reachable
    tree and for every sequence of public operations, [printTree] among
    them: with an extra [querySum(l, r)], valid range, inserted at any place
    the operations before it return and write what they did, and the
    operations after it return the same values ([returned]: [printTree]
    returns nothing).  Everything they write is the same too when no
    [printTree] follows the extra call.  Two [querySum(l, r)] in a row
    return the same value. *)
Theorem C9_querySum_observationally_pure fuel st l r ops1 ops2 :
  reachable T_max st -> 0 <= l <= r -> r <= n st - 1 ->
  Forall int_args (ops1 ++ ops2) ->
  (Z.to_nat (n st) <= fuel)%nat ->
  (exists rs1 v rs2 rs2',
      value_of (run T_max fuel (ops1 ++ QuerySum l r :: ops2) st)
      = Ok (rs1 ++ RValue v :: rs2)
      /\ value_of (run T_max fuel (ops1 ++ ops2) st) = Ok (rs1 ++ rs2')
      /\ length rs1 = length ops1
      /\ length rs2 = length ops2 /\ length rs2' = length ops2
      /\ returned <$> rs2 = returned <$> rs2'
      /\ (no_print ops2 -> rs2 = rs2'))
  /\ (exists v, value_of (run T_max fuel [QuerySum l r; QuerySum l r] st)
                = Ok [RValue v; RValue v]).
Proof.
  intros Hre Hl Hr Hint Hf. destruct (reachable_held T_max st Hre) as [a Hh].
  apply Forall_app in Hint as [Hi1 Hi2]. split.
  - destruct (run_total fuel ops1 st a Hh Hi1 Hf) as (rs1 & m1 & t1 & E1 & _ & _ & Hn1 & Hh1 & _).
    destruct (querySum_held fuel l r m1 _ Hh1 ltac:(lia)) as (mq & tq & Eq & Hnq & Hhq & _).
    destruct (run_total fuel ops2 mq _ Hhq Hi2 ltac:(lia))
      as (rs2 & m2 & t2 & E2 & Hr2 & Hp2 & _).
    destruct (run_total fuel ops2 m1 _ Hh1 Hi2 ltac:(lia))
      as (rs2' & m2' & t2' & E2' & Hr2' & Hp2' & _).
    eexists rs1, _, rs2, rs2'.
    split.
    { erewrite (run_app_ok fuel ops1 (QuerySum l r :: ops2)); [reflexivity|exact E1|].
      cbn [run exec]. eapply bind_ok; [apply (bind_ret_ok _ RValue), Eq|].
      apply (bind_ret_ok _ (fun xs => _ :: xs)), E2. }
    split; [by rewrite (run_app_ok fuel ops1 ops2 _ _ _ _ _ _ _ E1 E2')|].
    split; [by eapply run_total_length|]. split; [by eapply run_total_length|].
    split; [by eapply run_total_length|]. rewrite Hnq in *.
    split; [congruence|]. intros Hnp. by rewrite (Hp2 Hnp), (Hp2' Hnp).
  - rewrite (run_held_value T_max fuel [QuerySum l r; QuerySum l r] st a Hh); [| | |done].
    + cbn. eauto.
    + by repeat constructor.
    + by repeat constructor.
Qed.

End RunsAll.

(** ** Concrete runs *)

Lemma example_tree_tracks T_max : tracks T_max example_tree (at_index example_arr).
Proof.
  apply (tracks_new T_max 8 example_arr example_tree []);
    [discriminate| |vm_compute; discriminate|vm_compute; reflexivity].
  repeat constructor; vm_compute; discriminate.
Qed.

Lemma example_pending_tracks T_max :
  tracks T_max example_pending (range_add 2 6 10 (at_index example_arr)).
Proof.
  eapply (tracks_step T_max 8 (UpdateRange 2 6 10) _ example_tree);
    [apply example_tree_tracks| |vm_compute; reflexivity].
  split; vm_compute; discriminate.
Qed.

Lemma example_tree_reachable T_max : reachable T_max example_tree.
Proof. eexists. apply example_tree_tracks. Qed.

Lemma example_pending_reachable T_max : reachable T_max example_pending.
Proof. eexists. apply example_pending_tracks. Qed.

Lemma example_wide_tracks T_max : tracks T_max example_wide (at_index example_wide_arr).
Proof.
  apply (tracks_new T_max 3 example_wide_arr example_wide []);
    [discriminate| |vm_compute; discriminate|vm_compute; reflexivity].
  repeat constructor; vm_compute; discriminate.
Qed.

Lemma example_wide_reachable T_max : reachable T_max example_wide.
Proof. eexists. apply example_wide_tracks. Qed.

(** Claim C3 as written fails: on the tree over
    [1, 3, 5, 7, 9, 11, 13, 15] the three calls return [16], [0] and [64]. *)
Lemma C3_counterexample :
  value_of (querySum 8 (-1) 3 example_tree) = Ok 16
  /\ value_of (querySum 8 3 1 example_tree) = Ok 0
  /\ value_of (querySum 8 0 (n example_tree) example_tree) = Ok 64.
Proof. vm_compute. done. Qed.

(** Claim C2 fails on the code.  On the tree over [1, 3], [queryMin(0, 1)]
    returns [4], the sum; after [updateRange(0, 1, 10)] the elements are
    [11, 13] and [queryMin(0, 1)] returns [24]. *)
Theorem C2_queryMin_returns_range_sums :
  exists st,
    AdvancedSegmentTree 2 [1; 3] = Ok (st, [])
    /\ value_of (queryMin int_max 2 0 1 st) = Ok 4
    /\ value_of ((updateRange 2 0 1 10 >> getCurrentArray 3 2) st) = Ok [11; 13]
    /\ value_of ((updateRange 2 0 1 10 >> queryMin int_max 2 0 1) st) = Ok 24.
Proof. eexists. split; [vm_compute; reflexivity|]. vm_compute. done. Qed.

(** Claim C7 fails on the code.  The constructor on the empty sequence
    returns no tree: its second call of [build] is [build(arr, 2, 0, 0)],
    whose [tree[2] = arr[0]] is an access outside both vectors. *)
Theorem C7_empty_sequence_out_of_bounds fuel :
  AdvancedSegmentTree fuel []
  = Err (if (fuel <? 2)%nat then OutOfFuel else OutOfBounds).
Proof. destruct fuel as [|[|fuel]]; reflexivity. Qed.

(** ** The statements on concrete trees *)

Lemma C1_witness :
  (exists v w,
      value_of ((let* before := querySum 8 2 6 in
                 updateRange 8 2 6 10 >>
                 let* after := querySum 8 2 6 in
                 ret (before, after)) example_pending)
      = Ok (v, w)
      /\ w = wrap (v + 10 * (6 - 2 + 1))
      /\ (is_int (v + 10 * (6 - 2 + 1)) -> w = v + 10 * (6 - 2 + 1)))
  /\ forall l' r', 0 <= l' <= r' -> r' <= n example_pending - 1 -> r' < 2 \/ 6 < l' ->
       exists w,
         value_of ((let* before := querySum 8 l' r' in
                    updateRange 8 2 6 10 >>
                    let* after := querySum 8 l' r' in
                    ret (before, after)) example_pending)
         = Ok (w, w).
Proof.
  apply (C1_range_add_additivity int_max 8 example_pending 2 6 10);
    [apply example_pending_reachable|lia|simpl; lia|vm_compute; split; discriminate
    |vm_compute; lia].
Defined.

Lemma C4_witness :
  L example_pending 11 = 10
  /\ value_of ((updatePoint 8 3 100 >> querySum 8 3 3) example_pending) = Ok 100.
Proof.
  split; [reflexivity|].
  apply (C4_point_set_exact int_max 8 example_pending 3 100);
    [apply example_pending_reachable|simpl; lia|vm_compute; split; discriminate
    |vm_compute; lia].
Defined.

Lemma C5_witness :
  exists st,
    AdvancedSegmentTree 3 example_wide_arr = Ok (st, [])
    /\ n st = Z.of_nat (length example_wide_arr)
    /\ value_of (querySum 3 0 (n st - 1) st) = Ok (wrap (list_sum example_wide_arr))
    /\ (is_int (list_sum example_wide_arr) ->
        value_of (querySum 3 0 (n st - 1) st) = Ok (list_sum example_wide_arr))
    /\ (forall i s e acc, node_at st i s e acc ->
          (s = e -> vget (tree st) i = vget example_wide_arr s
                    /\ is_Some (vget example_wide_arr s))
          /\ (s < e ->
              vget (tree st) i = Some (wrap (T st (2 * i) + T st (2 * i + 1)))))
    /\ lazy st = replicate (Z.to_nat (4 * n st)) 0.
Proof.
  apply (C5_build_correct 3 example_wide_arr);
    [discriminate|repeat constructor; vm_compute; discriminate
    |vm_compute; discriminate|simpl; lia].
Defined.

Lemma C6_witness :
  L example_pending 11 = 10
  /\ (forall o, int_args o ->
        exists x st' tr,
          exec int_max 8 o example_pending = Ok (x, st', tr) /\ Forall good tr)
  /\ (forall i s e acc, node_at example_pending i s e acc ->
        wrap (range_sum (elems example_pending) s e - T example_pending i)
        = wrap ((e - s + 1) * (L example_pending i + acc)))
  /\ (forall k, 0 <= k <= n example_pending - 1 ->
        elems example_pending k = wrap (range_add 2 6 10 (at_index example_arr) k)
        /\ value_of (querySum 8 k k example_pending) = Ok (elems example_pending k)).
Proof.
  split; [reflexivity|].
  apply (C6_push_invariant int_max 8 example_pending
           (range_add 2 6 10 (at_index example_arr)));
    [apply example_pending_tracks|vm_compute; lia].
Defined.

Lemma C9_witness :
  (exists rs1 v rs2 rs2',
      value_of (run int_max 8 ([UpdateRange 2 6 10] ++ QuerySum 1 5 :: [QueryMin 0 7; PrintTree])
                  example_tree)
      = Ok (rs1 ++ RValue v :: rs2)
      /\ value_of (run int_max 8 ([UpdateRange 2 6 10] ++ [QueryMin 0 7; PrintTree])
                     example_tree)
         = Ok (rs1 ++ rs2')
      /\ length rs1 = length [UpdateRange 2 6 10]
      /\ length rs2 = length [QueryMin 0 7; PrintTree]
      /\ length rs2' = length [QueryMin 0 7; PrintTree]
      /\ returned <$> rs2 = returned <$> rs2'
      /\ (no_print [QueryMin 0 7; PrintTree] -> rs2 = rs2'))
  /\ (exists v, value_of (run int_max 8 [QuerySum 1 5; QuerySum 1 5] example_tree)
                = Ok [RValue v; RValue v]).
Proof.
  apply (C9_querySum_observationally_pure int_max 8 example_tree 1 5
           [UpdateRange 2 6 10] [QueryMin 0 7; PrintTree]);
    [apply example_tree_reachable|lia|simpl; lia
    |repeat constructor; vm_compute; discriminate|vm_compute; lia].
Defined.

Lemma C10_witness :
  value_of (querySum 3 (-1) 12 example_wide)
  = Ok (wrap (range_sum (elems example_wide) (Z.max (-1) 0) (Z.min 12 (n example_wide - 1))))
  /\ (is_int (range_sum (elems example_wide) (Z.max (-1) 0) (Z.min 12 (n example_wide - 1))) ->
      value_of (querySum 3 (-1) 12 example_wide)
      = Ok (range_sum (elems example_wide) (Z.max (-1) 0) (Z.min 12 (n example_wide - 1))))
  /\ (Z.min 12 (n example_wide - 1) < Z.max (-1) 0 ->
      value_of (querySum 3 (-1) 12 example_wide) = Ok 0)
  /\ exists st',
       state_of (updateRange 3 (-1) 12 5 example_wide) = Ok st'
       /\ n st' = n example_wide
       /\ forall k, 0 <= k <= n example_wide - 1 ->
            elems st' k
            = if (-1 <=? k) && (k <=? 12)
              then wrap (elems example_wide k + 5) else elems example_wide k.
Proof.
  apply (C10_ranges_are_clamped int_max 3 example_wide (-1) 12 5);
    [apply example_wide_reachable|vm_compute; split; discriminate|vm_compute; lia].
Defined.

Lemma C3_witness :
  value_of (querySum 8 (-1) 3 example_tree)
  = Ok (wrap (range_sum (elems example_tree) 0 (Z.min 3 (n example_tree - 1))))
  /\ value_of (querySum 8 3 1 example_tree) = Ok 0
  /\ value_of (querySum 8 0 (n example_tree) example_tree)
     = Ok (wrap (range_sum (elems example_tree) 0 (n example_tree - 1)))
  /\ forall l r, l > r \/ l < 0 \/ r >= n example_tree ->
       (exists v, value_of (querySum 8 l r example_tree) = Ok v)
       /\ (exists v, value_of (queryMin int_max 8 l r example_tree) = Ok v)
       /\ (forall delta, is_int delta ->
             exists st', state_of (updateRange 8 l r delta example_tree) = Ok st').
Proof.
  apply (C3_invalid_ranges_return int_max 8 example_tree);
    [apply example_tree_reachable|vm_compute; lia].
Defined.

Lemma C8_witness :
  exists st0 st,
    Fenwick.BinaryIndexedTree 9 9 [2147483647; 1; 5] = Ok st0
    /\ bit_updates 9 [(2, 10); (0, 7)] st0 = Ok st
    /\ Fenwick.n st = Z.of_nat (length [2147483647; 1; 5])
    /\ (forall idx, 0 <= idx < Fenwick.n st ->
          Fenwick.query 9 idx st
          = Ok (wrap (range_sum (added [(2, 10); (0, 7)] (at_index [2147483647; 1; 5])) 0 idx))
          /\ (is_int (range_sum (added [(2, 10); (0, 7)] (at_index [2147483647; 1; 5])) 0 idx) ->
              Fenwick.query 9 idx st
              = Ok (range_sum (added [(2, 10); (0, 7)] (at_index [2147483647; 1; 5])) 0 idx)))
    /\ (forall l r, 0 <= l <= r -> r < Fenwick.n st ->
          exists qr ql,
            Fenwick.query 9 r st = Ok qr
            /\ (if l >? 0 then Fenwick.query 9 (l - 1) st else Ok 0) = Ok ql
            /\ Fenwick.rangeQuery 9 l r st = Ok (wrap (qr - ql))
            /\ wrap (qr - ql)
               = wrap (range_sum (added [(2, 10); (0, 7)] (at_index [2147483647; 1; 5])) l r)
            /\ (is_int (range_sum (added [(2, 10); (0, 7)] (at_index [2147483647; 1; 5])) l r) ->
                Fenwick.rangeQuery 9 l r st
                = Ok (range_sum (added [(2, 10); (0, 7)] (at_index [2147483647; 1; 5])) l r))).
Proof.
  apply (C8_fenwick_prefix_sums 9 [2147483647; 1; 5] [(2, 10); (0, 7)]);
    [repeat constructor; vm_compute; discriminate|vm_compute; reflexivity
    |repeat constructor; vm_compute; discriminate|simpl; lia].
Defined.

(** ** What the results depend on: the sequence as [int]s *)

Lemma range_sum_cong f g s e :
  (forall k, s <= k <= e -> wrap (f k) = wrap (g k)) ->
  wrap (range_sum f s e) = wrap (range_sum g s e).
Proof.
  intros H. rewrite <- (wrap_range_sum f), <- (wrap_range_sum g). f_equal.
  apply range_sum_ext. intros k Hk. by apply H.
Qed.

Lemma cover_min_cong T_max fuel : forall a a' s e l r,
  0 <= s <= e -> (forall k, s <= k <= e -> wrap (a k) = wrap (a' k)) ->
  cover_min T_max wrap fuel a s e l r = cover_min T_max wrap fuel a' s e l r.
Proof.
  induction fuel as [|fuel IH]; intros a a' s e l r Hse Hext; [done|].
  cbn [cover_min]. destruct ((s >? r) || (e <? l)) eqn:Ed; [done|].
  destruct ((s >=? l) && (e <=? r)) eqn:Ec; [by apply range_sum_cong|].
  assert (s < e) as Hlt by lia. pose proof (mid_bounds s e ltac:(lia) Hlt).
  f_equal; apply IH; try lia; intros k Hk; apply Hext; lia.
Qed.

Lemma materialize_cong nn a a' :
  (forall k, 0 <= k <= nn - 1 -> wrap (a k) = wrap (a' k)) ->
  wrap <$> materialize nn a = wrap <$> materialize nn a'.
Proof.
  intros Hext. unfold materialize. apply list_eq. intros i.
  rewrite !list_lookup_fmap. destruct (seqZ 0 nn !! i) as [k|] eqn:E; [|done].
  apply lookup_seqZ in E as [-> Hi]. cbn. f_equal. apply Hext. lia.
Qed.

Lemma abs_result_cong T_max fuel nn o a a' :
  1 <= nn -> (forall k, 0 <= k <= nn - 1 -> wrap (a k) = wrap (a' k)) ->
  abs_result T_max fuel nn o a = abs_result T_max fuel nn o a'.
Proof.
  intros Hn Hext. destruct o as [l r v|l r|idx v|l r| |]; cbn [abs_result]; try done.
  - f_equal. apply range_sum_cong. intros k Hk. unfold restrict.
    destruct ((l <=? k) && (k <=? r)); [apply Hext; lia|done].
  - f_equal. apply cover_min_cong; [lia|done].
  - f_equal. by apply materialize_cong.
Qed.

Lemma abs_state_cong nn o a a' :
  (forall k, 0 <= k <= nn - 1 -> wrap (a k) = wrap (a' k)) ->
  forall k, 0 <= k <= nn - 1 -> wrap (abs_state nn o a k) = wrap (abs_state nn o a' k).
Proof.
  intros Hext k Hk. destruct o as [l r v|l r|idx v|l r| |]; cbn [abs_state]; auto.
  - unfold range_add. destruct ((l <=? k) && (k <=? r)); [|by apply Hext].
    rewrite <- wrap_add_l, (Hext k Hk). apply wrap_add_l.
  - unfold point_set. destruct (k =? _); [done|by apply Hext].
Qed.

Lemma abs_results_cong T_max fuel nn ops : forall a a',
  1 <= nn -> (forall k, 0 <= k <= nn - 1 -> wrap (a k) = wrap (a' k)) ->
  abs_results T_max fuel nn ops a = abs_results T_max fuel nn ops a'.
Proof.
  induction ops as [|o ops IH]; intros a a' Hn Hext; cbn [abs_results]; [done|].
  f_equal; [by apply abs_result_cong|]. apply IH; [done|]. by apply abs_state_cong.
Qed.

Section Same.

Variable T_max : Z.

(** Two trees that hold the same sequence of [int]s return the same values
    to every sequence of calls. *)
Lemma same_held_same_results fuel m m' a a' ops :
  held m a -> held m' a' -> n m' = n m ->
  (forall k, 0 <= k <= n m - 1 -> wrap (a k) = wrap (a' k)) ->
  Forall int_args ops -> (Z.to_nat (n m) <= fuel)%nat ->
  exists rs rs',
    value_of (run T_max fuel ops m) = Ok rs
    /\ value_of (run T_max fuel ops m') = Ok rs'
    /\ returned <$> rs = returned <$> rs'
    /\ (no_print ops -> rs = rs').
Proof.
  intros Hh Hh' Hn Hext Hint Hf. destruct (held_n m a Hh) as [Hn1 _].
  destruct (run_total T_max fuel ops m a Hh Hint Hf) as (rs & m1 & t1 & E & Hr & Hp & _).
  destruct (run_total T_max fuel ops m' a' Hh' Hint ltac:(lia)) as (rs' & m1' & t1' & E' & Hr' & Hp' & _).
  exists rs, rs'. rewrite E, E'. split; [done|]. split; [done|]. rewrite Hn in *.
  pose proof (abs_results_cong T_max fuel (n m) ops a a' Hn1 Hext) as Heq.
  split; [congruence|]. intros Hnp. rewrite (Hp Hnp), (Hp' Hnp). exact Heq.
Qed.

Lemma run_cons_ok fuel o ops m x m1 t1 rs m2 t2 :
  exec T_max fuel o m = Ok (x, m1, t1) -> run T_max fuel ops m1 = Ok (rs, m2, t2) ->
  run T_max fuel (o :: ops) m = Ok (x :: rs, m2, t1 ++ t2).
Proof.
  intros Ex Er. cbn [run]. apply (bind_ok _ _ _ _ _ _ _ _ _ Ex).
  apply (bind_ret_ok _ (fun xs => x :: xs)), Er.
Qed.

(** The results of a sequence of calls after a first call. *)
Lemma run_after fuel o ops m a :
  held m a -> int_args o -> o <> PrintTree -> Forall int_args ops ->
  (Z.to_nat (n m) <= fuel)%nat ->
  exists m1 rs,
    held m1 (abs_state (n m) o a) /\ n m1 = n m
    /\ value_of (run T_max fuel ops m1) = Ok rs
    /\ value_of (run T_max fuel (o :: ops) m)
       = Ok (abs_result T_max fuel (n m) o a :: rs).
Proof.
  intros Hh Ho Hne Hint Hf.
  destruct (exec_held T_max fuel o m a Hh Ho Hne Hf) as (m1 & t1 & Ex & Hn1 & Hh1 & _).
  destruct (run_total T_max fuel ops m1 _ Hh1 Hint ltac:(lia)) as (rs & m2 & t2 & Er & _).
  exists m1, rs. split; [done|]. split; [done|]. rewrite Er.
  by rewrite (run_cons_ok fuel o ops m _ _ _ _ _ _ Ex Er).
Qed.

End Same.

(** ** Further properties of the segment tree *)

Lemma at_index_fmap_materialize nn a k :
  0 <= k < nn -> at_index (wrap <$> materialize nn a) k = wrap (a k).
Proof.
  intros Hk. unfold at_index. by rewrite vget_fmap, vget_materialize.
Qed.

Lemma Forall_is_int_fmap xs : Forall is_int (wrap <$> xs).
Proof. apply Forall_fmap, Forall_true. intros x. apply wrap_is_int. Qed.

Lemma held_root m a :
  held m a -> L m 1 = 0 /\ T m 0 = 0 /\ L m 0 = 0
              /\ T m 1 = wrap (range_sum a 0 (n m - 1)).
Proof.
  intros (u & Hs & Hst & _). pose proof (settled_root u a Hst) as Hroot.
  destruct Hst as (Ha & HL1 & HT0 & HL0). pose proof Hs as (Hn & _).
  rewrite (sim_L u m 1 Hs), (sim_T u m 0 Hs), (sim_L u m 0 Hs), (sim_T u m 1 Hs).
  rewrite HL1, HT0, HL0, Hroot, Hn. repeat split; try done. f_equal.
  apply range_sum_ext. intros k Hk. by apply elems_Rep.
Qed.

Section Further.

Variable T_max : Z.

(** The results of a sequence of calls after a first call. *)
Lemma run_step fuel o ops m a :
  held m a -> int_args o -> o <> PrintTree -> (Z.to_nat (n m) <= fuel)%nat ->
  exists m1,
    held m1 (abs_state (n m) o a) /\ n m1 = n m
    /\ forall rs, value_of (run T_max fuel ops m1) = Ok rs ->
         value_of (run T_max fuel (o :: ops) m)
         = Ok (abs_result T_max fuel (n m) o a :: rs).
Proof.
  intros Hh Ho Hne Hf.
  destruct (exec_held T_max fuel o m a Hh Ho Hne Hf) as (m1 & t1 & Ex & Hn1 & Hh1 & _).
  exists m1. split; [done|]. split; [done|]. intros rs Er.
  cbn [run]. unfold bind at 1. rewrite Ex. unfold bind.
  destruct (run T_max fuel ops m1) as [[[rs' m2] t2]|]; [|done].
  cbn in *. by injection Er as ->.
Qed.

(** X1 ([getCurrentArray], lines 163-169).  On every reachable tree
    [getCurrentArray] returns a vector of [n] values whose entry [k] is the
    current element [k], pending additions included and wrapped around as
    the [int] arithmetic of the code leaves it; the tree afterwards has the
    same size and stands for the same elements. *)
Theorem X1_getCurrentArray_returns_elements fuel st :
  reachable T_max st -> (Z.to_nat (n st) <= fuel)%nat ->
  exists xs st' tr,
    getCurrentArray (S fuel) fuel st = Ok (xs, st', tr)
    /\ Z.of_nat (length xs) = n st
    /\ (forall k, 0 <= k < n st -> vget xs k = Some (elems st k))
    /\ n st' = n st
    /\ (forall k, 0 <= k < n st -> elems st' k = elems st k).
Proof.
  intros Hre Hf. destruct (reachable_held T_max st Hre) as [a Hh].
  destruct (held_n st a Hh) as [Hn _].
  destruct (getCurrentArray_held fuel st a Hh Hf) as (st' & tr & E & Hn' & Hh' & _).
  exists (wrap <$> materialize (n st) a), st', tr. split; [done|].
  split; [rewrite length_fmap, length_materialize; lia|]. split; [|split; [done|]].
  - intros k Hk. rewrite vget_fmap, vget_materialize by done. cbn. f_equal. symmetry.
    apply (held_elems st a); [done|lia].
  - intros k Hk. rewrite (held_elems st' a), (held_elems st a) by (done || lia). done.
Qed.

(** X2 ([getCurrentArray] and the constructor, lines 135-140 and 163-169).
    The vector returned by [getCurrentArray] is non-empty, and the tree the
    constructor builds from it has the same size and returns the same values
    as the original tree to every sequence of public calls.  What
    [printTree] writes is left out of the comparison ([returned]): it shows
    where additions are pending. *)
Theorem X2_rebuild_from_getCurrentArray fuel st :
  reachable T_max st -> (Z.to_nat (n st) <= fuel)%nat ->
  exists xs st2,
    value_of (getCurrentArray (S fuel) fuel st) = Ok xs
    /\ AdvancedSegmentTree fuel xs = Ok (st2, [])
    /\ n st2 = n st
    /\ forall ops, Forall int_args ops ->
         exists rs rs2,
           value_of (run T_max fuel ops st) = Ok rs
           /\ value_of (run T_max fuel ops st2) = Ok rs2
           /\ returned <$> rs = returned <$> rs2
           /\ (no_print ops -> rs = rs2).
Proof.
  intros Hre Hf. destruct (reachable_held T_max st Hre) as [a Hh].
  destruct (held_n st a Hh) as [Hn Hsz].
  destruct (getCurrentArray_held fuel st a Hh Hf) as (st' & tr & E & _).
  set (xs := wrap <$> materialize (n st) a) in *.
  assert (length xs = Z.to_nat (n st)) as Hlen
    by (unfold xs; by rewrite length_fmap, length_materialize).
  destruct (constructor_held fuel xs) as (st2 & E2 & Hn2 & Hh2).
  { intros Hnil. rewrite Hnil in Hlen. cbn in Hlen. lia. }
  { apply Forall_is_int_fmap. }
  { lia. }
  { lia. }
  exists xs, st2. split; [by rewrite E|]. split; [done|]. split; [lia|].
  intros ops Hint.
  apply (same_held_same_results T_max fuel st st2 a (at_index xs)); try done; [lia|].
  intros k Hk. unfold xs. by rewrite at_index_fmap_materialize, wrap_wrap by lia.
Qed.

(** X3 ([updatePoint], lines 96-113 and 153-155).  [updatePoint] checks no
    index: it returns for every integer [idx] and sets the element at [idx]
    clamped to [0 .. n - 1], leaving the others; a negative [idx] overwrites
    element [0], an [idx] of [n] or more overwrites element [n - 1]. *)
Theorem X3_updatePoint_clamps_index fuel st idx v :
  reachable T_max st -> is_int v -> (Z.to_nat (n st) <= fuel)%nat ->
  exists st',
    state_of (updatePoint fuel idx v st) = Ok st'
    /\ n st' = n st
    /\ (forall k, 0 <= k <= n st - 1 ->
          elems st' k
          = if k =? Z.max 0 (Z.min (n st - 1) idx) then v else elems st k)
    /\ (idx < 0 -> elems st' 0 = v)
    /\ (n st <= idx -> elems st' (n st - 1) = v).
Proof.
  intros Hre Hv Hf. destruct (reachable_held T_max st Hre) as [a Hh].
  destruct (held_n st a Hh) as [Hn _].
  destruct (updatePoint_held fuel idx v st a Hh Hv Hf) as (st' & tr & E & Hn' & Hh' & _).
  exists st'. split; [by rewrite E|]. split; [done|].
  assert (forall k, 0 <= k <= n st - 1 ->
            elems st' k = if k =? Z.max 0 (Z.min (n st - 1) idx) then v else elems st k) as Hel.
  { intros k Hk. rewrite (held_elems st' _ k Hh') by lia. unfold point_set.
    rewrite (held_elems st a k Hh Hk). destruct (k =? _); [by apply wrap_small|done]. }
  split; [done|]. split.
  - intros Hneg. rewrite Hel by lia.
    destruct (Z.eqb_spec 0 (Z.max 0 (Z.min (n st - 1) idx))); [done|lia].
  - intros Hbig. rewrite Hel by lia.
    destruct (Z.eqb_spec (n st - 1) (Z.max 0 (Z.min (n st - 1) idx))); [done|lia].
Qed.

(** X4 ([queryMin], lines 116-131 and 158-160).  On every reachable tree
    [queryMin(l, r)] returns [T_max] when [l .. r] contains no index of the
    tree, the element [k] for [l = r = k] when that element is at most
    [T_max], and the sum of all elements, as an [int], when [l .. r] covers
    the tree; it leaves the size and the elements unchanged. *)
Theorem X4_queryMin_special_ranges fuel st :
  reachable T_max st -> (Z.to_nat (n st) <= fuel)%nat ->
  (forall l r, r < l \/ r < 0 \/ n st - 1 < l ->
     value_of (queryMin T_max fuel l r st) = Ok T_max)
  /\ (forall k, 0 <= k <= n st - 1 -> elems st k <= T_max ->
        value_of (queryMin T_max fuel k k st) = Ok (elems st k))
  /\ (forall l r, l <= 0 -> n st - 1 <= r ->
        value_of (queryMin T_max fuel l r st)
        = Ok (wrap (range_sum (elems st) 0 (n st - 1))))
  /\ (forall l r, exists st',
        state_of (queryMin T_max fuel l r st) = Ok st'
        /\ n st' = n st
        /\ forall k, 0 <= k <= n st - 1 -> elems st' k = elems st k).
Proof.
  intros Hre Hf. destruct (reachable_held T_max st Hre) as [a Hh].
  destruct (held_n st a Hh) as [Hn _].
  split; [|split; [|split]].
  - intros l r Hemp. destruct (queryMin_held T_max fuel l r st a Hh Hf) as (st' & tr & -> & _).
    cbn. f_equal. apply cover_min_empty; lia.
  - intros k Hk Hle. destruct (queryMin_held T_max fuel k k st a Hh Hf) as (st' & tr & -> & _).
    cbn. f_equal. rewrite (held_elems st a k Hh Hk) in *. apply cover_min_point; lia.
  - intros l r Hl Hr. destruct (queryMin_held T_max fuel l r st a Hh Hf) as (st' & tr & -> & _).
    cbn. f_equal. destruct fuel as [|fuel]; [lia|]. rewrite cover_min_all by lia.
    symmetry. by apply wrap_range_sum_elems.
  - intros l r. destruct (queryMin_held T_max fuel l r st a Hh Hf) as (st' & tr & -> & Hn' & Hh' & _).
    exists st'. split; [done|]. split; [done|]. intros k Hk.
    rewrite (held_elems st' a), (held_elems st a) by (done || lia). done.
Qed.

(** X5 (the constructor and the vectors, lines 135-140).  In every
    reachable tree [n] is at least [1], [tree] and [lazy] have exactly
    [4 * n] slots, slot [0] of both is still the [0] the constructor wrote,
    and every node the recursion can reach from the root has an index in
    [1 .. 4 * n - 1] and a non-empty range inside [0 .. n - 1]: no public
    operation indexes outside the vectors. *)
Theorem X5_storage_shape st :
  reachable T_max st ->
  1 <= n st
  /\ Z.of_nat (length (tree st)) = 4 * n st
  /\ Z.of_nat (length (lazy st)) = 4 * n st
  /\ vget (tree st) 0 = Some 0 /\ vget (lazy st) 0 = Some 0
  /\ forall i s e acc, node_at st i s e acc ->
       1 <= i < 4 * n st /\ 0 <= s <= e /\ e <= n st - 1.
Proof.
  intros Hre. destruct (reachable_held T_max st Hre) as [a Hh].
  destruct (held_shape st a Hh) as (Hn & Hsz & Ht & Hl).
  destruct (held_root st a Hh) as (_ & HT0 & HL0 & _).
  split; [done|]. split; [done|]. split; [done|].
  split; [rewrite vget_in by lia; by f_equal|].
  split; [rewrite vget_in by lia; by f_equal|].
  intros i s e acc Hat. destruct (held_node_at st a i s e acc Hh Hat) as (? & ? & ? & _).
  done.
Qed.

(** X6 (the root, lines 56-75 and 96-113).  Between two public operations
    nothing is pending at the root: [lazy[1]] is [0] and [tree[1]] is the sum
    of all current elements as an [int], whatever is pending further
    down. *)
Theorem X6_root_holds_total st :
  reachable T_max st ->
  vget (lazy st) 1 = Some 0
  /\ vget (tree st) 1 = Some (wrap (range_sum (elems st) 0 (n st - 1))).
Proof.
  intros Hre. destruct (reachable_held T_max st Hre) as [a Hh].
  destruct (held_shape st a Hh) as (Hn & Hsz & Ht & Hl).
  destruct (held_root st a Hh) as (HL1 & _ & _ & HT1).
  rewrite (vget_in (lazy st) 1), (vget_in (tree st) 1) by lia.
  split; f_equal; [done|]. fold (T st 1). rewrite HT1. symmetry.
  by apply wrap_range_sum_elems.
Qed.

(** X7 (public [updateRange], lines 143-145).  Two additions on the same
    range are followed by the same returned values as one addition of the
    sum of the deltas, an [int], and two additions on any two ranges by the
    same returned values in either order; when no [printTree] follows,
    everything the following calls give is equal. *)
Theorem X7_updateRange_merges_and_commutes fuel st l r d1 d2 l2 r2 ops :
  reachable T_max st -> (Z.to_nat (n st) <= fuel)%nat ->
  is_int d1 -> is_int d2 -> Forall int_args ops ->
  (exists rs rs',
      value_of (run T_max fuel (UpdateRange l r d1 :: UpdateRange l r d2 :: ops) st)
      = Ok (RUnit :: RUnit :: rs)
      /\ value_of (run T_max fuel (UpdateRange l r (d1 +' d2) :: ops) st)
         = Ok (RUnit :: rs')
      /\ returned <$> rs = returned <$> rs'
      /\ (no_print ops -> rs = rs'))
  /\ (exists rs rs',
        value_of (run T_max fuel (UpdateRange l r d1 :: UpdateRange l2 r2 d2 :: ops) st)
        = Ok (RUnit :: RUnit :: rs)
        /\ value_of (run T_max fuel (UpdateRange l2 r2 d2 :: UpdateRange l r d1 :: ops) st)
           = Ok (RUnit :: RUnit :: rs')
        /\ returned <$> rs = returned <$> rs'
        /\ (no_print ops -> rs = rs')).
Proof.
  intros Hre Hf Hd1 Hd2 Hint. destruct (reachable_held T_max st Hre) as [a Hh].
  destruct (held_n st a Hh) as [Hn _].
  assert (forall la ra da lb rb db, is_int da -> is_int db ->
            exists m2,
              held m2 (range_add lb rb db (range_add la ra da a)) /\ n m2 = n st
              /\ forall rs, value_of (run T_max fuel ops m2) = Ok rs ->
                   value_of (run T_max fuel (UpdateRange la ra da :: UpdateRange lb rb db :: ops) st)
                   = Ok (RUnit :: RUnit :: rs)) as Htwo.
  { intros la ra da lb rb db Ha Hb.
    destruct (run_step fuel (UpdateRange la ra da) (UpdateRange lb rb db :: ops) st a Hh Ha
                ltac:(done) Hf) as (m1 & Hh1 & Hn1 & Hr1).
    destruct (run_step fuel (UpdateRange lb rb db) ops m1 _ Hh1 Hb ltac:(done) ltac:(lia))
      as (m2 & Hh2 & Hn2 & Hr2).
    exists m2. split; [done|]. split; [lia|]. intros rs Hrs.
    apply Hr1, Hr2, Hrs. }
  split.
  - destruct (Htwo l r d1 l r d2 Hd1 Hd2) as (m2 & Hh2 & Hn2 & Hr2).
    destruct (run_step fuel (UpdateRange l r (d1 +' d2)) ops st a Hh (wrap_is_int _)
                ltac:(done) Hf) as (m3 & Hh3 & Hn3 & Hr3).
    destruct (same_held_same_results T_max fuel m2 m3 _ _ ops Hh2 Hh3 ltac:(lia))
      as (rs & rs' & E & E' & Hret & Hnp); [|done|lia|].
    { intros k Hk. cbn [abs_state]. unfold range_add.
      destruct ((l <=? k) && (k <=? r)); [|done].
      rewrite wrap_add_r. f_equal. lia. }
    exists rs, rs'. split; [by apply Hr2|]. split; [by apply Hr3|]. done.
  - destruct (Htwo l r d1 l2 r2 d2 Hd1 Hd2) as (m2 & Hh2 & Hn2 & Hr2).
    destruct (Htwo l2 r2 d2 l r d1 Hd2 Hd1) as (m3 & Hh3 & Hn3 & Hr3).
    destruct (same_held_same_results T_max fuel m2 m3 _ _ ops Hh2 Hh3 ltac:(lia))
      as (rs & rs' & E & E' & Hret & Hnp); [|done|lia|].
    { intros k Hk. unfold range_add.
      destruct ((l <=? k) && (k <=? r)), ((l2 <=? k) && (k <=? r2)); f_equal; lia. }
    exists rs, rs'. split; [by apply Hr2|]. split; [by apply Hr3|]. done.
Qed.

(** X8 (public [updateRange], lines 143-145).  After an addition of [0],
    or on a range that is inverted or lies outside the tree, every following
    sequence of calls returns what it returns without it; what a following
    [printTree] writes can differ, since the call still applies pending
    values on its way. *)
Theorem X8_updateRange_without_effect fuel st l r delta ops :
  reachable T_max st -> (Z.to_nat (n st) <= fuel)%nat ->
  is_int delta -> Forall int_args ops ->
  delta = 0 \/ r < l \/ r < 0 \/ n st - 1 < l ->
  exists rs rs',
    value_of (run T_max fuel (UpdateRange l r delta :: ops) st) = Ok (RUnit :: rs)
    /\ value_of (run T_max fuel ops st) = Ok rs'
    /\ returned <$> rs = returned <$> rs'
    /\ (no_print ops -> rs = rs').
Proof.
  intros Hre Hf Hd Hint Hno. destruct (reachable_held T_max st Hre) as [a Hh].
  destruct (held_n st a Hh) as [Hn _].
  destruct (run_step fuel (UpdateRange l r delta) ops st a Hh Hd ltac:(done) Hf)
    as (m1 & Hh1 & Hn1 & Hr1).
  destruct (same_held_same_results T_max fuel m1 st _ _ ops Hh1 Hh ltac:(lia))
    as (rs & rs' & E & E' & Hret & Hnp); [|done|lia|].
  { intros k Hk. cbn [abs_state]. unfold range_add.
    destruct ((l <=? k) && (k <=? r)) eqn:Ein; [|done]. f_equal. lia. }
  exists rs, rs'. split; [by apply Hr1|]. done.
Qed.

(** X9 ([querySum], lines 78-93 and 148-150).  The sums of two adjacent
    ranges add up to the sum of their union: [querySum(l, m)],
    [querySum(m + 1, r)] and [querySum(l, r)], called in this order, return
    [v1], [v2] and [v1 + v2] as an [int]. *)
Theorem X9_querySum_adjacent_ranges fuel st l m r :
  reachable T_max st -> (Z.to_nat (n st) <= fuel)%nat ->
  0 <= l <= m -> m < r -> r <= n st - 1 ->
  exists v1 v2,
    value_of (run T_max fuel [QuerySum l m; QuerySum (m + 1) r; QuerySum l r] st)
    = Ok [RValue v1; RValue v2; RValue (v1 +' v2)].
Proof.
  intros Hre Hf Hl Hm Hr. destruct (reachable_held T_max st Hre) as [a Hh].
  rewrite (run_held_value T_max fuel _ st a Hh); [| | |done].
  2:{ by repeat constructor. }
  2:{ by repeat constructor. }
  cbn [abs_results abs_result abs_state].
  eexists _, _. do 4 f_equal. rewrite !range_sum_restrict.
  replace (Z.max l 0) with l by lia. replace (Z.max (m + 1) 0) with (m + 1) by lia.
  replace (Z.min m (n st - 1)) with m by lia. replace (Z.min r (n st - 1)) with r by lia.
  rewrite wrap_add_l, wrap_add_r. by rewrite (range_sum_split a l m r) by lia.
Qed.

End Further.

(** ** What a member function reads and writes *)

Lemma vget_Some_in v j x : vget v j = Some x -> 0 <= j < Z.of_nat (length v).
Proof.
  unfold vget. destruct (Z.leb_spec 0 j); [|done]. intros E.
  apply lookup_lt_Some in E. lia.
Qed.

Lemma vset_Some_in v j x w :
  vset v j x = Some w -> 0 <= j < Z.of_nat (length v) /\ w = <[Z.to_nat j := x]> v.
Proof.
  unfold vset. destruct (Z.leb_spec 0 j); [|done].
  destruct (Z.ltb_spec j (Z.of_nat (length v))); [|done]. cbn. intros [= <-].
  split; [lia|done].
Qed.

Lemma locM_ret {A} c (x : A) : locM c (ret x).
Proof. intros D HD st st2 y st' tr Ha [= <- <- <-]. by exists st2, []. Qed.

Lemma locM_fail {A} c f : locM c (@fail A f).
Proof. by intros D HD st st2 y st' tr Ha E. Qed.

Lemma locM_bind {A B} c (m : M A) (k : A -> M B) :
  locM c m -> (forall x, locM c (k x)) -> locM c (bind m k).
Proof.
  intros Hm Hk D HD st st2 y st' tr Ha E.
  apply bind_inv in E as (x & st1 & t1 & t2 & E1 & E2 & ->).
  destruct (Hm D HD st st2 x st1 t1 Ha E1) as (st1' & t1' & E1' & Ha1).
  destruct (Hk x D HD st1 st1' y st' t2 Ha1 E2) as (st2' & t2' & E2' & Ha2).
  exists st2', (t1' ++ t2'). split; [|done]. by apply (bind_ok _ _ _ _ _ _ _ _ _ E1').
Qed.

Lemma locM_get_tree c j : desc c j -> locM c (get_tree j).
Proof.
  intros Hj D HD st st2 x st' tr [Hs Ha] E.
  apply get_tree_inv in E as (E & -> & ->). pose proof (vget_Some_in _ _ _ E) as Hin.
  exists st2, []. split; [|done]. destruct Hs as (_ & Hlen & _).
  rewrite get_tree_ok by lia. destruct (Ha j (HD j Hj)) as [-> _].
  unfold T. by rewrite E.
Qed.

Lemma locM_get_lazy c j : desc c j -> locM c (get_lazy j).
Proof.
  intros Hj D HD st st2 x st' tr [Hs Ha] E.
  apply get_lazy_inv in E as (E & -> & ->). pose proof (vget_Some_in _ _ _ E) as Hin.
  exists st2, []. split; [|done]. destruct Hs as (_ & _ & Hlen).
  rewrite get_lazy_ok by lia. destruct (Ha j (HD j Hj)) as [_ ->].
  unfold L. by rewrite E.
Qed.

Lemma locM_set_tree c j x : locM c (set_tree j x).
Proof.
  intros D HD st st2 u st' tr [Hs Ha] E. destruct u.
  destruct (set_tree_ok st j x) as (st1 & E1 & S1 & T1 & L1).
  { apply set_tree_inv in E as (v & E & _). by apply vset_Some_in in E as [? _]. }
  rewrite E1 in E. injection E as <- <-.
  destruct (set_tree_ok st2 j x) as (st1' & E1' & S1' & T1' & L1').
  { destruct Hs as (_ & Hlen & _). apply set_tree_inv in E1 as (v & E & _).
    apply vset_Some_in in E as [? _]. lia. }
  exists st1', []. split; [done|]. split.
  - destruct Hs as (? & ? & ?), S1 as (? & ? & ?), S1' as (? & ? & ?).
    repeat split; congruence.
  - intros k Hk. rewrite T1, T1', L1, L1'. destruct (Ha k Hk) as [-> ->]. done.
Qed.

Lemma locM_set_lazy c j x : locM c (set_lazy j x).
Proof.
  intros D HD st st2 u st' tr [Hs Ha] E. destruct u.
  destruct (set_lazy_ok st j x) as (st1 & E1 & S1 & L1 & T1).
  { apply set_lazy_inv in E as (v & E & _). by apply vset_Some_in in E as [? _]. }
  rewrite E1 in E. injection E as <- <-.
  destruct (set_lazy_ok st2 j x) as (st1' & E1' & S1' & L1' & T1').
  { destruct Hs as (_ & _ & Hlen). apply set_lazy_inv in E1 as (v & E & _).
    apply vset_Some_in in E as [? _]. lia. }
  exists st1', []. split; [done|]. split.
  - destruct Hs as (? & ? & ?), S1 as (? & ? & ?), S1' as (? & ? & ?).
    repeat split; congruence.
  - intros k Hk. rewrite T1, T1', L1, L1'. destruct (Ha k Hk) as [-> ->]. done.
Qed.

Lemma locM_pushed c i s e : locM c (pushed i s e).
Proof.
  intros D HD st st2 x st' tr Ha E. unfold pushed in *. injection E as E0 E1 E2.
  subst x st' tr.
  by eexists st2, _.
Qed.

Lemma locM_child_l {A} c (m : M A) : locM (2 * c) m -> locM c m.
Proof. intros H D HD. apply H. intros j Hj. by apply HD, desc_child_l. Qed.

Lemma locM_child_r {A} c (m : M A) : locM (2 * c + 1) m -> locM c m.
Proof. intros H D HD. apply H. intros j Hj. by apply HD, desc_child_r. Qed.

Lemma locM_updateLazy c s e : locM c (Unbounded.updateLazy c s e).
Proof.
  unfold Unbounded.updateLazy.
  assert (desc c (2 * c)) as Hl by apply desc_left, desc_refl.
  assert (desc c (2 * c + 1)) as Hr by apply desc_right, desc_refl.
  apply locM_bind; [apply locM_get_lazy, desc_refl|intros lz0].
  apply locM_bind; [|intros ?; apply locM_pushed].
  destruct (negb (lz0 =? 0)); [|apply locM_ret].
  apply locM_bind; [apply locM_get_tree, desc_refl|intros ?].
  apply locM_bind; [apply locM_get_lazy, desc_refl|intros ?].
  apply locM_bind; [apply locM_set_tree|intros ?].
  apply locM_bind; [|intros ?; apply locM_set_lazy].
  destruct (negb (s =? e)); [|apply locM_ret].
  apply locM_bind; [by apply locM_get_lazy|intros ?].
  apply locM_bind; [apply locM_get_lazy, desc_refl|intros ?].
  apply locM_bind; [apply locM_set_lazy|intros ?].
  apply locM_bind; [by apply locM_get_lazy|intros ?].
  apply locM_bind; [apply locM_get_lazy, desc_refl|intros ?].
  apply locM_set_lazy.
Qed.

Lemma locM_updateRange_rec l r v fuel : forall c s e,
  locM c (Unbounded.updateRange_rec fuel c s e l r v).
Proof.
  induction fuel as [|fuel IH]; intros c s e; [apply locM_fail|].
  cbn [Unbounded.updateRange_rec].
  assert (desc c (2 * c)) as Hl by apply desc_left, desc_refl.
  assert (desc c (2 * c + 1)) as Hr by apply desc_right, desc_refl.
  apply locM_bind; [apply locM_updateLazy|intros ?].
  destruct ((s >? r) || (e <? l)); [apply locM_ret|].
  destruct ((s >=? l) && (e <=? r)).
  - apply locM_bind; [apply locM_get_lazy, desc_refl|intros ?].
    apply locM_bind; [apply locM_set_lazy|intros ?]. apply locM_updateLazy.
  - apply locM_bind; [apply locM_child_l, IH|intros ?].
    apply locM_bind; [apply locM_child_r, IH|intros ?].
    apply locM_bind; [apply locM_child_l, locM_updateLazy|intros ?].
    apply locM_bind; [apply locM_child_r, locM_updateLazy|intros ?].
    apply locM_bind; [by apply locM_get_tree|intros ?].
    apply locM_bind; [by apply locM_get_tree|intros ?].
    apply locM_set_tree.
Qed.

(** ** Reading an element and writing it back *)

Lemma store_ext st st' :
  same_shape st st' -> (forall j, T st' j = T st j /\ L st' j = L st j) -> st' = st.
Proof.
  intros (Hn & Ht & Hl) H. destruct st as [ts ls nn], st' as [ts' ls' nn'].
  cbn [n tree lazy] in *. subst nn'. f_equal.
  - apply (list_eq_same_length _ _ (length ts)); [done|done|].
    intros i x y Hi Hx Hy. destruct (H (Z.of_nat i)) as [HT _].
    unfold T, vget in HT. cbn [tree] in HT.
    destruct (Z.leb_spec 0 (Z.of_nat i)); [|lia].
    by rewrite Nat2Z.id, Hx, Hy in HT.
  - apply (list_eq_same_length _ _ (length ls)); [done|done|].
    intros i x y Hi Hx Hy. destruct (H (Z.of_nat i)) as [_ HL].
    unfold L, vget in HL. cbn [lazy] in HL.
    destruct (Z.leb_spec 0 (Z.of_nat i)); [|lia].
    by rewrite Nat2Z.id, Hx, Hy in HL.
Qed.

(** [updateLazy] on a node without a pending value leaves the store. *)
Lemma updateLazy_zero st i s e :
  0 <= i < Z.of_nat (length (lazy st)) -> L st i = 0 ->
  Unbounded.updateLazy i s e st = Ok (tt, st, [mkEvent i s e st]).
Proof.
  intros Hi HL. unfold Unbounded.updateLazy.
  rewrite (bind_ok_nil _ _ _ _ _ (get_lazy_ok st i Hi)), HL. reflexivity.
Qed.

Lemma queryRange_disjoint fuel c s e l r st :
  (0 < fuel)%nat -> (s >? r) || (e <? l) = true ->
  Unbounded.queryRange fuel c s e l r st = Ok (0, st, []).
Proof. intros Hf Hd. destruct fuel as [|fuel]; [lia|]. cbn [Unbounded.queryRange]. by rewrite Hd. Qed.

Lemma updateRange_rec_disjoint fuel c s e l r v st st' tr :
  (0 < fuel)%nat -> (s >? r) || (e <? l) = true ->
  Unbounded.updateLazy c s e st = Ok (tt, st', tr) ->
  Unbounded.updateRange_rec fuel c s e l r v st = Ok (tt, st', tr ++ []).
Proof.
  intros Hf Hd E. destruct fuel as [|fuel]; [lia|]. cbn [Unbounded.updateRange_rec].
  rewrite Hd. by apply (bind_ok _ _ _ _ _ _ _ _ _ E).
Qed.

(** The slots [updateLazy(2 * i, ..)] touches lie outside the subtree of
    [2 * i + 1]. *)
Lemma desc_sibling_out i j :
  0 < i -> desc (2 * i + 1) j ->
  j <> 2 * i /\ j <> 2 * (2 * i) /\ j <> 2 * (2 * i) + 1.
Proof.
  intros Hi Hd. repeat split; intros ->.
  - apply (desc_siblings i (2 * i) Hi); [apply desc_refl|exact Hd].
  - apply (desc_siblings i (2 * (2 * i)) Hi); [apply desc_left, desc_refl|exact Hd].
  - apply (desc_siblings i (2 * (2 * i) + 1) Hi); [apply desc_right, desc_refl|exact Hd].
Qed.

(** The last three statements of [updateRange] and [updatePoint]. *)
Lemma recombine_ok st i :
  0 < i -> 2 * i + 1 < Z.of_nat (length (tree st)) ->
  exists st',
    (let* x := get_tree (2 * i) in
     let* y := get_tree (2 * i + 1) in
     set_tree i (x + y)) st = Ok (tt, st', []).
Proof.
  intros Hi Hlen.
  destruct (set_tree_ok st i (T st (2 * i) + T st (2 * i + 1))) as (st' & E & _); [lia|].
  exists st'.
  rewrite (bind_ok_nil _ _ _ _ _ (get_tree_ok st (2 * i) ltac:(lia))).
  rewrite (bind_ok_nil _ _ _ _ _ (get_tree_ok st (2 * i + 1) ltac:(lia))).
  exact E.
Qed.

(** [querySum(idx, idx)] followed by [updatePoint(idx, v + d)], where [v] is
    what the query returned, leaves the store that [updateRange(idx, idx, d)]
    leaves. *)
Lemma rmw_rec idx d fuel : forall i s e st a,
  Ideal.pre st i s e a -> s <= idx <= e -> (Z.to_nat (e - s) < fuel)%nat ->
  exists stQ trQ st2 tr2 tr3,
    Unbounded.queryRange fuel i s e idx idx st = Ok (a idx, stQ, trQ)
    /\ Unbounded.updatePoint_rec fuel i s e idx (a idx + d) stQ = Ok (tt, st2, tr2)
    /\ Unbounded.updateRange_rec fuel i s e idx idx d st = Ok (tt, st2, tr3).
Proof.
  induction fuel as [|fuel IH]; intros i s e st a Hp Hidx Hf; [lia|].
  pose proof (pre_range _ _ _ _ _ Hp) as (Hi & Hse & He).
  destruct (updateLazy_pre _ _ _ _ _ Hp) as (st1 & E1 & F1 & P1 & L1 & _).
  pose proof (Ideal.pre_wf _ _ _ _ _ P1) as (Hn1 & Ht1 & Hz1).
  pose proof (frame_n _ _ _ F1) as Hnn1.
  cbn [Unbounded.queryRange Unbounded.updatePoint_rec Unbounded.updateRange_rec].
  assert ((s >? idx) || (e <? idx) = false) as Edis by lia. rewrite Edis.
  destruct (Z.eqb_spec s e) as [<-|Hne].
  - (* a leaf *)
    assert (idx = s) as -> by lia.
    assert ((s >=? s) && (s <=? s) = true) as Ecov by lia. rewrite Ecov.
    assert (T st1 i = a s) as HT1.
    { rewrite (R_sum0 st1 i s s a); [apply range_sum_single|apply P1|done]. }
    destruct (set_tree_ok st1 i (a s + d)) as (st2 & E2 & S2 & T2 & L2); [lia|].
    destruct (set_lazy_ok st1 i (L st1 i + d)) as (stB & EB & SB & LB & TB); [lia|].
    destruct (updateLazy_spec stB i s s) as (stC & EC & SC & LC & TC & TCo & _ & LCo).
    { by eapply wf_same_shape; [|exact SB]. }
    { destruct SB as (-> & _). apply P1. }
    { lia. }
    assert (stC = st2) as ->.
    { apply store_ext.
      - destruct S2 as (? & ? & ?), SB as (? & ? & ?), SC as (? & ? & ?).
        repeat split; congruence.
      - intros j. rewrite T2, L2. destruct (Z.eqb_spec j i) as [->|Hj].
        + rewrite TC, LC, TB, LB, Z.eqb_refl, L1, HT1. split; lia.
        + rewrite (TCo j Hj), TB. rewrite (LCo j Hj) by lia. rewrite LB.
          destruct (Z.eqb_spec j i); [done|]. done. }
    eexists st1, _, st2, _, _. split; [|split].
    + eapply bind_ok; [exact E1|]. rewrite get_tree_ok by lia. by rewrite HT1.
    + eapply bind_ok; [apply updateLazy_zero; [lia|done]|]. exact E2.
    + eapply bind_ok; [exact E1|].
      rewrite (bind_ok_nil _ _ _ _ _ (get_lazy_ok st1 i ltac:(lia))).
      eapply bind_ok; [exact EB|]. exact EC.
  - (* an inner node *)
    assert (s < e) as Hlt by lia.
    assert ((s >=? idx) && (e <=? idx) = false) as Ecov by lia. rewrite Ecov.
    pose proof (mid_bounds s e ltac:(lia) Hlt) as Hm.
    pose proof (mid_halves s e ltac:(lia) Hlt) as Hh.
    pose proof (pre_left _ _ _ _ _ P1 Hlt L1) as Pl.
    pose proof (pre_right _ _ _ _ _ P1 Hlt L1) as Pr.
    assert (0 < fuel)%nat as Hfuel by lia.
    cbv zeta. destruct (Z.leb_spec idx (Z.quot (s + e) 2)) as [Hle|Hgt].
    + (* the element is on the left *)
      destruct (IH (2 * i) s (Z.quot (s + e) 2) st1 a Pl ltac:(lia) ltac:(lia))
        as (stB & trB & stC & trC & trC' & EQ & EUP & EUR).
      destruct (queryRange_spec fuel (2 * i) s (Z.quot (s + e) 2) idx idx st1 a Pl ltac:(lia))
        as (stB' & tb' & EQ' & FB & _).
      rewrite EQ in EQ'. injection EQ' as _ <- _.
      destruct (updateRange_rec_spec fuel (2 * i) s (Z.quot (s + e) 2) idx idx d st1 a Pl ltac:(lia))
        as (stC' & tc' & EUR' & FC & PC & LC & _).
      rewrite EUR in EUR'. injection EUR' as <- _.
      pose proof (frame_wf _ _ _ (Ideal.pre_wf _ _ _ _ _ P1) FB) as (HnB & HtB & HzB).
      destruct (frame_below (2 * i) st1 stB i ltac:(lia) FB ltac:(lia)) as [_ HLB].
      pose proof (frame_n _ _ _ FB) as HnnB. pose proof (frame_n _ _ _ FC) as HnnC.
      pose proof (pre_frame_l st1 stC i _ _ _ ltac:(lia) Pr FC) as PrC.
      destruct (updateLazy_pre _ _ _ _ _ PrC) as (stE & EE & FE & PE & LE & _).
      pose proof (Ideal.pre_wf _ _ _ _ _ PC) as (HnC & HtC & HzC).
      pose proof (Ideal.pre_wf _ _ _ _ _ PE) as (HnE & HtE & HzE).
      pose proof (pre_range _ _ _ _ _ PE) as (HiE & _).
      pose proof (frame_n _ _ _ FE) as HnnE.
      destruct (frame_agree_r i stC stE ltac:(lia) FE (2 * i) (desc_refl _)) as [_ HLE2].
      destruct (recombine_ok stE i ltac:(lia) ltac:(lia)) as (st2 & E2).
      eexists stB, _, st2, _, _. split; [|split].
      * eapply bind_ok; [exact E1|]. eapply bind_ok; [exact EQ|].
        eapply bind_ok; [apply queryRange_disjoint; [done|lia]|].
        unfold ret. by rewrite Z.add_0_r.
      * eapply bind_ok; [apply updateLazy_zero; [lia|congruence]|].
        eapply bind_ok; [exact EUP|].
        eapply bind_ok; [apply updateLazy_zero; [lia|done]|].
        eapply bind_ok; [exact EE|]. exact E2.
      * eapply bind_ok; [exact E1|]. eapply bind_ok; [exact EUR|].
        eapply bind_ok; [apply updateRange_rec_disjoint; [done|lia|exact EE]|].
        eapply bind_ok; [apply updateLazy_zero; [lia|congruence]|].
        eapply bind_ok; [apply updateLazy_zero; [lia|done]|]. exact E2.
    + (* the element is on the right *)
      destruct (IH (2 * i + 1) (Z.quot (s + e) 2 + 1) e st1 a Pr ltac:(lia) ltac:(lia))
        as (stB & trB & stC & trC & trC' & EQ & EUP & EUR).
      destruct (queryRange_spec fuel (2 * i + 1) (Z.quot (s + e) 2 + 1) e idx idx st1 a Pr ltac:(lia))
        as (stB' & tb' & EQ' & FB & _).
      rewrite EQ in EQ'. injection EQ' as _ <- _.
      destruct (updateRange_rec_spec fuel (2 * i + 1) (Z.quot (s + e) 2 + 1) e idx idx d st1 a Pr ltac:(lia))
        as (stC' & tc' & EUR' & FC & PC & LC & _).
      rewrite EUR in EUR'. injection EUR' as <- _.
      pose proof (frame_wf _ _ _ (Ideal.pre_wf _ _ _ _ _ P1) FB) as (HnB & HtB & HzB).
      destruct (frame_below (2 * i + 1) st1 stB i ltac:(lia) FB ltac:(lia)) as [_ HLB].
      pose proof (frame_n _ _ _ FB) as HnnB. pose proof (frame_n _ _ _ FC) as HnnC.
      pose proof (pre_range _ _ _ _ _ PC) as (HiC & _).
      (* the point update pushes the left child after the recursion *)
      pose proof (pre_frame_r st1 stC i _ _ _ ltac:(lia) Pl FC) as PlC.
      pose proof (Ideal.pre_wf _ _ _ _ _ PlC) as WC.
      destruct (updateLazy_spec stC (2 * i) s (Z.quot (s + e) 2) WC (Ideal.pre_inb _ _ _ _ _ PlC)
                  ltac:(lia)) as (stD & ED & SD & LD & TD & TDo & LDc & LDo).
      pose proof (wf_same_shape _ _ WC SD) as (HnD & HtD & HzD).
      pose proof SD as (HnnD & _).
      (* the range update pushes it before *)
      pose proof (Ideal.pre_wf _ _ _ _ _ Pl) as W1.
      destruct (updateLazy_spec st1 (2 * i) s (Z.quot (s + e) 2) W1 (Ideal.pre_inb _ _ _ _ _ Pl)
                  ltac:(lia)) as (stF & EF & SF & LF & TF & TFo & LFc & LFo).
      set (D := fun j => j <> 2 * i /\ j <> 2 * (2 * i) /\ j <> 2 * (2 * i) + 1).
      assert (agreeD D st1 stF) as HaF.
      { split; [done|]. intros j (H1 & H2 & H3). split; [by apply TFo|].
        apply LFo; [done|]. intros _. done. }
      destruct (locM_updateRange_rec idx idx d fuel (2 * i + 1) (Z.quot (s + e) 2 + 1) e D
                  (fun j Hj => desc_sibling_out i j ltac:(lia) Hj) st1 stF tt stC _ HaF EUR)
        as (stG & trG & EG & SG & HG).
      assert (stG = stD) as ->.
      { apply store_ext.
        - destruct SD as (? & ? & ?), SG as (? & ? & ?). repeat split; congruence.
        - destruct (updateRange_rec_spec fuel (2 * i + 1) (Z.quot (s + e) 2 + 1) e idx idx d stF a)
            as (stG' & tg' & EG' & FG & _).
          { apply (pre_frame_l st1); [lia|done|]. split; [done|].
            intros j Hj. split; [apply TFo|apply LFo].
            - intros ->. apply Hj, desc_refl.
            - intros ->. apply Hj, desc_refl.
            - intros _. split; intros ->; apply Hj;
                [apply desc_left, desc_refl|apply desc_right, desc_refl]. }
          { lia. }
          rewrite EG in EG'. injection EG' as <- _.
          assert (forall j, j = 2 * i \/ j = 2 * (2 * i) \/ j = 2 * (2 * i) + 1 ->
                    (T stG j = T stF j /\ L stG j = L stF j)
                    /\ (T stC j = T st1 j /\ L stC j = L st1 j)) as Hout.
          { intros j Hj. split.
            - apply FG. intros Hd. destruct (desc_sibling_out i j ltac:(lia) Hd). lia.
            - apply FC. intros Hd. destruct (desc_sibling_out i j ltac:(lia) Hd). lia. }
          intros j.
          destruct (Z.eq_dec j (2 * i)) as [->|H1].
          { destruct (Hout (2 * i) ltac:(lia)) as [[-> ->] [HT HL]].
            rewrite TD, LD, TF, LF, HT, HL. done. }
          destruct (Z.eq_dec j (2 * (2 * i))) as [->|H2].
          { destruct (Hout (2 * (2 * i)) ltac:(lia)) as [[-> ->] [HT HL]].
            destruct (Hout (2 * i) ltac:(lia)) as [_ [_ HL']].
            rewrite (TDo _ H1), (TFo _ H1), HT. split; [done|].
            destruct (Z_lt_le_dec s (Z.quot (s + e) 2)) as [Hc|Hc].
            - destruct (LDc Hc) as [-> _], (LFc Hc) as [-> _]. by rewrite HL, HL'.
            - rewrite (LDo _ H1) by lia. rewrite (LFo _ H1) by lia. done. }
          destruct (Z.eq_dec j (2 * (2 * i) + 1)) as [->|H3].
          { destruct (Hout (2 * (2 * i) + 1) ltac:(lia)) as [[-> ->] [HT HL]].
            destruct (Hout (2 * i) ltac:(lia)) as [_ [_ HL']].
            rewrite (TDo _ H1), (TFo _ H1), HT. split; [done|].
            destruct (Z_lt_le_dec s (Z.quot (s + e) 2)) as [Hc|Hc].
            - destruct (LDc Hc) as [_ ->], (LFc Hc) as [_ ->]. by rewrite HL, HL'.
            - rewrite (LDo _ H1) by lia. rewrite (LFo _ H1) by lia. done. }
          destruct (HG j ltac:(done)) as [-> ->].
          rewrite (TDo _ H1). rewrite (LDo _ H1) by done. done. }
      pose proof (Ideal.pre_wf _ _ _ _ _ PC) as (HnC & HtC & HzC).
      assert (L stD (2 * i + 1) = 0) as LD1.
      { rewrite (LDo (2 * i + 1)) by lia. done. }
      destruct (recombine_ok stD i ltac:(lia) ltac:(lia)) as (st2 & E2).
      eexists stB, _, st2, _, _. split; [|split].
      * eapply bind_ok; [exact E1|].
        eapply bind_ok; [apply queryRange_disjoint; [done|lia]|].
        eapply bind_ok; [exact EQ|]. unfold ret. by rewrite Z.add_0_l.
      * eapply bind_ok; [apply updateLazy_zero; [lia|congruence]|].
        eapply bind_ok; [exact EUP|].
        eapply bind_ok; [exact ED|].
        eapply bind_ok; [apply updateLazy_zero; [lia|done]|]. exact E2.
      * eapply bind_ok; [exact E1|].
        eapply bind_ok; [apply updateRange_rec_disjoint; [done|lia|exact EF]|].
        eapply bind_ok; [exact EG|].
        eapply bind_ok; [apply updateLazy_zero; [lia|done]|].
        eapply bind_ok; [apply updateLazy_zero; [lia|done]|]. exact E2.
Qed.

Lemma rmw_same_store_Z fuel st a idx d :
  Ideal.Rep st a -> 0 <= idx <= n st - 1 -> (Z.to_nat (n st) <= fuel)%nat ->
  exists stQ trQ st2 tr2 tr3,
    Unbounded.querySum fuel idx idx st = Ok (a idx, stQ, trQ)
    /\ Unbounded.updatePoint fuel idx (a idx + d) stQ = Ok (tt, st2, tr2)
    /\ Unbounded.updateRange fuel idx idx d st = Ok (tt, st2, tr3).
Proof.
  intros Ha Hidx Hf. pose proof (pre_range _ _ _ _ _ Ha) as (_ & Hn & _).
  destruct (rmw_rec idx d fuel 1 0 (n st - 1) st a Ha Hidx ltac:(lia))
    as (stQ & trQ & st2 & tr2 & tr3 & EQ & EUP & EUR).
  destruct (queryRange_spec fuel 1 0 (n st - 1) idx idx st a Ha ltac:(lia))
    as (stQ' & tq' & EQ' & FQ & _).
  rewrite EQ in EQ'. injection EQ' as _ <- _. pose proof (frame_n _ _ _ FQ) as HnQ.
  exists stQ, trQ, st2, tr2, tr3.
  unfold Unbounded.querySum, Unbounded.updatePoint, Unbounded.updateRange.
  rewrite !bind_get_n, HnQ. done.
Qed.

(** On the program of Part I. *)
Lemma rmw_same_store fuel m a idx d :
  held m a -> 0 <= idx <= n m - 1 -> (Z.to_nat (n m) <= fuel)%nat ->
  exists mQ tq m2 t2 t3,
    querySum fuel idx idx m = Ok (wrap (a idx), mQ, tq)
    /\ updatePoint fuel idx (wrap (a idx) +' d) mQ = Ok (tt, m2, t2)
    /\ updateRange fuel idx idx d m = Ok (tt, m2, t3).
Proof.
  intros (u & Hs & (Ha & _) & Hsz) Hidx Hf. pose proof Hs as (Hn & _). rewrite Hn in *.
  pose proof (pre_range _ _ _ _ _ Ha) as (_ & Hn1 & _).
  destruct (rmw_same_store_Z fuel u a idx d Ha Hidx Hf)
    as (uQ & trQ & u2 & tr2 & tr3 & EQ & EUP & EUR).
  destruct (sim_querySum (n u) Hsz ltac:(lia) fuel idx idx u m _ uQ trQ Hs eq_refl EQ)
    as (y & mQ & tq & EmQ & -> & HsQ & HnQ & _).
  destruct (sim_updatePoint (n u) Hsz ltac:(lia) fuel idx (a idx + d) (wrap (a idx) +' d)
              ltac:(by rewrite wrap_add_l) uQ mQ tt u2 tr2 HsQ HnQ EUP)
    as ([] & m2 & t2 & Em2 & _ & Hs2 & _).
  destruct (sim_updateRange (n u) Hsz ltac:(lia) fuel idx idx d u m tt u2 tr3 Hs eq_refl EUR)
    as ([] & m3 & t3 & Em3 & _ & Hs3 & _).
  rewrite (sim_fun u2 m2 m3 Hs2 Hs3) in Em3.
  by exists mQ, tq, m2, t2, t3.
Qed.

Section Depth.

Variable T_max : Z.

(** X10 (the recursive member functions, lines 56-131).  The nesting of
    the recursive calls of [updateRange], [querySum], [updatePoint] and
    [queryMin] is logarithmic in [n]: on every reachable tree each of them
    returns within [1 + ceil(log2 n)] nested calls, and a larger bound
    changes neither the result nor the tree nor the history. *)
Theorem X10_logarithmic_depth st o :
  reachable T_max st -> int_args o -> o <> GetCurrentArray -> o <> PrintTree ->
  exists x st' tr,
    exec T_max (depth (n st)) o st = Ok (x, st', tr)
    /\ forall fuel, (depth (n st) <= fuel)%nat ->
         exec T_max fuel o st = Ok (x, st', tr).
Proof.
  intros Hre Hint Hg Hp. destruct (reachable_held T_max st Hre) as [a (u & Hs & Hst & Hsz)].
  pose proof Hs as (Hn & _). pose proof Hst as (Ha & _).
  pose proof (Ideal.pre_wf _ _ _ _ _ Ha) as (Hn1 & _). rewrite Hn in *.
  pose proof (depth_fits (n u) Hn1) as Hfit.
  set (F := Nat.max (depth (n u)) (Z.to_nat (n u))).
  assert (exists x st' tr, exec T_max (depth (n u)) o st = Ok (x, st', tr))
    as (x & st' & tr & E).
  { destruct o as [l r v|l r|idx v|l r| |]; [| | | |done|done]; cbn [exec].
    - destruct (updateRange_spec F l r v u a Ha ltac:(lia)) as (u' & tru & E & _).
      assert (Unbounded.updateRange (depth (n u)) l r v u = Ok (tt, u', tru)) as Ed.
      { rewrite <- E. unfold Unbounded.updateRange, depth. rewrite !bind_get_n.
        apply updateRange_rec_depth; [lia|done|unfold F, depth; lia]. }
      destruct (sim_updateRange (n u) Hsz Hn1 (depth (n u)) l r v u st tt u' tru Hs eq_refl Ed)
        as ([] & m' & trm & Em & _).
      eexists _, m', trm. exact (bind_ret_ok _ (fun _ => RUnit) _ _ _ _ Em).
    - destruct (querySum_spec F l r u a Ha ltac:(lia)) as (u' & tru & E & _).
      assert (Unbounded.querySum (depth (n u)) l r u
              = Ok (range_sum (restrict l r a) 0 (n u - 1), u', tru)) as Ed.
      { rewrite <- E. unfold Unbounded.querySum, depth. rewrite !bind_get_n.
        apply queryRange_depth; [lia|done|unfold F, depth; lia]. }
      destruct (sim_querySum (n u) Hsz Hn1 (depth (n u)) l r u st _ u' tru Hs eq_refl Ed)
        as (y & m' & trm & Em & _).
      eexists _, m', trm. exact (bind_ret_ok _ RValue _ _ _ _ Em).
    - destruct (updatePoint_spec F idx v u a Ha ltac:(lia)) as (u' & tru & E & _).
      assert (Unbounded.updatePoint (depth (n u)) idx v u = Ok (tt, u', tru)) as Ed.
      { rewrite <- E. unfold Unbounded.updatePoint, depth. rewrite !bind_get_n.
        apply updatePoint_rec_depth; [lia|done|unfold F, depth; lia]. }
      destruct (sim_updatePoint (n u) Hsz Hn1 (depth (n u)) idx v v (eq_sym (wrap_small v Hint))
                  u st tt u' tru Hs eq_refl Ed)
        as ([] & m' & trm & Em & _).
      eexists _, m', trm. exact (bind_ret_ok _ (fun _ => RUnit) _ _ _ _ Em).
    - destruct (queryMin_spec T_max wrap F l r u a Ha ltac:(lia)) as (u' & tru & E & _).
      assert (Unbounded.queryMin T_max wrap (depth (n u)) l r u
              = Ok (cover_min T_max wrap F a 0 (n u - 1) l r, u', tru)) as Ed.
      { rewrite <- E. unfold Unbounded.queryMin, depth. rewrite !bind_get_n.
        apply queryMin_rec_depth; [lia|done|unfold F, depth; lia]. }
      destruct (sim_queryMin (n u) Hsz Hn1 T_max (depth (n u)) l r u st _ u' tru Hs eq_refl Ed)
        as (y & m' & trm & Em & _).
      eexists _, m', trm. exact (bind_ret_ok _ RValue _ _ _ _ Em). }
  exists x, st', tr. split; [done|]. intros fuel Hfuel.
  by apply (exec_more T_max (depth (n u)) fuel o Hfuel).
Qed.

(** X12 ([updateRange], lines 56-75).  An addition that covers a tree of
    two or more elements is deferred: the call returns without a recursive
    call, adds [delta * n] to [tree[1]] and [delta] to the pending values
    [lazy[2]] and [lazy[3]] of the two children of the root, all three as
    [int]s, and changes no other slot of [tree] or [lazy]. *)
Theorem X12_full_range_update_is_deferred st l r delta :
  reachable T_max st -> 2 <= n st -> l <= 0 -> n st - 1 <= r ->
  exists st' tr,
    updateRange 1 l r delta st = Ok (tt, st', tr)
    /\ T st' 1 = wrap (T st 1 + delta * n st)
    /\ L st' 2 = wrap (L st 2 + delta) /\ L st' 3 = wrap (L st 3 + delta)
    /\ (forall j, j <> 1 -> T st' j = T st j)
    /\ (forall j, j <> 2 -> j <> 3 -> L st' j = L st j).
Proof.
  intros Hre Hn2 Hl Hr. destruct (reachable_held T_max st Hre) as [a (u & Hs & Hst & Hsz)].
  pose proof Hs as (Hn & _). rewrite Hn in *.
  destruct (full_range_update_Z u a l r delta Hst Hn2 Hl Hr)
    as (u' & tru & E & HT1 & HL2 & HL3 & HTo & HLo).
  destruct (sim_updateRange (n u) Hsz ltac:(lia) 1 l r delta u st tt u' tru Hs eq_refl E)
    as ([] & m' & trm & Em & _ & Hs' & _).
  exists m', trm. split; [done|].
  rewrite !(sim_T u' m' _ Hs'), !(sim_L u' m' _ Hs'), !(sim_T u st _ Hs), !(sim_L u st _ Hs).
  rewrite HT1, HL2, HL3, !wrap_add_l. do 3 (split; [done|]). split.
  - intros j Hj. by rewrite (sim_T u' m' _ Hs'), (sim_T u st _ Hs), HTo.
  - intros j Hj2 Hj3. by rewrite (sim_L u' m' _ Hs'), (sim_L u st _ Hs), HLo.
Qed.

(** X13 ([querySum] and [updatePoint] as [advancedUseCases] combines them,
    line 361).  Reading an element with [querySum(idx, idx)] and writing it
    back increased by [d] with [updatePoint] leaves the very store that
    [updateRange(idx, idx, d)] leaves, so that every following sequence of
    calls, [printTree] among them, gives the same after either. *)
Theorem X13_read_modify_write fuel st idx d ops :
  reachable T_max st -> (Z.to_nat (n st) <= fuel)%nat -> 0 <= idx <= n st - 1 ->
  is_int d -> Forall int_args ops ->
  exists v rs st',
    value_of (querySum fuel idx idx st) = Ok v
    /\ state_of ((let* x := querySum fuel idx idx in
                  updatePoint fuel idx (x +' d)) st) = Ok st'
    /\ state_of (updateRange fuel idx idx d st) = Ok st'
    /\ value_of (run T_max fuel (QuerySum idx idx :: UpdatePoint idx (v +' d) :: ops) st)
       = Ok (RValue v :: RUnit :: rs)
    /\ value_of (run T_max fuel (UpdateRange idx idx d :: ops) st) = Ok (RUnit :: rs).
Proof.
  intros Hre Hf Hidx Hd Hint. destruct (reachable_held T_max st Hre) as [a Hh].
  destruct (rmw_same_store fuel st a idx d Hh Hidx Hf)
    as (mQ & tq & m2 & t2 & t3 & EQ & EUP & EUR).
  destruct (updateRange_held fuel idx idx d st a Hh Hd Hf) as (m3 & t3' & E3 & Hn3 & Hh3 & _).
  rewrite EUR in E3. injection E3 as <- _.
  destruct (run_total T_max fuel ops m2 _ Hh3 Hint ltac:(lia)) as (rs & m' & tr & Er & _).
  exists (wrap (a idx)), rs, m2. split; [by rewrite EQ|]. split.
  { unfold bind. rewrite EQ, EUP. done. }
  split; [by rewrite EUR|]. split.
  - erewrite (run_cons_ok T_max fuel (QuerySum idx idx)); [reflexivity| |].
    + cbn [exec]. exact (bind_ret_ok _ RValue _ _ _ _ EQ).
    + eapply (run_cons_ok T_max fuel (UpdatePoint idx (wrap (a idx) +' d))); [|exact Er].
      cbn [exec]. exact (bind_ret_ok _ (fun _ => RUnit) _ _ _ _ EUP).
  - erewrite (run_cons_ok T_max fuel (UpdateRange idx idx d)); [reflexivity| |exact Er].
    cbn [exec]. exact (bind_ret_ok _ (fun _ => RUnit) _ _ _ _ EUR).
Qed.

(** X14 ([printTree], lines 172-178).  On every reachable tree [printTree]
    returns without reading outside [tree] and without changing the tree.
    It writes [tree[1]], [tree[2]], ... up to, and without, the first slot
    that holds [0] (or up to slot [4 * n - 1]), so no written value is [0];
    in particular it writes nothing exactly when the current elements sum to
    [0] as an [int], whatever the other nodes hold. *)
Theorem X14_printTree_stops_at_zero count st :
  reachable T_max st -> (Z.to_nat (4 * n st) <= count)%nat ->
  exists out,
    printTree count st = Ok (out, st, [])
    /\ Z.of_nat (length out) <= 4 * n st - 1
    /\ (forall k, 0 <= k < Z.of_nat (length out) ->
          vget out k = vget (tree st) (k + 1) /\ vget out k <> Some 0)
    /\ (Z.of_nat (length out) < 4 * n st - 1 ->
          vget (tree st) (Z.of_nat (length out) + 1) = Some 0)
    /\ (out = [] <-> wrap (range_sum (elems st) 0 (n st - 1)) = 0).
Proof.
  intros Hr Hc. destruct (reachable_held T_max st Hr) as [a Hh].
  destruct (held_shape st a Hh) as (Hn & Hsz & Hlen & _).
  destruct (held_root st a Hh) as (_ & _ & _ & Hroot).
  rewrite <- (wrap_range_sum_elems st a 0 (n st - 1) Hh) in Hroot by lia.
  destruct (printTree_loop_spec st count 1 [] Hlen Hsz ltac:(lia) ltac:(lia) ltac:(lia))
    as (out & E & Hb & Hk & Hz).
  exists out. split; [exact E|]. split; [lia|]. split; [|split].
  - intros k Hk'. destruct (Hk k Hk') as [Hv Hn0].
    rewrite Hv, (vget_in (tree st) (k + 1)) by lia.
    replace (1 + k) with (k + 1) in * by lia. split; [done|].
    intros [= H0]. apply Hn0. exact H0.
  - intros Hlt. rewrite (vget_in (tree st) (Z.of_nat (length out) + 1)) by lia.
    f_equal. replace (Z.of_nat (length out) + 1) with (1 + Z.of_nat (length out)) by lia.
    apply Hz. lia.
  - rewrite <- Hroot. split.
    + intros ->. cbn in Hz. apply Hz. lia.
    + intros H0. destruct out as [|x out]; [done|].
      destruct (Hk 0 ltac:(cbn; lia)) as [_ Hn0]. by rewrite Z.add_0_r in Hn0.
Qed.

End Depth.

(** X11 (the constructor and [build], lines 32-41 and 135-140).  The
    nesting of the calls of [build] is logarithmic: on every non-empty
    sequence of [int]s whose size [4 * n] is an [int] the constructor
    returns within [1 + ceil(log2 n)] nested calls, and a larger bound gives
    the same tree. *)
Theorem X11_constructor_depth arr :
  arr <> [] -> Forall is_int arr -> 4 * Z.of_nat (length arr) <= int_max ->
  exists st,
    AdvancedSegmentTree (depth (Z.of_nat (length arr))) arr = Ok (st, [])
    /\ forall fuel, (depth (Z.of_nat (length arr)) <= fuel)%nat ->
         AdvancedSegmentTree fuel arr = Ok (st, []).
Proof.
  intros Hne Hint Hsz.
  assert (1 <= Z.of_nat (length arr)) as Hlen by (destruct arr; [done|cbn; lia]).
  pose proof (depth_fits _ Hlen) as Hfit.
  set (F := Nat.max (depth (Z.of_nat (length arr))) (length arr)).
  destruct (constructor_full arr F Hne ltac:(lia)) as (u & E & _).
  assert (Unbounded.AdvancedSegmentTree (depth (Z.of_nat (length arr))) arr = Ok (u, [])) as Ed.
  { rewrite <- E. unfold Unbounded.AdvancedSegmentTree, depth. cbv zeta.
    rewrite (build_depth arr _ F) by (done || unfold F, depth; lia). done. }
  destruct (sim_constructor _ arr u [] Hne Hint Hsz Ed) as (m & trm & Em & _ & _ & Ht).
  apply Forall2_nil_inv_l in Ht as ->.
  exists m. split; [done|]. intros fuel Hfuel.
  by apply (constructor_more _ fuel arr _ Hfuel).
Qed.

(** ** Further properties of the binary indexed tree *)

Lemma sim_B u m i : sim_bit u m -> B m i = wrap (B u i).
Proof.
  intros (_ & Hb). unfold B. rewrite Hb, vget_fmap.
  by destruct (vget (Fenwick.bit u) i).
Qed.

(** The vector of a tree that holds [a]. *)
Lemma held_bit_slots m a :
  held_bit m a ->
  0 <= Fenwick.n m < 2 ^ 30
  /\ Z.of_nat (length (Fenwick.bit m)) = Fenwick.n m + 1
  /\ B m 0 = 0
  /\ forall i, 1 <= i <= Fenwick.n m ->
       B m i = wrap (range_sum a (i - lowbit i) (i - 1)).
Proof.
  intros (u & Hs & Hh & Hlt). pose proof Hs as (Hn & Hb).
  destruct (holds_BInv u a Hh) as [Hn0 Hlen Hslot].
  split; [lia|]. split; [rewrite Hb, length_fmap; lia|].
  split; [by rewrite (sim_B u m 0 Hs), (holds_slot0 u a Hh)|].
  intros i Hi. rewrite (sim_B u m i Hs), Hslot by lia. done.
Qed.

Lemma held_bit_unique m m' a a' :
  held_bit m a -> held_bit m' a' -> Fenwick.n m' = Fenwick.n m ->
  (forall k, 0 <= k < Fenwick.n m -> wrap (a k) = wrap (a' k)) -> m' = m.
Proof.
  intros Hh Hh' En Hext.
  destruct (held_bit_slots m a Hh) as (Hn & Hl & H0 & Hs).
  destruct (held_bit_slots m' a' Hh') as (Hn' & Hl' & H0' & Hs').
  destruct m as [bs nn], m' as [bs' nn']. cbn [Fenwick.n Fenwick.bit] in *. subst nn'. f_equal.
  apply (list_eq_same_length _ _ (Z.to_nat (nn + 1))); [lia|lia|].
  intros i x y Hi Hx Hy.
  assert (B (Fenwick.mk bs' nn) (Z.of_nat i) = x) as <-.
  { unfold B, vget. cbn. destruct (Z.leb_spec 0 (Z.of_nat i)); [|lia]. by rewrite Nat2Z.id, Hx. }
  assert (B (Fenwick.mk bs nn) (Z.of_nat i) = y) as <-.
  { unfold B, vget. cbn. destruct (Z.leb_spec 0 (Z.of_nat i)); [|lia]. by rewrite Nat2Z.id, Hy. }
  destruct i as [|i]; [change (Z.of_nat 0) with 0; by rewrite H0, H0'|].
  rewrite Hs, Hs' by (cbn; lia).
  pose proof (lowbit_bound (Z.of_nat (S i)) ltac:(lia)).
  apply range_sum_cong. intros k Hk. symmetry. apply Hext. cbn. lia.
Qed.

Lemma query_loop_more f : forall f' j sum st x,
  (f <= f')%nat -> Fenwick.query_loop f j sum st = Ok x ->
  Fenwick.query_loop f' j sum st = Ok x.
Proof.
  induction f as [|f IH]; intros f' j sum st x Hf; [done|].
  destruct f' as [|f']; [lia|]. cbn [Fenwick.query_loop].
  destruct (j >? 0); [|done].
  destruct (vget (Fenwick.bit st) j) as [y|]; [|done].
  apply IH. lia.
Qed.

Lemma update_loop_stays fuel v : forall st,
  0 <= Fenwick.n st -> 0 < Z.of_nat (length (Fenwick.bit st)) ->
  Fenwick.update_loop fuel 0 v st = Err OutOfFuel.
Proof.
  induction fuel as [|fuel IH]; intros st Hn Hlen; [done|].
  cbn [Fenwick.update_loop]. destruct (Z.leb_spec 0 (Fenwick.n st)); [|lia].
  rewrite vget_in by lia. rewrite vset_in by lia.
  change (0 +' Z.land 0 (wrap (- 0))) with 0.
  apply IH; cbn; [done|]. rewrite length_insert. done.
Qed.


(** X15 (the constructor of [BinaryIndexedTree], lines 189-195).  The
    constructor returns a tree for every sequence of fewer than [2 ^ 30]
    [int]s, the empty one included: [n] is the length, [bit] has [n + 1]
    slots, slot [0] holds [0], and [query(idx)] on the new tree is the sum
    of the first [idx + 1] elements of the sequence, as an [int]. *)
Theorem X15_bit_constructor_total arr :
  Forall is_int arr -> Z.of_nat (length arr) < 2 ^ 30 ->
  exists st,
    Fenwick.BinaryIndexedTree (S (length arr)) (S (length arr)) arr = Ok st
    /\ Fenwick.n st = Z.of_nat (length arr)
    /\ length (Fenwick.bit st) = S (length arr)
    /\ vget (Fenwick.bit st) 0 = Some 0
    /\ forall idx, 0 <= idx < Z.of_nat (length arr) ->
         Fenwick.query (S (length arr)) idx st
         = Ok (wrap (list_sum (take (Z.to_nat (idx + 1)) arr))).
Proof.
  intros Hint Hlt.
  destruct (constructor_bit_held arr (S (length arr)) (S (length arr)) Hint Hlt)
    as (st & E & Hn & Hh); [lia|lia|].
  destruct (held_bit_slots st _ Hh) as (_ & Hlen & H0 & _).
  exists st. split; [done|]. split; [done|]. split; [lia|]. split.
  - rewrite vget_in by lia. by f_equal.
  - intros idx Hidx. rewrite (query_held _ idx st (at_index arr)) by (done || lia).
    do 2 f_equal. by apply prefix_sum_take.
Qed.

(** X16 ([update], lines 197-201).  [update] checks no index.  With
    [idx = -1] the loop starts at slot [0], where [idx & -idx] is [0]: it
    never ends, whatever the bound.  With [idx < -1] the first iteration
    indexes [bit] below slot [0].  With [n <= idx < INT_MAX] the loop body
    is not entered and the tree is returned unchanged.  With
    [idx = INT_MAX] the [++idx] wraps around to the least [int] and the
    first iteration indexes [bit] below slot [0]. *)
Theorem X16_bit_update_outside st a v :
  holds st a ->
  (forall fuel, Fenwick.update fuel (-1) v st = Err OutOfFuel)
  /\ (forall fuel idx, int_min <= idx < -1 ->
        Fenwick.update (S fuel) idx v st = Err OutOfBounds)
  /\ (forall fuel idx, Fenwick.n st <= idx < int_max ->
        Fenwick.update (S fuel) idx v st = Ok st)
  /\ (forall fuel, Fenwick.update (S fuel) int_max v st = Err OutOfBounds).
Proof.
  intros Hh. destruct (held_bit_slots st a (holds_held st a Hh)) as (Hn & Hlen & _).
  change (2 ^ 30) with 1073741824 in Hn. split; [|split; [|split]].
  - intros fuel. unfold Fenwick.update. change (-1 +' 1) with 0.
    apply update_loop_stays; lia.
  - intros fuel idx Hidx. unfold Fenwick.update.
    rewrite (wrap_small (idx + 1)) by (unfold is_int, int_min, int_max in *; lia).
    cbn [Fenwick.update_loop].
    destruct (Z.leb_spec (idx + 1) (Fenwick.n st)); [|lia].
    unfold vget. destruct (Z.leb_spec 0 (idx + 1)); [lia|done].
  - intros fuel idx Hidx. unfold Fenwick.update.
    rewrite (wrap_small (idx + 1)) by (unfold is_int, int_min, int_max in *; lia).
    cbn [Fenwick.update_loop].
    destruct (Z.leb_spec (idx + 1) (Fenwick.n st)); [lia|done].
  - intros fuel. unfold Fenwick.update. change (int_max +' 1) with (-2147483648).
    cbn [Fenwick.update_loop].
    destruct (Z.leb_spec (-2147483648) (Fenwick.n st)); [|lia]. done.
Qed.

(** X17 ([query], lines 203-209).  [query] checks no index.  With a
    negative [idx] the loop body is not entered and the result is [0]; with
    [n <= idx < INT_MAX] the first iteration reads [bit[idx + 1]], past the
    last slot; with [idx = INT_MAX] the [++idx] wraps around to the least
    [int], the loop body is not entered and the result is [0]. *)
Theorem X17_bit_query_outside st a :
  holds st a ->
  (forall fuel idx, int_min <= idx < 0 -> Fenwick.query (S fuel) idx st = Ok 0)
  /\ (forall fuel idx, Fenwick.n st <= idx < int_max ->
        Fenwick.query (S fuel) idx st = Err OutOfBounds)
  /\ (forall fuel, Fenwick.query (S fuel) int_max st = Ok 0).
Proof.
  intros Hh. destruct (held_bit_slots st a (holds_held st a Hh)) as (Hn & Hlen & _).
  change (2 ^ 30) with 1073741824 in Hn. split; [|split].
  - intros fuel idx Hidx. unfold Fenwick.query.
    rewrite (wrap_small (idx + 1)) by (unfold is_int, int_min, int_max in *; lia).
    cbn [Fenwick.query_loop].
    destruct (Z.gtb_spec (idx + 1) 0); [lia|done].
  - intros fuel idx Hidx. unfold Fenwick.query.
    rewrite (wrap_small (idx + 1)) by (unfold is_int, int_min, int_max in *; lia).
    cbn [Fenwick.query_loop].
    destruct (Z.gtb_spec (idx + 1) 0); [|lia].
    unfold vget. destruct (Z.leb_spec 0 (idx + 1)); [|lia].
    rewrite lookup_ge_None_2 by lia. done.
  - intros fuel. reflexivity.
Qed.

(** X18 ([rangeQuery], lines 211-213).  [rangeQuery] does not compare [l]
    with [r]: for an inverted range, [r < l], inside the tree it returns the
    negated sum of the elements strictly between them, [r + 1 .. l - 1], as
    an [int], which is [0] for [l = r + 1]. *)
Theorem X18_bit_rangeQuery_inverted fuel st a l r :
  holds st a -> (Z.to_nat (Fenwick.n st) < fuel)%nat ->
  0 <= r < Fenwick.n st -> r + 1 <= l <= Fenwick.n st ->
  Fenwick.rangeQuery fuel l r st = Ok (wrap (- range_sum a (r + 1) (l - 1))).
Proof.
  intros Hh Hf Hr Hl. pose proof (holds_held st a Hh) as Hb.
  destruct (held_bit_slots st a Hb) as (Hn & _).
  change (2 ^ 30) with 1073741824 in Hn.
  unfold Fenwick.rangeQuery. rewrite (query_held fuel r st a) by (done || lia).
  destruct (Z.gtb_spec l 0); [|lia].
  rewrite (wrap_small (l - 1)) by (unfold is_int, int_min, int_max; lia).
  rewrite (query_held fuel (l - 1) st a) by (done || lia). f_equal.
  rewrite wrap_sub_l, wrap_sub_r. f_equal.
  rewrite (range_sum_split a 0 r (l - 1)) by lia. lia.
Qed.

(** X19 (the constructor and [update], lines 189-201).  The vector [bit] is
    a function of the sequence the tree holds: slot [0] holds [0], slot [i]
    holds the sum of the [i & -i] elements that end at element [i - 1], as
    an [int], and so two trees of the same size, obtained by any
    constructions and updates, whose sequences agree as [int]s on
    [0 .. n - 1] are equal, slot by slot. *)
Theorem X19_bit_canonical st st' a a' :
  holds st a -> holds st' a' -> Fenwick.n st' = Fenwick.n st ->
  (forall k, 0 <= k < Fenwick.n st -> wrap (a k) = wrap (a' k)) ->
  vget (Fenwick.bit st) 0 = Some 0
  /\ (forall i, 1 <= i <= Fenwick.n st ->
        vget (Fenwick.bit st) i = Some (wrap (range_sum a (i - lowbit i) (i - 1))))
  /\ st' = st.
Proof.
  intros Hh Hh' Hn Hext. pose proof (holds_held st a Hh) as Hb.
  destruct (held_bit_slots st a Hb) as (Hn0 & Hlen & H0 & Hslot).
  split; [|split].
  - rewrite vget_in by lia. by f_equal.
  - intros i Hi. rewrite vget_in by lia. f_equal. by apply Hslot.
  - apply (held_bit_unique st st' a a'); [done|by apply holds_held|done|done].
Qed.

(** X20 ([update], lines 197-201).  [update(idx, delta)] followed by
    [update(idx, - delta)] gives back the tree it started from, for every
    index from [0] to [INT_MAX - 1]. *)
Theorem X20_bit_update_undo fuel st a idx delta :
  holds st a -> 0 <= idx < int_max -> is_int delta ->
  (Z.to_nat (Fenwick.n st) < fuel)%nat ->
  exists st1,
    Fenwick.update fuel idx delta st = Ok st1
    /\ Fenwick.update fuel idx (wrap (- delta)) st1 = Ok st.
Proof.
  intros Hh Hidx Hd Hf. pose proof (holds_held st a Hh) as Hb.
  destruct (update_held fuel idx delta st a Hb Hidx ltac:(lia)) as (st1 & E1 & Hn1 & Hb1).
  destruct (update_held fuel idx (wrap (- delta)) st1 _ Hb1 Hidx ltac:(lia))
    as (st2 & E2 & Hn2 & Hb2).
  exists st1. split; [done|]. rewrite E2. f_equal.
  apply (held_bit_unique st st2 a _ Hb Hb2); [lia|].
  intros k Hk. unfold range_add. destruct ((idx <=? k) && (k <=? idx)); [|done].
  rewrite wrap_add_r. f_equal. lia.
Qed.

(** X21 ([update], lines 197-201).  Two updates give the same tree in
    either order, and two updates of the same index give the tree of one
    update by the sum of the deltas, an [int]. *)
Theorem X21_bit_updates_merge_and_commute fuel st a i j d1 d2 :
  holds st a -> 0 <= i < int_max -> 0 <= j < int_max -> is_int d1 -> is_int d2 ->
  (Z.to_nat (Fenwick.n st) < fuel)%nat ->
  exists s1 s2 s12,
    Fenwick.update fuel i d1 st = Ok s1
    /\ Fenwick.update fuel j d2 st = Ok s2
    /\ Fenwick.update fuel j d2 s1 = Ok s12
    /\ Fenwick.update fuel i d1 s2 = Ok s12
    /\ (i = j -> Fenwick.update fuel i (d1 +' d2) st = Ok s12).
Proof.
  intros Hh Hi Hj Hd1 Hd2 Hf. pose proof (holds_held st a Hh) as Hb.
  destruct (update_held fuel i d1 st a Hb Hi ltac:(lia)) as (s1 & E1 & Hn1 & Hb1).
  destruct (update_held fuel j d2 st a Hb Hj ltac:(lia)) as (s2 & E2 & Hn2 & Hb2).
  destruct (update_held fuel j d2 s1 _ Hb1 Hj ltac:(lia)) as (s12 & E12 & Hn12 & Hb12).
  destruct (update_held fuel i d1 s2 _ Hb2 Hi ltac:(lia)) as (s21 & E21 & Hn21 & Hb21).
  destruct (update_held fuel i (d1 +' d2) st a Hb Hi ltac:(lia)) as (s3 & E3 & Hn3 & Hb3).
  exists s1, s2, s12. do 3 (split; [done|]). split.
  - rewrite E21. f_equal. apply (held_bit_unique s12 s21 _ _ Hb12 Hb21); [lia|].
    intros k Hk. unfold range_add.
    destruct ((i <=? k) && (k <=? i)), ((j <=? k) && (k <=? j)); f_equal; lia.
  - intros ->. rewrite E3. f_equal. apply (held_bit_unique s12 s3 _ _ Hb12 Hb3); [lia|].
    intros k Hk. unfold range_add. destruct ((j <=? k) && (k <=? j)); [|done].
    rewrite wrap_add_r. f_equal. lia.
Qed.

(** X22 (the loops of [update] and [query], lines 197-209).  Both loops are
    logarithmic in [n]: for every index from [0] to [INT_MAX - 1] [update]
    returns within [2 + floor(log2 n)] tests of its loop condition, and so
    does [query] for every valid index; a larger bound gives the same
    result. *)
Theorem X22_bit_logarithmic_loops st a idx v :
  holds st a -> 0 <= idx < int_max ->
  (exists st',
      Fenwick.update (bit_depth (Fenwick.n st)) idx v st = Ok st'
      /\ forall fuel, (bit_depth (Fenwick.n st) <= fuel)%nat ->
           Fenwick.update fuel idx v st = Ok st')
  /\ (idx < Fenwick.n st ->
      forall fuel, (bit_depth (Fenwick.n st) <= fuel)%nat ->
        Fenwick.query fuel idx st = Ok (wrap (range_sum a 0 idx))).
Proof.
  intros Hh Hidx. destruct (holds_held st a Hh) as (u & Hs & Hu & Hlt).
  pose proof Hs as (Hnm & _). pose proof (holds_BInv u a Hu) as Hinv.
  pose proof (Ideal.BInv_n _ _ Hinv) as Hn. rewrite Hnm in *.
  pose proof (bit_depth_fits (Fenwick.n u) (idx + 1) Hn ltac:(lia)) as Hfit.
  split.
  - set (F := Nat.max (bit_depth (Fenwick.n u)) (S (Z.to_nat (Fenwick.n u)))).
    destruct (update_spec u a F idx v Hinv) as (u' & E & _); [lia|unfold F; lia|].
    assert (UFenwick.update (bit_depth (Fenwick.n u)) idx v u = Ok u') as Ed.
    { rewrite <- E. unfold UFenwick.update, bit_depth.
      apply update_loop_depth; [lia|done|unfold F, bit_depth; lia]. }
    destruct (sim_update _ idx v u st u' Hs Hidx ltac:(lia) Ed) as (m' & Em & _).
    exists m'. split; [done|]. intros fuel Hfuel. unfold Fenwick.update in *.
    by apply (update_loop_more _ fuel _ _ _ _ Hfuel).
  - intros Hlt' fuel Hfuel.
    set (F := Nat.max (bit_depth (Fenwick.n u)) (S (S (Z.to_nat idx)))).
    pose proof (query_spec u a F idx Hinv ltac:(lia) ltac:(unfold F; lia)) as E.
    assert (UFenwick.query (bit_depth (Fenwick.n u)) idx u = Ok (range_sum a 0 idx)) as Ed.
    { rewrite <- E. pose proof (lowbit_bound (idx + 1) ltac:(lia)) as Hlb.
      unfold UFenwick.query, bit_depth in *.
      apply query_loop_depth; [right; lia|unfold F, bit_depth; lia]. }
    pose proof (sim_query _ idx u st _ Hs ltac:(lia) Ed) as Em.
    unfold Fenwick.query in *. by apply (query_loop_more _ fuel _ _ _ _ Hfuel).
Qed.

(** ** The two structures side by side *)


(** ** Concrete runs of the further properties *)

(** X24 ([printTree] after [querySum], lines 44-53, 78-93 and 172-178).
    What [printTree] writes shows where additions are pending, so it tells
    whether a [querySum] went before it: on the tree over
    [1, 3, 5, 7, 9, 11, 13, 15] after [updateRange(2, 6, 10)] slot [10],
    the leaf of element [2], is written as [5], and as [15] after
    [querySum(2, 2)]. *)
Theorem X24_printTree_shows_pending_values :
  value_of (run int_max 8 [PrintTree] example_pending)
  = Ok [RPrinted [114; 36; 78; 4; 32; 40; 38; 1; 3; 5; 7; 9; 11; 23; 15]]
  /\ value_of (run int_max 8 [QuerySum 2 2; PrintTree] example_pending)
     = Ok [RValue 15; RPrinted [114; 36; 78; 4; 32; 40; 38; 1; 3; 15; 7; 9; 11; 23; 15]].
Proof. split; vm_compute; reflexivity. Qed.

(** X25 (the arithmetic of [int] in the segment tree, lines 32-131 and
    172-178).  Sums and elements wrap around: over [2147483647, 1]
    [querySum(0, 1)] returns [-2147483648]; over [2147483647, -10] after
    [updateRange(0, 1, 1)] [getCurrentArray] returns [-2147483648, -9];
    over [-2147483648, 5] after [updateRange(0, 1, -1)] [queryMin(0, 0)]
    returns [2147483647]; and over [-2147483648, -2147483648] [printTree]
    writes nothing, as [tree[1]] is [0]. *)
Theorem X25_segment_tree_sums_wrap_around :
  (exists st, AdvancedSegmentTree 2 [2147483647; 1] = Ok (st, [])
              /\ value_of (querySum 2 0 1 st) = Ok (-2147483648))
  /\ (exists st, AdvancedSegmentTree 2 [2147483647; -10] = Ok (st, [])
                 /\ value_of ((updateRange 2 0 1 1 >> getCurrentArray 3 2) st)
                    = Ok [-2147483648; -9])
  /\ (exists st, AdvancedSegmentTree 2 [-2147483648; 5] = Ok (st, [])
                 /\ value_of ((updateRange 2 0 1 (-1) >> queryMin int_max 2 0 0) st)
                    = Ok 2147483647)
  /\ (exists st, AdvancedSegmentTree 2 [-2147483648; -2147483648] = Ok (st, [])
                 /\ value_of (printTree 9 st) = Ok []).
Proof.
  repeat split; (eexists; split; [vm_compute; reflexivity|]); vm_compute; reflexivity.
Qed.

(** X26 (the arithmetic of [int] in the binary indexed tree, lines
    189-213).  Over [2147483647, 1, 5] [query(1)] returns [-2147483648],
    while [rangeQuery(1, 2)] returns [6]; over [0, -2147483648, -1]
    [query(2)] returns [2147483647] and [rangeQuery(3, 0)] returns
    [-2147483647]. *)
Theorem X26_fenwick_sums_wrap_around :
  (exists st, Fenwick.BinaryIndexedTree 4 4 [2147483647; 1; 5] = Ok st
              /\ Fenwick.query 4 1 st = Ok (-2147483648)
              /\ Fenwick.rangeQuery 4 1 2 st = Ok 6)
  /\ (exists st, Fenwick.BinaryIndexedTree 4 4 [0; -2147483648; -1] = Ok st
                 /\ Fenwick.query 4 2 st = Ok 2147483647
                 /\ Fenwick.rangeQuery 4 3 0 st = Ok (-2147483647)).
Proof.
  split; (eexists; split; [vm_compute; reflexivity|]); vm_compute; done.
Qed.

Lemma example_bit_holds : holds example_bit (range_add 2 2 10 (at_index example_arr)).
Proof.
  eapply (holds_update 9 2 10).
  - apply (holds_new 9 9 example_arr); [|vm_compute; reflexivity|vm_compute; reflexivity].
    repeat constructor; vm_compute; discriminate.
  - vm_compute. split; [discriminate|reflexivity].
  - vm_compute. split; discriminate.
  - vm_compute. reflexivity.
Qed.

Lemma example_bit_direct_holds : holds example_bit_direct (at_index example_updated).
Proof.
  apply (holds_new 9 9 example_updated); [|vm_compute; reflexivity|vm_compute; reflexivity].
  repeat constructor; vm_compute; discriminate.
Qed.

Lemma example_edge_reachable T_max : reachable T_max example_edge.
Proof.
  eexists. eapply (tracks_step T_max 2 (UpdateRange 0 1 1) _ _ example_edge).
  - apply (tracks_new T_max 2 [2147483647; -10] _ []);
      [discriminate| |vm_compute; discriminate|vm_compute; reflexivity].
    repeat constructor; vm_compute; discriminate.
  - split; vm_compute; discriminate.
  - vm_compute. reflexivity.
Qed.

Lemma X1_witness :
  elems example_edge 0 = -2147483648
  /\ exists xs st' tr,
       getCurrentArray 3 2 example_edge = Ok (xs, st', tr)
       /\ Z.of_nat (length xs) = n example_edge
       /\ (forall k, 0 <= k < n example_edge -> vget xs k = Some (elems example_edge k))
       /\ n st' = n example_edge
       /\ (forall k, 0 <= k < n example_edge -> elems st' k = elems example_edge k).
Proof.
  split; [reflexivity|].
  apply (X1_getCurrentArray_returns_elements int_max 2 example_edge);
    [apply example_edge_reachable|simpl; lia].
Defined.

Lemma X2_witness :
  exists xs st2,
    value_of (getCurrentArray 9 8 example_pending) = Ok xs
    /\ AdvancedSegmentTree 8 xs = Ok (st2, [])
    /\ n st2 = n example_pending
    /\ forall ops, Forall int_args ops ->
         exists rs rs2,
           value_of (run int_max 8 ops example_pending) = Ok rs
           /\ value_of (run int_max 8 ops st2) = Ok rs2
           /\ returned <$> rs = returned <$> rs2
           /\ (no_print ops -> rs = rs2).
Proof.
  apply (X2_rebuild_from_getCurrentArray int_max 8 example_pending);
    [apply example_pending_reachable|simpl; lia].
Defined.

Lemma X3_witness :
  exists st',
    state_of (updatePoint 8 (-3) 42 example_pending) = Ok st'
    /\ n st' = n example_pending
    /\ (forall k, 0 <= k <= n example_pending - 1 ->
          elems st' k
          = if k =? Z.max 0 (Z.min (n example_pending - 1) (-3)) then 42
            else elems example_pending k)
    /\ (-3 < 0 -> elems st' 0 = 42)
    /\ (n example_pending <= -3 -> elems st' (n example_pending - 1) = 42).
Proof.
  apply (X3_updatePoint_clamps_index int_max 8 example_pending (-3) 42);
    [apply example_pending_reachable|vm_compute; split; discriminate|simpl; lia].
Defined.

Lemma X4_witness :
  (forall l r, r < l \/ r < 0 \/ n example_pending - 1 < l ->
     value_of (queryMin int_max 8 l r example_pending) = Ok int_max)
  /\ (forall k, 0 <= k <= n example_pending - 1 -> elems example_pending k <= int_max ->
        value_of (queryMin int_max 8 k k example_pending) = Ok (elems example_pending k))
  /\ (forall l r, l <= 0 -> n example_pending - 1 <= r ->
        value_of (queryMin int_max 8 l r example_pending)
        = Ok (wrap (range_sum (elems example_pending) 0 (n example_pending - 1))))
  /\ (forall l r, exists st',
        state_of (queryMin int_max 8 l r example_pending) = Ok st'
        /\ n st' = n example_pending
        /\ forall k, 0 <= k <= n example_pending - 1 -> elems st' k = elems example_pending k).
Proof.
  apply (X4_queryMin_special_ranges int_max 8 example_pending);
    [apply example_pending_reachable|simpl; lia].
Defined.

Lemma X5_witness :
  1 <= n example_pending
  /\ Z.of_nat (length (tree example_pending)) = 4 * n example_pending
  /\ Z.of_nat (length (lazy example_pending)) = 4 * n example_pending
  /\ vget (tree example_pending) 0 = Some 0 /\ vget (lazy example_pending) 0 = Some 0
  /\ forall i s e acc, node_at example_pending i s e acc ->
       1 <= i < 4 * n example_pending /\ 0 <= s <= e /\ e <= n example_pending - 1.
Proof. apply (X5_storage_shape int_max example_pending), example_pending_reachable. Defined.

Lemma X6_witness :
  vget (lazy example_wide) 1 = Some 0
  /\ vget (tree example_wide) 1
     = Some (wrap (range_sum (elems example_wide) 0 (n example_wide - 1))).
Proof. apply (X6_root_holds_total int_max example_wide), example_wide_reachable. Defined.

Lemma X7_witness :
  (exists rs rs',
      value_of (run int_max 8 (UpdateRange 2 6 2147483647 :: UpdateRange 2 6 5
                                 :: [QuerySum 0 7; PrintTree]) example_tree)
      = Ok (RUnit :: RUnit :: rs)
      /\ value_of (run int_max 8 (UpdateRange 2 6 (2147483647 +' 5)
                                    :: [QuerySum 0 7; PrintTree]) example_tree)
         = Ok (RUnit :: rs')
      /\ returned <$> rs = returned <$> rs'
      /\ (no_print [QuerySum 0 7; PrintTree] -> rs = rs'))
  /\ (exists rs rs',
        value_of (run int_max 8 (UpdateRange 2 6 2147483647 :: UpdateRange 0 3 5
                                   :: [QuerySum 0 7; PrintTree]) example_tree)
        = Ok (RUnit :: RUnit :: rs)
        /\ value_of (run int_max 8 (UpdateRange 0 3 5 :: UpdateRange 2 6 2147483647
                                      :: [QuerySum 0 7; PrintTree]) example_tree)
           = Ok (RUnit :: RUnit :: rs')
        /\ returned <$> rs = returned <$> rs'
        /\ (no_print [QuerySum 0 7; PrintTree] -> rs = rs')).
Proof.
  apply (X7_updateRange_merges_and_commutes int_max 8 example_tree 2 6 2147483647 5 0 3
           [QuerySum 0 7; PrintTree]);
    [apply example_tree_reachable|simpl; lia|vm_compute; split; discriminate
    |vm_compute; split; discriminate|repeat constructor].
Defined.

Lemma X8_witness :
  exists rs rs',
    value_of (run int_max 8 (UpdateRange 5 2 7 :: [QuerySum 0 7; PrintTree])
                example_pending)
    = Ok (RUnit :: rs)
    /\ value_of (run int_max 8 [QuerySum 0 7; PrintTree] example_pending) = Ok rs'
    /\ returned <$> rs = returned <$> rs'
    /\ (no_print [QuerySum 0 7; PrintTree] -> rs = rs').
Proof.
  apply (X8_updateRange_without_effect int_max 8 example_pending 5 2 7
           [QuerySum 0 7; PrintTree]);
    [apply example_pending_reachable|simpl; lia|vm_compute; split; discriminate
    |repeat constructor|right; left; lia].
Defined.

Lemma X9_witness :
  exists v1 v2,
    value_of (run int_max 3 [QuerySum 0 0; QuerySum (0 + 1) 2; QuerySum 0 2] example_wide)
    = Ok [RValue v1; RValue v2; RValue (v1 +' v2)].
Proof.
  apply (X9_querySum_adjacent_ranges int_max 3 example_wide 0 0 2);
    [apply example_wide_reachable|simpl; lia|lia|lia|simpl; lia].
Defined.

Lemma X10_witness :
  exists x st' tr,
    exec int_max (depth (n example_pending)) (UpdateRange 1 5 3) example_pending
    = Ok (x, st', tr)
    /\ forall fuel, (depth (n example_pending) <= fuel)%nat ->
         exec int_max fuel (UpdateRange 1 5 3) example_pending = Ok (x, st', tr).
Proof.
  apply (X10_logarithmic_depth int_max example_pending (UpdateRange 1 5 3));
    [apply example_pending_reachable|vm_compute; split; discriminate
    |discriminate|discriminate].
Defined.

Lemma X11_witness :
  exists st,
    AdvancedSegmentTree (depth (Z.of_nat (length example_arr))) example_arr = Ok (st, [])
    /\ forall fuel, (depth (Z.of_nat (length example_arr)) <= fuel)%nat ->
         AdvancedSegmentTree fuel example_arr = Ok (st, []).
Proof.
  apply (X11_constructor_depth example_arr);
    [discriminate|repeat constructor; vm_compute; discriminate|vm_compute; discriminate].
Defined.

Lemma X12_witness :
  exists st' tr,
    updateRange 1 0 2 2147483647 example_wide = Ok (tt, st', tr)
    /\ T st' 1 = wrap (T example_wide 1 + 2147483647 * n example_wide)
    /\ L st' 2 = wrap (L example_wide 2 + 2147483647)
    /\ L st' 3 = wrap (L example_wide 3 + 2147483647)
    /\ (forall j, j <> 1 -> T st' j = T example_wide j)
    /\ (forall j, j <> 2 -> j <> 3 -> L st' j = L example_wide j).
Proof.
  apply (X12_full_range_update_is_deferred int_max example_wide 0 2 2147483647);
    [apply example_wide_reachable|simpl; lia|lia|simpl; lia].
Defined.

Lemma X13_witness :
  exists v rs st',
    value_of (querySum 8 3 3 example_pending) = Ok v
    /\ state_of ((let* x := querySum 8 3 3 in
                  updatePoint 8 3 (x +' 10000)) example_pending) = Ok st'
    /\ state_of (updateRange 8 3 3 10000 example_pending) = Ok st'
    /\ value_of (run int_max 8 (QuerySum 3 3 :: UpdatePoint 3 (v +' 10000)
                                  :: [QuerySum 0 7; PrintTree]) example_pending)
       = Ok (RValue v :: RUnit :: rs)
    /\ value_of (run int_max 8 (UpdateRange 3 3 10000 :: [QuerySum 0 7; PrintTree])
                   example_pending)
       = Ok (RUnit :: rs).
Proof.
  apply (X13_read_modify_write int_max 8 example_pending 3 10000
           [QuerySum 0 7; PrintTree]);
    [apply example_pending_reachable|simpl; lia|simpl; lia|vm_compute; split; discriminate
    |repeat constructor].
Defined.

Lemma X14_witness :
  exists out,
    printTree 32 example_pending = Ok (out, example_pending, [])
    /\ Z.of_nat (length out) <= 4 * n example_pending - 1
    /\ (forall k, 0 <= k < Z.of_nat (length out) ->
          vget out k = vget (tree example_pending) (k + 1) /\ vget out k <> Some 0)
    /\ (Z.of_nat (length out) < 4 * n example_pending - 1 ->
          vget (tree example_pending) (Z.of_nat (length out) + 1) = Some 0)
    /\ (out = [] <-> wrap (range_sum (elems example_pending) 0 (n example_pending - 1)) = 0).
Proof.
  apply (X14_printTree_stops_at_zero int_max 32 example_pending);
    [apply example_pending_reachable|simpl; lia].
Defined.

Lemma X15_witness :
  exists st,
    Fenwick.BinaryIndexedTree (S (length example_wide_arr)) (S (length example_wide_arr))
      example_wide_arr = Ok st
    /\ Fenwick.n st = Z.of_nat (length example_wide_arr)
    /\ length (Fenwick.bit st) = S (length example_wide_arr)
    /\ vget (Fenwick.bit st) 0 = Some 0
    /\ forall idx, 0 <= idx < Z.of_nat (length example_wide_arr) ->
         Fenwick.query (S (length example_wide_arr)) idx st
         = Ok (wrap (list_sum (take (Z.to_nat (idx + 1)) example_wide_arr))).
Proof.
  apply (X15_bit_constructor_total example_wide_arr);
    [repeat constructor; vm_compute; discriminate|vm_compute; reflexivity].
Defined.

Lemma X16_witness :
  (forall fuel, Fenwick.update fuel (-1) 5 example_bit = Err OutOfFuel)
  /\ (forall fuel idx, int_min <= idx < -1 ->
        Fenwick.update (S fuel) idx 5 example_bit = Err OutOfBounds)
  /\ (forall fuel idx, Fenwick.n example_bit <= idx < int_max ->
        Fenwick.update (S fuel) idx 5 example_bit = Ok example_bit)
  /\ (forall fuel, Fenwick.update (S fuel) int_max 5 example_bit = Err OutOfBounds).
Proof.
  apply (X16_bit_update_outside example_bit (range_add 2 2 10 (at_index example_arr)) 5),
    example_bit_holds.
Defined.

Lemma X17_witness :
  (forall fuel idx, int_min <= idx < 0 -> Fenwick.query (S fuel) idx example_bit = Ok 0)
  /\ (forall fuel idx, Fenwick.n example_bit <= idx < int_max ->
        Fenwick.query (S fuel) idx example_bit = Err OutOfBounds)
  /\ (forall fuel, Fenwick.query (S fuel) int_max example_bit = Ok 0).
Proof.
  apply (X17_bit_query_outside example_bit (range_add 2 2 10 (at_index example_arr))),
    example_bit_holds.
Defined.

Lemma X18_witness :
  Fenwick.rangeQuery 9 5 1 example_bit
  = Ok (wrap (- range_sum (range_add 2 2 10 (at_index example_arr)) (1 + 1) (5 - 1))).
Proof.
  apply (X18_bit_rangeQuery_inverted 9 example_bit _ 5 1);
    [apply example_bit_holds|simpl; lia|simpl; lia|simpl; lia].
Defined.

Lemma X19_witness :
  vget (Fenwick.bit example_bit) 0 = Some 0
  /\ (forall i, 1 <= i <= Fenwick.n example_bit ->
        vget (Fenwick.bit example_bit) i
        = Some (wrap (range_sum (range_add 2 2 10 (at_index example_arr)) (i - lowbit i) (i - 1))))
  /\ example_bit_direct = example_bit.
Proof.
  apply (X19_bit_canonical example_bit example_bit_direct
           (range_add 2 2 10 (at_index example_arr)) (at_index example_updated));
    [apply example_bit_holds|apply example_bit_direct_holds|reflexivity|].
  intros k Hk. change (Fenwick.n example_bit) with 8 in Hk.
  assert (k = 0 \/ k = 1 \/ k = 2 \/ k = 3 \/ k = 4 \/ k = 5 \/ k = 6 \/ k = 7) as Hc by lia.
  destruct Hc as [->|[->|[->|[->|[->|[->|[->| ->]]]]]]]; reflexivity.
Defined.

Lemma X20_witness :
  exists st1,
    Fenwick.update 9 4 (-2147483648) example_bit = Ok st1
    /\ Fenwick.update 9 4 (wrap (- -2147483648)) st1 = Ok example_bit.
Proof.
  apply (X20_bit_update_undo 9 example_bit (range_add 2 2 10 (at_index example_arr)) 4
           (-2147483648));
    [apply example_bit_holds|vm_compute; split; [discriminate|reflexivity]
    |vm_compute; split; discriminate|simpl; lia].
Defined.

Lemma X21_witness :
  exists s1 s2 s12,
    Fenwick.update 9 4 2147483647 example_bit = Ok s1
    /\ Fenwick.update 9 6 5 example_bit = Ok s2
    /\ Fenwick.update 9 6 5 s1 = Ok s12
    /\ Fenwick.update 9 4 2147483647 s2 = Ok s12
    /\ (4 = 6 -> Fenwick.update 9 4 (2147483647 +' 5) example_bit = Ok s12).
Proof.
  apply (X21_bit_updates_merge_and_commute 9 example_bit
           (range_add 2 2 10 (at_index example_arr)) 4 6 2147483647 5);
    [apply example_bit_holds|vm_compute; split; [discriminate|reflexivity]
    |vm_compute; split; [discriminate|reflexivity]|vm_compute; split; discriminate
    |vm_compute; split; discriminate|simpl; lia].
Defined.

Lemma X22_witness :
  (exists st',
      Fenwick.update (bit_depth (Fenwick.n example_bit)) 4 7 example_bit = Ok st'
      /\ forall fuel, (bit_depth (Fenwick.n example_bit) <= fuel)%nat ->
           Fenwick.update fuel 4 7 example_bit = Ok st')
  /\ (4 < Fenwick.n example_bit ->
      forall fuel, (bit_depth (Fenwick.n example_bit) <= fuel)%nat ->
        Fenwick.query fuel 4 example_bit
        = Ok (wrap (range_sum (range_add 2 2 10 (at_index example_arr)) 0 4))).
Proof.
  apply (X22_bit_logarithmic_loops example_bit (range_add 2 2 10 (at_index example_arr)) 4 7);
    [apply example_bit_holds|vm_compute; split; [discriminate|reflexivity]].
Defined.

